(** * INVERSION: model set-up and partial derivatives, checked against the code

    A shallow embedding of [util/define_models.py] and
    [util/partial_derivatives.py].

    Numbers.  The Python code computes on binary64 floats held in numpy
    arrays.  Here every number is an exact rational ([Q], compared with
    [==]): the development checks the index bookkeeping, the case analysis
    on depth ranges and the closed-form expressions, not rounding.  A numpy
    division by zero yields inf or nan with a warning and raises nothing;
    [Qdiv] yields 0 there.  The formulas proved for dm/ds and dm/dt hold on
    depth ranges where the divisor is positive.

    Errors.  A Python exception is a value of [exn]; a function that can
    raise returns a [result]. *)

From Stdlib Require Import QArith Qround Lqa Lia ZArith String Sorted.
From stdpp Require Import base option list.

Local Open Scope Q_scope.

(** ** Python exceptions and the error monad *)

Inductive exn : Set :=
| IndexError
| ValueError
| OverflowError
| UnboundLocalError.

Inductive result (A : Type) : Type :=
| Ok (a : A)
| Raise (e : exn).
Arguments Ok {A} a.
Arguments Raise {A} e.

#[global] Instance result_ret : MRet result := fun A a => Ok a.
#[global] Instance result_bind : MBind result := fun A B f m =>
  match m with
  | Ok a => f a
  | Raise e => Raise e
  end.

(** [for x in xs: s = body x s], stopping at the first exception. *)
Fixpoint for_ {A S : Type} (xs : list A) (body : A -> S -> result S) (s : S)
  : result S :=
  match xs with
  | [] => Ok s
  | x :: xs' => s' ← body x s; for_ xs' body s'
  end.

(** ** numpy and Python primitives *)

Module Numpy.

Definition Qlt_bool (x y : Q) : bool := negb (Qle_bool y x).

(** [a[k]] for a natural index: numpy raises IndexError out of range. *)
Definition getitem {A} (a : list A) (k : nat) : result A :=
  match a !! k with
  | Some x => Ok x
  | None => Raise IndexError
  end.

(** [a[k]] for a signed index: a negative [k] counts from the end. *)
Definition getitem_signed {A} (a : list A) (k : Z) : result A :=
  if (0 <=? k)%Z then getitem a (Z.to_nat k)
  else if (- Z.of_nat (length a) <=? k)%Z
       then getitem a (Z.to_nat (Z.of_nat (length a) + k))
       else Raise IndexError.

(** [np.sum(a)] and Python's [sum(a)]: the sum from the left, starting at 0. *)
Definition np_sum (a : list Q) : Q := fold_left Qplus a 0.

(** A 2-D array is the list of its rows. *)
Abbreviation matrix := (list (list Q)).

Definition np_zeros (rows cols : nat) : matrix := replicate rows (replicate cols 0).

Definition shape (M : matrix) (rows cols : nat) : Prop :=
  length M = rows /\ Forall (fun row => length row = cols) M.

(** [M[r, c]] read. *)
Definition entry (M : matrix) (r c : nat) : option Q :=
  row ← M !! r; row !! c.

(** [M[r, c] = v]: IndexError when [r] or [c] is out of range. *)
Definition setitem (M : matrix) (r c : nat) (v : Q) : result matrix :=
  match M !! r with
  | Some row =>
      if (c <? length row)%nat then Ok (<[r := <[c := v]> row]> M)
      else Raise IndexError
  | None => Raise IndexError
  end.

(** [np.where(mask)[0]]: the indices at which the mask holds, increasing. *)
Fixpoint where_from (k : nat) (mask : list bool) : list nat :=
  match mask with
  | [] => []
  | b :: mask' =>
      if b then k :: where_from (S k) mask' else where_from (S k) mask'
  end.

Definition np_where (cond : Q -> bool) (a : list Q) : list nat :=
  where_from 0 (map cond a).

(** [np.unique(a)]: the distinct values, sorted. *)
Fixpoint insert_unique (x : Q) (l : list Q) : list Q :=
  match l with
  | [] => [x]
  | y :: l' =>
      if Qeq_bool x y then l
      else if Qle_bool x y then x :: l
      else y :: insert_unique x l'
  end.

Definition np_unique (a : list Q) : list Q := foldr insert_unique [] a.

(** [Series.unique()]: the distinct values in order of first appearance. *)
Definition pd_unique (a : list Q) : list Q :=
  fold_left (fun seen x => if existsb (Qeq_bool x) seen then seen else seen ++ [x])
            a [].

(** [np.diff(a)]. *)
Fixpoint np_diff (a : list Q) : list Q :=
  match a with
  | x :: (y :: _) as a' => (y - x) :: np_diff a'
  | _ => []
  end.

(** [np.interp(x, xp, fp)] for increasing [xp]: [fp[0]] left of the table,
    [fp[-1]] right of it, else on the segment [xp[j] <= x < xp[j+1]]
    the value [slope * (x - xp[j]) + fp[j]].  An empty table is a
    ValueError. *)
Fixpoint interp_scan (x : Q) (pts : list (Q * Q)) : Q :=
  match pts with
  | [] => 0
  | (x0, f0) :: rest =>
      match rest with
      | [] => f0
      | (x1, f1) :: _ =>
          if Qlt_bool x x1
          then if Qeq_bool x0 x then f0
               else (f1 - f0) / (x1 - x0) * (x - x0) + f0
          else interp_scan x rest
      end
  end.

Definition np_interp (x : Q) (xp fp : list Q) : result Q :=
  match zip xp fp with
  | [] => Raise ValueError
  | ((x0, f0) :: _) as pts =>
      if Qlt_bool x x0 then Ok f0 else Ok (interp_scan x pts)
  end.

(** Arrays of one or two dimensions, told apart as numpy tells them. *)
Inductive ndarray : Type :=
| Arr1 (v : list Q)
| Arr2 (M : matrix).

Definition atleast_2d (a : ndarray) : matrix :=
  match a with
  | Arr1 v => [v]
  | Arr2 M => M
  end.

Definition ncols (M : matrix) : nat :=
  match M with
  | [] => 0
  | row :: _ => length row
  end.

Definition same_width (M : matrix) : bool :=
  forallb (fun row => Nat.eqb (length row) (ncols M)) M.

(** [np.vstack((a, b))]: ValueError unless all rows are equally long. *)
Definition np_vstack (a b : ndarray) : result ndarray :=
  let rows := atleast_2d a ++ atleast_2d b in
  if same_width rows then Ok (Arr2 rows) else Raise ValueError.

(** [np.hstack((A, B))] of two 2-D arrays: ValueError unless they have as
    many rows. *)
Definition np_hstack (A B : matrix) : result matrix :=
  if Nat.eqb (length A) (length B) then Ok (zip_with app A B)
  else Raise ValueError.

(** Row vector times matrix: entry [j] is the sum over [k] of
    [v[k] * B[k][j]]. *)
Definition vecmat (v : list Q) (B : matrix) : list Q :=
  fold_left (fun acc xr => zip_with Qplus acc (map (Qmult (fst xr)) (snd xr)))
            (zip v B) (replicate (ncols B) 0).

(** [np.matmul(a, B)] with [B] 2-D: ValueError unless the inner dimensions
    agree; a 1-D [a] gives a 1-D product. *)
Definition np_matmul (a : ndarray) (B : matrix) : result ndarray :=
  match a with
  | Arr1 v =>
      if Nat.eqb (length v) (length B) then Ok (Arr1 (vecmat v B))
      else Raise ValueError
  | Arr2 A =>
      if forallb (fun row => Nat.eqb (length row) (length B)) A
      then Ok (Arr2 (map (fun row => vecmat row B) A))
      else Raise ValueError
  end.

(** Rows and columns of a product, a 1-D array counting as one row. *)
Definition n_rows (a : ndarray) : nat := length (atleast_2d a).
Definition n_cols (a : ndarray) : nat := ncols (atleast_2d a).

End Numpy.
Import Numpy.

(** ** util/define_models.py: the data model *)

Module define_models.

(** [InversionModel]: [vsv] and [thickness] are (n_layers, 1) arrays, kept
    here as lists; [boundary_inds] holds indices into them. *)
Record InversionModel : Type := {
  vsv : list Q;
  thickness : list Q;
  boundary_inds : list nat
}.

(** [SetupModel].  The arrays are lists; [Moho] is the pair (is the Moho a
    boundary of interest, its index or its depth).  The NamedTuple gives
    defaults to the last six fields ([Moho = (True, 0)],
    [min_layer_thickness = 6], ratios 1, 1.75 and 1); a record here names
    every field. *)
Record SetupModel : Type := {
  id : string;
  boundary_depths : list Q;
  boundary_depth_uncertainty : list Q;
  boundary_widths : list Q;
  boundary_vsv : list Q;
  depth_limits : list Q;
  Moho : bool * Q;
  min_layer_thickness : Q;
  vsv_vsh_ratio : Q;
  vpv_vsv_ratio : Q;
  vpv_vph_ratio : Q;
  ref_card_csv_name : string
}.

(** The columns of a model card after [radius], and a card row.  The
    reference card is read from the csv file named in the set-up; the
    functions below take the table that [pd.read_csv] returns. *)
Inductive column : Set :=
| col_rho | col_vpv | col_vsv | col_q_kappa | col_q_mu
| col_vph | col_vsh | col_eta.

Record CardRow : Type := {
  radius : Q;
  value : column -> Q
}.

Abbreviation card := (list CardRow).

(** The reference depth and Vs profiles of [setup_starting_model]: depth in
    km below the last radius, 0.01 km added wherever the next depth is the
    same (and at the last row, where the appended 0 makes the mask true),
    both reversed so that depth increases. *)
Definition ref_profile (ref_model : card) : result (list Q * list Q) :=
  ref_last ← getitem_signed ref_model (-1);
  let ref_depth :=
    map (fun r => (radius ref_last - radius r) * (1 # 1000)) ref_model in
  let ref_vs := map (fun r => value r col_vsv * (1 # 1000)) ref_model in
  let mask := map (fun d => Qeq_bool d 0) (np_diff ref_depth ++ [0]) in
  let ref_depth :=
    zip_with (fun d (b : bool) => if b then d + (1 # 100) else d) ref_depth mask in
  Ok (reverse ref_depth, reverse ref_vs).

(** [int(x // m)] on floats: numpy's floor division by zero is inf or nan,
    which [int] refuses with OverflowError or ValueError. *)
Definition int_floordiv (x m : Q) : result Z :=
  if Qeq_bool m 0
  then if Qeq_bool x 0 then Raise ValueError else Raise OverflowError
  else Ok (Qfloor (x / m)).

(** [for n in range(count): vsv += [vsv[-1] + grad * thick]]. *)
Definition extend_vsv (grad thick : Q) (count : nat) (vsv : list Q)
  : result (list Q) :=
  for_ (seq 0 count) (fun _ vsv =>
    v_last ← getitem_signed vsv (-1);
    Ok (vsv ++ [v_last + grad * thick])) vsv.

(** The state of the loop over the boundaries: the Python lists [vsv],
    [thickness] and [boundary_inds]. *)
Definition build_state : Type := (list Q * list Q * list nat)%type.

(** The body of [for i_b in range(n_bounds)]. *)
Definition boundary_step (setup_model : SetupModel) (i_b : nat)
    (st : build_state) : result build_state :=
  let '(vsv, thickness, boundary_inds) := st in
  vsv_top_layer_i ← getitem (boundary_vsv setup_model) (i_b * 2);
  vsv_base_layer_i ← getitem (boundary_vsv setup_model) (i_b * 2 + 1);
  depth_i ← getitem (boundary_depths setup_model) i_b;
  width_i ← getitem (boundary_widths setup_model) i_b;
  let depth_top_layer_i := depth_i - width_i / 2 in
  let depth_base_layer_i := depth_top_layer_i + width_i in
  uncertainty_i ← getitem (boundary_depth_uncertainty setup_model) i_b;
  let padding := uncertainty_i + min_layer_thickness setup_model in
  let depth_top_layer_i_minus_1 := depth_top_layer_i - padding in
  let depth_base_layer_i_plus_1 := depth_base_layer_i + padding in
  let depth_boundary_above := np_sum thickness in
  let depth_between_boundaries := depth_top_layer_i - depth_boundary_above in
  q ← int_floordiv (depth_top_layer_i_minus_1 - depth_boundary_above)
                   (min_layer_thickness setup_model);
  let n_layers_above := Z.max 1 q in
  let thickness_layers_above :=
    (depth_top_layer_i_minus_1 - depth_boundary_above) / inject_Z n_layers_above in
  v_last ← getitem_signed vsv (-1);
  let vsv_grad_above := (vsv_top_layer_i - v_last) / depth_between_boundaries in
  vsv ← extend_vsv vsv_grad_above thickness_layers_above
                   (Z.to_nat n_layers_above) vsv;
  let vsv := vsv ++ [vsv_top_layer_i; vsv_base_layer_i; vsv_base_layer_i] in
  let thickness :=
    thickness
    ++ (replicate (Z.to_nat n_layers_above) thickness_layers_above
        ++ [depth_top_layer_i - depth_top_layer_i_minus_1]
        ++ [width_i]
        ++ [depth_base_layer_i_plus_1 - depth_base_layer_i]) in
  let boundary_inds := boundary_inds ++ [(length thickness - 3)%nat] in
  Ok (vsv, thickness, boundary_inds).

Definition setup_starting_model (ref_model : card) (setup_model : SetupModel)
  : result InversionModel :=
  let n_bounds := length (boundary_depths setup_model) in
  '(ref_depth, ref_vs) ← ref_profile ref_model;
  depth_limits_0 ← getitem (depth_limits setup_model) 0;
  vsv_0 ← np_interp depth_limits_0 ref_depth ref_vs;
  '(vsv, thickness, boundary_inds) ←
    for_ (seq 0 n_bounds) (boundary_step setup_model)
         ([vsv_0], [depth_limits_0], []);
  depth_limits_1 ← getitem (depth_limits setup_model) 1;
  let depth_to_bottom := depth_limits_1 - np_sum thickness in
  q ← int_floordiv depth_to_bottom (min_layer_thickness setup_model);
  let n_layers_below := Z.max 1 q in
  let thick_layers_below := depth_to_bottom / inject_Z n_layers_below in
  vs_base ← np_interp depth_limits_1 ref_depth ref_vs;
  v_last ← getitem_signed vsv (-1);
  let vsv_grad_below := (vs_base - v_last) / depth_to_bottom in
  vsv ← extend_vsv vsv_grad_below thick_layers_below
                   (Z.to_nat n_layers_below) vsv;
  let thickness :=
    thickness ++ replicate (Z.to_nat n_layers_below) thick_layers_below in
  Ok {| vsv := vsv; thickness := thickness; boundary_inds := boundary_inds |}.

(** 100 km in SI units: the depth range to smooth over. *)
Definition smooth_z : Q := 100 * 1000.

(** [np.interp(x, ref_model['radius'], ref_model[col])]. *)
Definition ref_value_at (x : Q) (ref_model : card) (col : column) : result Q :=
  np_interp x (map radius ref_model) (map (fun r => value r col) ref_model).

(** The value of such an interpolation once the table is known to have a
    row; [ref_values_at] checks that once for all columns. *)
Definition ref_values_at (x : Q) (ref_model : card) : result (column -> Q) :=
  match ref_model with
  | [] => Raise ValueError
  | r0 :: _ =>
      Ok (fun col =>
            if Qlt_bool x (radius r0) then value r0 col
            else interp_scan x (zip (map radius ref_model)
                                    (map (fun r => value r col) ref_model)))
  end.

(** [smoothed_ref_model[col] += (edge - ref_at_edge) * fraction] on one row,
    for every column but the radius. *)
Definition add_offset (edge ref_at_edge : column -> Q) (fraction : Q)
    (r : CardRow) : CardRow :=
  {| radius := radius r;
     value := fun col => value r col + (edge col - ref_at_edge col) * fraction |}.

Definition smooth_to_ref_model_below (ref_model new_model : card)
  : result card :=
  new_first ← getitem new_model 0;
  let base_of_smoothing := radius new_first - smooth_z in
  let unadulterated_ref_model :=
    List.filter (fun r => Qlt_bool (radius r) base_of_smoothing) ref_model in
  let smoothed_ref_model :=
    List.filter (fun r => Qle_bool base_of_smoothing (radius r)
                          && Qlt_bool (radius r) (radius new_first)) ref_model in
  ref_value_at_model_base ← ref_values_at (radius new_first) ref_model;
  let smoothed_ref_model :=
    map (fun r =>
           add_offset (value new_first) ref_value_at_model_base
                      ((radius r - base_of_smoothing) / smooth_z) r)
        smoothed_ref_model in
  Ok (unadulterated_ref_model ++ smoothed_ref_model).

Definition smooth_to_ref_model_above (ref_model new_model : card)
  : result card :=
  new_last ← getitem_signed new_model (-1);
  let top_of_smoothing := radius new_last + smooth_z in
  let unadulterated_ref_model :=
    List.filter (fun r => Qlt_bool top_of_smoothing (radius r)) ref_model in
  let smoothed_ref_model :=
    List.filter (fun r => Qlt_bool (radius new_last) (radius r)
                          && Qle_bool (radius r) top_of_smoothing) ref_model in
  ref_value_at_model_top ← ref_values_at (radius new_last) ref_model;
  let smoothed_ref_model :=
    map (fun r =>
           add_offset (value new_last) ref_value_at_model_top
                      ((top_of_smoothing - radius r) / smooth_z) r)
        smoothed_ref_model in
  Ok (smoothed_ref_model ++ unadulterated_ref_model).

End define_models.
Import define_models.

(** ** util/partial_derivatives.py *)

Module partial_derivatives.

(** A row of the kernel table (a pandas DataFrame): period, wave type,
    card depth and the five Frechet kernels. *)
Record KernelRow : Type := {
  k_period : Q;
  k_type : string;
  k_z : Q;
  k_vsv : Q;
  k_vsh : Q;
  k_vpv : Q;
  k_vph : Q;
  k_eta : Q
}.

Abbreviation kernel_table := (list KernelRow).

(** [kernels.col[kernels.period == period]]. *)
Definition select_period (col : KernelRow -> Q) (kernels : kernel_table)
    (period : Q) : list Q :=
  map col (List.filter (fun r => Qeq_bool (k_period r) period) kernels).

(** The wave type is read from the first row of the whole table
    ([.iloc[0]], IndexError on an empty table).  With a type that is
    neither 'Rayleigh' nor 'Love' no branch binds [vsh], and the final
    [np.hstack] raises UnboundLocalError. *)
Definition _hstack_frechet_kernels (kernels : kernel_table) (period : Q)
  : result (list Q) :=
  let vsv := select_period k_vsv kernels period in
  first_row ← getitem kernels 0;
  if String.eqb (k_type first_row) "Rayleigh" then
    let vsh := map (fun _ => 0) vsv in
    let vpv := select_period k_vpv kernels period in
    let vph := select_period k_vph kernels period in
    let eta := select_period k_eta kernels period in
    Ok (vsv ++ vsh ++ vpv ++ vph ++ eta)
  else if String.eqb (k_type first_row) "Love" then
    let vsh := select_period k_vsh kernels period in
    let vpv := map (fun _ => 0) vsv in
    let vph := map (fun _ => 0) vsv in
    let eta := map (fun _ => 0) vsv in
    Ok (vsv ++ vsh ++ vpv ++ vph ++ eta)
  else Raise UnboundLocalError.

(** One 1-D row for the first period, every further period stacked below. *)
Definition _build_MINEOS_G_matrix (kernels : kernel_table) : result ndarray :=
  let periods := np_unique (map k_period kernels) in
  period_0 ← getitem periods 0;
  row_0 ← _hstack_frechet_kernels kernels period_0;
  for_ (seq 1 (length periods - 1)) (fun i_p G_Rayleigh =>
    period ← getitem periods i_p;
    row ← _hstack_frechet_kernels kernels period;
    np_vstack G_Rayleigh (Arr1 row)) (Arr1 row_0).

Definition _convert_kernels_d_shallowerm_by_d_s
    (model : InversionModel) (i : nat) (depth : list Q) (dm_ds_mat : matrix)
  : result matrix :=
  let y_i_minus_1 := np_sum (take i (thickness model)) in
  let y_i := np_sum (take (i + 1) (thickness model)) in
  let d_inds :=
    np_where (fun z => Qlt_bool y_i_minus_1 z && Qle_bool z y_i) depth in
  for_ d_inds (fun i_d M =>
    z ← getitem depth i_d;
    th ← getitem (thickness model) i;
    setitem M i_d i ((z - y_i_minus_1) / th)) dm_ds_mat.

Definition _convert_kernels_d_deeperm_by_d_s
    (model : InversionModel) (i : nat) (depth : list Q) (dm_ds_mat : matrix)
  : result matrix :=
  let y_i := np_sum (take (i + 1) (thickness model)) in
  let y_i_plus_1 := np_sum (take (i + 2) (thickness model)) in
  let d_inds :=
    np_where (fun z => Qle_bool y_i z && Qlt_bool z y_i_plus_1) depth in
  for_ d_inds (fun i_d M =>
    z ← getitem depth i_d;
    th ← getitem (thickness model) (i + 1);
    setitem M i_d i (1 - (z - y_i) / th)) dm_ds_mat.

(** [n_layers = model.vsv.size - 1]; [np.zeros] refuses a negative
    dimension with ValueError. *)
Definition _calculate_dm_ds (model : InversionModel) (depth : list Q)
  : result matrix :=
  match length (vsv model) with
  | O => Raise ValueError
  | S n_layers =>
      let dm_ds_mat := np_zeros (length depth) n_layers in
      dm_ds_mat ← _convert_kernels_d_deeperm_by_d_s model 0 depth dm_ds_mat;
      for_ (seq 1 (n_layers - 1)) (fun i dm_ds_mat =>
        dm_ds_mat ← _convert_kernels_d_shallowerm_by_d_s model i depth dm_ds_mat;
        _convert_kernels_d_deeperm_by_d_s model i depth dm_ds_mat) dm_ds_mat
  end.

Definition _convert_kernels_d_shallowerm_by_d_t
    (model : InversionModel) (i : nat) (depth : list Q) (dm_dt_mat : matrix)
  : result matrix :=
  ib ← getitem (boundary_inds model) i;
  t_i ← getitem (thickness model) ib;
  let y_ib_minus_1 := np_sum (take ib (thickness model)) in
  let y_ib := np_sum (take (ib + 1) (thickness model)) in
  let d_inds :=
    np_where (fun z => Qlt_bool y_ib_minus_1 z && Qlt_bool z y_ib) depth in
  for_ d_inds (fun i_d M =>
    s_ib ← getitem (vsv model) ib;
    s_ib_minus_1 ← getitem_signed (vsv model) (Z.of_nat ib - 1);
    z ← getitem depth i_d;
    setitem M i_d i (- (((s_ib - s_ib_minus_1) * (z - y_ib_minus_1)) / t_i ^ 2)))
    dm_dt_mat.

(** The quotient is computed once, before the rows are selected. *)
Definition _convert_kernels_d_withinboundarym_by_d_t
    (model : InversionModel) (i : nat) (depth : list Q) (dm_dt_mat : matrix)
  : result matrix :=
  ib ← getitem (boundary_inds model) i;
  w_i ← getitem (thickness model) (ib + 1);
  let y_ib := np_sum (take (ib + 1) (thickness model)) in
  let y_ib_plus_1 := np_sum (take (ib + 2) (thickness model)) in
  let d_inds :=
    np_where (fun z => Qle_bool y_ib z && Qlt_bool z y_ib_plus_1) depth in
  s_ib_plus_1 ← getitem (vsv model) (ib + 1);
  s_ib ← getitem (vsv model) ib;
  let v := - ((s_ib_plus_1 - s_ib) / w_i) in
  for_ d_inds (fun i_d M => setitem M i_d i v) dm_dt_mat.

Definition _convert_kernels_d_deeperm_by_d_t
    (model : InversionModel) (i : nat) (depth : list Q) (dm_dt_mat : matrix)
  : result matrix :=
  ib ← getitem (boundary_inds model) i;
  t_i ← getitem (thickness model) ib;
  w_i ← getitem (thickness model) (ib + 1);
  let y_ib_minus_1 := np_sum (take ib (thickness model)) in
  let y_ib_plus_1 := np_sum (take (ib + 2) (thickness model)) in
  let y_ib_plus_2 := np_sum (take (ib + 3) (thickness model)) in
  let d_inds :=
    np_where (fun z => Qle_bool y_ib_plus_1 z && Qlt_bool z y_ib_plus_2) depth in
  for_ d_inds (fun i_d M =>
    s_ib_plus_2 ← getitem (vsv model) (ib + 2);
    s_ib_plus_1 ← getitem (vsv model) (ib + 1);
    z ← getitem depth i_d;
    setitem M i_d i
      ((s_ib_plus_2 - s_ib_plus_1) * (z - y_ib_plus_2)
       / (t_i - (y_ib_plus_2 - y_ib_minus_1 - w_i)) ^ 2))
    dm_dt_mat.

Definition _calculate_dm_dt (model : InversionModel) (depth : list Q)
  : result matrix :=
  let n_bounds := length (boundary_inds model) in
  let dm_dt_mat := np_zeros (length depth) n_bounds in
  for_ (seq 0 n_bounds) (fun i dm_dt_mat =>
    dm_dt_mat ← _convert_kernels_d_shallowerm_by_d_t model i depth dm_dt_mat;
    dm_dt_mat ← _convert_kernels_d_withinboundarym_by_d_t model i depth dm_dt_mat;
    _convert_kernels_d_deeperm_by_d_t model i depth dm_dt_mat) dm_dt_mat.

Definition _convert_to_model_kernels (depth : list Q) (model : InversionModel)
  : result matrix :=
  dm_ds_mat ← _calculate_dm_ds model depth;
  dm_dt_mat ← _calculate_dm_dt model depth;
  np_hstack dm_ds_mat dm_dt_mat.

(** The five blocks, stacked: Vsv, Vsh, Vpv, Vph, Eta. *)
Definition _scale_dvsv_dp_to_other_variables
    (dvsv_dp_mat : matrix) (setup_model : SetupModel) : matrix :=
  dvsv_dp_mat
  ++ map (map (fun x => x / vsv_vsh_ratio setup_model)) dvsv_dp_mat
  ++ map (map (fun x => x * vpv_vsv_ratio setup_model)) dvsv_dp_mat
  ++ map (map (fun x => x * vpv_vsv_ratio setup_model
                        / vpv_vph_ratio setup_model)) dvsv_dp_mat
  ++ map (map (fun _ => 0)) dvsv_dp_mat.

Definition _build_partial_derivatives_matrix (kernels : kernel_table)
    (model : InversionModel) (setup_model : SetupModel) : result ndarray :=
  G_MINEOS ← _build_MINEOS_G_matrix kernels;
  dvsv_dp_mat ← _convert_to_model_kernels (pd_unique (map k_z kernels)) model;
  let dm_dp_mat := _scale_dvsv_dp_to_other_variables dvsv_dp_mat setup_model in
  np_matmul G_MINEOS dm_dp_mat.

End partial_derivatives.
Import partial_derivatives.

(** ** Notions used to state the properties *)

Module Notions.

(** [y_k]: the depth of node [k], the cumulative thickness through it. *)
Definition node_depth (model : InversionModel) (k : nat) : Q :=
  np_sum (take (k + 1) (thickness model)).

(** [s_k] and the thickness of the layer above node [k]. *)
Definition node_vsv (model : InversionModel) (k : nat) : Q :=
  default 0 (vsv model !! k).

Definition layer_thickness (model : InversionModel) (k : nat) : Q :=
  default 0 (thickness model !! k).

(** Lengths agree and every boundary has its base node. *)
Definition well_formed (model : InversionModel) : Prop :=
  length (vsv model) = length (thickness model) /\
  Forall (fun ib => (ib + 1 < length (thickness model))%nat) (boundary_inds model).

(** What the two passes over column [i] of dm/ds leave at a row of depth
    [z]: the deeper pass is the later one and wins where both select. *)
Definition dm_ds_entry (model : InversionModel) (i : nat) (z : Q) : Q :=
  if Qle_bool (node_depth model i) z && Qlt_bool z (node_depth model (i + 1))
  then 1 - (z - node_depth model i) / layer_thickness model (i + 1)
  else if Nat.leb 1 i
          && (Qlt_bool (np_sum (take i (thickness model))) z
              && Qle_bool z (node_depth model i))
       then (z - np_sum (take i (thickness model))) / layer_thickness model i
       else 0.

(** [vsv[ib - 1]], as Python reads it: for [ib = 0] the index -1 is the
    last node. *)
Definition vsv_above (model : InversionModel) (ib : nat) : Q :=
  match getitem_signed (vsv model) (Z.of_nat ib - 1) with
  | Ok v => v
  | Raise _ => 0
  end.

(** What the three passes over the column of the boundary at node [ib]
    leave at a row of depth [z]; a later pass wins where two select. *)
Definition dm_dt_entry (model : InversionModel) (ib : nat) (z : Q) : Q :=
  let t_i := layer_thickness model ib in
  let w_i := layer_thickness model (ib + 1) in
  let y_ib_minus_1 := np_sum (take ib (thickness model)) in
  if Qle_bool (node_depth model (ib + 1)) z
     && Qlt_bool z (node_depth model (ib + 2))
  then (node_vsv model (ib + 2) - node_vsv model (ib + 1))
       * (z - node_depth model (ib + 2))
       / (t_i - (node_depth model (ib + 2) - y_ib_minus_1 - w_i)) ^ 2
  else if Qle_bool (node_depth model ib) z
          && Qlt_bool z (node_depth model (ib + 1))
  then - ((node_vsv model (ib + 1) - node_vsv model ib) / w_i)
  else if Qlt_bool y_ib_minus_1 z && Qlt_bool z (node_depth model ib)
  then - (((node_vsv model ib - vsv_above model ib) * (z - y_ib_minus_1))
          / t_i ^ 2)
  else 0.

(** A kernel table of Rayleigh rows only, and one in which every period
    carries as many rows as there are distinct card depths. *)
Definition rayleigh_only (kernels : kernel_table) : bool :=
  forallb (fun r => String.eqb (k_type r) "Rayleigh") kernels.

Definition complete_table (kernels : kernel_table) : bool :=
  forallb (fun p =>
             Nat.eqb (length (select_period k_vsv kernels p))
                     (length (pd_unique (map k_z kernels))))
          (np_unique (map k_period kernels)).

(** *** Set-up models *)

(** The figures of boundary [i_b] as [setup_starting_model] computes them:
    the depth of its top, its padding, and how far its padded layers reach
    above and below. *)
Definition b_depth (s : SetupModel) (i_b : nat) : Q :=
  default 0 (boundary_depths s !! i_b).
Definition b_width (s : SetupModel) (i_b : nat) : Q :=
  default 0 (boundary_widths s !! i_b).
Definition b_uncertainty (s : SetupModel) (i_b : nat) : Q :=
  default 0 (boundary_depth_uncertainty s !! i_b).

Definition depth_top (s : SetupModel) (i_b : nat) : Q :=
  b_depth s i_b - b_width s i_b / 2.
Definition padding (s : SetupModel) (i_b : nat) : Q :=
  b_uncertainty s i_b + min_layer_thickness s.
Definition reach_above (s : SetupModel) (i_b : nat) : Q :=
  depth_top s i_b - padding s i_b.
Definition reach_below (s : SetupModel) (i_b : nat) : Q :=
  depth_top s i_b + b_width s i_b + padding s i_b.

(** The depth from which the layers above boundary [i_b] are laid: the top
    of the model, or the padded base of the previous boundary. *)
Definition floor_of (s : SetupModel) (i_b : nat) : Q :=
  match i_b with
  | O => default 0 (depth_limits s !! 0%nat)
  | S j => reach_below s j
  end.

(** The thickness given to each layer laid above boundary [i_b]. *)
Definition filler (s : SetupModel) (i_b : nat) : Q :=
  (reach_above s i_b - floor_of s i_b)
  / inject_Z (Z.max 1 (Qfloor ((reach_above s i_b - floor_of s i_b)
                               / min_layer_thickness s))).

(** The arrays of a set-up agree in length, and layers have a thickness. *)
Definition consistent (s : SetupModel) : bool :=
  let n := length (boundary_depths s) in
  Nat.eqb (length (boundary_depth_uncertainty s)) n
  && Nat.eqb (length (boundary_widths s)) n
  && Nat.eqb (length (boundary_vsv s)) (2 * n)
  && Nat.eqb (length (depth_limits s)) 2
  && Qlt_bool 0 (min_layer_thickness s).

(** Boundary [i_b] overlaps what lies above it: its padded top is
    shallower than the padded base of the previous boundary (than the top
    of the model, for the first). *)
Definition overlaps (s : SetupModel) (i_b : nat) : bool :=
  Qlt_bool (reach_above s i_b) (floor_of s i_b).

(** A valid set-up: consistent, widths and uncertainties not negative, no
    boundary overlapping, the last one ending within the depth limits. *)
Definition valid_config (s : SetupModel) : bool :=
  let n := length (boundary_depths s) in
  consistent s
  && forallb (Qle_bool 0) (boundary_widths s)
  && forallb (Qle_bool 0) (boundary_depth_uncertainty s)
  && forallb (fun i_b => negb (overlaps s i_b)) (seq 0 n)
  && Qle_bool (floor_of s n) (default 0 (depth_limits s !! 1%nat)).

(** The invariant of the loop over the boundaries, after [k] of them. *)
Definition build_invariant (s : SetupModel) (k : nat) (st : build_state)
  : Prop :=
  let '(vsv, thickness, boundary_inds) := st in
  length vsv = length thickness /\
  thickness !! 0%nat = depth_limits s !! 0%nat /\
  (1 <= length thickness)%nat /\
  np_sum thickness == floor_of s k /\
  length boundary_inds = k /\
  (forall j ib, boundary_inds !! j = Some ib ->
     (1 <= ib)%nat /\ (ib + 1 < length thickness)%nat /\
     thickness !! (ib + 1)%nat = Some (b_width s j) /\
     vsv !! ib = boundary_vsv s !! (j * 2)%nat /\
     vsv !! (ib + 1)%nat = boundary_vsv s !! (j * 2 + 1)%nat /\
     exists t, thickness !! (ib - 1)%nat = Some t /\ t == filler s j) /\
  (forallb (Qle_bool 0) (boundary_widths s) = true ->
   forallb (Qle_bool 0) (boundary_depth_uncertainty s) = true ->
   (forall j, (j < k)%nat -> overlaps s j = false) ->
   Forall (fun t => 0 <= t) (drop 1 thickness)).

(** *** Splicing into the reference card *)

(** The blend as the specification words it: the fraction of the new
    model's edge value plus the rest of the reference value at the row's own
    radius. *)
Definition spec_blend (fraction edge ref_here : Q) : Q :=
  fraction * edge + (1 - fraction) * ref_here.

(** How an output row [row] of [smooth_to_ref_model_below] relates to the
    reference row [r] it comes from: untouched below the band; in the band,
    the reference value plus the fraction of the offset between the new
    model and the reference card at the edge. *)
Definition spliced_below (new_first : CardRow) (ref_at_edge : column -> Q)
    (r row : CardRow) : Prop :=
  let base := radius new_first - smooth_z in
  radius row = radius r /\
  ((radius r < base /\ forall col, value row col = value r col) \/
   (base <= radius r /\ radius r < radius new_first /\
    forall col,
      value row col
      = value r col + (value new_first col - ref_at_edge col)
                      * ((radius r - base) / smooth_z))).

(** The same for [smooth_to_ref_model_above]. *)
Definition spliced_above (new_last : CardRow) (ref_at_edge : column -> Q)
    (r row : CardRow) : Prop :=
  let top := radius new_last + smooth_z in
  radius row = radius r /\
  ((top < radius r /\ forall col, value row col = value r col) \/
   (radius new_last < radius r /\ radius r <= top /\
    forall col,
      value row col
      = value r col + (value new_last col - ref_at_edge col)
                      * ((top - radius r) / smooth_z))).

(** The sum of [g 0 .. g (k - 1)]. *)
Fixpoint sum_upto (g : nat -> Q) (k : nat) : Q :=
  match k with
  | O => 0
  | S k' => sum_upto g k' + g k'
  end.

End Notions.
Import Notions.

(** ** Notions used to state the further properties *)

Module MoreNotions.

(** The sum of the products of two vectors, term by term, and column [j] of
    a matrix. *)
Fixpoint dot (v c : list Q) : Q :=
  match v, c with
  | x :: v', y :: c' => x * y + dot v' c'
  | _, _ => 0
  end.

Definition matrix_column (j : nat) (M : matrix) : list Q :=
  map (fun row => default 0 (row !! j)) M.

(** The layers that [setup_starting_model] lays for boundary [i_b]: the
    fillers above it, the layer that pins its top, the boundary itself and
    the padding below. *)
Definition filler_count (s : SetupModel) (gap : Q) : nat :=
  Z.to_nat (Z.max 1 (Qfloor (gap / min_layer_thickness s))).

Definition filler_thickness (s : SetupModel) (gap : Q) : Q :=
  gap / inject_Z (Z.max 1 (Qfloor (gap / min_layer_thickness s))).

Definition boundary_layers (s : SetupModel) (i_b : nat) (gap : Q) : list Q :=
  replicate (filler_count s gap) (filler_thickness s gap)
  ++ [depth_top s i_b - reach_above s i_b]
  ++ [b_width s i_b]
  ++ [depth_top s i_b + b_width s i_b + padding s i_b
      - (depth_top s i_b + b_width s i_b)].

(** The gap under the last boundary, down to [depth_limits[1]]. *)
Definition bottom_gap (s : SetupModel) : Q :=
  default 0 (depth_limits s !! 1%nat)
  - floor_of s (length (boundary_depths s)).

(** Where the loop over the boundaries has placed them after [k] turns, and
    what each layer below the first node is. *)
Definition placement_invariant (s : SetupModel) (k : nat) (st : build_state)
  : Prop :=
  let '(vsv, thickness, boundary_inds) := st in
  (1 <= length vsv)%nat /\ (1 <= length thickness)%nat /\
  np_sum thickness == floor_of s k /\
  length boundary_inds = k /\
  (forall j ib, boundary_inds !! j = Some ib ->
     (ib + 1 < length thickness)%nat /\
     np_sum (take (ib + 1) thickness) == depth_top s j /\
     np_sum (take (ib + 2) thickness) == depth_top s j + b_width s j) /\
  (forall p t, (1 <= p)%nat -> thickness !! p = Some t ->
     exists j, (j < k)%nat /\
       (t == filler s j \/ t == padding s j \/
        (t = b_width s j /\ boundary_inds !! j = Some (p - 1)%nat))).

(** The velocities [extend_vsv] appends: each one [step] above the one
    before it, starting from [v]. *)
Fixpoint ramp (v step : Q) (count : nat) : list Q :=
  match count with
  | O => []
  | S n => (v + step) :: ramp (v + step) step n
  end.

(** The velocities laid above boundary [i_b], given the lists so far. *)
Definition filler_velocities (s : SetupModel) (i_b : nat) (vsv thickness : list Q)
  : list Q :=
  ramp (default 0 (last vsv))
       ((default 0 (boundary_vsv s !! (i_b * 2)%nat) - default 0 (last vsv))
        / (depth_top s i_b - np_sum thickness)
        * filler_thickness s (reach_above s i_b - np_sum thickness))
       (filler_count s (reach_above s i_b - np_sum thickness)).

(** The point of the straight line through [(ya, va)] and [(yb, vb)] at
    depth [y]. *)
Definition on_line (ya va yb vb y : Q) : Q :=
  va + (vb - va) * (y - ya) / (yb - ya).

(** The node from which the layers above boundary [j] start: the first
    node, or the node under the padded base of the boundary before. *)
Definition anchor (boundary_inds : list nat) (j : nat) : nat :=
  match j with
  | O => 0
  | S j' => default 0%nat (boundary_inds !! j') + 2
  end.

(** The velocities the loop over the boundaries has set after [k] turns:
    those of the boundaries, and straight lines in depth above each of
    them. *)
Definition gradient_invariant (s : SetupModel) (v0 : Q) (k : nat)
    (st : build_state) : Prop :=
  let '(vsv, thickness, boundary_inds) := st in
  length vsv = length thickness /\
  length thickness = (anchor boundary_inds k + 1)%nat /\
  vsv !! 0%nat = Some v0 /\
  (forall j ib, boundary_inds !! j = Some ib ->
     (anchor boundary_inds j < ib)%nat /\
     vsv !! ib = Some (default 0 (boundary_vsv s !! (j * 2)%nat)) /\
     vsv !! (ib + 1)%nat = Some (default 0 (boundary_vsv s !! (j * 2 + 1)%nat)) /\
     vsv !! (ib + 2)%nat = Some (default 0 (boundary_vsv s !! (j * 2 + 1)%nat)) /\
     (~ depth_top s j == floor_of s j ->
      forall p v va, (anchor boundary_inds j <= p <= ib)%nat ->
        vsv !! p = Some v -> vsv !! anchor boundary_inds j = Some va ->
        v == on_line (floor_of s j) va
                     (depth_top s j) (default 0 (boundary_vsv s !! (j * 2)%nat))
                     (np_sum (take (p + 1) thickness)))).

End MoreNotions.
Import MoreNotions.

(** ** util/define_models.py, continued: the MINEOS card *)

Module NumpyMore.

(** The number of values of [np.arange]: the ceiling of the quotient
    [(stop - start) / step], which numpy computes in binary64.  Numbers are
    exact here, and the rounding of the quotient matters where the exact
    quotient is a whole number, as in 3 / (0.3 / 3): binary64 can give a
    number just over it (30.000000000000004), and the ceiling is then one
    more.  [rounds_up] says whether the quotient comes out over the whole
    number it equals; it has no bearing on a quotient that is no whole
    number, or is not positive. *)
Definition arange_len (rounds_up : bool) (quotient : Q) : nat :=
  Z.to_nat (Qceiling quotient
            + (if rounds_up && Qlt_bool 0 quotient
                  && Qeq_bool quotient (inject_Z (Qfloor quotient))
               then 1 else 0)).

(** [np.arange(start, stop, step)] on floats: [arange_len] values
    [start + i * step], none if that count is not positive.  Where the
    quotient is rounded up the last value is [stop] itself (in binary64, a
    number just over it).  With a zero step the quotient is infinite, or
    undefined when [stop = start], and no length can be computed from it
    (OverflowError, ValueError). *)
Definition np_arange (rounds_up : bool) (start stop step : Q)
  : result (list Q) :=
  if Qeq_bool step 0
  then if Qeq_bool stop start then Raise ValueError else Raise OverflowError
  else Ok (map (fun i => start + inject_Z (Z.of_nat i) * step)
               (seq 0 (arange_len rounds_up ((stop - start) / step)))).

(** [np.cumsum(a)]. *)
Fixpoint cumsum_from (acc : Q) (a : list Q) : list Q :=
  match a with
  | [] => []
  | x :: a' => (acc + x) :: cumsum_from (acc + x) a'
  end.

Definition np_cumsum (a : list Q) : list Q := cumsum_from 0 a.

(** A function that can raise, applied to each element in turn. *)
Fixpoint map_result {A B} (f : A -> result B) (l : list A) : result (list B) :=
  match l with
  | [] => Ok []
  | x :: l' => y ← f x; ys ← map_result f l'; Ok (y :: ys)
  end.

(** [np.interp(x, xp, fp)] for an array [x]: ValueError when the table is
    empty or [xp] and [fp] differ in length. *)
Definition np_interp_array (x xp fp : list Q) : result (list Q) :=
  if Nat.eqb (length xp) 0 then Raise ValueError
  else if negb (Nat.eqb (length xp) (length fp)) then Raise ValueError
  else map_result (fun x_i => np_interp x_i xp fp) x.

(** [a[k]] where [k] may be a float: only a whole number is an index. *)
Definition getitem_number {A} (a : list A) (k : Q) : result A :=
  if Qeq_bool k (inject_Z (Qfloor k)) then getitem_signed a (Qfloor k)
  else Raise IndexError.

End NumpyMore.
Import NumpyMore.

Module mineos_card.

(** [pd.DataFrame({'radius': radius, 'rho': rho, ...})]: row [i] holds
    entry [i] of every column. *)
Definition data_frame (radius rho vpv vsv q_kappa q_mu vph vsh eta : list Q)
  : card :=
  imap (fun i r =>
          {| define_models.radius := r;
             value := fun col =>
               default 0 (match col with
                          | col_rho => rho
                          | col_vpv => vpv
                          | col_vsv => vsv
                          | col_q_kappa => q_kappa
                          | col_q_mu => q_mu
                          | col_vph => vph
                          | col_vsh => vsh
                          | col_eta => eta
                          end !! i) |})
       radius.

(** The index labels of
    [mineos_card_model[(mineos_card_model.vsv == 0) & (mineos_card_model.q_mu == 0)]]. *)
Definition outer_core (mineos_card_model : card) : list nat :=
  where_from 0 (map (fun r => Qeq_bool (value r col_vsv) 0
                              && Qeq_bool (value r col_q_mu) 0)
                    mineos_card_model).

(** The third line of the card file: the number of rows, the index of the
    top of the inner core and that of the top of the outer core.  Without a
    row of the outer core [.iloc[[0]]] is an IndexError. *)
Definition card_header (mineos_card_model : card) : result (nat * nat * nat) :=
  n_inner_core_layers ← getitem (outer_core mineos_card_model) 0;
  last_core_layer ← getitem_signed (outer_core mineos_card_model) (-1);
  Ok (length mineos_card_model, n_inner_core_layers, (last_core_layer + 1)%nat).

(** [convert_inversion_model_to_mineos_model], given the reference card
    that it reads from [setup_model.ref_card_csv_name], and [rounds_up] for
    the count of its [np.arange].  The csv and card files it writes are
    left out; the header of the card file is computed, as the function
    raises where it cannot be.  In [Moho = (True, k)] the number [k] stands
    for the index of the Moho among the boundaries. *)
Definition convert_inversion_model_to_mineos_model (rounds_up : bool)
    (ref_model : card) (inversion_model : InversionModel)
    (setup_model : SetupModel) : result card :=
  ref_last ← getitem_signed ref_model (-1);
  let radius_Earth := radius ref_last * (1 # 1000) in
  depth_limits_0 ← getitem (depth_limits setup_model) 0;
  let radius_model_top := radius_Earth - depth_limits_0 in
  depth_limits_1 ← getitem (depth_limits setup_model) 1;
  let radius_model_base := radius_Earth - depth_limits_1 in
  let step := min_layer_thickness setup_model / 3 in
  radius ← np_arange rounds_up radius_model_base radius_model_top step;
  let radius := radius ++ [radius_model_top] in
  let depth := map (fun r => radius_Earth - r) radius in
  let radius := map (fun r => r * 1000) radius in
  vsv ← np_interp_array depth (np_cumsum (thickness inversion_model))
                        (vsv inversion_model);
  let vsv := map (fun v => v * 1000) vsv in
  let vsh := map (fun v => v / vsv_vsh_ratio setup_model) vsv in
  let vpv := map (fun v => v * vpv_vsv_ratio setup_model) vsv in
  let vph := map (fun v => v / vpv_vph_ratio setup_model) vpv in
  let eta := map (fun _ => 1) vsv in
  q_mu ← map_result (fun r => ref_value_at r ref_model col_q_mu) radius;
  q_kappa ← map_result (fun r => ref_value_at r ref_model col_q_kappa) radius;
  rho ← map_result (fun r => ref_value_at r ref_model col_rho) radius;
  Moho_depth ←
    (if fst (Moho setup_model)
     then Moho_ind ← getitem_number (boundary_inds inversion_model)
                                    (snd (Moho setup_model));
          Ok (np_sum (take (Moho_ind + 1) (thickness inversion_model)))
     else Ok (snd (Moho setup_model)));
  let rho :=
    zip_with (fun d r => if Qle_bool d Moho_depth && Qlt_bool 2900 r
                         then 2900 else r)
             depth rho in
  let new_model := data_frame radius rho vpv vsv q_kappa q_mu vph vsh eta in
  smoothed_below ← smooth_to_ref_model_below ref_model new_model;
  smoothed_above ← smooth_to_ref_model_above ref_model new_model;
  let mineos_card_model := smoothed_below ++ new_model ++ smoothed_above in
  _ ← card_header mineos_card_model;
  Ok mineos_card_model.

End mineos_card.
Import mineos_card.

(** ** Notions used to state the properties of the card *)

Module CardNotions.

Definition ok_or_zero (c : result Q) : Q :=
  match c with
  | Ok v => v
  | Raise _ => 0
  end.

(** The radius of the Earth in km, from the last row of the reference card. *)
Definition radius_Earth_of (ref_model : card) : Q :=
  default 0 (radius <$> last ref_model) * (1 # 1000).

(** The radii, in km, of the rows of the inverted region: from the base up
    in steps of a third of the minimum layer thickness, then the top. *)
Definition card_radii (rounds_up : bool) (ref_model : card) (s : SetupModel)
  : list Q :=
  let top := radius_Earth_of ref_model - default 0 (depth_limits s !! 0%nat) in
  let base := radius_Earth_of ref_model - default 0 (depth_limits s !! 1%nat) in
  let step := min_layer_thickness s / 3 in
  map (fun i => base + inject_Z (Z.of_nat i) * step)
      (seq 0 (arange_len rounds_up ((top - base) / step)))
  ++ [top].

(** The velocity of the inversion model at depth [z], in km/s, and the
    value of a column of the reference card at radius [r]. *)
Definition model_vsv_at (m : InversionModel) (z : Q) : Q :=
  ok_or_zero (np_interp z (np_cumsum (thickness m)) (vsv m)).

Definition ref_at (ref_model : card) (r : Q) (col : column) : Q :=
  ok_or_zero (ref_value_at r ref_model col).

(** The depth of the Moho as the conversion finds it. *)
Definition moho_depth (m : InversionModel) (s : SetupModel) : result Q :=
  if fst (Moho s)
  then Moho_ind ← getitem_number (boundary_inds m) (snd (Moho s));
       Ok (np_sum (take (Moho_ind + 1) (thickness m)))
  else Ok (snd (Moho s)).

(** What the row of radius [r_km] holds in each column, the Moho being
    [md] km deep. *)
Definition card_value (ref_model : card) (m : InversionModel) (s : SetupModel)
    (md r_km : Q) (col : column) : Q :=
  let z := radius_Earth_of ref_model - r_km in
  let r := r_km * 1000 in
  match col with
  | col_vsv => model_vsv_at m z * 1000
  | col_vsh => model_vsv_at m z * 1000 / vsv_vsh_ratio s
  | col_vpv => model_vsv_at m z * 1000 * vpv_vsv_ratio s
  | col_vph => model_vsv_at m z * 1000 * vpv_vsv_ratio s / vpv_vph_ratio s
  | col_eta => 1
  | col_q_mu => ref_at ref_model r col_q_mu
  | col_q_kappa => ref_at ref_model r col_q_kappa
  | col_rho =>
      if Qle_bool z md && Qlt_bool 2900 (ref_at ref_model r col_rho)
      then 2900 else ref_at ref_model r col_rho
  end.

(** A row of the outer core: no shear velocity and no shear attenuation. *)
Definition core_row (r : CardRow) : bool :=
  Qeq_bool (value r col_vsv) 0 && Qeq_bool (value r col_q_mu) 0.

(** The number of steps of a third of the minimum layer thickness between
    the depth limits: [ceil(3 (depth_limits[1] - depth_limits[0]) /
    min_layer_thickness)], and one more where that quotient is a whole
    number and is rounded up.  [grid_count false] is the exact ceiling. *)
Definition grid_count (rounds_up : bool) (s : SetupModel) : nat :=
  arange_len rounds_up ((default 0 (depth_limits s !! 1%nat)
                         - default 0 (depth_limits s !! 0%nat))
                        / (min_layer_thickness s / 3)).

(** What the conversion needs of its inputs to reach the splice: a
    consistent set-up, a reference card with a row, and a model with as many
    velocities as thicknesses, at least one. *)
Definition convertible (ref_model : card) (m : InversionModel)
    (s : SetupModel) : Prop :=
  consistent s = true /\ (1 <= length ref_model)%nat /\
  length (vsv m) = length (thickness m) /\ (1 <= length (thickness m))%nat.

(** The reference card has a row of the outer core more than 100 km under
    the base of the inverted region. *)
Definition has_deep_core (ref_model : card) (s : SetupModel) : Prop :=
  Exists (fun r => core_row r = true /\
                   radius r < (radius_Earth_of ref_model
                               - default 0 (depth_limits s !! 1%nat)) * 1000
                              - smooth_z)
         ref_model.

(** The model with the boundary at node [ib] moved down by [d] km, as
    [_calculate_dm_dt] describes the change of the layer thickness above the
    boundary: the width of the boundary stays, and so do the depths of all
    other nodes, so that the layer under the boundary gives way. *)
Definition move_boundary (m : InversionModel) (ib : nat) (d : Q)
  : InversionModel :=
  {| vsv := vsv m;
     thickness :=
       <[(ib + 2)%nat := layer_thickness m (ib + 2) - d]>
         (<[ib := layer_thickness m ib + d]> (thickness m));
     boundary_inds := boundary_inds m |}.

(** By how much the move changes the thickness of layer [k] and the depth
    of node [k]. *)
Definition thickness_shift (ib : nat) (d : Q) (k : nat) : Q :=
  if Nat.eqb k ib then d else if Nat.eqb k (ib + 2) then - d else 0.

Definition depth_shift (ib : nat) (d : Q) (k : nat) : Q :=
  if Nat.eqb k ib || Nat.eqb k (ib + 1) then d else 0.

(** A table whose abscissae increase. *)
Definition increasing (pts : list (Q * Q)) : Prop :=
  forall i j p q, (i < j)%nat -> pts !! i = Some p -> pts !! j = Some q ->
    fst p < fst q.

End CardNotions.
Import CardNotions.

(** ** util/constraints.py *)

Module constraints.

(** A row of the table of observed phase velocities, and a row of the
    table [_extract_phase_vels] returns, which has the column [std] too. *)
Record PhaseVel : Type := {
  period : Q;
  lat : Q;
  lon : Q;
  ph_vel : Q
}.

Record SurfaceWave : Type := {
  obs : PhaseVel;
  std : Q
}.

(** A data frame of observations: every row with its index label. *)
Abbreviation frame := (list (nat * PhaseVel)).

(** [Series.idxmin()]: the label of the first least value; ValueError on
    an empty series. *)
Fixpoint idxmin_from (best : nat * Q) (s : list (nat * Q)) : nat :=
  match s with
  | [] => fst best
  | (i, v) :: s' =>
      if Qlt_bool v (snd best) then idxmin_from (i, v) s'
      else idxmin_from best s'
  end.

Definition idxmin (s : list (nat * Q)) : result nat :=
  match s with
  | [] => Raise ValueError
  | b :: s' => Ok (idxmin_from b s')
  end.

(** [_find_closest_lat_lon], on the copy of the frame that it is given; the
    warning it prints when the closest row is far away is left out. *)
Definition _find_closest_lat_lon (df : frame) (location : Q * Q) : result nat :=
  let '(lat_0, lon_0) := location in
  let lon_0 := if Qlt_bool 180 lon_0 then lon_0 - 360 else lon_0 in
  let df :=
    map (fun '(i, r) =>
           (i, if Qlt_bool 180 (lon r)
               then {| period := period r; lat := lat r; lon := lon r - 360;
                       ph_vel := ph_vel r |}
               else r)) df in
  let distance_squared :=
    map (fun '(i, r) => (i, (lon r - lon_0) ^ 2 + (lat r - lat_0) ^ 2)) df in
  idxmin distance_squared.

(** pandas raises KeyError where numpy raises the exceptions of [exn]. *)
Inductive pd_result (A : Type) : Type :=
| Frame (a : A)
| KeyError
| Fails (e : exn).
Arguments Frame {A} a.
Arguments KeyError {A}.
Arguments Fails {A} e.

(** [sort_values(by=['period'])], by insertion: the rows it is applied to
    have periods that differ from one another, so that every sort gives
    this order. *)
Fixpoint insert_by_period (r : PhaseVel) (l : list PhaseVel) : list PhaseVel :=
  match l with
  | [] => [r]
  | y :: l' =>
      if Qle_bool (period r) (period y) then r :: l
      else y :: insert_by_period r l'
  end.

Definition sort_values_by_period (l : list PhaseVel) : list PhaseVel :=
  foldr insert_by_period [] l.

(** [abs(x)]. *)
Definition py_abs (x : Q) : Q := if Qlt_bool x 0 then - x else x.

(** The body of the loop over the rows: the standard deviation assumed
    for a period. *)
Definition assumed_std (p : Q) : Q :=
  let spread := py_abs (140 / (140 / 4 + p / 100) - 4) / 2 in
  let std := if Qlt_bool (25 # 1000) spread then spread else 25 # 1000 in
  if Qle_bool p 8 then std * 2 else std.

(** [_extract_phase_vels], given the table of phase velocities (preloaded,
    or as read from the files); the table carries its default index, the
    position of each row.  An empty table leaves a frame without columns,
    which cannot be sorted by period: KeyError. *)
Definition _extract_phase_vels (location : Q * Q) (phv : list PhaseVel)
  : pd_result (list SurfaceWave) :=
  let labelled := imap (fun i r => (i, r)) phv in
  match
    for_ (pd_unique (map period phv)) (fun period_0 surface_waves =>
      ind ← _find_closest_lat_lon
               (List.filter (fun '(_, r) => Qeq_bool (period r) period_0)
                            labelled)
               location;
      row ← getitem phv ind;
      Ok (surface_waves ++ [row])) []
  with
  | Raise e => Fails e
  | Ok [] => KeyError
  | Ok surface_waves =>
      Frame (map (fun row => {| obs := row; std := assumed_std (period row) |})
                 (sort_values_by_period surface_waves))
  end.

(** [int(x)] on a float: towards zero. *)
Definition py_int (x : Q) : Z :=
  if Qle_bool 0 x then Qfloor x else Qceiling x.

(** [get_vels_Crust1].  The files [crust1.bnds] and [crust1.vs] are given
    as [read_bnds] and [read_vs]: what
    [pd.read_csv(file, skiprows=i, nrows=1, header=None).values.flatten()]
    gives for each [i], None when the call raises.  Whatever goes wrong in
    reading is caught and the function returns None; the lists are built
    outside of the [try].  The quotients 359.5 and 179.5 of the two grids
    are exact in binary64 and no whole numbers: nothing is rounded up. *)
Definition get_vels_Crust1 (read_bnds read_vs : Z -> option (list Q))
    (location : Q * Q) : result (option (list Q * list Q)) :=
  let '(lat_0, lon_0) := location in
  all_lons ← np_arange false (-179.5) 180 1;
  all_lats ← np_arange false 89.5 (-90) (-1);
  first_lon ← getitem all_lons 0;
  first_lat ← getitem all_lats 0;
  let i :=
    py_int ((lon_0 - first_lon)
            + inject_Z (Qfloor ((first_lat - lat_0) / 1))
              * inject_Z (Z.of_nat (length all_lons))) in
  match read_bnds i, read_vs i with
  | Some cb, Some vs =>
      let thickness := map Qopp (np_diff cb) in
      '(ib, m_t, m_vs) ←
        for_ thickness (fun t '(ib, m_t, m_vs) =>
          if Qlt_bool 0 t
          then v ← getitem vs ib; Ok (S ib, m_t ++ [t], m_vs ++ [v])
          else Ok (S ib, m_t, m_vs)) (0%nat, [0], []);
      v ← getitem vs ib;
      Ok (Some (m_t, m_vs ++ [v]))
  | _, _ => Ok None
  end.

End constraints.

(** ** Notions used to state the properties of the constraints *)

Module ConstraintNotions.
Import constraints.

(** A longitude brought under 180 as the code brings it, and the squared
    distance, in degrees, that [_find_closest_lat_lon] compares. *)
Definition wrap_lon (x : Q) : Q := if Qlt_bool 180 x then x - 360 else x.

Definition distance_squared (location : Q * Q) (r : PhaseVel) : Q :=
  (wrap_lon (lon r) - wrap_lon (snd location)) ^ 2
  + (lat r - fst location) ^ 2.

(** Numbers that differ from one another. *)
Definition distinct (l : list Q) : Prop :=
  forall i j a b, (i < j)%nat -> l !! i = Some a -> l !! j = Some b ->
    ~ a == b.

(** The row that the loop of [_extract_phase_vels] keeps for the period
    [p]: a row of the table with that period, as close to the location as
    any other. *)
Definition chosen (location : Q * Q) (phv : list PhaseVel) (p : Q)
    (r : PhaseVel) : Prop :=
  r ∈ phv /\ period r == p /\
  forall r', r' ∈ phv -> period r' == p ->
    distance_squared location r <= distance_squared location r'.

(** The row of the files that [get_vels_Crust1] reads for a location. *)
Definition crust1_row (location : Q * Q) : Z :=
  py_int ((snd location + 179.5)
          + inject_Z (Qfloor (89.5 - fst location)) * 360).

(** The thicknesses that the loop of [get_vels_Crust1] keeps, given the
    differences of the bounds from the position [ib] on, with the positions
    of the layers they belong to. *)
Fixpoint kept_layers (ib : nat) (thickness : list Q) : list (nat * Q) :=
  match thickness with
  | [] => []
  | t :: rest =>
      if Qlt_bool 0 t then (ib, t) :: kept_layers (S ib) rest
      else kept_layers (S ib) rest
  end.

(** Bounds that do not rise from one layer to the next. *)
Definition descending (cb : list Q) : Prop :=
  forall k a b, cb !! k = Some a -> cb !! S k = Some b -> b <= a.

End ConstraintNotions.

(** ** Sample inputs *)

Module Samples.

(** Five nodes at depths 0, 10, 15, 23, 43 km; one boundary with its top
    at node 1. *)
Definition sample_model : InversionModel :=
  {| vsv := [3; 4; 4.5; 4.6; 5];
     thickness := [0; 10; 5; 8; 20];
     boundary_inds := [1%nat] |}.

Definition sample_depth : list Q := [0; 5; 10; 12; 15; 20; 30; 43].

(** A boundary at node 2 whose overlying layer and whose own width are
    both 0 km. *)
Definition degenerate_model : InversionModel :=
  {| vsv := [3; 3.5; 4; 4.5; 4.5; 5];
     thickness := [0; 10; 0; 0; 8; 20];
     boundary_inds := [2%nat] |}.

Definition kernel_row (period z : Q) : KernelRow :=
  {| k_period := period; k_type := "Rayleigh"; k_z := z;
     k_vsv := 2; k_vsh := 0; k_vpv := 1; k_vph := 1; k_eta := 3 |}.

(** Two periods on three card depths. *)
Definition sample_kernels : kernel_table :=
  [ kernel_row 10 0; kernel_row 10 6; kernel_row 10 12;
    kernel_row 20 0; kernel_row 20 6; kernel_row 20 12 ].

(** The set-up of the literal scenario: one boundary at 30 km, 5 km wide,
    uncertain by 2 km, layers of at least 6 km, between 0 and 100 km. *)
Definition scenario_setup : SetupModel :=
  {| id := "scenario";
     boundary_depths := [30];
     boundary_depth_uncertainty := [2];
     boundary_widths := [5];
     boundary_vsv := [4; 4.5];
     depth_limits := [0; 100];
     Moho := (true, 0);
     min_layer_thickness := 6;
     vsv_vsh_ratio := 1;
     vpv_vsv_ratio := 1.75;
     vpv_vph_ratio := 1;
     ref_card_csv_name := "data/earth_models/prem.csv" |}.

(** The same set-up with [vsv_vsh_ratio = 2]. *)
Definition halving_setup : SetupModel :=
  {| id := "halving";
     boundary_depths := [30];
     boundary_depth_uncertainty := [2];
     boundary_widths := [5];
     boundary_vsv := [4; 4.5];
     depth_limits := [0; 100];
     Moho := (true, 0);
     min_layer_thickness := 6;
     vsv_vsh_ratio := 2;
     vpv_vsv_ratio := 1.75;
     vpv_vph_ratio := 1;
     ref_card_csv_name := "data/earth_models/prem.csv" |}.

(** The scenario with the inverted region starting 10 km down. *)
Definition offset_setup : SetupModel :=
  {| id := "offset";
     boundary_depths := [30];
     boundary_depth_uncertainty := [2];
     boundary_widths := [5];
     boundary_vsv := [4; 4.5];
     depth_limits := [10; 100];
     Moho := (true, 0);
     min_layer_thickness := 6;
     vsv_vsh_ratio := 1;
     vpv_vsv_ratio := 1.75;
     vpv_vph_ratio := 1;
     ref_card_csv_name := "data/earth_models/prem.csv" |}.

(** Two boundaries, at 30 and 40 km: the padded top of the second, at
    29.5 km, is shallower than the padded base of the first, at 40.5 km. *)
Definition overlapping_setup : SetupModel :=
  {| id := "overlapping";
     boundary_depths := [30; 40];
     boundary_depth_uncertainty := [2; 2];
     boundary_widths := [5; 5];
     boundary_vsv := [4; 4.5; 4.6; 4.7];
     depth_limits := [0; 100];
     Moho := (true, 0);
     min_layer_thickness := 6;
     vsv_vsh_ratio := 1;
     vpv_vsv_ratio := 1.75;
     vpv_vph_ratio := 1;
     ref_card_csv_name := "data/earth_models/prem.csv" |}.

(** A reference card rising from 0 through 10 at 150 km radius to 40 at
    300 km, and a new model whose deepest row, at 200 km, holds 50. *)
Definition rising_ref : card :=
  [ {| radius := 0; value := fun _ => 0 |};
    {| radius := 150000; value := fun _ => 10 |};
    {| radius := 300000; value := fun _ => 40 |};
    {| radius := 6371000; value := fun _ => 40 |} ].

Definition shallow_new_model : card :=
  [ {| radius := 200000; value := fun _ => 50 |};
    {| radius := 250000; value := fun _ => 50 |} ].

(** A reference card of two rows, from the centre to the surface. *)
Definition sample_ref : card :=
  [ {| radius := 0; value := fun _ => 5000 |};
    {| radius := 6371000; value := fun _ => 3000 |} ].

End Samples.
Import Samples.

Module MoreSamples.

(** Two nodes and a boundary at the second: it has no base node. *)
Definition baseless_model : InversionModel :=
  {| vsv := [3; 4];
     thickness := [0; 10];
     boundary_inds := [1%nat] |}.

(** Two nodes and no boundary. *)
Definition unbounded_model : InversionModel :=
  {| vsv := [3; 4];
     thickness := [0; 10];
     boundary_inds := [] |}.

(** Three velocities for two thicknesses. *)
Definition ragged_model : InversionModel :=
  {| vsv := [3; 4; 5];
     thickness := [0; 10];
     boundary_inds := [] |}.

(** A reference card with an inner core, a fluid outer core from 1221.5 km
    radius, a mantle and a crust. *)
Definition core_ref : card :=
  [ {| radius := 0;
       value := fun col => match col with
                           | col_vsv => 3500 | col_q_mu => 85 | _ => 13000
                           end |};
    {| radius := 1221500;
       value := fun col => match col with
                           | col_vsv => 0 | col_q_mu => 0 | _ => 12000
                           end |};
    {| radius := 3480000;
       value := fun col => match col with
                           | col_vsv => 7000 | col_q_mu => 300 | _ => 5500
                           end |};
    {| radius := 6371000;
       value := fun col => match col with
                           | col_vsv => 3200 | col_q_mu => 600 | _ => 3300
                           end |} ].

(** One period on three card depths. *)
Definition single_period_kernels : kernel_table :=
  [ kernel_row 10 0; kernel_row 10 6; kernel_row 10 12 ].

(** The top 3 km in layers of at least 0.3 km, without a boundary, the
    Moho 1 km deep: the grid of the card has the step 0.1 km, and 3 / 0.1
    is a whole number. *)
Definition shallow_setup : SetupModel :=
  {| id := "shallow";
     boundary_depths := [];
     boundary_depth_uncertainty := [];
     boundary_widths := [];
     boundary_vsv := [];
     depth_limits := [0; 3];
     Moho := (false, 1);
     min_layer_thickness := 0.3;
     vsv_vsh_ratio := 1;
     vpv_vsv_ratio := 1.75;
     vpv_vph_ratio := 1;
     ref_card_csv_name := "data/earth_models/prem.csv" |}.

End MoreSamples.

Module ConstraintSamples.
Import constraints.

(** Phase velocities at three periods, around 35 N, 110 W; the first
    longitude is given east of Greenwich. *)
Definition sample_phv : list PhaseVel :=
  [ {| period := 25; lat := 35; lon := 250; ph_vel := 3.6 |};
    {| period := 8; lat := 37; lon := -110; ph_vel := 3.1 |};
    {| period := 25; lat := 36; lon := -110; ph_vel := 3.7 |};
    {| period := 8; lat := 35; lon := -109; ph_vel := 3.2 |};
    {| period := 60; lat := 35; lon := -110; ph_vel := 4 |} ].

Definition sample_frame : frame := imap (fun i r => (i, r)) sample_phv.

Definition sample_location : Q * Q := (35.2, -109.8).

(** Files with one row, that of the cell centred on 39.5 N, 119.5 W: row
    360 * 50 + 60. *)
Definition sample_cb : list Q := [1.5; 1.5; 1.5; 1.2; 1.2; 1.2; -10; -20; -35].

Definition sample_cvs : list Q := [0; 0; 1.1; 2; 2; 3.5; 3.7; 3.9; 4.5].

Definition sample_bnds (i : Z) : option (list Q) :=
  if (i =? 18060)%Z then Some sample_cb else None.

Definition sample_vs (i : Z) : option (list Q) :=
  if (i =? 18060)%Z then Some sample_cvs else None.

Definition short_vs (i : Z) : option (list Q) :=
  if (i =? 18060)%Z then Some [0; 0; 1.1] else None.

Definition sample_place : Q * Q := (39.2, -119.3).

End ConstraintSamples.
Import MoreSamples.

(** * Proofs *)

(** ** Generic facts: comparisons, sums, loops over selected rows *)

Module Facts.

Lemma Qlt_bool_iff (x y : Q) : Qlt_bool x y = true <-> x < y.
Proof.
  unfold Qlt_bool. rewrite negb_true_iff.
  split.
  - intros H. apply Qnot_le_lt. intros Hle.
    apply Qle_bool_iff in Hle. congruence.
  - intros H. destruct (Qle_bool y x) eqn:E; [|reflexivity].
    apply Qle_bool_iff in E. exfalso. apply (Qlt_not_le _ _ H E).
Qed.

Lemma Qlt_bool_false (x y : Q) : Qlt_bool x y = false <-> y <= x.
Proof.
  unfold Qlt_bool. rewrite negb_false_iff. apply Qle_bool_iff.
Qed.

Lemma Qle_bool_false (x y : Q) : Qle_bool x y = false <-> y < x.
Proof.
  rewrite <- Qlt_bool_iff. unfold Qlt_bool.
  destruct (Qle_bool x y); simpl; split; congruence.
Qed.

(** Turns the boolean range tests of the code into order facts. *)
Ltac order_facts :=
  repeat match goal with
  | H : _ && _ = true |- _ => apply andb_true_iff in H; destruct H
  | H : _ && _ = false |- _ => apply andb_false_iff in H
  | H : Qlt_bool _ _ = true |- _ => apply Qlt_bool_iff in H
  | H : Qlt_bool _ _ = false |- _ => apply Qlt_bool_false in H
  | H : Qle_bool _ _ = true |- _ => apply Qle_bool_iff in H
  | H : Qle_bool _ _ = false |- _ => apply Qle_bool_false in H
  end.

Lemma np_sum_snoc (l : list Q) (x : Q) : np_sum (l ++ [x]) = np_sum l + x.
Proof. unfold np_sum. rewrite fold_left_app. reflexivity. Qed.

Lemma np_sum_take_S (l : list Q) (k : nat) (x : Q) :
  l !! k = Some x -> np_sum (take (S k) l) = np_sum (take k l) + x.
Proof.
  intros H. rewrite (take_S_r _ _ _ H). apply np_sum_snoc.
Qed.

Lemma np_sum_take_ge (l : list Q) (k : nat) :
  (length l <= k)%nat -> np_sum (take k l) = np_sum l.
Proof. intros H. rewrite take_ge; [reflexivity | lia]. Qed.

Lemma fold_left_Qplus_acc (l : list Q) (a : Q) :
  fold_left Qplus l a == a + fold_left Qplus l 0.
Proof.
  revert a. induction l as [|x l IH]; intros a; simpl.
  - ring.
  - rewrite IH. rewrite (IH (0 + x)). ring.
Qed.

Lemma np_sum_cons (x : Q) (l : list Q) : np_sum (x :: l) == x + np_sum l.
Proof.
  unfold np_sum. simpl. rewrite fold_left_Qplus_acc. ring.
Qed.

Lemma np_sum_app (l1 l2 : list Q) : np_sum (l1 ++ l2) == np_sum l1 + np_sum l2.
Proof.
  unfold np_sum. rewrite fold_left_app. apply fold_left_Qplus_acc.
Qed.

Lemma np_sum_replicate (n : nat) (x : Q) :
  np_sum (replicate n x) == inject_Z (Z.of_nat n) * x.
Proof.
  induction n as [|n IH].
  - simpl. unfold np_sum. simpl. ring.
  - rewrite Nat2Z.inj_succ. unfold Z.succ. rewrite inject_Z_plus.
    simpl replicate. rewrite np_sum_cons, IH. simpl inject_Z. ring.
Qed.

(** Membership in [np.where]. *)
Lemma elem_of_where_from (k : nat) (mask : list bool) (r : nat) :
  r ∈ where_from k mask <-> (k <= r)%nat /\ mask !! (r - k)%nat = Some true.
Proof.
  revert k. induction mask as [|b mask IH]; intros k; simpl.
  - split; [intros H; inversion H | intros [_ H]; discriminate].
  - assert (Hshift : forall j, (S k <= j)%nat ->
              (b :: mask) !! (j - k)%nat = mask !! (j - S k)%nat).
    { intros j Hj. replace (j - k)%nat with (S (j - S k)) by lia. reflexivity. }
    destruct b.
    + rewrite elem_of_cons, IH. split.
      * intros [-> | [Hk Hm]].
        -- split; [lia|]. rewrite Nat.sub_diag. reflexivity.
        -- split; [lia|]. rewrite Hshift by lia. exact Hm.
      * intros [Hk Hm]. destruct (decide (r = k)) as [->|Hne]; [by left|].
        right. split; [lia|]. rewrite <- Hshift by lia. exact Hm.
    + rewrite IH. split.
      * intros [Hk Hm]. split; [lia|]. rewrite Hshift by lia. exact Hm.
      * intros [Hk Hm]. destruct (decide (r = k)) as [->|Hne].
        -- rewrite Nat.sub_diag in Hm. discriminate.
        -- split; [lia|]. rewrite <- Hshift by lia. exact Hm.
Qed.

Lemma elem_of_np_where (cond : Q -> bool) (a : list Q) (r : nat) :
  r ∈ np_where cond a <-> exists z, a !! r = Some z /\ cond z = true.
Proof.
  unfold np_where. rewrite elem_of_where_from, Nat.sub_0_r.
  rewrite list_lookup_fmap. split.
  - intros [_ H]. destruct (a !! r) as [z|]; simpl in H; [|discriminate].
    exists z. split; [reflexivity | congruence].
  - intros (z & -> & Hz). split; [lia|]. simpl. by rewrite Hz.
Qed.

Lemma np_where_nil (cond : Q -> bool) (a : list Q) :
  (forall z, cond z = false) -> np_where cond a = [].
Proof.
  intros H. unfold np_where. generalize 0%nat.
  induction a as [|z a IH]; intros k; simpl; [reflexivity|].
  rewrite H. apply IH.
Qed.

(** *** Matrices *)

Lemma shape_zeros (rows cols : nat) : shape (np_zeros rows cols) rows cols.
Proof.
  unfold shape, np_zeros. split.
  - apply length_replicate.
  - apply Forall_forall. intros row Hrow.
    apply elem_of_replicate in Hrow as [-> _]. apply length_replicate.
Qed.

Lemma entry_zeros (rows cols r c : nat) :
  (r < rows)%nat -> (c < cols)%nat -> entry (np_zeros rows cols) r c = Some 0.
Proof.
  intros Hr Hc. unfold entry, np_zeros.
  rewrite lookup_replicate_2 by exact Hr. cbn [mbind option_bind].
  apply lookup_replicate_2. exact Hc.
Qed.

Lemma shape_row (M : matrix) (rows cols r : nat) (row : list Q) :
  shape M rows cols -> M !! r = Some row -> length row = cols.
Proof.
  intros [_ HF] Hr. rewrite Forall_forall in HF. apply HF.
  apply list_elem_of_lookup. eauto.
Qed.

(** One write [M[r, c] = v] into a matrix of known shape. *)
Lemma setitem_spec (M : matrix) (rows cols r c : nat) (v : Q) :
  shape M rows cols -> (r < rows)%nat -> (c < cols)%nat ->
  exists M', setitem M r c v = Ok M' /\ shape M' rows cols /\
    forall r' c', entry M' r' c' =
      if decide (r' = r /\ c' = c) then Some v else entry M r' c'.
Proof.
  intros HS Hr Hc. destruct HS as [HL HF].
  destruct (lookup_lt_is_Some_2 M r) as [row Hrow]; [lia|].
  assert (length row = cols) as Hlen by (eapply shape_row; [split|]; eauto).
  unfold setitem. rewrite Hrow.
  destruct (Nat.ltb_spec c (length row)) as [_|Hge]; [|lia].
  eexists. split; [reflexivity|]. split.
  - split.
    + rewrite length_insert. exact HL.
    + apply Forall_insert; [exact HF|]. rewrite length_insert. exact Hlen.
  - intros r' c'. unfold entry.
    destruct (decide (r' = r)) as [->|Hne].
    + rewrite list_lookup_insert_eq by lia. simpl.
      destruct (decide (c' = c)) as [->|Hnc].
      * rewrite list_lookup_insert_eq by lia.
        rewrite decide_True; [reflexivity | done].
      * rewrite list_lookup_insert_ne by done.
        rewrite decide_False by (intros [_ ?]; done).
        rewrite Hrow. reflexivity.
    + rewrite list_lookup_insert_ne by done.
      rewrite decide_False by (intros [? _]; done). reflexivity.
Qed.

(** A loop writing [val r] at [(r, i)] for each listed row [r]. *)
Lemma for_setitem (val : nat -> Q) (i rows cols : nat) (rs : list nat)
    (M : matrix) :
  shape M rows cols -> (i < cols)%nat -> Forall (fun r => (r < rows)%nat) rs ->
  exists M', for_ rs (fun r M => setitem M r i (val r)) M = Ok M' /\
    shape M' rows cols /\
    forall r c, entry M' r c =
      if decide (c = i /\ r ∈ rs) then Some (val r) else entry M r c.
Proof.
  intros HS Hi HF. revert M HS.
  induction HF as [|r0 rs Hr0 HF IH]; intros M HS.
  - exists M. split; [reflexivity|]. split; [exact HS|].
    intros r c. rewrite decide_False; [reflexivity|].
    intros [_ H]. inversion H.
  - destruct (setitem_spec M rows cols r0 i (val r0) HS Hr0 Hi)
      as (M1 & HM1 & HS1 & HE1).
    destruct (IH M1 HS1) as (M' & HM' & HS' & HE').
    exists M'. split; [simpl; rewrite HM1; exact HM'|]. split; [exact HS'|].
    intros r c. rewrite HE', HE1.
    destruct (decide (c = i /\ r ∈ rs)) as [[-> Hin]|Hn].
    + rewrite decide_True; [reflexivity|]. split; [done|]. by right.
    + destruct (decide (r = r0 /\ c = i)) as [[-> ->]|Hn'].
      * rewrite decide_True; [reflexivity|]. split; [done|]. by left.
      * rewrite decide_False; [reflexivity|].
        intros [-> Hin]. apply elem_of_cons in Hin as [->|Hin].
        -- apply Hn'. done.
        -- apply Hn. done.
Qed.

Lemma for_ext {A S : Type} (xs : list A) (f g : A -> S -> result S) (s : S) :
  (forall x s, x ∈ xs -> f x s = g x s) -> for_ xs f s = for_ xs g s.
Proof.
  revert s. induction xs as [|x xs IH]; intros s H; simpl; [reflexivity|].
  rewrite (H x s) by (by left).
  destruct (g x s) as [s'|e]; simpl; [|reflexivity].
  apply IH. intros y s0 Hy. apply H. by right.
Qed.

(** The loop shape shared by the column-filling functions: select the rows
    whose depth satisfies [cond], write [f depth] there in column [i]. *)
Lemma column_loop (depth : list Q) (i cols : nat) (cond : Q -> bool)
    (f : Q -> Q) (body : nat -> matrix -> result matrix) (M : matrix) :
  shape M (length depth) cols -> (i < cols)%nat ->
  (forall r z M, depth !! r = Some z -> cond z = true ->
     body r M = setitem M r i (f z)) ->
  exists M', for_ (np_where cond depth) body M = Ok M' /\
    shape M' (length depth) cols /\
    forall r c z, depth !! r = Some z ->
      entry M' r c = if Nat.eqb c i && cond z then Some (f z) else entry M r c.
Proof.
  intros HS Hi Hbody.
  set (val := fun r => f (default 0 (depth !! r))).
  rewrite (for_ext _ body (fun r M => setitem M r i (val r))).
  2:{ intros r M0 Hr. apply elem_of_np_where in Hr as (z & Hz & Hc).
      rewrite (Hbody r z M0 Hz Hc). unfold val. rewrite Hz. reflexivity. }
  destruct (for_setitem val i (length depth) cols (np_where cond depth) M HS Hi)
    as (M' & HM' & HS' & HE').
  { apply Forall_forall. intros r Hr.
    apply elem_of_np_where in Hr as (z & Hz & _).
    apply lookup_lt_Some in Hz. exact Hz. }
  exists M'. split; [exact HM'|]. split; [exact HS'|].
  intros r c z Hz. rewrite HE'.
  destruct (Nat.eqb_spec c i) as [->|Hne]; simpl.
  - destruct (cond z) eqn:Hc.
    + rewrite decide_True.
      * unfold val. rewrite Hz. reflexivity.
      * split; [done|]. apply elem_of_np_where. eauto.
    + rewrite decide_False; [reflexivity|].
      intros [_ Hin]. apply elem_of_np_where in Hin as (z' & Hz' & Hc').
      congruence.
  - rewrite decide_False; [reflexivity|]. intros [? _]. done.
Qed.

End Facts.

(** ** dm/ds: the velocity columns *)

Module DmDs.
Import Facts.

Lemma getitem_Some {A} (a : list A) (k : nat) (x : A) :
  a !! k = Some x -> getitem a k = Ok x.
Proof. intros H. unfold getitem. rewrite H. reflexivity. Qed.

Lemma shallower_s_spec (model : InversionModel) (i cols : nat)
    (depth : list Q) (M : matrix) (th : Q) :
  shape M (length depth) cols -> (i < cols)%nat ->
  thickness model !! i = Some th ->
  exists M', _convert_kernels_d_shallowerm_by_d_s model i depth M = Ok M' /\
    shape M' (length depth) cols /\
    forall r c z, depth !! r = Some z ->
      entry M' r c =
        if Nat.eqb c i
           && (Qlt_bool (np_sum (take i (thickness model))) z
               && Qle_bool z (node_depth model i))
        then Some ((z - np_sum (take i (thickness model))) / th)
        else entry M r c.
Proof.
  intros HS Hi Hth. unfold _convert_kernels_d_shallowerm_by_d_s, node_depth.
  apply column_loop; [exact HS | exact Hi |].
  intros r z M0 Hz _. rewrite (getitem_Some _ _ _ Hz), (getitem_Some _ _ _ Hth).
  reflexivity.
Qed.

Lemma deeper_s_spec (model : InversionModel) (i cols : nat)
    (depth : list Q) (M : matrix) (th : Q) :
  shape M (length depth) cols -> (i < cols)%nat ->
  thickness model !! (i + 1)%nat = Some th ->
  exists M', _convert_kernels_d_deeperm_by_d_s model i depth M = Ok M' /\
    shape M' (length depth) cols /\
    forall r c z, depth !! r = Some z ->
      entry M' r c =
        if Nat.eqb c i
           && (Qle_bool (node_depth model i) z
               && Qlt_bool z (node_depth model (i + 1)))
        then Some (1 - (z - node_depth model i) / th)
        else entry M r c.
Proof.
  intros HS Hi Hth. unfold _convert_kernels_d_deeperm_by_d_s, node_depth.
  replace (i + 1 + 1)%nat with (i + 2)%nat by lia.
  apply column_loop; [exact HS | exact Hi |].
  intros r z M0 Hz _. rewrite (getitem_Some _ _ _ Hz), (getitem_Some _ _ _ Hth).
  reflexivity.
Qed.

(** Both passes over one column [i >= 1]. *)
Lemma column_s_spec (model : InversionModel) (i cols : nat)
    (depth : list Q) (M : matrix) :
  shape M (length depth) cols -> (1 <= i < cols)%nat ->
  (i + 1 < length (thickness model))%nat ->
  (forall r z, depth !! r = Some z -> entry M r i = Some 0) ->
  exists M',
    (M1 ← _convert_kernels_d_shallowerm_by_d_s model i depth M;
     _convert_kernels_d_deeperm_by_d_s model i depth M1) = Ok M' /\
    shape M' (length depth) cols /\
    forall r c z, depth !! r = Some z ->
      entry M' r c =
        if Nat.eqb c i then Some (dm_ds_entry model i z) else entry M r c.
Proof.
  intros HS [Hi1 Hi] Hlen Hzero.
  destruct (lookup_lt_is_Some_2 (thickness model) i) as [th Hth]; [lia|].
  destruct (lookup_lt_is_Some_2 (thickness model) (i + 1)) as [th' Hth']; [lia|].
  destruct (shallower_s_spec model i cols depth M th HS Hi Hth)
    as (M1 & HM1 & HS1 & HE1).
  destruct (deeper_s_spec model i cols depth M1 th' HS1 Hi Hth')
    as (M2 & HM2 & HS2 & HE2).
  exists M2. split; [rewrite HM1; exact HM2|]. split; [exact HS2|].
  intros r c z Hz. rewrite (HE2 r c z Hz), (HE1 r c z Hz).
  unfold dm_ds_entry, layer_thickness. rewrite Hth, Hth'. cbn [default from_option].
  destruct (Nat.eqb_spec c i) as [->|Hne]; rewrite ?andb_true_l, ?andb_false_l;
    [|reflexivity].
  destruct (Nat.leb_spec 1 i) as [_|Hlt]; [|lia]. rewrite andb_true_l.
  rewrite (Hzero r z Hz).
  destruct (Qle_bool (node_depth model i) z
            && Qlt_bool z (node_depth model (i + 1))); [reflexivity|].
  destruct (Qlt_bool (np_sum (take i (thickness model))) z
            && Qle_bool z (node_depth model i)); reflexivity.
Qed.

(** The loop over the columns [k .. k + m - 1]. *)
Lemma columns_s_loop (model : InversionModel) (depth : list Q) (cols : nat) :
  forall (m k : nat) (M : matrix),
  (1 <= k)%nat -> (k + m <= cols)%nat ->
  (cols < length (thickness model))%nat ->
  shape M (length depth) cols ->
  (forall r c z, depth !! r = Some z -> (c < cols)%nat ->
     entry M r c = Some (if Nat.ltb c k then dm_ds_entry model c z else 0)) ->
  exists M',
    for_ (seq k m) (fun i M =>
      M1 ← _convert_kernels_d_shallowerm_by_d_s model i depth M;
      _convert_kernels_d_deeperm_by_d_s model i depth M1) M = Ok M' /\
    shape M' (length depth) cols /\
    forall r c z, depth !! r = Some z -> (c < cols)%nat ->
      entry M' r c =
        Some (if Nat.ltb c (k + m) then dm_ds_entry model c z else 0).
Proof.
  induction m as [|m IH]; intros k M Hk Hkm Hlen HS HE.
  - exists M. split; [reflexivity|]. split; [exact HS|].
    rewrite Nat.add_0_r. exact HE.
  - destruct (column_s_spec model k cols depth M HS) as (M1 & HM1 & HS1 & HE1);
      [lia | lia | |].
    { intros r z Hz. rewrite (HE r k z Hz) by lia.
      rewrite (proj2 (Nat.ltb_ge k k)) by lia. reflexivity. }
    destruct (IH (S k) M1) as (M' & HM' & HS' & HE'); [lia | lia | lia | exact HS1 | |].
    { intros r c z Hz Hc. rewrite (HE1 r c z Hz).
      destruct (Nat.eqb_spec c k) as [->|Hne].
      - rewrite (proj2 (Nat.ltb_lt k (S k))) by lia. reflexivity.
      - rewrite (HE r c z Hz Hc).
        destruct (Nat.ltb_spec c k), (Nat.ltb_spec c (S k)); try lia; reflexivity. }
    exists M'. split.
    { cbn [seq for_]. rewrite HM1. exact HM'. }
    split; [exact HS'|].
    intros r c z Hz Hc. rewrite (HE' r c z Hz Hc).
    replace (S k + m)%nat with (k + S m)%nat by lia. reflexivity.
Qed.

(** The whole of [_calculate_dm_ds] on a model of at least two nodes. *)
Lemma calculate_dm_ds_spec (model : InversionModel) (depth : list Q) (nl : nat) :
  length (vsv model) = S nl -> length (thickness model) = S nl ->
  (1 <= nl)%nat ->
  exists M, _calculate_dm_ds model depth = Ok M /\
    shape M (length depth) nl /\
    forall r c z, depth !! r = Some z -> (c < nl)%nat ->
      entry M r c = Some (dm_ds_entry model c z).
Proof.
  intros Hv Ht Hnl. unfold _calculate_dm_ds. rewrite Hv.
  destruct (lookup_lt_is_Some_2 (thickness model) (0 + 1)) as [th Hth]; [lia|].
  destruct (deeper_s_spec model 0 nl depth (np_zeros (length depth) nl) th)
    as (M0 & HM0 & HS0 & HE0); [apply shape_zeros | lia | exact Hth |].
  rewrite HM0. cbn [mbind result_bind].
  destruct (columns_s_loop model depth nl (nl - 1) 1 M0) as (M & HM & HS & HE);
    [lia | lia | lia | exact HS0 | |].
  { intros r c z Hz Hc. rewrite (HE0 r c z Hz).
    rewrite entry_zeros by (first [apply lookup_lt_Some in Hz; exact Hz | exact Hc]).
    unfold dm_ds_entry, layer_thickness.
    destruct (Nat.eqb_spec c 0) as [->|Hne].
    - rewrite Hth. cbn [default from_option Nat.leb Nat.ltb andb].
      destruct (Qle_bool (node_depth model 0) z
                && Qlt_bool z (node_depth model (0 + 1))); reflexivity.
    - destruct (Nat.ltb_spec c 1); [lia | reflexivity]. }
  exists M. split; [exact HM|]. split; [exact HS|].
  intros r c z Hz Hc. rewrite (HE r c z Hz Hc).
  destruct (Nat.ltb_spec c (1 + (nl - 1))); [reflexivity | lia].
Qed.

(** It returns a matrix of the right shape on every model with a node. *)
Lemma calculate_dm_ds_shape (model : InversionModel) (depth : list Q) (nl : nat) :
  length (vsv model) = S nl -> length (thickness model) = S nl ->
  exists M, _calculate_dm_ds model depth = Ok M /\ shape M (length depth) nl.
Proof.
  intros Hv Ht. destruct nl as [|nl].
  - exists (np_zeros (length depth) 0). split; [|apply shape_zeros].
    unfold _calculate_dm_ds. rewrite Hv.
    unfold _convert_kernels_d_deeperm_by_d_s.
    rewrite np_where_nil; [reflexivity|].
    intros z. rewrite !take_ge by lia.
    destruct (Qle_bool (np_sum (thickness model)) z) eqn:E1; [|reflexivity].
    destruct (Qlt_bool z (np_sum (thickness model))) eqn:E2; [|reflexivity].
    order_facts. exfalso. apply (Qlt_not_le _ _ E2 E1).
  - destruct (calculate_dm_ds_spec model depth (S nl) Hv Ht) as (M & HM & HS & _);
      [lia|]. eauto.
Qed.

(** *** Node depths *)

Lemma node_depth_succ (model : InversionModel) (k : nat) (th : Q) :
  thickness model !! (k + 1)%nat = Some th ->
  node_depth model (k + 1) = node_depth model k + th.
Proof.
  intros H. unfold node_depth.
  replace (k + 1 + 1)%nat with (S (k + 1)) by lia.
  apply np_sum_take_S. exact H.
Qed.

Lemma node_depth_pred (model : InversionModel) (i : nat) :
  (1 <= i)%nat -> np_sum (take i (thickness model)) = node_depth model (i - 1).
Proof.
  intros H. unfold node_depth. replace (i - 1 + 1)%nat with i by lia. reflexivity.
Qed.

Lemma layer_thickness_lookup (model : InversionModel) (k : nat) :
  (k < length (thickness model))%nat ->
  thickness model !! k = Some (layer_thickness model k).
Proof.
  intros H. unfold layer_thickness.
  destruct (lookup_lt_is_Some_2 (thickness model) k H) as [th ->]. reflexivity.
Qed.

Lemma increasing_positive (model : InversionModel) (n k : nat) :
  length (thickness model) = n ->
  (forall j, (j + 1 < n)%nat -> node_depth model j < node_depth model (j + 1)) ->
  (k + 1 < n)%nat -> 0 < layer_thickness model (k + 1).
Proof.
  intros Hn Hinc Hk. specialize (Hinc k Hk).
  rewrite (node_depth_succ model k (layer_thickness model (k + 1))) in Hinc
    by (apply layer_thickness_lookup; lia).
  lra.
Qed.

Lemma Qdiv_same (a th : Q) : 0 < th -> a == th -> a / th == 1.
Proof. intros Hth ->. field. lra. Qed.

Lemma Qdiv_zero (a th : Q) : a == 0 -> a / th == 0.
Proof. intros ->. unfold Qdiv. ring. Qed.

(** The value left in column [i] at depth [z], range by range. *)
Lemma dm_ds_entry_ranges (model : InversionModel) (n i : nat) (z : Q) :
  length (thickness model) = n ->
  (forall j, (j + 1 < n)%nat -> node_depth model j < node_depth model (j + 1)) ->
  (i + 2 <= n)%nat ->
  ((1 <= i)%nat ->
   node_depth model (i - 1) < z /\ z <= node_depth model i ->
   dm_ds_entry model i z
   == (z - node_depth model (i - 1)) / layer_thickness model i) /\
  (node_depth model i <= z /\ z < node_depth model (i + 1) ->
   dm_ds_entry model i z
   == 1 - (z - node_depth model i) / layer_thickness model (i + 1)) /\
  (~ ((1 <= i)%nat /\ node_depth model (i - 1) < z /\ z <= node_depth model i) ->
   ~ (node_depth model i <= z /\ z < node_depth model (i + 1)) ->
   dm_ds_entry model i z == 0).
Proof.
  intros Ht Hinc Hi.
  unfold dm_ds_entry.
  destruct (Qle_bool (node_depth model i) z
            && Qlt_bool z (node_depth model (i + 1))) eqn:Edeep.
  - order_facts. split; [|split].
    + intros Hi1 [Hlo Hhi].
      assert (z == node_depth model i) as Heq by lra.
      assert (0 < layer_thickness model i) as Hpos.
      { replace i with (i - 1 + 1)%nat by lia.
        apply (increasing_positive model n); [exact Ht | exact Hinc | lia]. }
      assert (node_depth model i = node_depth model (i - 1) + layer_thickness model i)
        as Hy.
      { replace i with (i - 1 + 1)%nat at 1 3 by lia.
        apply node_depth_succ. replace (i - 1 + 1)%nat with i by lia.
        apply layer_thickness_lookup. lia. }
      rewrite Qdiv_zero by lra. rewrite Hy in Heq.
      rewrite Qdiv_same; [lra | exact Hpos | lra].
    + intros _. reflexivity.
    + intros _ Hn. exfalso. apply Hn. split; assumption.
  - destruct (Nat.leb_spec 1 i) as [Hi1|Hi0]; rewrite ?andb_true_l, ?andb_false_l.
    + rewrite (node_depth_pred model i Hi1).
      destruct (Qlt_bool (node_depth model (i - 1)) z
                && Qle_bool z (node_depth model i)) eqn:Eshal.
      * order_facts. split; [|split].
        -- intros _ _. reflexivity.
        -- intros [Hlo Hhi]. exfalso. destruct Edeep; order_facts; lra.
        -- intros Hn _. exfalso. apply Hn. repeat split; assumption.
      * order_facts. split; [|split].
        -- intros _ [Hlo Hhi]. exfalso. destruct Eshal; order_facts; lra.
        -- intros [Hlo Hhi]. exfalso. destruct Edeep; order_facts; lra.
        -- intros _ _. reflexivity.
    + order_facts. split; [|split].
      * intros Hi1. lia.
      * intros [Hlo Hhi]. exfalso. destruct Edeep; order_facts; lra.
      * intros _ _. reflexivity.
Qed.

(** *** Rows of dm/ds *)

Lemma positive_increasing (model : InversionModel) (n : nat) :
  length (thickness model) = n ->
  Forall (fun t => 0 < t) (drop 1 (thickness model)) ->
  forall j, (j + 1 < n)%nat -> node_depth model j < node_depth model (j + 1).
Proof.
  intros Hn Hpos j Hj.
  destruct (lookup_lt_is_Some_2 (thickness model) (j + 1)) as [th Hth]; [lia|].
  rewrite (node_depth_succ model j th Hth).
  assert (0 < th); [|lra].
  rewrite Forall_forall in Hpos. apply Hpos.
  apply list_elem_of_lookup. exists j. rewrite lookup_drop.
  replace (1 + j)%nat with (j + 1)%nat by lia. exact Hth.
Qed.

Lemma np_sum_tabulated (row : list Q) (g : nat -> Q) :
  (forall c, (c < length row)%nat -> row !! c = Some (g c)) ->
  np_sum row == sum_upto g (length row).
Proof.
  induction row as [|x row IH] using rev_ind; intros H.
  - reflexivity.
  - rewrite np_sum_snoc, length_app. simpl length.
    replace (length row + 1)%nat with (S (length row)) by lia. simpl sum_upto.
    rewrite IH.
    + specialize (H (length row)). rewrite length_app in H. simpl in H.
      rewrite lookup_app_r, Nat.sub_diag in H by lia.
      specialize (H ltac:(lia)). injection H as ->. reflexivity.
    + intros c Hc. rewrite <- (H c) by (rewrite length_app; simpl; lia).
      rewrite lookup_app_l by exact Hc. reflexivity.
Qed.

Lemma dm_ds_entry_bounds (model : InversionModel) (n i : nat) (z : Q) :
  length (thickness model) = n ->
  (forall j, (j + 1 < n)%nat -> node_depth model j < node_depth model (j + 1)) ->
  (i + 2 <= n)%nat ->
  0 <= dm_ds_entry model i z /\ dm_ds_entry model i z <= 1.
Proof.
  intros Ht Hinc Hi.
  destruct (dm_ds_entry_ranges model n i z Ht Hinc Hi) as (H1 & H2 & H3).
  assert (0 < layer_thickness model (i + 1)) as Hpos'
    by (apply (increasing_positive model n); [exact Ht | exact Hinc | lia]).
  assert (node_depth model (i + 1)
          = node_depth model i + layer_thickness model (i + 1)) as Hy'
    by (apply node_depth_succ, layer_thickness_lookup; lia).
  destruct (Qlt_le_dec z (node_depth model i)) as [Hlt|Hge].
  - destruct (Nat.le_gt_cases 1 i) as [Hi1|Hi0].
    + destruct (Qlt_le_dec (node_depth model (i - 1)) z) as [Hin|Hout].
      * rewrite H1; [|exact Hi1 | split; lra].
        assert (0 < layer_thickness model i) as Hpos.
        { replace i with (i - 1 + 1)%nat by lia.
          apply (increasing_positive model n); [exact Ht | exact Hinc | lia]. }
        assert (node_depth model i
                = node_depth model (i - 1) + layer_thickness model i) as Hy.
        { replace i with (i - 1 + 1)%nat at 1 3 by lia.
          apply node_depth_succ. replace (i - 1 + 1)%nat with i by lia.
          apply layer_thickness_lookup. lia. }
        rewrite Hy in Hlt. split.
        -- apply Qle_shift_div_l; [exact Hpos | lra].
        -- apply Qle_shift_div_r; [exact Hpos | lra].
      * rewrite H3; [lra | intros (_ & ? & _); lra | intros [? _]; lra].
    + rewrite H3; [lra | intros (? & _); lia | intros [? _]; lra].
  - destruct (Qlt_le_dec z (node_depth model (i + 1))) as [Hin|Hout].
    + rewrite H2 by (split; lra). rewrite Hy' in Hin.
      assert (0 <= (z - node_depth model i) / layer_thickness model (i + 1))
        by (apply Qle_shift_div_l; [exact Hpos' | lra]).
      assert ((z - node_depth model i) / layer_thickness model (i + 1) <= 1)
        by (apply Qle_shift_div_r; [exact Hpos' | lra]).
      lra.
    + rewrite H3; [lra | | intros [_ ?]; lra].
      intros (Hi1 & _ & Hle).
      assert (node_depth model i < node_depth model (i + 1)) by (apply Hinc; lia).
      lra.
Qed.

(** The first [k] columns at depth [z]: they sum to 1 down to node
    [k - 1], fall off linearly to node [k], and vanish below. *)
Lemma partition_upto (model : InversionModel) (n : nat) (z : Q) :
  length (thickness model) = n ->
  (forall j, (j + 1 < n)%nat -> node_depth model j < node_depth model (j + 1)) ->
  node_depth model 0 <= z ->
  forall k, (1 <= k)%nat -> (k + 1 <= n)%nat ->
    (z <= node_depth model (k - 1) ->
     sum_upto (fun c => dm_ds_entry model c z) k == 1) /\
    (node_depth model (k - 1) < z /\ z < node_depth model k ->
     sum_upto (fun c => dm_ds_entry model c z) k
     == 1 - (z - node_depth model (k - 1)) / layer_thickness model k) /\
    (node_depth model k <= z ->
     sum_upto (fun c => dm_ds_entry model c z) k == 0).
Proof.
  intros Ht Hinc Hz0 k. induction k as [|k IH]; intros Hk Hkn; [lia|].
  destruct (dm_ds_entry_ranges model n k z Ht Hinc) as (H1 & H2 & H3); [lia|].
  cbn [sum_upto]. replace (S k - 1)%nat with k by lia.
  replace (S k) with (k + 1)%nat by lia.
  assert (node_depth model k < node_depth model (k + 1)) as Hstep
    by (apply Hinc; lia).
  destruct k as [|k'].
  - (* the first column alone *)
    cbn [sum_upto]. split; [|split].
    + intros Hle. rewrite H2 by (split; lra).
      rewrite Qdiv_zero by lra. lra.
    + intros [Hlo Hhi]. rewrite H2 by (split; lra). lra.
    + intros Hge. rewrite H3; [lra | intros (? & _); lia | intros [_ ?]; lra].
  - destruct IH as (I1 & I2 & I3); [lia | lia|].
    replace (S k' - 1)%nat with k' in * by lia.
    assert (node_depth model k' < node_depth model (S k')) as Hprev.
    { replace (S k') with (k' + 1)%nat by lia. apply Hinc. lia. }
    split; [|split].
    + intros Hle.
      destruct (Qlt_le_dec (node_depth model k') z) as [Hin|Hout].
      * destruct (Qlt_le_dec z (node_depth model (S k'))) as [Hin'|Hout'].
        -- rewrite I2 by (split; assumption).
           rewrite H1; [|lia | replace (S k' - 1)%nat with k' by lia; split; lra].
           replace (S k' - 1)%nat with k' by lia. ring.
        -- rewrite I3 by exact Hout'. rewrite H2 by (split; lra).
           rewrite Qdiv_zero by lra. lra.
      * rewrite I1 by exact Hout.
        rewrite H3; [lra | | intros [? _]; lra].
        replace (S k' - 1)%nat with k' by lia. intros (_ & ? & _). lra.
    + intros [Hlo Hhi]. rewrite I3 by lra. rewrite H2 by (split; lra). lra.
    + intros Hge. rewrite I3 by lra.
      rewrite H3; [lra | | intros [_ ?]; lra].
      intros (_ & _ & ?). lra.
Qed.

End DmDs.

(** ** The claims on dm/ds *)

Module DmDsClaims.
Import Facts DmDs.

(** C2.  On a model whose node depths increase strictly, column [i] of
    dm/ds (for [i] up to the last but one node) holds, at a row of card
    depth [z]: [(z - y_{i-1}) / thickness[i]] when [y_{i-1} < z <= y_i]
    (there is no such range for the first node, which has no node above);
    [1 - (z - y_i) / thickness[i+1]] when [y_i <= z < y_{i+1}]; 0 at every
    other depth.  At [z = y_i] both expressions are 1. *)
Theorem dm_ds_column (model : InversionModel) (depth : list Q) (n i : nat) :
  length (vsv model) = n -> length (thickness model) = n ->
  (forall j, (j + 1 < n)%nat -> node_depth model j < node_depth model (j + 1)) ->
  (i + 2 <= n)%nat ->
  exists M, _calculate_dm_ds model depth = Ok M /\
    forall r z, depth !! r = Some z ->
    exists v, entry M r i = Some v /\
      ((1 <= i)%nat ->
       node_depth model (i - 1) < z /\ z <= node_depth model i ->
       v == (z - node_depth model (i - 1)) / layer_thickness model i) /\
      (node_depth model i <= z /\ z < node_depth model (i + 1) ->
       v == 1 - (z - node_depth model i) / layer_thickness model (i + 1)) /\
      (~ ((1 <= i)%nat /\ node_depth model (i - 1) < z /\ z <= node_depth model i) ->
       ~ (node_depth model i <= z /\ z < node_depth model (i + 1)) ->
       v == 0).
Proof.
  intros Hv Ht Hinc Hi.
  destruct n as [|nl]; [lia|].
  destruct (calculate_dm_ds_spec model depth nl Hv Ht) as (M & HM & HS & HE); [lia|].
  exists M. split; [exact HM|].
  intros r z Hz. exists (dm_ds_entry model i z).
  split; [apply HE; [exact Hz | lia]|].
  apply (dm_ds_entry_ranges model (S nl)); assumption.
Qed.

(** C10.  On a model whose thicknesses after the first are all strictly
    positive, the row of dm/ds at a card depth [z] between the first node
    and the last but one node ([y_0 <= z <= y_{n-2}]) has one entry per
    velocity column, every entry lies in [[0, 1]], and the entries sum to
    exactly 1. *)
Theorem dm_ds_row_partition_of_unity (model : InversionModel) (depth : list Q)
    (n : nat) :
  length (vsv model) = n -> length (thickness model) = n -> (2 <= n)%nat ->
  Forall (fun t => 0 < t) (drop 1 (thickness model)) ->
  exists M, _calculate_dm_ds model depth = Ok M /\
    forall r z, depth !! r = Some z ->
      node_depth model 0 <= z -> z <= node_depth model (n - 2) ->
      exists row, M !! r = Some row /\ length row = (n - 1)%nat /\
        Forall (fun v => 0 <= v /\ v <= 1) row /\ np_sum row == 1.
Proof.
  intros Hv Ht Hn Hpos.
  pose proof (positive_increasing model n Ht Hpos) as Hinc.
  destruct n as [|nl]; [lia|].
  destruct (calculate_dm_ds_spec model depth nl Hv Ht) as (M & HM & HS & HE); [lia|].
  exists M. split; [exact HM|].
  intros r z Hz Hlo Hhi.
  destruct (lookup_lt_is_Some_2 M r) as [row Hrow].
  { destruct HS as [-> _]. apply lookup_lt_Some in Hz. exact Hz. }
  assert (length row = nl) as Hlen by (eapply shape_row; eauto).
  assert (forall c, (c < length row)%nat ->
            row !! c = Some (dm_ds_entry model c z)) as Hrowspec.
  { intros c Hc. specialize (HE r c z Hz ltac:(lia)).
    unfold entry in HE. rewrite Hrow in HE. exact HE. }
  exists row. split; [exact Hrow|]. split; [lia|]. split.
  - apply Forall_forall. intros v Hin.
    apply list_elem_of_lookup in Hin as [c Hc].
    assert (c < length row)%nat as Hclt by (apply lookup_lt_Some in Hc; exact Hc).
    rewrite (Hrowspec c Hclt) in Hc. injection Hc as <-.
    apply (dm_ds_entry_bounds model (S nl)); [exact Ht | exact Hinc | lia].
  - rewrite (np_sum_tabulated row (fun c => dm_ds_entry model c z) Hrowspec).
    rewrite Hlen.
    destruct (partition_upto model (S nl) z Ht Hinc Hlo nl) as (P1 & _ & _);
      [lia | lia|].
    apply P1. replace (S nl - 2)%nat with (nl - 1)%nat in Hhi by lia. exact Hhi.
Qed.

End DmDsClaims.

(** ** dm/dt: the boundary columns *)

Module DmDt.
Import Facts DmDs.

Lemma node_vsv_lookup (model : InversionModel) (k : nat) :
  (k < length (vsv model))%nat -> vsv model !! k = Some (node_vsv model k).
Proof.
  intros H. unfold node_vsv.
  destruct (lookup_lt_is_Some_2 (vsv model) k H) as [v ->]. reflexivity.
Qed.

Lemma getitem_signed_above (model : InversionModel) (ib : nat) :
  (ib < length (vsv model))%nat ->
  getitem_signed (vsv model) (Z.of_nat ib - 1) = Ok (vsv_above model ib).
Proof.
  intros H. unfold vsv_above, getitem_signed.
  destruct (Z.leb_spec 0 (Z.of_nat ib - 1)) as [Hpos|Hneg].
  - destruct (lookup_lt_is_Some_2 (vsv model) (Z.to_nat (Z.of_nat ib - 1)))
      as [v Hv]; [lia|].
    rewrite (getitem_Some _ _ _ Hv). reflexivity.
  - destruct (Z.leb_spec (- Z.of_nat (length (vsv model))) (Z.of_nat ib - 1));
      [|lia].
    destruct (lookup_lt_is_Some_2 (vsv model)
                (Z.to_nat (Z.of_nat (length (vsv model)) + (Z.of_nat ib - 1))))
      as [v Hv]; [lia|].
    rewrite (getitem_Some _ _ _ Hv). reflexivity.
Qed.

Lemma vsv_above_pred (model : InversionModel) (ib : nat) :
  (1 <= ib)%nat -> vsv_above model ib = node_vsv model (ib - 1).
Proof.
  intros H. unfold vsv_above, getitem_signed, node_vsv, getitem.
  destruct (Z.leb_spec 0 (Z.of_nat ib - 1)) as [_|Hneg]; [|lia].
  replace (Z.to_nat (Z.of_nat ib - 1)) with (ib - 1)%nat by lia.
  destruct (vsv model !! (ib - 1)%nat); reflexivity.
Qed.

Section Column.
Variable model : InversionModel.
Variables (i ib cols : nat) (depth : list Q).
Hypothesis Hlen : length (vsv model) = length (thickness model).
Hypothesis Hbase : (ib + 1 < length (thickness model))%nat.
Hypothesis Hib : boundary_inds model !! i = Some ib.
Hypothesis Hi : (i < cols)%nat.

Lemma shallower_t_spec (M : matrix) :
  shape M (length depth) cols ->
  exists M', _convert_kernels_d_shallowerm_by_d_t model i depth M = Ok M' /\
    shape M' (length depth) cols /\
    forall r c z, depth !! r = Some z ->
      entry M' r c =
        if Nat.eqb c i
           && (Qlt_bool (np_sum (take ib (thickness model))) z
               && Qlt_bool z (node_depth model ib))
        then Some (- (((node_vsv model ib - vsv_above model ib)
                       * (z - np_sum (take ib (thickness model))))
                      / layer_thickness model ib ^ 2))
        else entry M r c.
Proof.
  intros HS. unfold _convert_kernels_d_shallowerm_by_d_t.
  rewrite (getitem_Some _ _ _ Hib). cbn [mbind result_bind].
  rewrite (getitem_Some _ _ _ (layer_thickness_lookup model ib ltac:(lia))).
  cbn [mbind result_bind].
  apply column_loop; [exact HS | exact Hi |].
  intros r z M0 Hz _.
  rewrite (getitem_Some _ _ _ (node_vsv_lookup model ib ltac:(lia))).
  rewrite (getitem_signed_above model ib ltac:(lia)).
  rewrite (getitem_Some _ _ _ Hz). reflexivity.
Qed.

Lemma within_t_spec (M : matrix) :
  shape M (length depth) cols ->
  exists M', _convert_kernels_d_withinboundarym_by_d_t model i depth M = Ok M' /\
    shape M' (length depth) cols /\
    forall r c z, depth !! r = Some z ->
      entry M' r c =
        if Nat.eqb c i
           && (Qle_bool (node_depth model ib) z
               && Qlt_bool z (node_depth model (ib + 1)))
        then Some (- ((node_vsv model (ib + 1) - node_vsv model ib)
                      / layer_thickness model (ib + 1)))
        else entry M r c.
Proof.
  intros HS. unfold _convert_kernels_d_withinboundarym_by_d_t.
  rewrite (getitem_Some _ _ _ Hib). cbn [mbind result_bind].
  rewrite (getitem_Some _ _ _ (layer_thickness_lookup model (ib + 1) ltac:(lia))).
  cbn [mbind result_bind].
  rewrite (getitem_Some _ _ _ (node_vsv_lookup model (ib + 1) ltac:(lia))).
  cbn [mbind result_bind].
  rewrite (getitem_Some _ _ _ (node_vsv_lookup model ib ltac:(lia))).
  cbn [mbind result_bind].
  unfold node_depth. replace (ib + 1 + 1)%nat with (ib + 2)%nat by lia.
  apply (column_loop depth i cols _
           (fun _ => - ((node_vsv model (ib + 1) - node_vsv model ib)
                        / layer_thickness model (ib + 1))));
    [exact HS | exact Hi |].
  intros r z M0 Hz _. reflexivity.
Qed.

Lemma deeper_t_spec (M : matrix) :
  shape M (length depth) cols ->
  exists M', _convert_kernels_d_deeperm_by_d_t model i depth M = Ok M' /\
    shape M' (length depth) cols /\
    forall r c z, depth !! r = Some z ->
      entry M' r c =
        if Nat.eqb c i
           && (Qle_bool (node_depth model (ib + 1)) z
               && Qlt_bool z (node_depth model (ib + 2)))
        then Some ((node_vsv model (ib + 2) - node_vsv model (ib + 1))
                   * (z - node_depth model (ib + 2))
                   / (layer_thickness model ib
                      - (node_depth model (ib + 2)
                         - np_sum (take ib (thickness model))
                         - layer_thickness model (ib + 1))) ^ 2)
        else entry M r c.
Proof.
  intros HS. unfold _convert_kernels_d_deeperm_by_d_t.
  rewrite (getitem_Some _ _ _ Hib). cbn [mbind result_bind].
  rewrite (getitem_Some _ _ _ (layer_thickness_lookup model ib ltac:(lia))).
  cbn [mbind result_bind].
  rewrite (getitem_Some _ _ _ (layer_thickness_lookup model (ib + 1) ltac:(lia))).
  cbn [mbind result_bind].
  unfold node_depth.
  replace (ib + 1 + 1)%nat with (ib + 2)%nat by lia.
  replace (ib + 2 + 1)%nat with (ib + 3)%nat by lia.
  apply column_loop; [exact HS | exact Hi |].
  intros r z M0 Hz Hc.
  assert (ib + 2 < length (vsv model))%nat as Hin.
  { destruct (Nat.lt_ge_cases (ib + 2) (length (vsv model))) as [H|H]; [exact H|].
    exfalso. rewrite !np_sum_take_ge in Hc by lia.
    order_facts. apply (Qlt_not_le _ _ H1 H0). }
  rewrite (getitem_Some _ _ _ (node_vsv_lookup model (ib + 2) Hin)).
  rewrite (getitem_Some _ _ _ (node_vsv_lookup model (ib + 1) ltac:(lia))).
  rewrite (getitem_Some _ _ _ Hz). reflexivity.
Qed.

End Column.

(** The three passes over the column of one boundary. *)
Lemma boundary_column_spec (model : InversionModel) (i ib cols : nat)
    (depth : list Q) (M : matrix) :
  length (vsv model) = length (thickness model) ->
  (ib + 1 < length (thickness model))%nat ->
  boundary_inds model !! i = Some ib -> (i < cols)%nat ->
  shape M (length depth) cols ->
  (forall r z, depth !! r = Some z -> entry M r i = Some 0) ->
  exists M',
    (M1 ← _convert_kernels_d_shallowerm_by_d_t model i depth M;
     M2 ← _convert_kernels_d_withinboundarym_by_d_t model i depth M1;
     _convert_kernels_d_deeperm_by_d_t model i depth M2) = Ok M' /\
    shape M' (length depth) cols /\
    forall r c z, depth !! r = Some z ->
      entry M' r c =
        if Nat.eqb c i then Some (dm_dt_entry model ib z) else entry M r c.
Proof.
  intros Hlen Hbase Hib Hi HS Hzero.
  destruct (shallower_t_spec model i ib cols depth Hlen Hbase Hib Hi M HS)
    as (M1 & HM1 & HS1 & HE1).
  destruct (within_t_spec model i ib cols depth Hlen Hbase Hib Hi M1 HS1)
    as (M2 & HM2 & HS2 & HE2).
  destruct (deeper_t_spec model i ib cols depth Hlen Hbase Hib Hi M2 HS2)
    as (M3 & HM3 & HS3 & HE3).
  exists M3. split.
  { rewrite HM1. cbn [mbind result_bind]. rewrite HM2. exact HM3. }
  split; [exact HS3|].
  intros r c z Hz.
  rewrite (HE3 r c z Hz), (HE2 r c z Hz), (HE1 r c z Hz).
  unfold dm_dt_entry.
  destruct (Nat.eqb_spec c i) as [->|Hne]; rewrite ?andb_true_l, ?andb_false_l;
    [|reflexivity].
  rewrite (Hzero r z Hz).
  destruct (Qle_bool (node_depth model (ib + 1)) z
            && Qlt_bool z (node_depth model (ib + 2))); [reflexivity|].
  destruct (Qle_bool (node_depth model ib) z
            && Qlt_bool z (node_depth model (ib + 1))); [reflexivity|].
  destruct (Qlt_bool (np_sum (take ib (thickness model))) z
            && Qlt_bool z (node_depth model ib)); reflexivity.
Qed.

(** The loop over the boundaries [k .. k + m - 1]. *)
Lemma boundaries_loop (model : InversionModel) (depth : list Q) :
  well_formed model ->
  forall (m k : nat) (M : matrix),
  (k + m <= length (boundary_inds model))%nat ->
  shape M (length depth) (length (boundary_inds model)) ->
  (forall r c ib z, depth !! r = Some z -> boundary_inds model !! c = Some ib ->
     entry M r c = Some (if Nat.ltb c k then dm_dt_entry model ib z else 0)) ->
  exists M',
    for_ (seq k m) (fun i M =>
      M1 ← _convert_kernels_d_shallowerm_by_d_t model i depth M;
      M2 ← _convert_kernels_d_withinboundarym_by_d_t model i depth M1;
      _convert_kernels_d_deeperm_by_d_t model i depth M2) M = Ok M' /\
    shape M' (length depth) (length (boundary_inds model)) /\
    forall r c ib z, depth !! r = Some z -> boundary_inds model !! c = Some ib ->
      entry M' r c =
        Some (if Nat.ltb c (k + m) then dm_dt_entry model ib z else 0).
Proof.
  intros [Hlen Hbases]. induction m as [|m IH]; intros k M Hkm HS HE.
  - exists M. split; [reflexivity|]. split; [exact HS|].
    rewrite Nat.add_0_r. exact HE.
  - destruct (lookup_lt_is_Some_2 (boundary_inds model) k) as [ib Hib]; [lia|].
    assert (ib + 1 < length (thickness model))%nat as Hbase.
    { rewrite Forall_forall in Hbases. apply Hbases.
      apply list_elem_of_lookup. eauto. }
    destruct (boundary_column_spec model k ib (length (boundary_inds model))
                depth M Hlen Hbase Hib) as (M1 & HM1 & HS1 & HE1);
      [lia | exact HS | |].
    { intros r z Hz. rewrite (HE r k ib z Hz Hib).
      rewrite (proj2 (Nat.ltb_ge k k)) by lia. reflexivity. }
    destruct (IH (S k) M1) as (M' & HM' & HS' & HE'); [lia | exact HS1 | |].
    { intros r c ib' z Hz Hc. rewrite (HE1 r c z Hz).
      destruct (Nat.eqb_spec c k) as [->|Hne].
      - rewrite (proj2 (Nat.ltb_lt k (S k))) by lia.
        assert (ib' = ib) as -> by congruence. reflexivity.
      - rewrite (HE r c ib' z Hz Hc).
        destruct (Nat.ltb_spec c k), (Nat.ltb_spec c (S k)); try lia; reflexivity. }
    exists M'. split.
    { cbn [seq for_]. rewrite HM1. exact HM'. }
    split; [exact HS'|].
    intros r c ib' z Hz Hc. rewrite (HE' r c ib' z Hz Hc).
    replace (S k + m)%nat with (k + S m)%nat by lia. reflexivity.
Qed.

(** [_calculate_dm_dt] returns on every well-formed model, whatever the
    thicknesses are. *)
Lemma calculate_dm_dt_spec (model : InversionModel) (depth : list Q) :
  well_formed model ->
  exists M, _calculate_dm_dt model depth = Ok M /\
    shape M (length depth) (length (boundary_inds model)) /\
    forall r i ib z, depth !! r = Some z -> boundary_inds model !! i = Some ib ->
      entry M r i = Some (dm_dt_entry model ib z).
Proof.
  intros Hwf. unfold _calculate_dm_dt.
  destruct (boundaries_loop model depth Hwf (length (boundary_inds model)) 0
              (np_zeros (length depth) (length (boundary_inds model))))
    as (M & HM & HS & HE); [lia | apply shape_zeros | |].
  { intros r c ib z Hz Hc. rewrite entry_zeros.
    - reflexivity.
    - apply lookup_lt_Some in Hz. exact Hz.
    - apply lookup_lt_Some in Hc. exact Hc. }
  exists M. split; [exact HM|]. split; [exact HS|].
  intros r i ib z Hz Hi. rewrite (HE r i ib z Hz Hi).
  apply lookup_lt_Some in Hi.
  destruct (Nat.ltb_spec i (0 + length (boundary_inds model))); [reflexivity | lia].
Qed.

End DmDt.

(** ** The claims on dm/dt *)

Module DmDtClaims.
Import Facts DmDs DmDt.

(** C1.  For a boundary whose top node [ib = boundary_inds[i]] has a node
    above it, with overlying thickness [t_i = thickness[ib] > 0] and width
    [w_i = thickness[ib+1] > 0], column [i] of dm/dt holds, at a row of card
    depth [z]: [-(s_ib - s_{ib-1}) (z - y_{ib-1}) / t_i^2] for
    [y_{ib-1} < z < y_ib]; the constant [-(s_{ib+1} - s_ib) / w_i] for
    [y_ib <= z < y_{ib+1}];
    [(s_{ib+2} - s_{ib+1}) (z - y_{ib+2}) / (t_i - (y_{ib+2} - y_{ib-1} - w_i))^2]
    for [y_{ib+1} <= z < y_{ib+2}]; and 0 at every other depth. *)
Theorem dm_dt_column (model : InversionModel) (depth : list Q)
    (i ib : nat) (t_i w_i : Q) :
  well_formed model ->
  boundary_inds model !! i = Some ib -> (1 <= ib)%nat ->
  thickness model !! ib = Some t_i ->
  thickness model !! (ib + 1)%nat = Some w_i ->
  0 < t_i -> 0 < w_i ->
  exists M, _calculate_dm_dt model depth = Ok M /\
    forall r z, depth !! r = Some z ->
    exists v, entry M r i = Some v /\
      (node_depth model (ib - 1) < z /\ z < node_depth model ib ->
       v == - (node_vsv model ib - node_vsv model (ib - 1))
            * (z - node_depth model (ib - 1)) / t_i ^ 2) /\
      (node_depth model ib <= z /\ z < node_depth model (ib + 1) ->
       v == - (node_vsv model (ib + 1) - node_vsv model ib) / w_i) /\
      (node_depth model (ib + 1) <= z /\ z < node_depth model (ib + 2) ->
       v == (node_vsv model (ib + 2) - node_vsv model (ib + 1))
            * (z - node_depth model (ib + 2))
            / (t_i - (node_depth model (ib + 2) - node_depth model (ib - 1) - w_i)) ^ 2) /\
      (~ (node_depth model (ib - 1) < z /\ z < node_depth model ib) ->
       ~ (node_depth model ib <= z /\ z < node_depth model (ib + 1)) ->
       ~ (node_depth model (ib + 1) <= z /\ z < node_depth model (ib + 2)) ->
       v == 0).
Proof.
  intros Hwf Hib Hib1 Ht Hw Htpos Hwpos.
  destruct (calculate_dm_dt_spec model depth Hwf) as (M & HM & HS & HE).
  exists M. split; [exact HM|].
  intros r z Hz. exists (dm_dt_entry model ib z).
  split; [apply (HE r i ib z Hz Hib)|].
  assert (node_depth model ib = node_depth model (ib - 1) + t_i) as Hy.
  { replace ib with (ib - 1 + 1)%nat at 1 by lia. apply node_depth_succ.
    replace (ib - 1 + 1)%nat with ib by lia. exact Ht. }
  pose proof (node_depth_succ model ib w_i Hw) as Hy'.
  unfold dm_dt_entry, layer_thickness.
  rewrite Ht, Hw, (vsv_above_pred model ib Hib1), (node_depth_pred model ib Hib1).
  cbn [default from_option Datatypes.id].
  destruct (Qle_bool (node_depth model (ib + 1)) z
            && Qlt_bool z (node_depth model (ib + 2))) eqn:E3;
    [|destruct (Qle_bool (node_depth model ib) z
                && Qlt_bool z (node_depth model (ib + 1))) eqn:E2;
      [|destruct (Qlt_bool (node_depth model (ib - 1)) z
                  && Qlt_bool z (node_depth model ib)) eqn:E1]];
    order_facts; rewrite ?Hy, ?Hy' in *.
  - split; [|split; [|split]].
    + intros [? ?]. exfalso. lra.
    + intros [? ?]. exfalso. lra.
    + intros _. reflexivity.
    + intros _ _ Hn. exfalso. apply Hn. split; assumption.
  - split; [|split; [|split]].
    + intros [? ?]. exfalso. lra.
    + intros _. unfold Qdiv. ring.
    + intros [? ?]. exfalso. destruct E3; order_facts; lra.
    + intros _ Hn _. exfalso. apply Hn. split; assumption.
  - split; [|split; [|split]].
    + intros _. unfold Qdiv. ring.
    + intros [? ?]. exfalso. lra.
    + intros [? ?]. exfalso. destruct E3; order_facts; lra.
    + intros Hn _ _. exfalso. apply Hn. split; assumption.
  - split; [|split; [|split]].
    + intros [? ?]. exfalso. destruct E1; order_facts; lra.
    + intros [? ?]. exfalso. destruct E2; order_facts; lra.
    + intros [? ?]. exfalso. destruct E3; order_facts; lra.
    + intros _ _ _. reflexivity.
Qed.

End DmDtClaims.

(** ** Scaling dVsv/dp to the other variables *)

Module Scaling.

Lemma entry_app_l (M N : matrix) (r c : nat) :
  (r < length M)%nat -> entry (M ++ N) r c = entry M r c.
Proof. intros H. unfold entry. rewrite lookup_app_l by exact H. reflexivity. Qed.

Lemma entry_app_r (M N : matrix) (r c : nat) :
  entry (M ++ N) (length M + r) c = entry N r c.
Proof.
  unfold entry. rewrite lookup_app_r by lia.
  replace (length M + r - length M)%nat with r by lia. reflexivity.
Qed.

Lemma entry_map (f : Q -> Q) (M : matrix) (r c : nat) :
  entry (map (map f) M) r c = f <$> entry M r c.
Proof.
  unfold entry. rewrite list_lookup_fmap.
  destruct (M !! r) as [row|]; [|reflexivity].
  cbn [fmap option_fmap option_map mbind option_bind].
  apply list_lookup_fmap.
Qed.

Lemma entry_row_bound (M : matrix) (r c : nat) (x : Q) :
  entry M r c = Some x -> (r < length M)%nat.
Proof.
  unfold entry. intros H. destruct (M !! r) as [row|] eqn:E; [|discriminate].
  apply lookup_lt_Some in E. exact E.
Qed.

(** C8.  The matrix returned by the scaling step is five blocks of as many
    rows as dVsv/dp, stacked in the order Vsv, Vsh, Vpv, Vph, Eta.  Entry by
    entry: the Vsv block is dVsv/dp itself, the Vsh block is it divided by
    [vsv_vsh_ratio], the Vpv block is it times [vpv_vsv_ratio], the Vph
    block is the Vpv block divided by [vpv_vph_ratio], the Eta block is
    zero; with [vsv_vsh_ratio = 2] every Vsh entry is half the Vsv one. *)
Theorem scaled_blocks (dvsv_dp_mat : matrix) (setup_model : SetupModel)
    (r c : nat) (x : Q) :
  entry dvsv_dp_mat r c = Some x ->
  let n := length dvsv_dp_mat in
  let dm_dp := _scale_dvsv_dp_to_other_variables dvsv_dp_mat setup_model in
  length dm_dp = (5 * n)%nat /\
  entry dm_dp r c = Some x /\
  entry dm_dp (n + r) c = Some (x / vsv_vsh_ratio setup_model) /\
  entry dm_dp (2 * n + r) c = Some (x * vpv_vsv_ratio setup_model) /\
  (exists vpv, entry dm_dp (2 * n + r) c = Some vpv /\
               entry dm_dp (3 * n + r) c = Some (vpv / vpv_vph_ratio setup_model)) /\
  entry dm_dp (4 * n + r) c = Some 0 /\
  (vsv_vsh_ratio setup_model == 2 ->
   exists vsh, entry dm_dp (n + r) c = Some vsh /\ vsh == x / 2 /\ 2 * vsh == x).
Proof.
  intros Hx n dm_dp.
  pose proof (entry_row_bound _ _ _ _ Hx) as Hr.
  assert (entry dm_dp r c = Some x) as H0.
  { unfold dm_dp, _scale_dvsv_dp_to_other_variables.
    rewrite entry_app_l by exact Hr. exact Hx. }
  assert (entry dm_dp (n + r) c = Some (x / vsv_vsh_ratio setup_model)) as H1.
  { unfold dm_dp, _scale_dvsv_dp_to_other_variables, n.
    rewrite entry_app_r, entry_app_l by (rewrite length_map; exact Hr).
    rewrite entry_map, Hx. reflexivity. }
  assert (entry dm_dp (2 * n + r) c = Some (x * vpv_vsv_ratio setup_model)) as H2.
  { unfold dm_dp, _scale_dvsv_dp_to_other_variables, n.
    replace (2 * length dvsv_dp_mat + r)%nat
      with (length dvsv_dp_mat + (length dvsv_dp_mat + r))%nat by lia.
    rewrite entry_app_r.
    rewrite <- (length_map (map (fun x => x / vsv_vsh_ratio setup_model))
                  dvsv_dp_mat) at 1.
    rewrite entry_app_r, entry_app_l by (rewrite length_map; exact Hr).
    rewrite entry_map, Hx. reflexivity. }
  assert (entry dm_dp (3 * n + r) c
          = Some (x * vpv_vsv_ratio setup_model / vpv_vph_ratio setup_model)) as H3.
  { unfold dm_dp, _scale_dvsv_dp_to_other_variables, n.
    replace (3 * length dvsv_dp_mat + r)%nat
      with (length dvsv_dp_mat
            + (length dvsv_dp_mat + (length dvsv_dp_mat + r)))%nat by lia.
    rewrite entry_app_r.
    rewrite <- (length_map (map (fun x => x / vsv_vsh_ratio setup_model))
                  dvsv_dp_mat) at 1.
    rewrite entry_app_r.
    rewrite <- (length_map (map (fun x => x * vpv_vsv_ratio setup_model))
                  dvsv_dp_mat) at 1.
    rewrite entry_app_r, entry_app_l by (rewrite length_map; exact Hr).
    rewrite entry_map, Hx. reflexivity. }
  assert (entry dm_dp (4 * n + r) c = Some 0) as H4.
  { unfold dm_dp, _scale_dvsv_dp_to_other_variables, n.
    replace (4 * length dvsv_dp_mat + r)%nat
      with (length dvsv_dp_mat
            + (length dvsv_dp_mat
               + (length dvsv_dp_mat + (length dvsv_dp_mat + r))))%nat by lia.
    rewrite entry_app_r.
    rewrite <- (length_map (map (fun x => x / vsv_vsh_ratio setup_model))
                  dvsv_dp_mat) at 1.
    rewrite entry_app_r.
    rewrite <- (length_map (map (fun x => x * vpv_vsv_ratio setup_model))
                  dvsv_dp_mat) at 1.
    rewrite entry_app_r.
    rewrite <- (length_map (map (fun x => x * vpv_vsv_ratio setup_model
                                          / vpv_vph_ratio setup_model))
                  dvsv_dp_mat) at 1.
    rewrite entry_app_r.
    rewrite entry_map, Hx. reflexivity. }
  split.
  { unfold dm_dp, _scale_dvsv_dp_to_other_variables, n.
    rewrite !length_app, !length_map. lia. }
  split; [exact H0|]. split; [exact H1|]. split; [exact H2|].
  split; [eexists; split; [exact H2 | exact H3]|].
  split; [exact H4|].
  intros Hratio. eexists. split; [exact H1|].
  rewrite Hratio. split; [reflexivity | field].
Qed.

End Scaling.

(** ** The shape of the Jacobian *)

Module JacobianShape.
Import Facts DmDs DmDt.

Lemma insert_unique_length (x : Q) (l : list Q) :
  (1 <= length (insert_unique x l))%nat.
Proof.
  destruct l as [|y l]; simpl; [lia|].
  destruct (Qeq_bool x y); [simpl; lia|].
  destruct (Qle_bool x y); simpl; lia.
Qed.

Lemma np_unique_length (a : list Q) :
  (1 <= length a)%nat -> (1 <= length (np_unique a))%nat.
Proof.
  destruct a as [|x a]; simpl; [lia|]. intros _. apply insert_unique_length.
Qed.

(** [np.unique] returns the values of its argument, each once, in
    increasing order. *)
Lemma insert_unique_hd (y x : Q) (l : list Q) :
  HdRel Qlt y l -> y < x -> HdRel Qlt y (insert_unique x l).
Proof.
  intros Hhd Hyx. destruct l as [|z l]; simpl.
  - constructor. exact Hyx.
  - destruct (Qeq_bool x z); [exact Hhd|].
    destruct (Qle_bool x z); constructor; [exact Hyx|].
    inversion Hhd; assumption.
Qed.

Lemma insert_unique_sorted (x : Q) (l : list Q) :
  Sorted Qlt l -> Sorted Qlt (insert_unique x l).
Proof.
  induction l as [|y l IH]; intros Hs; simpl.
  - repeat constructor.
  - destruct (Qeq_bool x y) eqn:Eeq; [exact Hs|].
    apply Qeq_bool_neq in Eeq.
    destruct (Qle_bool x y) eqn:Ele.
    + apply Qle_bool_iff in Ele. constructor; [exact Hs|].
      constructor. apply Qle_lteq in Ele as [Hlt|Heq]; [exact Hlt | contradiction].
    + apply Qle_bool_false in Ele. inversion Hs as [|? ? Hs' Hhd]; subst.
      constructor; [apply IH; exact Hs'|].
      apply insert_unique_hd; assumption.
Qed.

Lemma np_unique_sorted (a : list Q) : Sorted Qlt (np_unique a).
Proof.
  induction a as [|x a IH]; simpl; [constructor|].
  apply insert_unique_sorted. exact IH.
Qed.

Lemma insert_unique_covers (x : Q) (l : list Q) (y : Q) :
  (exists y', In y' (insert_unique x l) /\ y' == y) <->
  x == y \/ exists y', In y' l /\ y' == y.
Proof.
  induction l as [|z l IH]; simpl.
  - split.
    + intros (y' & [<-|[]] & H). left. exact H.
    + intros [H|(y' & [] & _)]. exists x. split; [left; reflexivity | exact H].
  - destruct (Qeq_bool x z) eqn:Eeq.
    + apply Qeq_bool_iff in Eeq. split.
      * intros H. right. exact H.
      * intros [H|H]; [|exact H].
        exists z. split; [left; reflexivity|]. rewrite <- Eeq. exact H.
    + destruct (Qle_bool x z).
      * simpl. split.
        -- intros (y' & [<-|Hin] & H); [left; exact H|].
           right. exists y'. split; assumption.
        -- intros [H|(y' & Hin & H)].
           ++ exists x. split; [left; reflexivity | exact H].
           ++ exists y'. split; [right; exact Hin | exact H].
      * simpl. split.
        -- intros (y' & [<-|Hin] & H).
           ++ right. exists z. split; [left; reflexivity | exact H].
           ++ destruct (proj1 IH) as [Hx|(y'' & Hin' & H')];
                [exists y'; split; assumption | left; exact Hx |].
              right. exists y''. split; [right; exact Hin' | exact H'].
        -- intros [H|(y' & [<-|Hin] & H)].
           ++ destruct (proj2 IH (or_introl H)) as (y'' & Hin' & H').
              exists y''. split; [right; exact Hin' | exact H'].
           ++ exists z. split; [left; reflexivity | exact H].
           ++ destruct (proj2 IH) as (y'' & Hin' & H');
                [right; exists y'; split; assumption|].
              exists y''. split; [right; exact Hin' | exact H'].
Qed.

Lemma np_unique_covers (a : list Q) (y : Q) :
  (exists y', In y' (np_unique a) /\ y' == y) <->
  (exists y', In y' a /\ y' == y).
Proof.
  induction a as [|x a IH]; simpl.
  - reflexivity.
  - rewrite insert_unique_covers, IH. split.
    + intros [H|(y' & Hin & H)].
      * exists x. split; [left; reflexivity | exact H].
      * exists y'. split; [right; exact Hin | exact H].
    + intros (y' & [<-|Hin] & H); [left; exact H|].
      right. exists y'. split; assumption.
Qed.

Lemma pd_unique_acc_length (a seen : list Q) :
  (length seen
   <= length (fold_left (fun seen x =>
                 if existsb (Qeq_bool x) seen then seen else seen ++ [x])
                a seen))%nat.
Proof.
  revert seen. induction a as [|x a IH]; intros seen; simpl; [lia|].
  etransitivity; [|apply IH].
  destruct (existsb (Qeq_bool x) seen); [lia|]. rewrite length_app. lia.
Qed.

Lemma pd_unique_length (a : list Q) :
  (1 <= length a)%nat -> (1 <= length (pd_unique a))%nat.
Proof.
  destruct a as [|x a]; simpl; [lia|]. intros _.
  unfold pd_unique. simpl. etransitivity; [|apply pd_unique_acc_length].
  simpl. lia.
Qed.

Lemma select_period_length (col : KernelRow -> Q) (kernels : kernel_table)
    (period : Q) :
  length (select_period col kernels period)
  = length (select_period k_vsv kernels period).
Proof. unfold select_period. rewrite !length_map. reflexivity. Qed.

(** One row of G for a Rayleigh table: five kernels side by side. *)
Lemma hstack_rayleigh (kernels : kernel_table) (period : Q) :
  (1 <= length kernels)%nat -> rayleigh_only kernels = true ->
  exists row, _hstack_frechet_kernels kernels period = Ok row /\
    length row = (5 * length (select_period k_vsv kernels period))%nat.
Proof.
  intros Hne Hray. destruct kernels as [|first rest]; [simpl in Hne; lia|].
  unfold _hstack_frechet_kernels. cbn [getitem lookup list_lookup mbind result_bind].
  unfold rayleigh_only in Hray. cbn [forallb] in Hray.
  apply andb_true_iff in Hray as [Hfirst _]. rewrite Hfirst.
  eexists. split; [reflexivity|].
  rewrite !length_app, length_map.
  rewrite (select_period_length k_vpv), (select_period_length k_vph),
          (select_period_length k_eta).
  lia.
Qed.

Lemma same_width_intro (rows : matrix) (w : nat) :
  (1 <= length rows)%nat -> Forall (fun row => length row = w) rows ->
  same_width rows = true.
Proof.
  intros Hne HF. unfold same_width.
  assert (ncols rows = w) as ->.
  { destruct rows as [|row rows]; [simpl in Hne; lia|].
    simpl. apply Forall_cons in HF as [H _]. exact H. }
  apply forallb_forall. intros row Hin. apply Nat.eqb_eq.
  rewrite Forall_forall in HF. apply HF. apply list_elem_of_In. exact Hin.
Qed.

(** The loop that stacks the rows of the further periods. *)
Lemma stack_loop (kernels : kernel_table) (periods : list Q) (w : nat) :
  (1 <= length kernels)%nat -> rayleigh_only kernels = true ->
  Forall (fun p => (5 * length (select_period k_vsv kernels p))%nat = w) periods ->
  forall (m k : nat) (G : ndarray),
  (k + m <= length periods)%nat -> (1 <= k)%nat ->
  length (atleast_2d G) = k ->
  Forall (fun row => length row = w) (atleast_2d G) ->
  exists G',
    for_ (seq k m) (fun i_p G_Rayleigh =>
      period ← getitem periods i_p;
      row ← _hstack_frechet_kernels kernels period;
      np_vstack G_Rayleigh (Arr1 row)) G = Ok G' /\
    length (atleast_2d G') = (k + m)%nat /\
    Forall (fun row => length row = w) (atleast_2d G') /\
    (m = 0%nat -> G' = G) /\ ((1 <= m)%nat -> exists A, G' = Arr2 A).
Proof.
  intros Hne Hray Hper. induction m as [|m IH]; intros k G Hkm Hk HG HF.
  - exists G. split; [reflexivity|]. split; [lia|]. split; [exact HF|].
    split; [reflexivity | lia].
  - destruct (lookup_lt_is_Some_2 periods k) as [p Hp]; [lia|].
    destruct (hstack_rayleigh kernels p Hne Hray) as (row & Hrow & Hlen).
    assert (length row = w) as Hw.
    { rewrite Hlen. rewrite Forall_forall in Hper. apply Hper.
      apply list_elem_of_lookup. eauto. }
    assert (Forall (fun row => length row = w) (atleast_2d G ++ [row])) as HF'.
    { apply Forall_app. split; [exact HF|]. apply Forall_singleton. exact Hw. }
    destruct (IH (S k) (Arr2 (atleast_2d G ++ [row])))
      as (G' & HG' & HL' & HF'' & Hsame & Hstacked);
      [lia | lia | | exact HF' |].
    { simpl. rewrite length_app. simpl. lia. }
    exists G'. split.
    { cbn [seq for_]. rewrite (getitem_Some _ _ _ Hp). cbn [mbind result_bind].
      rewrite Hrow. cbn [mbind result_bind]. unfold np_vstack.
      cbn [atleast_2d].
      rewrite (same_width_intro _ w); [exact HG' | | exact HF'].
      rewrite length_app. simpl. lia. }
    split; [lia|]. split; [exact HF''|]. split; [lia|].
    intros _. destruct m as [|m'].
    + rewrite (Hsame eq_refl). eauto.
    + apply Hstacked. lia.
Qed.

Lemma build_G_spec (kernels : kernel_table) :
  (1 <= length kernels)%nat -> rayleigh_only kernels = true ->
  complete_table kernels = true ->
  exists G, _build_MINEOS_G_matrix kernels = Ok G /\
    length (atleast_2d G) = length (np_unique (map k_period kernels)) /\
    Forall (fun row =>
              length row = (5 * length (pd_unique (map k_z kernels)))%nat)
           (atleast_2d G) /\
    (length (np_unique (map k_period kernels)) = 1%nat -> exists v, G = Arr1 v) /\
    ((2 <= length (np_unique (map k_period kernels)))%nat ->
     exists A, G = Arr2 A).
Proof.
  intros Hne Hray Hcomp. unfold _build_MINEOS_G_matrix.
  set (periods := np_unique (map k_period kernels)).
  assert (1 <= length periods)%nat as Hper
    by (apply np_unique_length; rewrite length_map; exact Hne).
  assert (Forall (fun p => (5 * length (select_period k_vsv kernels p))%nat
                           = (5 * length (pd_unique (map k_z kernels)))%nat)
                 periods) as Hcount.
  { apply Forall_forall. intros p Hp. unfold complete_table in Hcomp.
    rewrite forallb_forall in Hcomp. apply list_elem_of_In in Hp.
    specialize (Hcomp p Hp). apply Nat.eqb_eq in Hcomp. lia. }
  destruct (lookup_lt_is_Some_2 periods 0) as [p0 Hp0]; [lia|].
  rewrite (getitem_Some _ _ _ Hp0). cbn [mbind result_bind].
  destruct (hstack_rayleigh kernels p0 Hne Hray) as (row0 & Hrow0 & Hlen0).
  rewrite Hrow0. cbn [mbind result_bind].
  destruct (stack_loop kernels periods _ Hne Hray Hcount (length periods - 1) 1
              (Arr1 row0)) as (G & HG & HL & HF & Hsame & Hstacked);
    [lia | lia | reflexivity | |].
  { apply Forall_singleton. rewrite Hlen0.
    rewrite Forall_forall in Hcount. apply Hcount.
    apply list_elem_of_lookup. eauto. }
  exists G. split; [exact HG|]. split; [lia|]. split; [exact HF|]. split.
  - intros Hone. exists row0. apply Hsame. lia.
  - intros Htwo. apply Hstacked. lia.
Qed.

Lemma hstack_shape (A B : matrix) (rows ca cb : nat) :
  shape A rows ca -> shape B rows cb ->
  exists C, np_hstack A B = Ok C /\ shape C rows (ca + cb).
Proof.
  intros [HA HFA] [HB HFB]. unfold np_hstack.
  rewrite HA, HB, Nat.eqb_refl. eexists. split; [reflexivity|].
  split.
  - rewrite length_zip_with, HA, HB. lia.
  - clear HA HB. revert rows B HFB.
    induction HFA as [|a A Ha HFA IH]; intros rows B HFB; [constructor|].
    destruct HFB as [|b B Hb HFB]; [constructor|].
    cbn [zip_with]. constructor.
    + rewrite length_app. lia.
    + apply (IH rows). exact HFB.
Qed.

Lemma convert_to_model_kernels_shape (depth : list Q) (model : InversionModel)
    (nl : nat) :
  well_formed model -> length (vsv model) = S nl ->
  exists M, _convert_to_model_kernels depth model = Ok M /\
    shape M (length depth) (nl + length (boundary_inds model)).
Proof.
  intros Hwf Hv. unfold _convert_to_model_kernels.
  destruct (calculate_dm_ds_shape model depth nl Hv) as (Ms & HMs & HSs).
  { destruct Hwf as [<- _]. exact Hv. }
  destruct (calculate_dm_dt_spec model depth Hwf) as (Mt & HMt & HSt & _).
  rewrite HMs. cbn [mbind result_bind]. rewrite HMt. cbn [mbind result_bind].
  apply hstack_shape; assumption.
Qed.

Lemma scale_shape (M : matrix) (setup_model : SetupModel) (rows cols : nat) :
  shape M rows cols ->
  shape (_scale_dvsv_dp_to_other_variables M setup_model) (5 * rows) cols.
Proof.
  intros [HL HF]. unfold _scale_dvsv_dp_to_other_variables. split.
  - rewrite !length_app, !length_map. lia.
  - assert (forall f : Q -> Q, Forall (fun row => length row = cols) (map (map f) M))
      as Hmap.
    { intros f. apply Forall_fmap. eapply Forall_impl; [exact HF|].
      intros row Hrow. simpl. rewrite length_map. exact Hrow. }
    repeat (apply Forall_app; split); auto.
Qed.

Lemma vecmat_length (v : list Q) (B : matrix) (rows cols : nat) :
  shape B rows cols -> (1 <= rows)%nat -> length v = rows ->
  length (vecmat v B) = cols.
Proof.
  intros [HL HF] Hne Hv. unfold vecmat.
  assert (ncols B = cols) as ->.
  { destruct B as [|row B]; [simpl in HL; lia|].
    simpl. apply Forall_cons in HF as [H _]. exact H. }
  assert (length (replicate cols 0) = cols) as Hacc by apply length_replicate.
  revert Hacc. generalize (replicate cols 0). clear HL Hv Hne.
  revert v. induction HF as [|row B Hrow HF IH]; intros v acc Hacc.
  - destruct v; exact Hacc.
  - destruct v as [|x v]; [exact Hacc|].
    cbn [zip zip_with fold_left]. apply IH.
    cbn [fst snd]. rewrite length_zip_with, length_map. lia.
Qed.

(** The whole builder on a complete Rayleigh table and a well-formed
    model: it returns, whatever the thicknesses are. *)
Lemma builder_returns (kernels : kernel_table) (model : InversionModel)
    (setup_model : SetupModel) :
  (1 <= length kernels)%nat -> rayleigh_only kernels = true ->
  complete_table kernels = true ->
  well_formed model -> (1 <= length (vsv model))%nat ->
  exists G, _build_partial_derivatives_matrix kernels model setup_model = Ok G /\
    n_rows G = length (np_unique (map k_period kernels)) /\
    n_cols G = (length (vsv model) - 1 + length (boundary_inds model))%nat.
Proof.
  intros Hne Hray Hcomp Hwf Hv.
  destruct (length (vsv model)) as [|nl] eqn:Hlen; [lia|].
  unfold _build_partial_derivatives_matrix.
  destruct (build_G_spec kernels Hne Hray Hcomp) as (G0 & HG0 & HL0 & HF0 & _).
  rewrite HG0. cbn [mbind result_bind].
  set (depth := pd_unique (map k_z kernels)) in *.
  assert (1 <= length depth)%nat as Hnz
    by (apply pd_unique_length; rewrite length_map; exact Hne).
  destruct (convert_to_model_kernels_shape depth model nl Hwf Hlen)
    as (M & HM & HS).
  rewrite HM. cbn [mbind result_bind].
  pose proof (scale_shape M setup_model _ _ HS) as HB.
  set (B := _scale_dvsv_dp_to_other_variables M setup_model) in *.
  assert (length B = (5 * length depth)%nat) as HBlen by (destruct HB; assumption).
  replace (S nl - 1)%nat with nl by lia.
  destruct G0 as [v|A]; cbn [atleast_2d] in HL0, HF0; unfold np_matmul.
  - apply (proj1 (Forall_singleton _ _)) in HF0.
    rewrite HBlen, HF0, Nat.eqb_refl.
    eexists. split; [reflexivity|]. unfold n_rows, n_cols. cbn [atleast_2d ncols].
    split; [exact HL0|].
    apply (vecmat_length v B (5 * length depth)); [exact HB | lia | exact HF0].
  - assert (forallb (fun row => Nat.eqb (length row) (length B)) A = true) as ->.
    { apply forallb_forall. intros row Hin. apply Nat.eqb_eq.
      rewrite HBlen. rewrite Forall_forall in HF0. apply HF0.
      apply list_elem_of_In. exact Hin. }
    eexists. split; [reflexivity|]. unfold n_rows, n_cols. cbn [atleast_2d].
    rewrite length_map. split; [exact HL0|].
    pose proof (np_unique_length (map k_period kernels)) as Hper.
    rewrite length_map in Hper. specialize (Hper Hne).
    destruct A as [|a A]; [simpl in HL0; lia|].
    cbn [map ncols]. apply Forall_cons in HF0 as [Ha _].
    apply (vecmat_length a B (5 * length depth)); [exact HB | lia | exact Ha].
Qed.

(** With one period the Jacobian is the 1-D row itself; with more it is a
    2-D array. *)
Lemma builder_dimensions (kernels : kernel_table) (model : InversionModel)
    (setup_model : SetupModel) (G : ndarray) :
  (1 <= length kernels)%nat -> rayleigh_only kernels = true ->
  complete_table kernels = true ->
  _build_partial_derivatives_matrix kernels model setup_model = Ok G ->
  (length (np_unique (map k_period kernels)) = 1%nat -> exists v, G = Arr1 v) /\
  ((2 <= length (np_unique (map k_period kernels)))%nat -> exists A, G = Arr2 A).
Proof.
  intros Hne Hray Hcomp. unfold _build_partial_derivatives_matrix.
  destruct (build_G_spec kernels Hne Hray Hcomp)
    as (G0 & HG0 & _ & _ & Hone & Htwo).
  rewrite HG0. cbn [mbind result_bind].
  destruct (_convert_to_model_kernels (pd_unique (map k_z kernels)) model)
    as [M|e]; [|discriminate].
  cbn [mbind result_bind]. unfold np_matmul.
  destruct G0 as [v|A].
  - destruct (Nat.eqb _ _); [|discriminate]. intros H. injection H as <-.
    split; [eauto|]. intros H2. destruct (Htwo H2) as [A HA]. discriminate.
  - destruct (forallb _ A); [|discriminate]. intros H. injection H as <-.
    split; [|eauto]. intros H1. destruct (Hone H1) as [v Hv]. discriminate.
Qed.

(** Every row of the Jacobian, the 1-D array being its only row, has an
    entry for each node but the last and for each boundary. *)
Lemma builder_rows (kernels : kernel_table) (model : InversionModel)
    (setup_model : SetupModel) :
  (1 <= length kernels)%nat -> rayleigh_only kernels = true ->
  complete_table kernels = true ->
  well_formed model -> (1 <= length (vsv model))%nat ->
  exists G, _build_partial_derivatives_matrix kernels model setup_model = Ok G /\
    length (atleast_2d G) = length (np_unique (map k_period kernels)) /\
    Forall (fun row => length row
                       = (length (vsv model) - 1
                          + length (boundary_inds model))%nat)
           (atleast_2d G).
Proof.
  intros Hne Hray Hcomp Hwf Hv.
  destruct (length (vsv model)) as [|nl] eqn:Hlen; [lia|].
  unfold _build_partial_derivatives_matrix.
  destruct (build_G_spec kernels Hne Hray Hcomp) as (G0 & HG0 & HL0 & HF0 & _).
  rewrite HG0. cbn [mbind result_bind].
  set (depth := pd_unique (map k_z kernels)) in *.
  assert (1 <= length depth)%nat as Hnz
    by (apply pd_unique_length; rewrite length_map; exact Hne).
  destruct (convert_to_model_kernels_shape depth model nl Hwf Hlen)
    as (M & HM & HS).
  rewrite HM. cbn [mbind result_bind].
  pose proof (scale_shape M setup_model _ _ HS) as HB.
  set (B := _scale_dvsv_dp_to_other_variables M setup_model) in *.
  assert (length B = (5 * length depth)%nat) as HBlen by (destruct HB; assumption).
  replace (S nl - 1)%nat with nl by lia.
  destruct G0 as [v|A]; cbn [atleast_2d] in HL0, HF0; unfold np_matmul.
  - apply (proj1 (Forall_singleton _ _)) in HF0.
    rewrite HBlen, HF0, Nat.eqb_refl.
    eexists. split; [reflexivity|]. cbn [atleast_2d].
    split; [exact HL0|]. apply Forall_singleton.
    apply (vecmat_length v B (5 * length depth)); [exact HB | lia | exact HF0].
  - assert (forallb (fun row => Nat.eqb (length row) (length B)) A = true) as ->.
    { apply forallb_forall. intros row Hin. apply Nat.eqb_eq.
      rewrite HBlen. rewrite Forall_forall in HF0. apply HF0.
      apply list_elem_of_In. exact Hin. }
    eexists. split; [reflexivity|]. cbn [atleast_2d].
    rewrite length_map. split; [exact HL0|].
    apply Forall_fmap. eapply Forall_impl; [exact HF0|].
    intros row Hrow. cbn beta.
    apply (vecmat_length row B (5 * length depth)); [exact HB | lia | exact Hrow].
Qed.

End JacobianShape.

(** ** The claim on the shape of the Jacobian *)

Module JacobianClaims.
Import JacobianShape.

(** C7.  The code breaks the claim, and the docstring of
    [_build_partial_derivatives_matrix] (a
    [(n_periods, n_inversion_model_depths + n_boundary_layers)] array), on
    a table with a single period: for the sample model, which has four
    velocity columns and one boundary column, it returns a 1-D array of
    five entries, not a matrix of one row. *)
Lemma single_period_jacobian_is_flat :
  length (np_unique (map k_period MoreSamples.single_period_kernels)) = 1%nat /\
  (exists v,
     _build_partial_derivatives_matrix MoreSamples.single_period_kernels
       sample_model scenario_setup = Ok (Arr1 v) /\
     length v = 5%nat) /\
  ~ (exists A,
       _build_partial_derivatives_matrix MoreSamples.single_period_kernels
         sample_model scenario_setup = Ok (Arr2 A)).
Proof.
  split; [reflexivity|]. split.
  - eexists. split; [vm_compute; reflexivity | reflexivity].
  - intros [A HA]. vm_compute in HA. discriminate HA.
Qed.

(** X30.  The dimensions of the Jacobian, as numpy has them.  For a
    non-empty Rayleigh-only kernel table in which every period has a row
    for each card depth, and a well-formed model with at least one node,
    the Jacobian is returned.  With two periods or more it is a matrix
    with one row per distinct period, every row
    [len(vsv) - 1 + len(boundary_inds)] long; with a single period it is a
    1-D array of that length. *)
Theorem jacobian_dimensions (kernels : kernel_table) (model : InversionModel)
    (setup_model : SetupModel) :
  (1 <= length kernels)%nat -> rayleigh_only kernels = true ->
  complete_table kernels = true ->
  well_formed model -> (1 <= length (vsv model))%nat ->
  exists G, _build_partial_derivatives_matrix kernels model setup_model = Ok G /\
    (length (np_unique (map k_period kernels)) = 1%nat ->
     exists v, G = Arr1 v /\
       length v = (length (vsv model) - 1 + length (boundary_inds model))%nat) /\
    ((2 <= length (np_unique (map k_period kernels)))%nat ->
     exists A, G = Arr2 A /\
       length A = length (np_unique (map k_period kernels)) /\
       Forall (fun row => length row
                          = (length (vsv model) - 1
                             + length (boundary_inds model))%nat) A).
Proof.
  intros Hne Hray Hcomp Hwf Hv.
  destruct (builder_rows kernels model setup_model Hne Hray Hcomp Hwf Hv)
    as (G & HG & Hrows & Hcols).
  destruct (builder_dimensions kernels model setup_model G Hne Hray Hcomp HG)
    as [Hone Htwo].
  exists G. split; [exact HG|]. split.
  - intros H1. destruct (Hone H1) as [v ->]. exists v. split; [reflexivity|].
    cbn [atleast_2d] in Hcols.
    exact (proj1 (Forall_singleton _ _) Hcols).
  - intros H2. destruct (Htwo H2) as [A ->]. exists A.
    split; [reflexivity|]. cbn [atleast_2d] in Hrows, Hcols.
    split; [exact Hrows | exact Hcols].
Qed.

End JacobianClaims.

(** ** The claim on errors in the Jacobian builder *)

Module ErrorClaims.
Import Facts DmDs DmDt JacobianShape.

(** C5, as the code behaves.  The builder raises nothing for a boundary
    with [t_i = 0] or [w_i = 0]: on a complete Rayleigh table and a
    well-formed model it returns its matrix, whatever the thicknesses; in
    the dm/dt column the degenerate range selects no row, so that the entry
    is 0 at every depth outside the two other ranges.  The periods are read
    from the table itself; an empty table raises IndexError, and a table
    whose first row is neither 'Rayleigh' nor 'Love' raises
    UnboundLocalError. *)
Theorem degenerate_boundary_no_error :
  (forall kernels model setup_model,
     (1 <= length kernels)%nat -> rayleigh_only kernels = true ->
     complete_table kernels = true ->
     well_formed model -> (1 <= length (vsv model))%nat ->
     exists G, _build_partial_derivatives_matrix kernels model setup_model = Ok G) /\
  (forall model depth, well_formed model ->
     exists M, _calculate_dm_dt model depth = Ok M /\
       forall r i ib z, depth !! r = Some z ->
         boundary_inds model !! i = Some ib ->
         exists v, entry M r i = Some v /\
           (layer_thickness model ib == 0 ->
            ~ (node_depth model ib <= z /\ z < node_depth model (ib + 1)) ->
            ~ (node_depth model (ib + 1) <= z /\ z < node_depth model (ib + 2)) ->
            v == 0) /\
           (layer_thickness model (ib + 1) == 0 ->
            ~ (np_sum (take ib (thickness model)) < z /\ z < node_depth model ib) ->
            ~ (node_depth model (ib + 1) <= z /\ z < node_depth model (ib + 2)) ->
            v == 0)) /\
  (forall model setup_model,
     _build_partial_derivatives_matrix [] model setup_model = Raise IndexError) /\
  (forall first rest model setup_model,
     String.eqb (k_type first) "Rayleigh" = false ->
     String.eqb (k_type first) "Love" = false ->
     _build_partial_derivatives_matrix (first :: rest) model setup_model
     = Raise UnboundLocalError).
Proof.
  split; [|split; [|split]].
  - intros kernels model setup_model Hne Hray Hcomp Hwf Hv.
    destruct (builder_returns kernels model setup_model Hne Hray Hcomp Hwf Hv)
      as (G & HG & _). eauto.
  - intros model depth Hwf.
    destruct (calculate_dm_dt_spec model depth Hwf) as (M & HM & HS & HE).
    exists M. split; [exact HM|].
    intros r i ib z Hz Hib. exists (dm_dt_entry model ib z).
    split; [apply (HE r i ib z Hz Hib)|].
    assert (ib + 1 < length (thickness model))%nat as Hbase.
    { destruct Hwf as [_ HF]. rewrite Forall_forall in HF. apply HF.
      apply list_elem_of_lookup. eauto. }
    assert (node_depth model ib
            = np_sum (take ib (thickness model)) + layer_thickness model ib) as Hy.
    { unfold node_depth. replace (ib + 1)%nat with (S ib) by lia.
      apply np_sum_take_S, layer_thickness_lookup. lia. }
    pose proof (node_depth_succ model ib _
                  (layer_thickness_lookup model (ib + 1) Hbase)) as Hy'.
    unfold dm_dt_entry.
    destruct (Qle_bool (node_depth model (ib + 1)) z
              && Qlt_bool z (node_depth model (ib + 2))) eqn:E3;
      [|destruct (Qle_bool (node_depth model ib) z
                  && Qlt_bool z (node_depth model (ib + 1))) eqn:E2;
        [|destruct (Qlt_bool (np_sum (take ib (thickness model))) z
                    && Qlt_bool z (node_depth model ib)) eqn:E1]];
      order_facts.
    + split; intros _ _ Hn; exfalso; apply Hn; split; assumption.
    + split.
      * intros _ Hn _. exfalso. apply Hn. split; assumption.
      * intros Hw _ _. exfalso. rewrite Hy' in *. lra.
    + split.
      * intros Ht _ _. exfalso. rewrite Hy in *. lra.
      * intros _ Hn _. exfalso. apply Hn. split; assumption.
    + split; intros _ _ _; reflexivity.
  - intros model setup_model. reflexivity.
  - intros first rest model setup_model Hray Hlove.
    unfold _build_partial_derivatives_matrix, _build_MINEOS_G_matrix.
    pose proof (np_unique_length (map k_period (first :: rest))) as Hper.
    destruct (np_unique (map k_period (first :: rest))) as [|p0 ps] eqn:E.
    { simpl in Hper. lia. }
    cbn [getitem lookup list_lookup mbind result_bind].
    unfold _hstack_frechet_kernels.
    cbn [getitem lookup list_lookup mbind result_bind].
    rewrite Hray, Hlove. reflexivity.
Qed.

End ErrorClaims.

(** ** setup_starting_model *)

Module Builder.
Import Facts DmDs.

Lemma lookup_default (l : list Q) (k : nat) :
  (k < length l)%nat -> l !! k = Some (default 0 (l !! k)).
Proof.
  intros H. destruct (lookup_lt_is_Some_2 l k H) as [x ->]. reflexivity.
Qed.

Lemma getitem_signed_last {A} (l : list A) :
  (1 <= length l)%nat -> exists v, getitem_signed l (-1) = Ok v.
Proof.
  intros H. unfold getitem_signed.
  destruct (Z.leb_spec 0 (-1)) as [Hpos|_]; [lia|].
  destruct (Z.leb_spec (- Z.of_nat (length l)) (-1)) as [_|Hlt]; [|lia].
  destruct (lookup_lt_is_Some_2 l (Z.to_nat (Z.of_nat (length l) + -1)))
    as [v Hv]; [lia|].
  exists v. apply getitem_Some. exact Hv.
Qed.

Lemma extend_vsv_ok (grad thick : Q) (count : nat) (vsv : list Q) :
  (1 <= length vsv)%nat ->
  exists ext, extend_vsv grad thick count vsv = Ok (vsv ++ ext) /\
    length ext = count.
Proof.
  unfold extend_vsv. intros Hne. generalize O as start. revert vsv Hne.
  induction count as [|count IH]; intros vsv Hne start.
  - exists []. rewrite app_nil_r. split; reflexivity.
  - cbn [seq for_].
    destruct (getitem_signed_last vsv Hne) as [v Hv]. rewrite Hv.
    cbn [mbind result_bind].
    destruct (IH (vsv ++ [v + grad * thick])) with (start := S start)
      as (ext & H' & Hlen).
    { rewrite length_app. simpl. lia. }
    exists ((v + grad * thick) :: ext). split.
    + rewrite H'. rewrite <- app_assoc. reflexivity.
    + simpl. lia.
Qed.

Lemma int_floordiv_ok (x m : Q) :
  0 < m -> int_floordiv x m = Ok (Qfloor (x / m)).
Proof.
  intros Hm. unfold int_floordiv.
  destruct (Qeq_bool m 0) eqn:E; [|reflexivity].
  apply Qeq_bool_iff in E. lra.
Qed.

Lemma layers_count_pos (x : Q) : 0 < inject_Z (Z.max 1 (Qfloor x)).
Proof.
  replace 0 with (inject_Z 0) by reflexivity. rewrite <- Zlt_Qlt. lia.
Qed.

Lemma layers_sum (gap : Q) (n : Z) :
  (1 <= n)%Z ->
  np_sum (replicate (Z.to_nat n) (gap / inject_Z n)) == gap.
Proof.
  intros Hn. rewrite np_sum_replicate, Z2Nat.id by lia.
  assert (0 < inject_Z n) as Hpos.
  { replace 0 with (inject_Z 0) by reflexivity. rewrite <- Zlt_Qlt. lia. }
  field. lra.
Qed.

Lemma consistent_facts (s : SetupModel) :
  consistent s = true ->
  length (boundary_depth_uncertainty s) = length (boundary_depths s) /\
  length (boundary_widths s) = length (boundary_depths s) /\
  length (boundary_vsv s) = (2 * length (boundary_depths s))%nat /\
  length (depth_limits s) = 2%nat /\
  0 < min_layer_thickness s.
Proof.
  unfold consistent. rewrite !andb_true_iff, !Nat.eqb_eq, Qlt_bool_iff. tauto.
Qed.

Lemma forallb_nonneg (l : list Q) (k : nat) :
  forallb (Qle_bool 0) l = true -> (k < length l)%nat -> 0 <= default 0 (l !! k).
Proof.
  intros H Hk. rewrite forallb_forall in H.
  destruct (lookup_lt_is_Some_2 l k Hk) as [x Hx]. rewrite Hx. simpl.
  apply Qle_bool_iff, H, list_elem_of_In, list_elem_of_lookup. eauto.
Qed.

(** One turn of the loop over the boundaries.  Nothing is asked of the
    order or spacing of the boundaries: the step returns all the same. *)
Lemma boundary_step_spec (s : SetupModel) (k : nat) (st : build_state) :
  consistent s = true -> (k < length (boundary_depths s))%nat ->
  build_invariant s k st ->
  exists st', boundary_step s k st = Ok st' /\ build_invariant s (S k) st'.
Proof.
  intros Hcons Hk Hinv.
  destruct (consistent_facts s Hcons) as (Hlu & Hlw & Hlv & Hld & Hmlt).
  destruct st as [[vsv0 th] binds].
  destruct Hinv as (Hlen & Hhd & Hne & Hsum & Hbl & Hbinds & Hnonneg).
  destruct (lookup_lt_is_Some_2 (boundary_vsv s) (k * 2)) as [vt Hvt]; [lia|].
  destruct (lookup_lt_is_Some_2 (boundary_vsv s) (k * 2 + 1)) as [vb Hvb]; [lia|].
  pose proof (lookup_default (boundary_depths s) k Hk) as Hd.
  pose proof (lookup_default (boundary_widths s) k ltac:(lia)) as Hw.
  pose proof (lookup_default (boundary_depth_uncertainty s) k ltac:(lia)) as Hu.
  fold (b_depth s k) in Hd. fold (b_width s k) in Hw. fold (b_uncertainty s k) in Hu.
  unfold boundary_step.
  rewrite (getitem_Some _ _ _ Hvt), (getitem_Some _ _ _ Hvb),
          (getitem_Some _ _ _ Hd), (getitem_Some _ _ _ Hw),
          (getitem_Some _ _ _ Hu).
  cbn [mbind result_bind].
  fold (padding s k). fold (depth_top s k). fold (reach_above s k).
  rewrite (int_floordiv_ok _ _ Hmlt). cbn [mbind result_bind].
  set (gap := reach_above s k - np_sum th).
  set (n := Z.max 1 (Qfloor (gap / min_layer_thickness s))).
  assert (1 <= n)%Z as Hn by (unfold n; lia).
  destruct (getitem_signed_last vsv0 ltac:(lia)) as [v_last Hv_last].
  rewrite Hv_last. cbn [mbind result_bind].
  destruct (extend_vsv_ok ((vt - v_last) / (depth_top s k - np_sum th))
              (gap / inject_Z n) (Z.to_nat n) vsv0 ltac:(lia))
    as (ext & Hvsv1 & Hext).
  rewrite Hvsv1. cbn [mbind result_bind].
  assert (length (vsv0 ++ ext) = (length vsv0 + Z.to_nat n)%nat) as Hlen1
    by (rewrite length_app; lia).
  eexists. split; [reflexivity|].
  set (reps := replicate (Z.to_nat n) (gap / inject_Z n)).
  assert (length reps = Z.to_nat n) as Hreps by apply length_replicate.
  set (added := reps
                ++ [depth_top s k - reach_above s k] ++ [b_width s k]
                ++ [depth_top s k + b_width s k + padding s k
                    - (depth_top s k + b_width s k)]).
  assert (length added = (Z.to_nat n + 3)%nat) as Hadded.
  { unfold added. rewrite !length_app, Hreps. simpl. lia. }
  assert (gap == reach_above s k - floor_of s k) as Hgap
    by (unfold gap; rewrite Hsum; reflexivity).
  assert (gap / inject_Z n == filler s k) as Hfill.
  { unfold filler, n.
    rewrite (Qfloor_comp (gap / min_layer_thickness s)
               ((reach_above s k - floor_of s k) / min_layer_thickness s))
      by (rewrite Hgap; reflexivity).
    rewrite Hgap. reflexivity. }
  unfold build_invariant.
  split; [rewrite !length_app, Hadded, Hext; simpl; lia|].
  split; [rewrite lookup_app_l by lia; exact Hhd|].
  split; [rewrite length_app; lia|].
  split.
  { rewrite np_sum_app. unfold added, reps.
    rewrite np_sum_app, (layers_sum gap n Hn).
    cbn [app]. rewrite !np_sum_cons. unfold np_sum at 2. cbn [fold_left].
    cbn [floor_of]. unfold gap, reach_below, reach_above. ring. }
  split; [rewrite length_app, Hbl; simpl; lia|].
  split.
  - intros j ib Hj.
    destruct (Nat.lt_ge_cases j k) as [Hjk|Hjk].
    + rewrite lookup_app_l in Hj by lia.
      destruct (Hbinds j ib Hj) as (Hib1 & Hib2 & Hibw & Hvt' & Hvb' & t & Ht & Hteq).
      split; [exact Hib1|]. split; [rewrite length_app; lia|].
      split; [rewrite lookup_app_l by lia; exact Hibw|].
      split; [rewrite <- app_assoc, lookup_app_l by lia; exact Hvt'|].
      split; [rewrite <- app_assoc, lookup_app_l by lia; exact Hvb'|].
      exists t. split; [rewrite lookup_app_l by lia; exact Ht | exact Hteq].
    + rewrite lookup_app_r in Hj by lia.
      assert (j = k) as -> by
        (apply lookup_lt_Some in Hj; simpl in Hj; lia).
      rewrite Hbl, Nat.sub_diag in Hj. cbn in Hj. injection Hj as <-.
      rewrite length_app, Hadded.
      split; [lia|]. split; [lia|]. split; [|split; [|split]].
      * rewrite lookup_app_r by lia.
        replace (length th + (Z.to_nat n + 3) - 3 + 1 - length th)%nat
          with (length reps + 1)%nat by lia.
        unfold added. rewrite lookup_app_r by lia.
        replace (length reps + 1 - length reps)%nat with 1%nat by lia.
        reflexivity.
      * rewrite lookup_app_r by lia.
        replace (length th + (Z.to_nat n + 3) - 3 - length (vsv0 ++ ext))%nat
          with 0%nat by lia.
        rewrite Hvt. reflexivity.
      * rewrite lookup_app_r by lia.
        replace (length th + (Z.to_nat n + 3) - 3 + 1 - length (vsv0 ++ ext))%nat
          with 1%nat by lia.
        rewrite Hvb. reflexivity.
      * exists (gap / inject_Z n). split; [|exact Hfill].
        rewrite lookup_app_r by lia. unfold added.
        rewrite lookup_app_l by lia.
        apply lookup_replicate_2. lia.
  - intros Hwidths Hunc Hover.
    rewrite drop_app_le by lia. apply Forall_app. split.
    + apply Hnonneg; [exact Hwidths | exact Hunc |].
      intros j Hj. apply Hover. lia.
    + assert (0 <= b_width s k) as Hwpos
        by (apply forallb_nonneg; [exact Hwidths | lia]).
      assert (0 <= b_uncertainty s k) as Hupos
        by (apply forallb_nonneg; [exact Hunc | lia]).
      assert (0 <= gap) as Hgpos.
      { specialize (Hover k ltac:(lia)). unfold overlaps in Hover.
        apply Qlt_bool_false in Hover. lra. }
      unfold added. repeat (apply Forall_app; split).
      * apply Forall_forall. intros t Ht. unfold reps in Ht.
        apply elem_of_replicate in Ht as [-> _].
        apply Qle_shift_div_l; [apply layers_count_pos | lra].
      * apply Forall_singleton. unfold reach_above, padding. lra.
      * apply Forall_singleton. exact Hwpos.
      * apply Forall_singleton. unfold padding. lra.
Qed.

Lemma build_loop (s : SetupModel) :
  consistent s = true ->
  forall (m k : nat) (st : build_state),
  (k + m <= length (boundary_depths s))%nat ->
  build_invariant s k st ->
  exists st', for_ (seq k m) (boundary_step s) st = Ok st' /\
    build_invariant s (k + m) st'.
Proof.
  intros Hcons. induction m as [|m IH]; intros k st Hkm Hinv.
  - exists st. split; [reflexivity|]. rewrite Nat.add_0_r. exact Hinv.
  - destruct (boundary_step_spec s k st Hcons ltac:(lia) Hinv) as (st1 & H1 & Hinv1).
    destruct (IH (S k) st1 ltac:(lia) Hinv1) as (st' & H' & Hinv').
    exists st'. split.
    + cbn [seq for_]. rewrite H1. exact H'.
    + replace (k + S m)%nat with (S k + m)%nat by lia. exact Hinv'.
Qed.

Lemma np_diff_length (a : list Q) : length (np_diff a) = (length a - 1)%nat.
Proof.
  induction a as [|x a IH]; [reflexivity|].
  destruct a as [|y a]; [reflexivity|].
  cbn [np_diff length] in *. rewrite IH. lia.
Qed.

Lemma ref_profile_ok (ref_model : card) :
  (1 <= length ref_model)%nat ->
  exists ref_depth ref_vs, ref_profile ref_model = Ok (ref_depth, ref_vs) /\
    (1 <= length (zip ref_depth ref_vs))%nat.
Proof.
  intros Hne. unfold ref_profile.
  destruct (getitem_signed_last ref_model Hne) as [ref_last Hlast].
  rewrite Hlast. cbn [mbind result_bind].
  eexists _, _. split; [reflexivity|].
  rewrite length_zip_with, !length_reverse, length_zip_with, !length_map.
  rewrite length_app, np_diff_length, length_map. simpl. lia.
Qed.

Lemma np_interp_ok (x : Q) (xp fp : list Q) :
  (1 <= length (zip xp fp))%nat -> exists v, np_interp x xp fp = Ok v.
Proof.
  intros H. unfold np_interp.
  destruct (zip xp fp) as [|[x0 f0] pts]; [simpl in H; lia|].
  destruct (Qlt_bool x x0); eauto.
Qed.

(** The whole of [setup_starting_model] on a consistent set-up: it returns
    a model; the loop invariant holds of it; on a valid set-up no layer
    below the first node has a negative thickness. *)
Lemma build_spec (ref_model : card) (s : SetupModel) :
  consistent s = true -> (1 <= length ref_model)%nat ->
  exists m, setup_starting_model ref_model s = Ok m /\
    length (vsv m) = length (thickness m) /\
    thickness m !! 0%nat = depth_limits s !! 0%nat /\
    length (boundary_inds m) = length (boundary_depths s) /\
    (forall j ib, boundary_inds m !! j = Some ib ->
       (1 <= ib)%nat /\ (ib + 1 < length (thickness m))%nat /\
       thickness m !! (ib + 1)%nat = Some (b_width s j) /\
       vsv m !! ib = boundary_vsv s !! (j * 2)%nat /\
       vsv m !! (ib + 1)%nat = boundary_vsv s !! (j * 2 + 1)%nat /\
       exists t, thickness m !! (ib - 1)%nat = Some t /\ t == filler s j) /\
    (valid_config s = true -> Forall (fun t => 0 <= t) (drop 1 (thickness m))).
Proof.
  intros Hcons Href.
  destruct (consistent_facts s Hcons) as (Hlu & Hlw & Hlv & Hld & Hmlt).
  unfold setup_starting_model.
  destruct (ref_profile_ok ref_model Href) as (rd & rv & Hprof & Hzip).
  rewrite Hprof. cbn [mbind result_bind].
  pose proof (lookup_default (depth_limits s) 0 ltac:(lia)) as Hd0.
  pose proof (lookup_default (depth_limits s) 1 ltac:(lia)) as Hd1.
  rewrite (getitem_Some _ _ _ Hd0). cbn [mbind result_bind].
  destruct (np_interp_ok (default 0 (depth_limits s !! 0%nat)) rd rv Hzip)
    as [v0 Hv0].
  rewrite Hv0. cbn [mbind result_bind].
  destruct (build_loop s Hcons (length (boundary_depths s)) 0
              ([v0], [default 0 (depth_limits s !! 0%nat)], []))
    as ([[vsv1 th] binds] & Hloop & Hinv); [lia | |].
  { cbn. split; [reflexivity|]. split; [symmetry; exact Hd0|].
    split; [lia|]. split; [ring|]. split; [reflexivity|].
    split; [intros j ib H; discriminate | intros _ _ _; constructor]. }
  rewrite Hloop. cbn [mbind result_bind].
  rewrite (getitem_Some _ _ _ Hd1). cbn [mbind result_bind].
  rewrite (int_floordiv_ok _ _ Hmlt). cbn [mbind result_bind].
  destruct (np_interp_ok (default 0 (depth_limits s !! 1%nat)) rd rv Hzip)
    as [vbase Hvbase].
  rewrite Hvbase. cbn [mbind result_bind].
  cbn [Nat.add] in Hinv.
  destruct Hinv as (Hlen & Hhd & Hne & Hsum & Hbl & Hbinds & Hnonneg).
  destruct (getitem_signed_last vsv1 ltac:(lia)) as [v_last Hv_last].
  rewrite Hv_last. cbn [mbind result_bind].
  set (gap := default 0 (depth_limits s !! 1%nat) - np_sum th).
  set (n := Z.max 1 (Qfloor (gap / min_layer_thickness s))).
  destruct (extend_vsv_ok ((vbase - v_last) / gap) (gap / inject_Z n)
              (Z.to_nat n) vsv1 ltac:(lia)) as (ext & Hvsv2 & Hext).
  rewrite Hvsv2. cbn [mbind result_bind].
  eexists. split; [reflexivity|]. cbn [vsv thickness boundary_inds].
  split; [rewrite !length_app, length_replicate; lia|].
  split; [rewrite lookup_app_l by lia; exact Hhd|].
  split; [exact Hbl|]. split.
  - intros j ib Hj.
    destruct (Hbinds j ib Hj) as (Hib1 & Hib2 & Hibw & Hvt & Hvb & t & Ht & Hteq).
    split; [exact Hib1|]. split; [rewrite length_app; lia|].
    split; [rewrite lookup_app_l by lia; exact Hibw|].
    split; [rewrite lookup_app_l by lia; exact Hvt|].
    split; [rewrite lookup_app_l by lia; exact Hvb|].
    exists t. split; [rewrite lookup_app_l by lia; exact Ht | exact Hteq].
  - intros Hvalid. unfold valid_config in Hvalid.
    rewrite !andb_true_iff in Hvalid.
    destruct Hvalid as ((((_ & Hwidths) & Hunc) & Hover) & Hbottom).
    rewrite drop_app_le by lia. apply Forall_app. split.
    + apply Hnonneg; [exact Hwidths | exact Hunc |].
      intros j Hj. rewrite forallb_forall in Hover.
      specialize (Hover j). rewrite negb_true_iff in Hover. apply Hover.
      apply in_seq. lia.
    + apply Forall_forall. intros t Ht.
      apply elem_of_replicate in Ht as [-> _].
      apply Qle_bool_iff in Hbottom.
      apply Qle_shift_div_l; [apply layers_count_pos | unfold gap; lra].
Qed.

End Builder.

(** ** The claims on setup_starting_model *)

Module BuilderClaims.
Import Facts DmDs Builder.

(** What the builder keeps on every valid set-up (and a reference card
    with a row): the model is returned; its first thickness is
    [depth_limits[0]], the depth of the first node (so 0 when the inverted
    region starts at the surface); the cumulative depths do not decrease;
    and each boundary's realized width [thickness[boundary_inds[j] + 1]] is
    the configured width of boundary [j], exactly. *)
Theorem build_invariants (ref_model : card) (s : SetupModel) :
  valid_config s = true -> (1 <= length ref_model)%nat ->
  exists m, setup_starting_model ref_model s = Ok m /\
    thickness m !! 0%nat = depth_limits s !! 0%nat /\
    (forall i, (i + 1 < length (thickness m))%nat ->
       node_depth m i <= node_depth m (i + 1)) /\
    length (boundary_inds m) = length (boundary_depths s) /\
    (forall j ib, boundary_inds m !! j = Some ib ->
       exists w, boundary_widths s !! j = Some w /\
                 thickness m !! (ib + 1)%nat = Some w).
Proof.
  intros Hvalid Href.
  assert (consistent s = true) as Hcons.
  { unfold valid_config in Hvalid. rewrite !andb_true_iff in Hvalid. tauto. }
  destruct (consistent_facts s Hcons) as (_ & Hlw & _).
  destruct (build_spec ref_model s Hcons Href)
    as (m & Hm & Hlen & Hhd & Hbl & Hbinds & Hnonneg).
  exists m. split; [exact Hm|]. split; [exact Hhd|]. split; [|split; [exact Hbl|]].
  - intros i Hi. specialize (Hnonneg Hvalid).
    rewrite (node_depth_succ m i _ (layer_thickness_lookup m (i + 1) Hi)).
    assert (0 <= layer_thickness m (i + 1)); [|lra].
    rewrite Forall_forall in Hnonneg. apply Hnonneg.
    apply list_elem_of_lookup. exists i. rewrite lookup_drop.
    replace (1 + i)%nat with (i + 1)%nat by lia.
    apply layer_thickness_lookup. exact Hi.
  - intros j ib Hj. destruct (Hbinds j ib Hj) as (_ & _ & Hw & _).
    exists (b_width s j). split; [|exact Hw].
    apply lookup_default. apply lookup_lt_Some in Hj. lia.
Qed.

(** C6, as the code behaves.  [setup_starting_model] has no check on
    overlapping boundaries and raises nothing: on every consistent set-up it
    returns a model, and above a boundary that overlaps what precedes it
    the single filler layer has the negative thickness
    [depth_top - padding - (previous depth_base + padding)]. *)
Theorem overlap_returns_model (ref_model : card) (s : SetupModel) :
  consistent s = true -> (1 <= length ref_model)%nat ->
  exists m, setup_starting_model ref_model s = Ok m /\
    length (boundary_inds m) = length (boundary_depths s) /\
    forall j ib, boundary_inds m !! j = Some ib -> overlaps s j = true ->
      exists t, thickness m !! (ib - 1)%nat = Some t /\
        t == reach_above s j - floor_of s j /\ t < 0.
Proof.
  intros Hcons Href.
  destruct (consistent_facts s Hcons) as (_ & _ & _ & _ & Hmlt).
  destruct (build_spec ref_model s Hcons Href)
    as (m & Hm & _ & _ & Hbl & Hbinds & _).
  exists m. split; [exact Hm|]. split; [exact Hbl|].
  intros j ib Hj Hover.
  destruct (Hbinds j ib Hj) as (_ & _ & _ & _ & _ & t & Ht & Hteq).
  exists t. split; [exact Ht|].
  unfold overlaps in Hover. apply Qlt_bool_iff in Hover.
  assert (Z.max 1 (Qfloor ((reach_above s j - floor_of s j)
                           / min_layer_thickness s)) = 1%Z) as Hone.
  { assert ((reach_above s j - floor_of s j) / min_layer_thickness s < 0) as Hneg
      by (apply Qlt_shift_div_r; [exact Hmlt | lra]).
    pose proof (Qfloor_le ((reach_above s j - floor_of s j)
                           / min_layer_thickness s)) as Hfl.
    assert (inject_Z (Qfloor ((reach_above s j - floor_of s j)
                              / min_layer_thickness s)) < inject_Z 0) as Hlt
      by (change (inject_Z 0) with 0; lra).
    rewrite <- Zlt_Qlt in Hlt. lia. }
  unfold filler in Hteq. rewrite Hone in Hteq.
  assert (t == reach_above s j - floor_of s j) as Heq.
  { rewrite Hteq. field. }
  split; [exact Heq | lra].
Qed.

(** C4.  For the literal scenario (depth limits 0 and 100 km, one boundary
    at 30 km, 5 km wide, uncertain by 2 km, velocities 4.0 and 4.5, layers of
    at least 6 km) and any reference card with a row, the model is returned
    with one boundary index [ib]; the node at [ib] has velocity 4.0, the
    next node 4.5, and [thickness[ib + 1]] is 5. *)
Theorem literal_scenario (ref_model : card) :
  (1 <= length ref_model)%nat ->
  exists m ib, setup_starting_model ref_model scenario_setup = Ok m /\
    boundary_inds m = [ib] /\
    vsv m !! ib = Some 4 /\
    vsv m !! (ib + 1)%nat = Some 4.5 /\
    thickness m !! (ib + 1)%nat = Some 5.
Proof.
  intros Href.
  destruct (build_spec ref_model scenario_setup eq_refl Href)
    as (m & Hm & _ & _ & Hbl & Hbinds & _).
  destruct (boundary_inds m) as [|ib [|ib' binds]] eqn:E;
    cbn in Hbl; try discriminate.
  exists m, ib. split; [exact Hm|]. split; [exact E|].
  destruct (Hbinds 0%nat ib) as (_ & _ & Hw & Hvt & Hvb & _); [reflexivity|].
  split; [exact Hvt|]. split; [exact Hvb | exact Hw].
Qed.

(** On the sample reference card the scenario's boundary index is 4: three
    layers of 6.5 km are laid above the boundary's padding. *)
Lemma literal_scenario_run :
  exists m, setup_starting_model sample_ref scenario_setup = Ok m /\
    boundary_inds m = [4%nat] /\
    map Qred (thickness m)
    = map Qred ([0; 6.5; 6.5; 6.5; 8; 5; 8] ++ replicate 9 (59.5 / 9)).
Proof.
  eexists. split; [vm_compute; reflexivity|]. split; reflexivity.
Qed.

(** C3.  The code breaks the claim, and the docstring of [InversionModel]
    (the first value of [thickness] will be 0 always): on a valid set-up
    whose inverted region starts 10 km down, the first thickness of the
    model returned is 10, not 0. *)
Lemma first_thickness_not_zero :
  valid_config offset_setup = true /\
  exists m t, setup_starting_model sample_ref offset_setup = Ok m /\
    thickness m !! 0%nat = Some t /\ ~ t == 0.
Proof.
  split; [reflexivity|].
  eexists _, _. split; [vm_compute; reflexivity|].
  split; [reflexivity|]. intros H. discriminate H.
Qed.

(** C6 fails as stated: on a set-up whose second boundary overlaps the
    first a model is returned, and nothing is raised. *)
Lemma overlapping_boundaries_build :
  overlaps overlapping_setup 1 = true /\
  (exists m, setup_starting_model sample_ref overlapping_setup = Ok m) /\
  ~ (exists e, setup_starting_model sample_ref overlapping_setup = Raise e).
Proof.
  split; [reflexivity|]. split.
  - eexists. vm_compute. reflexivity.
  - intros [e He]. vm_compute in He. discriminate He.
Qed.

End BuilderClaims.

(** ** Splicing into the reference card *)

Module Splice.
Import Facts DmDs Builder.

Lemma ref_values_at_interp (x : Q) (ref_model : card) (f : column -> Q) :
  ref_values_at x ref_model = Ok f ->
  forall col, ref_value_at x ref_model col = Ok (f col).
Proof.
  unfold ref_values_at, ref_value_at, np_interp.
  destruct ref_model as [|r0 rest]; [discriminate|].
  intros H col. injection H as <-. cbn [map zip zip_with].
  destruct (Qlt_bool x (radius r0)); reflexivity.
Qed.

Lemma ref_values_at_ok (x : Q) (ref_model : card) :
  (1 <= length ref_model)%nat -> exists f, ref_values_at x ref_model = Ok f.
Proof.
  destruct ref_model as [|r0 rest]; [simpl; lia|]. intros _.
  eexists. reflexivity.
Qed.

Lemma below_spec (ref_model new_model : card) :
  (1 <= length ref_model)%nat -> (1 <= length new_model)%nat ->
  exists out new_first ref_at_edge,
    new_model !! 0%nat = Some new_first /\
    smooth_to_ref_model_below ref_model new_model = Ok out /\
    (forall col,
       ref_value_at (radius new_first) ref_model col = Ok (ref_at_edge col)) /\
    (forall row, In row out ->
       exists r, In r ref_model /\ spliced_below new_first ref_at_edge r row) /\
    (forall r, In r ref_model -> radius r < radius new_first ->
       exists row, In row out /\ spliced_below new_first ref_at_edge r row).
Proof.
  intros Href Hnew.
  destruct (lookup_lt_is_Some_2 new_model 0 Hnew) as [new_first Hfirst].
  destruct (ref_values_at_ok (radius new_first) ref_model Href) as [f Hf].
  unfold smooth_to_ref_model_below.
  rewrite (getitem_Some _ _ _ Hfirst). cbn [mbind result_bind].
  rewrite Hf. cbn [mbind result_bind].
  eexists _, new_first, f. split; [exact Hfirst|]. split; [reflexivity|].
  split; [apply ref_values_at_interp; exact Hf|]. split.
  - intros row Hin. apply in_app_iff in Hin as [Hin|Hin].
    + apply filter_In in Hin as [Hin Hc]. order_facts.
      exists row. split; [exact Hin|]. split; [reflexivity|].
      left. split; [exact Hc | reflexivity].
    + apply in_map_iff in Hin as (r & <- & Hin).
      apply filter_In in Hin as [Hin Hc]. order_facts.
      exists r. split; [exact Hin|]. split; [reflexivity|].
      right. split; [assumption|]. split; [assumption | reflexivity].
  - intros r Hin Hlt.
    destruct (Qlt_le_dec (radius r) (radius new_first - smooth_z)) as [Hb|Hb].
    + exists r. split.
      * apply in_app_iff. left. apply filter_In. split; [exact Hin|].
        apply Qlt_bool_iff. exact Hb.
      * split; [reflexivity|]. left. split; [exact Hb | reflexivity].
    + eexists. split.
      * apply in_app_iff. right. apply in_map_iff. exists r.
        split; [reflexivity|]. apply filter_In. split; [exact Hin|].
        apply andb_true_iff. split; [apply Qle_bool_iff | apply Qlt_bool_iff];
          assumption.
      * split; [reflexivity|]. right.
        split; [exact Hb|]. split; [exact Hlt | reflexivity].
Qed.

Lemma above_spec (ref_model new_model : card) :
  (1 <= length ref_model)%nat -> (1 <= length new_model)%nat ->
  exists out new_last ref_at_edge,
    getitem_signed new_model (-1) = Ok new_last /\
    smooth_to_ref_model_above ref_model new_model = Ok out /\
    (forall col,
       ref_value_at (radius new_last) ref_model col = Ok (ref_at_edge col)) /\
    (forall row, In row out ->
       exists r, In r ref_model /\ spliced_above new_last ref_at_edge r row) /\
    (forall r, In r ref_model -> radius new_last < radius r ->
       exists row, In row out /\ spliced_above new_last ref_at_edge r row).
Proof.
  intros Href Hnew.
  destruct (getitem_signed_last new_model Hnew) as [new_last Hlast].
  destruct (ref_values_at_ok (radius new_last) ref_model Href) as [f Hf].
  unfold smooth_to_ref_model_above.
  rewrite Hlast. cbn [mbind result_bind].
  rewrite Hf. cbn [mbind result_bind].
  eexists _, new_last, f. split; [reflexivity|]. split; [reflexivity|].
  split; [apply ref_values_at_interp; exact Hf|]. split.
  - intros row Hin. apply in_app_iff in Hin as [Hin|Hin].
    + apply in_map_iff in Hin as (r & <- & Hin).
      apply filter_In in Hin as [Hin Hc]. order_facts.
      exists r. split; [exact Hin|]. split; [reflexivity|].
      right. split; [assumption|]. split; [assumption | reflexivity].
    + apply filter_In in Hin as [Hin Hc]. order_facts.
      exists row. split; [exact Hin|]. split; [reflexivity|].
      left. split; [exact Hc | reflexivity].
  - intros r Hin Hlt.
    destruct (Qlt_le_dec (radius new_last + smooth_z) (radius r)) as [Hb|Hb].
    + exists r. split.
      * apply in_app_iff. right. apply filter_In. split; [exact Hin|].
        apply Qlt_bool_iff. exact Hb.
      * split; [reflexivity|]. left. split; [exact Hb | reflexivity].
    + eexists. split.
      * apply in_app_iff. left. apply in_map_iff. exists r.
        split; [reflexivity|]. apply filter_In. split; [exact Hin|].
        apply andb_true_iff. split; [apply Qlt_bool_iff | apply Qle_bool_iff];
          assumption.
      * split; [reflexivity|]. right.
        split; [exact Hlt|]. split; [exact Hb | reflexivity].
Qed.

End Splice.

(** ** The claim on the splice *)

Module SpliceClaims.
Import Splice.

(** C9, as the code behaves.  Below the new model, a reference row of
    radius [r] is untouched when [r] lies under the 100 km band; in the band
    its value in every column is the reference value at [r] plus
    [fraction * (new model's edge value - reference value interpolated at
    the edge radius)], where [fraction] is the fractional distance across
    the band toward the new model.  Above the new model the same holds with
    the band over the last row.  The outputs hold these rows and no other. *)
Theorem splice_as_coded (ref_model new_model : card) :
  (1 <= length ref_model)%nat -> (1 <= length new_model)%nat ->
  (exists out new_first ref_at_edge,
     new_model !! 0%nat = Some new_first /\
     smooth_to_ref_model_below ref_model new_model = Ok out /\
     (forall col,
        ref_value_at (radius new_first) ref_model col = Ok (ref_at_edge col)) /\
     (forall row, In row out ->
        exists r, In r ref_model /\ spliced_below new_first ref_at_edge r row) /\
     (forall r, In r ref_model -> radius r < radius new_first ->
        exists row, In row out /\ spliced_below new_first ref_at_edge r row)) /\
  (exists out new_last ref_at_edge,
     getitem_signed new_model (-1) = Ok new_last /\
     smooth_to_ref_model_above ref_model new_model = Ok out /\
     (forall col,
        ref_value_at (radius new_last) ref_model col = Ok (ref_at_edge col)) /\
     (forall row, In row out ->
        exists r, In r ref_model /\ spliced_above new_last ref_at_edge r row) /\
     (forall r, In r ref_model -> radius new_last < radius r ->
        exists row, In row out /\ spliced_above new_last ref_at_edge r row)).
Proof.
  intros Href Hnew. split.
  - apply below_spec; assumption.
  - apply above_spec; assumption.
Qed.

(** C9 fails as stated.  Half-way across the band below the new model the
    reference card holds 10 and the new model's edge value is 50, so that
    the blend of the specification is 30; the code adds half of the offset
    at the edge, [50 - 20], to the reference value and returns 25. *)
Lemma blend_differs_from_spec :
  exists out row,
    smooth_to_ref_model_below rising_ref shallow_new_model = Ok out /\
    out !! 1%nat = Some row /\ radius row = 150000 /\
    ref_value_at 150000 rising_ref col_vsv = Ok 10 /\
    (radius row - (200000 - smooth_z)) / smooth_z == 1 # 2 /\
    value row col_vsv == 25 /\
    spec_blend (1 # 2) 50 10 == 30 /\
    ~ value row col_vsv == spec_blend (1 # 2) 50 10.
Proof.
  eexists _, _. split; [reflexivity|]. split; [reflexivity|].
  split; [reflexivity|]. split; [reflexivity|].
  split; [reflexivity|]. split; [reflexivity|]. split; [reflexivity|].
  intros H. vm_compute in H. discriminate H.
Qed.

End SpliceClaims.

(** ** The theorems at sample inputs *)

Module Runs.
Import Facts.

Lemma sample_model_well_formed : well_formed sample_model.
Proof. split; [reflexivity | repeat constructor]. Defined.

Lemma degenerate_model_well_formed : well_formed degenerate_model.
Proof. split; [reflexivity | repeat constructor]. Defined.

(** C1 on the sample model: 5 km down, half-way through the 10 km layer
    above the boundary, the entry is [-(4 - 3) * 5 / 10^2]. *)
Lemma dm_dt_column_witness :
  well_formed sample_model /\
  exists M v, _calculate_dm_dt sample_model sample_depth = Ok M /\
    entry M 1 0 = Some v /\ v == - (1 # 20).
Proof.
  split; [exact sample_model_well_formed|].
  destruct (DmDtClaims.dm_dt_column sample_model sample_depth 0 1 10 5
              sample_model_well_formed eq_refl ltac:(lia) eq_refl eq_refl
              eq_refl eq_refl) as (M & HM & HE).
  destruct (HE 1%nat 5 eq_refl) as (v & Hv & H1 & _).
  exists M, v. split; [exact HM|]. split; [exact Hv|].
  rewrite H1; [reflexivity | split; reflexivity].
Defined.

Lemma sample_model_increasing (j : nat) :
  (j + 1 < 5)%nat -> node_depth sample_model j < node_depth sample_model (j + 1).
Proof.
  intros Hj. destruct j as [|[|[|[|j]]]]; [reflexivity .. | lia].
Defined.

(** C2 on the sample model: 5 km down, column 1 holds [(5 - 0) / 10]. *)
Lemma dm_ds_column_witness :
  exists M v, _calculate_dm_ds sample_model sample_depth = Ok M /\
    entry M 1 1 = Some v /\ v == 1 # 2.
Proof.
  destruct (DmDsClaims.dm_ds_column sample_model sample_depth 5 1
              eq_refl eq_refl sample_model_increasing ltac:(lia))
    as (M & HM & HE).
  destruct (HE 1%nat 5 eq_refl) as (v & Hv & H1 & _).
  exists M, v. split; [exact HM|]. split; [exact Hv|].
  rewrite H1; [reflexivity | lia | split; [reflexivity | discriminate]].
Defined.

(** C10 on the sample model: the row 5 km down sums to 1. *)
Lemma dm_ds_row_witness :
  Forall (fun t => 0 < t) (drop 1 (thickness sample_model)) /\
  exists M row, _calculate_dm_ds sample_model sample_depth = Ok M /\
    M !! 1%nat = Some row /\ length row = 4%nat /\ np_sum row == 1.
Proof.
  assert (Forall (fun t => 0 < t) (drop 1 (thickness sample_model))) as Hpos
    by (repeat constructor).
  split; [exact Hpos|].
  destruct (DmDsClaims.dm_ds_row_partition_of_unity sample_model sample_depth 5
              eq_refl eq_refl ltac:(lia) Hpos) as (M & HM & HE).
  destruct (HE 1%nat 5 eq_refl) as (row & Hrow & Hlen & _ & Hsum);
    [discriminate | discriminate |].
  exists M, row. split; [exact HM|]. split; [exact Hrow|].
  split; [exact Hlen | exact Hsum].
Defined.

(** X30 on the sample table: two periods, four velocity columns and one
    boundary column. *)
Lemma jacobian_dimensions_witness :
  exists A,
    _build_partial_derivatives_matrix sample_kernels sample_model scenario_setup
    = Ok (Arr2 A) /\
    length A = 2%nat /\ Forall (fun row => length row = 5%nat) A.
Proof.
  destruct (JacobianClaims.jacobian_dimensions sample_kernels sample_model
              scenario_setup ltac:(simpl; lia) eq_refl eq_refl
              sample_model_well_formed ltac:(simpl; lia))
    as (G & HG & _ & Htwo).
  destruct (Htwo ltac:(vm_compute; lia)) as (A & -> & Hrows & Hcols).
  exists A. split; [exact HG|]. split; [exact Hrows | exact Hcols].
Defined.

(** C8 with [vsv_vsh_ratio = 2]: the Vsh entry under 3 is 3 / 2. *)
Lemma scaled_blocks_witness :
  entry (_scale_dvsv_dp_to_other_variables [[1; 2]; [3; 4]] halving_setup) 3 0
  = Some (3 / 2) /\
  exists vsh,
    entry (_scale_dvsv_dp_to_other_variables [[1; 2]; [3; 4]] halving_setup) 3 0
    = Some vsh /\ 2 * vsh == 3.
Proof.
  pose proof (Scaling.scaled_blocks [[1; 2]; [3; 4]] halving_setup 1 0 3 eq_refl)
    as (_ & _ & Hvsh & _ & _ & _ & Hhalf).
  split; [exact Hvsh|].
  destruct (Hhalf ltac:(reflexivity)) as (vsh & Hv & _ & H2).
  exists vsh. split; [exact Hv | exact H2].
Defined.

(** The invariants of the builder on the set-up that starts 10 km down. *)
Lemma build_invariants_witness :
  valid_config offset_setup = true /\
  exists m, setup_starting_model sample_ref offset_setup = Ok m /\
    thickness m !! 0%nat = Some 10 /\
    length (boundary_inds m) = 1%nat.
Proof.
  split; [reflexivity|].
  destruct (BuilderClaims.build_invariants sample_ref offset_setup eq_refl
              ltac:(simpl; lia)) as (m & Hm & Hhd & _ & Hbl & _).
  exists m. split; [exact Hm|]. split; [exact Hhd | exact Hbl].
Defined.

(** C4 on the sample reference card. *)
Lemma literal_scenario_witness :
  exists m ib, setup_starting_model sample_ref scenario_setup = Ok m /\
    boundary_inds m = [ib] /\
    vsv m !! ib = Some 4 /\
    vsv m !! (ib + 1)%nat = Some 4.5 /\
    thickness m !! (ib + 1)%nat = Some 5.
Proof.
  exact (BuilderClaims.literal_scenario sample_ref ltac:(simpl; lia)).
Defined.

(** C6 on the overlapping set-up: the filler above the second boundary is
    [29.5 - 40.5] km thick. *)
Lemma overlap_returns_model_witness :
  consistent overlapping_setup = true /\
  overlaps overlapping_setup 1 = true /\
  exists m, setup_starting_model sample_ref overlapping_setup = Ok m /\
    length (boundary_inds m) = 2%nat.
Proof.
  split; [reflexivity|]. split; [reflexivity|].
  destruct (BuilderClaims.overlap_returns_model sample_ref overlapping_setup
              eq_refl ltac:(simpl; lia)) as (m & Hm & Hbl & _).
  exists m. split; [exact Hm | exact Hbl].
Defined.

(** C5 on the degenerate model: the builder returns. *)
Lemma degenerate_boundary_witness :
  exists G,
    _build_partial_derivatives_matrix sample_kernels degenerate_model
      scenario_setup = Ok G.
Proof.
  exact (proj1 ErrorClaims.degenerate_boundary_no_error
           sample_kernels degenerate_model scenario_setup
           ltac:(simpl; lia) eq_refl eq_refl degenerate_model_well_formed
           ltac:(simpl; lia)).
Defined.

(** C5 fails as stated: with a boundary whose overlying thickness and
    whose width are both 0 the builder returns its matrix and raises
    nothing. *)
Lemma degenerate_boundary_returns :
  boundary_inds degenerate_model !! 0%nat = Some 2%nat /\
  thickness degenerate_model !! 2%nat = Some 0 /\
  thickness degenerate_model !! 3%nat = Some 0 /\
  (exists G,
     _build_partial_derivatives_matrix sample_kernels degenerate_model
       scenario_setup = Ok G) /\
  ~ (exists e,
       _build_partial_derivatives_matrix sample_kernels degenerate_model
         scenario_setup = Raise e).
Proof.
  split; [reflexivity|]. split; [reflexivity|]. split; [reflexivity|]. split.
  - eexists. vm_compute. reflexivity.
  - intros [e He]. vm_compute in He. discriminate He.
Qed.

(** C9 on the rising reference card. *)
Lemma splice_as_coded_witness :
  exists out,
    smooth_to_ref_model_below rising_ref shallow_new_model = Ok out.
Proof.
  destruct (SpliceClaims.splice_as_coded rising_ref shallow_new_model
              ltac:(simpl; lia) ltac:(simpl; lia))
    as ((out & _ & _ & _ & Hout & _) & _).
  exists out. exact Hout.
Defined.

End Runs.

(** * Further properties of the code *)

(** ** The set-up model feeds the Jacobian *)

Module Composition.
Import Facts DmDs DmDt JacobianShape Builder.

(** X1.  Whatever the order and spacing of the boundaries, the model that
    [setup_starting_model] returns on a consistent set-up has as many
    velocities as thicknesses and a base node for every boundary, so that
    [_convert_to_model_kernels] returns on it, for any card depths, a matrix
    with a row per depth and [len(vsv) - 1 + len(boundary_inds)] columns. *)
Theorem built_model_feeds_kernels (ref_model : card) (s : SetupModel)
    (depth : list Q) :
  consistent s = true -> (1 <= length ref_model)%nat ->
  exists m, setup_starting_model ref_model s = Ok m /\
    well_formed m /\
    exists M, _convert_to_model_kernels depth m = Ok M /\
      shape M (length depth)
            (length (vsv m) - 1 + length (boundary_depths s)).
Proof.
  intros Hcons Href.
  destruct (build_spec ref_model s Hcons Href)
    as (m & Hm & Hlen & Hhd & Hbl & Hbinds & _).
  destruct (consistent_facts s Hcons) as (_ & _ & _ & Hld & _).
  assert (well_formed m) as Hwf.
  { split; [exact Hlen|]. apply Forall_forall. intros ib Hin.
    apply list_elem_of_lookup in Hin as [j Hj].
    destruct (Hbinds j ib Hj) as (_ & H & _). exact H. }
  assert (1 <= length (thickness m))%nat as Hne.
  { destruct (lookup_lt_is_Some_2 (depth_limits s) 0 ltac:(lia)) as [d Hd].
    rewrite Hd in Hhd. apply lookup_lt_Some in Hhd. lia. }
  exists m. split; [exact Hm|]. split; [exact Hwf|].
  destruct (length (vsv m)) as [|nl] eqn:Hv; [lia|].
  destruct (convert_to_model_kernels_shape depth m nl Hwf Hv) as (M & HM & HS).
  exists M. split; [exact HM|].
  rewrite <- Hbl. replace (S nl - 1)%nat with nl by lia. exact HS.
Qed.

Lemma getitem_None {A} (a : list A) (k : nat) :
  (length a <= k)%nat -> getitem a k = Raise IndexError.
Proof. intros H. unfold getitem. rewrite lookup_ge_None_2 by lia. reflexivity. Qed.

(** The pass above a boundary needs only its top node. *)
Lemma shallower_t_ok (model : InversionModel) (i ib cols : nat)
    (depth : list Q) (M : matrix) :
  length (vsv model) = length (thickness model) ->
  (ib < length (thickness model))%nat ->
  boundary_inds model !! i = Some ib -> (i < cols)%nat ->
  shape M (length depth) cols ->
  exists M', _convert_kernels_d_shallowerm_by_d_t model i depth M = Ok M' /\
    shape M' (length depth) cols.
Proof.
  intros Hlen Hin Hib Hi HS. unfold _convert_kernels_d_shallowerm_by_d_t.
  rewrite (getitem_Some _ _ _ Hib). cbn [mbind result_bind].
  rewrite (getitem_Some _ _ _ (layer_thickness_lookup model ib Hin)).
  cbn [mbind result_bind].
  destruct (column_loop depth i cols
              (fun z => Qlt_bool (np_sum (take ib (thickness model))) z
                        && Qlt_bool z (np_sum (take (ib + 1) (thickness model))))
              (fun z => - (((node_vsv model ib - vsv_above model ib)
                            * (z - np_sum (take ib (thickness model))))
                           / layer_thickness model ib ^ 2))
              (fun i_d M0 =>
                 s_ib ← getitem (vsv model) ib;
                 s_ib_minus_1 ← getitem_signed (vsv model) (Z.of_nat ib - 1);
                 z ← getitem depth i_d;
                 setitem M0 i_d i
                   (- (((s_ib - s_ib_minus_1)
                        * (z - np_sum (take ib (thickness model))))
                       / layer_thickness model ib ^ 2)))
              M HS Hi) as (M' & HM' & HS' & _).
  { intros r z M0 Hz _.
    rewrite (getitem_Some _ _ _ (node_vsv_lookup model ib ltac:(lia))).
    rewrite (getitem_signed_above model ib ltac:(lia)).
    rewrite (getitem_Some _ _ _ Hz). reflexivity. }
  exists M'. split; [exact HM' | exact HS'].
Qed.

(** The three passes over the column of a boundary that has no base node
    end in an IndexError: at [thickness[ib]] when even the top node is
    missing, else at [thickness[ib + 1]]. *)
Lemma baseless_boundary_raises (model : InversionModel) (i ib cols : nat)
    (depth : list Q) (M : matrix) :
  length (vsv model) = length (thickness model) ->
  (length (thickness model) <= ib + 1)%nat ->
  boundary_inds model !! i = Some ib -> (i < cols)%nat ->
  shape M (length depth) cols ->
  (M1 ← _convert_kernels_d_shallowerm_by_d_t model i depth M;
   M2 ← _convert_kernels_d_withinboundarym_by_d_t model i depth M1;
   _convert_kernels_d_deeperm_by_d_t model i depth M2) = Raise IndexError.
Proof.
  intros Hlen Hbad Hib Hi HS.
  destruct (Nat.lt_ge_cases ib (length (thickness model))) as [Hin|Hout].
  - destruct (shallower_t_ok model i ib cols depth M Hlen Hin Hib Hi HS)
      as (M1 & HM1 & _).
    rewrite HM1. cbn [mbind result_bind].
    unfold _convert_kernels_d_withinboundarym_by_d_t.
    rewrite (getitem_Some _ _ _ Hib). cbn [mbind result_bind].
    rewrite (getitem_None (thickness model) (ib + 1)) by lia. reflexivity.
  - unfold _convert_kernels_d_shallowerm_by_d_t.
    rewrite (getitem_Some _ _ _ Hib). cbn [mbind result_bind].
    rewrite (getitem_None (thickness model) ib) by lia. reflexivity.
Qed.

Lemma baseless_loop (model : InversionModel) (depth : list Q) :
  length (vsv model) = length (thickness model) ->
  forall (m k : nat) (M : matrix),
  (k + m = length (boundary_inds model))%nat ->
  shape M (length depth) (length (boundary_inds model)) ->
  Exists (fun ib => (length (thickness model) <= ib + 1)%nat)
         (drop k (boundary_inds model)) ->
  for_ (seq k m) (fun i M =>
    M1 ← _convert_kernels_d_shallowerm_by_d_t model i depth M;
    M2 ← _convert_kernels_d_withinboundarym_by_d_t model i depth M1;
    _convert_kernels_d_deeperm_by_d_t model i depth M2) M = Raise IndexError.
Proof.
  intros Hlen. induction m as [|m IH]; intros k M Hkm HS Hex.
  - rewrite drop_ge in Hex by lia. inversion Hex.
  - destruct (lookup_lt_is_Some_2 (boundary_inds model) k) as [ib Hib]; [lia|].
    rewrite (drop_S _ _ _ Hib) in Hex. cbn [seq for_].
    destruct (Nat.lt_ge_cases (ib + 1) (length (thickness model))) as [Hgood|Hbad].
    + destruct (shallower_t_spec model k ib (length (boundary_inds model)) depth Hlen Hgood
                  Hib ltac:(lia) M HS)
        as (M1 & HM1 & HS1 & _).
      destruct (within_t_spec model k ib (length (boundary_inds model)) depth Hlen Hgood
                  Hib ltac:(lia) M1 HS1)
        as (M2 & HM2 & HS2 & _).
      destruct (deeper_t_spec model k ib (length (boundary_inds model)) depth Hlen Hgood
                  Hib ltac:(lia) M2 HS2)
        as (M3 & HM3 & HS3 & _).
      rewrite HM1. cbn [mbind result_bind]. rewrite HM2. cbn [mbind result_bind].
      rewrite HM3. cbn [mbind result_bind].
      apply IH; [lia | exact HS3 |].
      apply Exists_cons in Hex as [Hhere|Hlater]; [lia | exact Hlater].
    + rewrite (baseless_boundary_raises model k ib
                 (length (boundary_inds model)) depth M Hlen Hbad Hib
                 ltac:(lia) HS).
      reflexivity.
Qed.

(** X2.  A boundary index without a base node ([boundary_inds[i] + 1] not
    an index of [thickness]) makes [_calculate_dm_dt] raise IndexError,
    wherever it stands among the boundaries and whatever the card depths. *)
Theorem dm_dt_needs_base_nodes (model : InversionModel) (depth : list Q) :
  length (vsv model) = length (thickness model) ->
  Exists (fun ib => (length (thickness model) <= ib + 1)%nat)
         (boundary_inds model) ->
  _calculate_dm_dt model depth = Raise IndexError.
Proof.
  intros Hlen Hex. unfold _calculate_dm_dt.
  apply (baseless_loop model depth Hlen); [lia | apply shape_zeros | exact Hex].
Qed.

(** X3.  The velocity columns of dm/ds come first in the matrix of
    [_convert_to_model_kernels], in node order, and the boundary columns of
    dm/dt follow, in boundary order: column [len(vsv) - 1 + i] is column [i]
    of dm/dt. *)
Theorem kernel_columns_layout (model : InversionModel) (depth : list Q) :
  well_formed model -> (1 <= length (vsv model))%nat ->
  exists Ms Mt M,
    _calculate_dm_ds model depth = Ok Ms /\
    _calculate_dm_dt model depth = Ok Mt /\
    _convert_to_model_kernels depth model = Ok M /\
    forall r, (r < length depth)%nat ->
      (forall c, (c < length (vsv model) - 1)%nat ->
         entry M r c = entry Ms r c) /\
      (forall i, (i < length (boundary_inds model))%nat ->
         entry M r (length (vsv model) - 1 + i) = entry Mt r i).
Proof.
  intros Hwf Hv. destruct (length (vsv model)) as [|nl] eqn:Hlen; [lia|].
  destruct (calculate_dm_ds_shape model depth nl Hlen) as (Ms & HMs & HSs).
  { destruct Hwf as [<- _]. exact Hlen. }
  destruct (calculate_dm_dt_spec model depth Hwf) as (Mt & HMt & HSt & _).
  exists Ms, Mt, (zip_with app Ms Mt).
  split; [exact HMs|]. split; [exact HMt|]. split.
  { unfold _convert_to_model_kernels. rewrite HMs. cbn [mbind result_bind].
    rewrite HMt. cbn [mbind result_bind]. unfold np_hstack.
    destruct HSs as [-> _], HSt as [-> _]. rewrite Nat.eqb_refl. reflexivity. }
  intros r Hr. replace (S nl - 1)%nat with nl by lia.
  destruct (lookup_lt_is_Some_2 Ms r) as [rs Hrs]; [destruct HSs; lia|].
  destruct (lookup_lt_is_Some_2 Mt r) as [rt Hrt]; [destruct HSt; lia|].
  assert (length rs = nl) as Hls by (eapply shape_row; eauto).
  unfold entry. rewrite lookup_zip_with, Hrs, Hrt. cbn [mbind option_bind].
  split.
  - intros c Hc. apply lookup_app_l. lia.
  - intros i Hi. rewrite lookup_app_r by lia.
    replace (nl + i - length rs)%nat with i by lia. reflexivity.
Qed.

End Composition.

(** ** The product with the kernels *)

Module ChainRule.
Import Facts DmDs DmDt JacobianShape.

Lemma dot_nil_r (v : list Q) : dot v [] = 0.
Proof. destruct v; reflexivity. Qed.

Lemma dot_app (v1 v2 c1 c2 : list Q) :
  length v1 = length c1 ->
  dot (v1 ++ v2) (c1 ++ c2) == dot v1 c1 + dot v2 c2.
Proof.
  revert c1. induction v1 as [|x v1 IH]; intros [|y c1] H; simpl in H;
    try discriminate.
  - simpl. ring.
  - cbn [app dot]. rewrite IH by lia. ring.
Qed.

Lemma dot_zero_l (v c : list Q) : dot (map (fun _ => 0) v) c == 0.
Proof.
  revert c. induction v as [|x v IH]; intros [|y c]; cbn [map dot];
    try reflexivity.
  rewrite IH. ring.
Qed.

Lemma dot_map_r (f : Q -> Q) (k : Q) (v c : list Q) :
  (forall y, f y == k * y) -> dot v (map f c) == k * dot v c.
Proof.
  intros Hf. revert c. induction v as [|x v IH]; intros [|y c]; cbn [map dot];
    try ring.
  rewrite IH, Hf. ring.
Qed.

Lemma column_app (j : nat) (A B : matrix) :
  matrix_column j (A ++ B) = matrix_column j A ++ matrix_column j B.
Proof. unfold matrix_column. apply map_app. Qed.

Lemma column_length (j : nat) (M : matrix) : length (matrix_column j M) = length M.
Proof. unfold matrix_column. apply length_map. Qed.

Lemma column_map (f : Q -> Q) (j cols : nat) (M : matrix) :
  Forall (fun row => length row = cols) M -> (j < cols)%nat ->
  matrix_column j (map (map f) M) = map f (matrix_column j M).
Proof.
  intros HF Hj. unfold matrix_column. rewrite !map_map. apply map_ext_Forall.
  eapply Forall_impl; [exact HF|]. intros row Hrow. cbv beta in Hrow |- *.
  destruct (lookup_lt_is_Some_2 row j) as [x Hx]; [lia|].
  rewrite list_lookup_fmap, Hx. reflexivity.
Qed.

(** Entry [j] of a row vector times a matrix. *)
Lemma vecmat_fold_entry (cols j : nat) (B : matrix) :
  Forall (fun row => length row = cols) B -> (j < cols)%nat ->
  forall (v acc : list Q) (a : Q),
  length acc = cols -> acc !! j = Some a ->
  exists g,
    fold_left (fun acc xr => zip_with Qplus acc (map (Qmult (fst xr)) (snd xr)))
              (zip v B) acc !! j = Some g /\
    g == a + dot v (matrix_column j B).
Proof.
  intros HF Hj. induction HF as [|row B Hrow HF IH]; intros v acc a Hacc Ha.
  - exists a. destruct v; cbn; (split; [exact Ha | ring]).
  - destruct v as [|x v].
    + exists a. cbn. split; [exact Ha | ring].
    + destruct (lookup_lt_is_Some_2 row j) as [y Hy]; [lia|].
      cbn [zip zip_with fold_left fst snd].
      destruct (IH v (zip_with Qplus acc (map (Qmult x) row)) (a + x * y))
        as (g & Hg & Hgeq).
      * rewrite length_zip_with, length_map. lia.
      * rewrite lookup_zip_with, Ha, list_lookup_fmap, Hy. reflexivity.
      * exists g. split; [exact Hg|].
        rewrite Hgeq. unfold matrix_column. cbn [map dot]. rewrite Hy.
        cbn [default from_option Datatypes.id]. ring.
Qed.

Lemma vecmat_entry (rows cols j : nat) (v : list Q) (B : matrix) :
  shape B rows cols -> (1 <= rows)%nat -> (j < cols)%nat ->
  exists g, vecmat v B !! j = Some g /\ g == dot v (matrix_column j B).
Proof.
  intros [HL HF] Hne Hj. unfold vecmat.
  assert (ncols B = cols) as ->.
  { destruct B as [|row B]; [simpl in HL; lia|].
    simpl. apply Forall_cons in HF as [H _]. exact H. }
  destruct (vecmat_fold_entry cols j B HF Hj v (replicate cols 0) 0)
    as (g & Hg & Hgeq).
  - apply length_replicate.
  - apply lookup_replicate_2. exact Hj.
  - exists g. split; [exact Hg|]. rewrite Hgeq. ring.
Qed.

(** The rows that the stacking loop has laid down. *)
Lemma stack_rows (kernels : kernel_table) (periods : list Q) :
  forall (m k : nat) (G G' : ndarray),
  length (atleast_2d G) = k ->
  (forall p period, (p < k)%nat -> periods !! p = Some period ->
     exists row, _hstack_frechet_kernels kernels period = Ok row /\
                 atleast_2d G !! p = Some row) ->
  for_ (seq k m) (fun i_p G_Rayleigh =>
    period ← getitem periods i_p;
    row ← _hstack_frechet_kernels kernels period;
    np_vstack G_Rayleigh (Arr1 row)) G = Ok G' ->
  forall p period, (p < k + m)%nat -> periods !! p = Some period ->
    exists row, _hstack_frechet_kernels kernels period = Ok row /\
                atleast_2d G' !! p = Some row.
Proof.
  induction m as [|m IH]; intros k G G' HG Hrows Hrun p period Hp Hper.
  - cbn in Hrun. injection Hrun as <-. apply Hrows; [lia | exact Hper].
  - cbn [seq for_] in Hrun.
    destruct (getitem periods k) as [pk|] eqn:Hk; [|discriminate].
    cbn [mbind result_bind] in Hrun.
    destruct (_hstack_frechet_kernels kernels pk) as [rowk|] eqn:Hrowk;
      [|discriminate].
    cbn [mbind result_bind] in Hrun. unfold np_vstack in Hrun.
    destruct (same_width _); [|discriminate].
    cbn [mbind result_bind atleast_2d] in Hrun.
    eapply (IH (S k)); [| | exact Hrun | lia | exact Hper].
    + cbn [atleast_2d]. rewrite length_app. simpl. lia.
    + intros q pq Hq Hpq. cbn [atleast_2d].
      destruct (Nat.lt_ge_cases q k) as [Hlt|Hge].
      * destruct (Hrows q pq Hlt Hpq) as (row & Hrow & Hin).
        exists row. split; [exact Hrow|]. rewrite lookup_app_l by lia. exact Hin.
      * assert (q = k) as -> by lia.
        unfold getitem in Hk. rewrite Hpq in Hk. injection Hk as ->.
        exists rowk. split; [exact Hrowk|].
        rewrite lookup_app_r by lia. rewrite HG, Nat.sub_diag. reflexivity.
Qed.

Lemma build_G_rows (kernels : kernel_table) (G : ndarray) :
  _build_MINEOS_G_matrix kernels = Ok G ->
  forall p period, np_unique (map k_period kernels) !! p = Some period ->
    exists row, _hstack_frechet_kernels kernels period = Ok row /\
                atleast_2d G !! p = Some row.
Proof.
  unfold _build_MINEOS_G_matrix. intros Hrun p period Hper.
  destruct (getitem (np_unique (map k_period kernels)) 0) as [p0|] eqn:Hp0;
    [|discriminate].
  cbn [mbind result_bind] in Hrun.
  destruct (_hstack_frechet_kernels kernels p0) as [row0|] eqn:Hrow0;
    [|discriminate].
  cbn [mbind result_bind] in Hrun.
  eapply (stack_rows kernels _ _ 1 (Arr1 row0) G eq_refl);
    [| exact Hrun | | exact Hper].
  - intros q pq Hq Hpq. assert (q = 0%nat) as -> by lia.
    unfold getitem in Hp0. rewrite Hpq in Hp0. injection Hp0 as ->.
    exists row0. split; [exact Hrow0 | reflexivity].
  - apply lookup_lt_Some in Hper. lia.
Qed.

Lemma hstack_rayleigh_row (kernels : kernel_table) (period : Q) (row : list Q) :
  rayleigh_only kernels = true ->
  _hstack_frechet_kernels kernels period = Ok row ->
  row = select_period k_vsv kernels period
        ++ map (fun _ => 0) (select_period k_vsv kernels period)
        ++ select_period k_vpv kernels period
        ++ select_period k_vph kernels period
        ++ select_period k_eta kernels period.
Proof.
  intros Hray. unfold _hstack_frechet_kernels.
  destruct kernels as [|first rest]; [discriminate|].
  cbn [getitem lookup list_lookup mbind result_bind].
  unfold rayleigh_only in Hray. cbn [forallb] in Hray.
  apply andb_true_iff in Hray as [-> _]. intros H. injection H as <-. reflexivity.
Qed.

(** One entry of a Rayleigh row of G times the scaled matrix. *)
Lemma rayleigh_row_times_scaled (kernels : kernel_table) (period : Q)
    (Mk : matrix) (setup_model : SetupModel) (cols j : nat) :
  Forall (fun row => length row = cols) Mk -> (j < cols)%nat ->
  length (select_period k_vsv kernels period) = length Mk ->
  dot (select_period k_vsv kernels period
       ++ map (fun _ => 0) (select_period k_vsv kernels period)
       ++ select_period k_vpv kernels period
       ++ select_period k_vph kernels period
       ++ select_period k_eta kernels period)
      (matrix_column j (_scale_dvsv_dp_to_other_variables Mk setup_model))
  == dot (select_period k_vsv kernels period) (matrix_column j Mk)
     + vpv_vsv_ratio setup_model
       * dot (select_period k_vpv kernels period) (matrix_column j Mk)
     + vpv_vsv_ratio setup_model / vpv_vph_ratio setup_model
       * dot (select_period k_vph kernels period) (matrix_column j Mk).
Proof.
  intros HF Hj Hlen. unfold _scale_dvsv_dp_to_other_variables.
  rewrite !column_app, !(column_map _ j cols Mk HF Hj).
  rewrite dot_app by (rewrite column_length; exact Hlen).
  rewrite dot_app by (rewrite !length_map, column_length; exact Hlen).
  rewrite dot_app
    by (rewrite length_map, column_length, select_period_length; exact Hlen).
  rewrite dot_app
    by (rewrite length_map, column_length, select_period_length; exact Hlen).
  rewrite dot_zero_l.
  rewrite (dot_map_r _ (vpv_vsv_ratio setup_model)) by (intros y; ring).
  rewrite (dot_map_r _ (vpv_vsv_ratio setup_model / vpv_vph_ratio setup_model))
    by (intros y; unfold Qdiv; ring).
  rewrite (dot_map_r _ 0) by (intros y; ring).
  ring.
Qed.

(** X4.  On a complete Rayleigh table, the entry of the Jacobian for a
    period and a parameter [j] is the sum over the card depths of
    [(K_vsv + vpv_vsv_ratio * K_vpv + vpv_vsv_ratio / vpv_vph_ratio * K_vph)]
    times column [j] of the matrix of [_convert_to_model_kernels]: the Vsh
    block of a Rayleigh row is zero and the Eta kernel meets the zero block,
    so neither [vsv_vsh_ratio] nor the Eta kernel enters. *)
Theorem rayleigh_chain_rule (kernels : kernel_table) (model : InversionModel)
    (setup_model : SetupModel) :
  (1 <= length kernels)%nat -> rayleigh_only kernels = true ->
  complete_table kernels = true ->
  well_formed model -> (1 <= length (vsv model))%nat ->
  exists G Mk,
    _convert_to_model_kernels (pd_unique (map k_z kernels)) model = Ok Mk /\
    _build_partial_derivatives_matrix kernels model setup_model = Ok G /\
    forall p period j,
      np_unique (map k_period kernels) !! p = Some period ->
      (j < length (vsv model) - 1 + length (boundary_inds model))%nat ->
      exists g, entry (atleast_2d G) p j = Some g /\
        g == dot (select_period k_vsv kernels period) (matrix_column j Mk)
             + vpv_vsv_ratio setup_model
               * dot (select_period k_vpv kernels period) (matrix_column j Mk)
             + vpv_vsv_ratio setup_model / vpv_vph_ratio setup_model
               * dot (select_period k_vph kernels period) (matrix_column j Mk).
Proof.
  intros Hne Hray Hcomp Hwf Hv.
  destruct (length (vsv model)) as [|nl] eqn:Hlen; [lia|].
  replace (S nl - 1)%nat with nl by lia.
  destruct (build_G_spec kernels Hne Hray Hcomp) as (G0 & HG0 & HL0 & HF0 & _).
  set (depth := pd_unique (map k_z kernels)) in *.
  assert (1 <= length depth)%nat as Hnz
    by (apply pd_unique_length; rewrite length_map; exact Hne).
  destruct (convert_to_model_kernels_shape depth model nl Hwf Hlen)
    as (Mk & HM & HS).
  pose proof (scale_shape Mk setup_model _ _ HS) as HB.
  set (B := _scale_dvsv_dp_to_other_variables Mk setup_model) in *.
  assert (length B = (5 * length depth)%nat) as HBlen by (destruct HB; assumption).
  assert (forall row, In row (atleast_2d G0) ->
            Nat.eqb (length row) (length B) = true) as Hrows.
  { intros row Hin. apply Nat.eqb_eq. rewrite HBlen.
    rewrite Forall_forall in HF0. apply HF0, list_elem_of_In, Hin. }
  assert (forall p period j,
            np_unique (map k_period kernels) !! p = Some period ->
            (j < nl + length (boundary_inds model))%nat ->
            exists row g, atleast_2d G0 !! p = Some row /\
              vecmat row B !! j = Some g /\
              g == dot (select_period k_vsv kernels period) (matrix_column j Mk)
                   + vpv_vsv_ratio setup_model
                     * dot (select_period k_vpv kernels period) (matrix_column j Mk)
                   + vpv_vsv_ratio setup_model / vpv_vph_ratio setup_model
                     * dot (select_period k_vph kernels period) (matrix_column j Mk))
    as Hentry.
  { intros p period j Hper Hj.
    destruct (build_G_rows kernels G0 HG0 p period Hper) as (row & Hrow & Hin).
    destruct (vecmat_entry _ _ j row B HB ltac:(lia) Hj) as (g & Hg & Hgeq).
    exists row, g. split; [exact Hin|]. split; [exact Hg|].
    rewrite Hgeq, (hstack_rayleigh_row kernels period row Hray Hrow).
    destruct HS as [HSl HSf].
    apply (rayleigh_row_times_scaled kernels period Mk setup_model _ j HSf Hj).
    rewrite HSl. unfold complete_table in Hcomp. rewrite forallb_forall in Hcomp.
    apply Nat.eqb_eq, Hcomp, list_elem_of_In, list_elem_of_lookup. eauto. }
  unfold _build_partial_derivatives_matrix.
  rewrite HG0. cbn [mbind result_bind]. fold depth. rewrite HM.
  cbn [mbind result_bind]. fold B. unfold np_matmul.
  destruct G0 as [v|A]; cbn [atleast_2d] in *.
  - rewrite (Hrows v ltac:(left; reflexivity)).
    eexists _, Mk. split; [reflexivity|]. split; [reflexivity|].
    intros p period j Hper Hj.
    destruct (Hentry p period j Hper Hj) as (row & g & Hin & Hg & Hgeq).
    exists g. split; [|exact Hgeq]. unfold entry. cbn [atleast_2d].
    destruct p as [|p]; [|destruct p; discriminate].
    cbn in Hin. injection Hin as ->. exact Hg.
  - assert (forallb (fun row => Nat.eqb (length row) (length B)) A = true) as ->
      by (apply forallb_forall; exact Hrows).
    eexists _, Mk. split; [reflexivity|]. split; [reflexivity|].
    intros p period j Hper Hj.
    destruct (Hentry p period j Hper Hj) as (row & g & Hin & Hg & Hgeq).
    exists g. split; [|exact Hgeq]. unfold entry. cbn [atleast_2d].
    rewrite list_lookup_fmap, Hin. exact Hg.
Qed.

(** On the sample table column 0 holds 1, 0.4 and 0 at the three card
    depths, and the first entry is [2 * 1.4 + 1.75 * 1.4 + 1.75 * 1.4]. *)
Lemma rayleigh_chain_rule_witness :
  exists G g,
    _build_partial_derivatives_matrix sample_kernels sample_model scenario_setup
    = Ok G /\
    entry (atleast_2d G) 0 0 = Some g /\ g == 77 # 10.
Proof.
  destruct (rayleigh_chain_rule sample_kernels sample_model scenario_setup
              ltac:(simpl; lia) eq_refl eq_refl Runs.sample_model_well_formed
              ltac:(simpl; lia)) as (G & Mk & HMk & HG & HE).
  destruct (HE 0%nat 10 0%nat eq_refl ltac:(simpl; lia)) as (g & Hg & Hgeq).
  exists G, g. split; [exact HG|]. split; [exact Hg|].
  rewrite Hgeq. vm_compute in HMk. injection HMk as <-. reflexivity.
Defined.

End ChainRule.

(** ** Where setup_starting_model puts the boundaries *)

Module Placement.
Import Facts DmDs Builder.

Lemma getitem_signed_last_val (l : list Q) :
  (1 <= length l)%nat -> getitem_signed l (-1) = Ok (default 0 (last l)).
Proof.
  intros H. unfold getitem_signed.
  destruct (Z.leb_spec 0 (-1)) as [Hpos|_]; [lia|].
  destruct (Z.leb_spec (- Z.of_nat (length l)) (-1)) as [_|Hlt]; [|lia].
  rewrite last_lookup.
  replace (Z.to_nat (Z.of_nat (length l) + -1)) with (pred (length l)) by lia.
  destruct (lookup_lt_is_Some_2 l (pred (length l))) as [v Hv]; [lia|].
  rewrite Hv. apply getitem_Some. exact Hv.
Qed.

Lemma length_ramp (v step : Q) (count : nat) : length (ramp v step count) = count.
Proof.
  revert v. induction count as [|n IH]; intros v; [reflexivity|].
  cbn [ramp length]. rewrite IH. reflexivity.
Qed.

Lemma lookup_ramp (v step : Q) (count i : nat) (x : Q) :
  ramp v step count !! i = Some x ->
  x == v + inject_Z (Z.of_nat (i + 1)) * step.
Proof.
  revert v i. induction count as [|n IH]; intros v i H; [discriminate|].
  cbn [ramp] in H. destruct i as [|i].
  - injection H as <-. change (inject_Z (Z.of_nat (0 + 1))) with 1. ring.
  - cbn [lookup list_lookup] in H. fold (@lookup nat Q (list Q) _) in H.
    rewrite (IH _ _ H).
    replace (Z.of_nat (S i + 1)) with (Z.of_nat (i + 1) + 1)%Z by lia.
    rewrite inject_Z_plus. change (inject_Z 1) with 1. ring.
Qed.

(** [extend_vsv] appends a ramp to the list it is given. *)
Lemma extend_vsv_ramp (grad thick : Q) (count : nat) (vsv : list Q) :
  (1 <= length vsv)%nat ->
  extend_vsv grad thick count vsv
  = Ok (vsv ++ ramp (default 0 (last vsv)) (grad * thick) count).
Proof.
  unfold extend_vsv. intros Hne. generalize O as start. revert vsv Hne.
  induction count as [|count IH]; intros vsv Hne start.
  - cbn [ramp]. rewrite app_nil_r. reflexivity.
  - cbn [seq for_]. rewrite (getitem_signed_last_val vsv Hne).
    cbn [mbind result_bind].
    rewrite (IH (vsv ++ [default 0 (last vsv) + grad * thick]))
      by (rewrite length_app; simpl; lia).
    rewrite last_snoc. cbn [ramp default from_option Datatypes.id].
    rewrite <- app_assoc. reflexivity.
Qed.

(** One turn of the loop, with the lists it returns. *)
Lemma boundary_step_run (s : SetupModel) (k : nat) (vsv0 th : list Q)
    (binds : list nat) :
  consistent s = true -> (k < length (boundary_depths s))%nat ->
  (1 <= length vsv0)%nat ->
  boundary_step s k (vsv0, th, binds)
  = Ok ((vsv0 ++ filler_velocities s k vsv0 th)
        ++ [default 0 (boundary_vsv s !! (k * 2)%nat);
            default 0 (boundary_vsv s !! (k * 2 + 1)%nat);
            default 0 (boundary_vsv s !! (k * 2 + 1)%nat)],
        th ++ boundary_layers s k (reach_above s k - np_sum th),
        binds
        ++ [(length (th ++ boundary_layers s k (reach_above s k - np_sum th))
             - 3)%nat]).
Proof.
  intros Hcons Hk Hne.
  destruct (consistent_facts s Hcons) as (Hlu & Hlw & Hlv & Hld & Hmlt).
  pose proof (lookup_default (boundary_vsv s) (k * 2) ltac:(lia)) as Hvt.
  pose proof (lookup_default (boundary_vsv s) (k * 2 + 1) ltac:(lia)) as Hvb.
  pose proof (lookup_default (boundary_depths s) k Hk) as Hd.
  pose proof (lookup_default (boundary_widths s) k ltac:(lia)) as Hw.
  pose proof (lookup_default (boundary_depth_uncertainty s) k ltac:(lia)) as Hu.
  fold (b_depth s k) in Hd. fold (b_width s k) in Hw. fold (b_uncertainty s k) in Hu.
  unfold boundary_step.
  rewrite (getitem_Some _ _ _ Hvt), (getitem_Some _ _ _ Hvb),
          (getitem_Some _ _ _ Hd), (getitem_Some _ _ _ Hw),
          (getitem_Some _ _ _ Hu).
  cbn [mbind result_bind].
  fold (padding s k). fold (depth_top s k). fold (reach_above s k).
  rewrite (int_floordiv_ok _ _ Hmlt). cbn [mbind result_bind].
  rewrite (getitem_signed_last_val vsv0 Hne). cbn [mbind result_bind].
  fold (filler_count s (reach_above s k - np_sum th)).
  fold (filler_thickness s (reach_above s k - np_sum th)).
  rewrite extend_vsv_ramp by exact Hne. cbn [mbind result_bind].
  reflexivity.
Qed.

Lemma filler_count_pos (s : SetupModel) (gap : Q) : (1 <= filler_count s gap)%nat.
Proof. unfold filler_count. lia. Qed.

Lemma boundary_layers_length (s : SetupModel) (k : nat) (gap : Q) :
  length (boundary_layers s k gap) = (filler_count s gap + 3)%nat.
Proof.
  unfold boundary_layers. rewrite !length_app, length_replicate. simpl. lia.
Qed.

Lemma fillers_sum (s : SetupModel) (gap : Q) :
  np_sum (replicate (filler_count s gap) (filler_thickness s gap)) == gap.
Proof. unfold filler_count, filler_thickness. apply layers_sum. lia. Qed.

(** A filler is as thick as [filler] says once the running depth is known. *)
Lemma filler_thickness_filler (s : SetupModel) (k : nat) (sum : Q) :
  sum == floor_of s k ->
  filler_thickness s (reach_above s k - sum) == filler s k.
Proof.
  intros Hsum. unfold filler_thickness, filler.
  rewrite (Qfloor_comp ((reach_above s k - sum) / min_layer_thickness s)
             ((reach_above s k - floor_of s k) / min_layer_thickness s))
    by (rewrite Hsum; reflexivity).
  rewrite Hsum. reflexivity.
Qed.

Lemma boundary_layers_sum (s : SetupModel) (k : nat) (gap : Q) :
  np_sum (boundary_layers s k gap)
  == gap + padding s k + b_width s k + padding s k.
Proof.
  unfold boundary_layers. rewrite np_sum_app, fillers_sum.
  cbn [app]. rewrite !np_sum_cons. unfold np_sum. cbn [fold_left].
  unfold reach_above. ring.
Qed.

Lemma boundary_layers_kinds (s : SetupModel) (k i : nat) (sum t : Q) :
  sum == floor_of s k ->
  boundary_layers s k (reach_above s k - sum) !! i = Some t ->
  t == filler s k \/ t == padding s k \/
  (t = b_width s k /\ i = (filler_count s (reach_above s k - sum) + 1)%nat).
Proof.
  intros Hsum. unfold boundary_layers.
  rewrite lookup_app_Some, length_replicate.
  intros [Hrep | [Hi Hrest]].
  - apply lookup_replicate in Hrep as [-> _].
    left. apply filler_thickness_filler. exact Hsum.
  - cbn [app] in Hrest.
    destruct (i - filler_count s (reach_above s k - sum))%nat
      as [|[|[|i']]] eqn:Ei; cbn in Hrest; try discriminate;
      injection Hrest as <-.
    + right. left. unfold reach_above. ring.
    + right. right. split; [reflexivity | lia].
    + right. left. ring.
Qed.

Lemma placement_step (s : SetupModel) (k : nat) (st : build_state) :
  consistent s = true -> (k < length (boundary_depths s))%nat ->
  placement_invariant s k st ->
  exists st', boundary_step s k st = Ok st' /\ placement_invariant s (S k) st'.
Proof.
  intros Hcons Hk Hinv. destruct st as [[vsv0 th] binds].
  destruct Hinv as (Hv & Hne & Hsum & Hbl & Hplaces & Hkinds).
  pose proof (boundary_step_run s k vsv0 th binds Hcons Hk Hv) as Hrun.
  eexists. split; [exact Hrun|].
  set (gap := reach_above s k - np_sum th) in *.
  set (L := boundary_layers s k gap) in *.
  pose proof (boundary_layers_length s k gap) as HL. fold L in HL.
  pose proof (filler_count_pos s gap) as Hnn.
  set (reps := replicate (filler_count s gap) (filler_thickness s gap)).
  assert (length reps = filler_count s gap) as Hreps by apply length_replicate.
  assert (L = reps ++ [depth_top s k - reach_above s k] ++ [b_width s k]
                   ++ [depth_top s k + b_width s k + padding s k
                       - (depth_top s k + b_width s k)]) as HLeq by reflexivity.
  unfold placement_invariant.
  split; [rewrite !length_app; simpl; lia|].
  split; [rewrite length_app; lia|].
  split.
  { rewrite np_sum_app. unfold L. rewrite boundary_layers_sum.
    cbn [floor_of]. unfold gap, reach_below, reach_above. ring. }
  split; [rewrite length_app, Hbl; simpl; lia|].
  split.
  - intros j ib Hj. destruct (Nat.lt_ge_cases j k) as [Hjk|Hjk].
    + rewrite lookup_app_l in Hj by lia.
      destruct (Hplaces j ib Hj) as (Hib & Htop & Hbase).
      split; [rewrite length_app; lia|].
      rewrite !take_app_le by lia. split; [exact Htop | exact Hbase].
    + rewrite lookup_app_r in Hj by lia.
      assert (j = k) as -> by (apply lookup_lt_Some in Hj; simpl in Hj; lia).
      rewrite Hbl, Nat.sub_diag in Hj. cbn in Hj. injection Hj as <-.
      rewrite length_app, HL.
      replace (length th + (filler_count s gap + 3) - 3)%nat
        with (length th + length reps)%nat by lia.
      split; [lia|].
      replace (length th + length reps + 1)%nat
        with (length th + (length reps + 1))%nat by lia.
      replace (length th + length reps + 2)%nat
        with (length th + (length reps + 2))%nat by lia.
      rewrite !take_app_add, HLeq, !take_app_add. cbn [take app].
      rewrite !np_sum_app. unfold reps. rewrite fillers_sum.
      rewrite !np_sum_cons. unfold np_sum at 2 4. cbn [fold_left].
      unfold gap, reach_above. split; ring.
  - intros p t Hp Ht. destruct (Nat.lt_ge_cases p (length th)) as [Hin|Hout].
    + rewrite lookup_app_l in Ht by lia.
      destruct (Hkinds p t Hp Ht) as (j & Hj & Hkind).
      exists j. split; [lia|].
      destruct Hkind as [Hf | [Hpad | [Hw Hpos]]]; auto.
      right. right. split; [exact Hw|].
      rewrite lookup_app_l; [exact Hpos|].
      apply lookup_lt_Some in Hpos. exact Hpos.
    + rewrite lookup_app_r in Ht by lia.
      exists k. split; [lia|].
      destruct (boundary_layers_kinds s k _ (np_sum th) t Hsum Ht)
        as [Hf | [Hpad | [Hw Hpos]]]; auto.
      right. right. split; [exact Hw|].
      rewrite lookup_app_r by lia. rewrite Hbl, Nat.sub_diag. cbn.
      f_equal. rewrite length_app, HL. fold gap in Hpos. lia.
Qed.

Lemma filler_thickness_comp (s : SetupModel) (g g' : Q) :
  g == g' -> filler_thickness s g == filler_thickness s g'.
Proof.
  intros Hg. unfold filler_thickness.
  rewrite (Qfloor_comp (g / min_layer_thickness s) (g' / min_layer_thickness s))
    by (rewrite Hg; reflexivity).
  rewrite Hg. reflexivity.
Qed.

(** A gap of at least the minimum is cut into layers of at least the
    minimum and of less than twice the minimum. *)
Lemma filler_thickness_bounds (s : SetupModel) (gap : Q) :
  0 < min_layer_thickness s -> min_layer_thickness s <= gap ->
  min_layer_thickness s <= filler_thickness s gap /\
  filler_thickness s gap < 2 * min_layer_thickness s.
Proof.
  intros Hm Hgap. unfold filler_thickness.
  set (q := gap / min_layer_thickness s).
  assert (1 <= q) as Hq.
  { unfold q. apply Qle_shift_div_l; [exact Hm | lra]. }
  assert (1 <= Qfloor q)%Z as Hn.
  { change 1%Z with (Qfloor 1). apply Qfloor_resp_le. exact Hq. }
  rewrite Z.max_r by lia.
  pose proof (Qfloor_le q) as Hlo. pose proof (Qlt_floor q) as Hhi.
  rewrite inject_Z_plus in Hhi. change (inject_Z 1) with 1 in Hhi.
  assert (1 <= inject_Z (Qfloor q)) as Hn1.
  { change 1 with (inject_Z 1). rewrite <- Zle_Qle. exact Hn. }
  assert (gap == q * min_layer_thickness s) as Hgq.
  { unfold q. field. lra. }
  split.
  - apply Qle_shift_div_l; [lra|]. rewrite Hgq.
    rewrite (Qmult_comm (min_layer_thickness s)).
    apply Qmult_le_compat_r; lra.
  - apply Qlt_shift_div_r; [lra|]. rewrite Hgq.
    apply Qlt_le_trans
      with ((inject_Z (Qfloor q) + 1) * min_layer_thickness s).
    + apply Qmult_lt_compat_r; lra.
    + assert (2 * min_layer_thickness s * inject_Z (Qfloor q)
              == (2 * inject_Z (Qfloor q)) * min_layer_thickness s) as ->
        by ring.
      apply Qmult_le_compat_r; lra.
Qed.

(** A gap below the minimum is one layer, as thick as the gap. *)
Lemma filler_thickness_thin (s : SetupModel) (gap : Q) :
  0 < min_layer_thickness s -> gap < min_layer_thickness s ->
  filler_thickness s gap == gap.
Proof.
  intros Hm Hgap. unfold filler_thickness.
  assert (Qfloor (gap / min_layer_thickness s) < 1)%Z as Hn.
  { rewrite Zlt_Qlt. apply Qle_lt_trans with (gap / min_layer_thickness s).
    - apply Qfloor_le.
    - change (inject_Z 1) with 1. apply Qlt_shift_div_r; [exact Hm | lra]. }
  rewrite Z.max_l by lia. change (inject_Z 1) with 1. field.
Qed.

Lemma placement_loop (s : SetupModel) :
  consistent s = true ->
  forall (m k : nat) (st : build_state),
  (k + m <= length (boundary_depths s))%nat ->
  placement_invariant s k st ->
  exists st', for_ (seq k m) (boundary_step s) st = Ok st' /\
    placement_invariant s (k + m) st'.
Proof.
  intros Hcons. induction m as [|m IH]; intros k st Hkm Hinv.
  - exists st. split; [reflexivity|]. rewrite Nat.add_0_r. exact Hinv.
  - destruct (placement_step s k st Hcons ltac:(lia) Hinv) as (st1 & H1 & Hinv1).
    destruct (IH (S k) st1 ltac:(lia) Hinv1) as (st' & H' & Hinv').
    exists st'. split.
    + cbn [seq for_]. rewrite H1. exact H'.
    + replace (k + S m)%nat with (S k + m)%nat by lia. exact Hinv'.
Qed.

Lemma anchor_snoc (binds : list nat) (x j : nat) :
  (j <= length binds)%nat -> anchor (binds ++ [x]) j = anchor binds j.
Proof.
  intros Hj. destruct j as [|j]; [reflexivity|].
  cbn [anchor]. rewrite lookup_app_l by lia. reflexivity.
Qed.

Lemma anchor_snoc_last (binds : list nat) (x : nat) :
  anchor (binds ++ [x]) (S (length binds)) = (x + 2)%nat.
Proof.
  cbn [anchor]. rewrite lookup_app_r by lia. rewrite Nat.sub_diag. reflexivity.
Qed.

Lemma np_sum_take_fillers (s : SetupModel) (k i : nat) (gap : Q) :
  (i <= filler_count s gap)%nat ->
  np_sum (take i (boundary_layers s k gap))
  == inject_Z (Z.of_nat i) * filler_thickness s gap.
Proof.
  intros Hi. unfold boundary_layers.
  rewrite take_app_le by (rewrite length_replicate; lia).
  rewrite take_replicate, Nat.min_l by lia. apply np_sum_replicate.
Qed.

Lemma gradient_step (s : SetupModel) (v0 : Q) (k : nat) (st : build_state) :
  consistent s = true -> (k < length (boundary_depths s))%nat ->
  placement_invariant s k st -> gradient_invariant s v0 k st ->
  exists st', boundary_step s k st = Ok st' /\
    placement_invariant s (S k) st' /\ gradient_invariant s v0 (S k) st'.
Proof.
  intros Hcons Hk Hinv Hgrad.
  destruct (placement_step s k st Hcons Hk Hinv) as (st' & Hrun' & Hinv').
  exists st'. split; [exact Hrun'|]. split; [exact Hinv'|].
  destruct st as [[vsv0 th] binds].
  destruct Hinv as (Hv & Hne & Hsum & Hbl & Hplaces & Hkinds).
  destruct Hgrad as (Hlen & Hanc & Hv0 & Hb).
  rewrite (boundary_step_run s k vsv0 th binds Hcons Hk Hv) in Hrun'.
  injection Hrun' as <-.
  destruct Hinv' as (_ & _ & _ & _ & Hplaces' & _).
  set (gap := reach_above s k - np_sum th) in *.
  set (L := boundary_layers s k gap) in *.
  set (ext := filler_velocities s k vsv0 th) in *.
  pose proof (boundary_layers_length s k gap) as HL. fold L in HL.
  pose proof (filler_count_pos s gap) as Hnn.
  assert (length ext = filler_count s gap) as Hext
    by (unfold ext, filler_velocities; apply length_ramp).
  assert ((length (th ++ L) - 3)%nat = (length th + filler_count s gap)%nat)
    as Hibk by (rewrite length_app; lia).
  rewrite Hibk in *.
  unfold gradient_invariant.
  split; [rewrite !length_app; simpl; lia|].
  split.
  { replace (S k) with (S (length binds)) by lia.
    rewrite anchor_snoc_last, length_app. lia. }
  split; [rewrite !lookup_app_l by (rewrite ?length_app; lia); exact Hv0|].
  intros j ib Hj. destruct (Nat.lt_ge_cases j k) as [Hjk|Hjk].
  - rewrite lookup_app_l in Hj by lia.
    rewrite anchor_snoc by lia.
    destruct (Hb j ib Hj) as (Ha & Ht & Hb1 & Hb2 & Hline).
    pose proof (lookup_lt_Some _ _ _ Hb2) as Hib2.
    rewrite !lookup_app_l by (rewrite ?length_app; lia).
    split; [exact Ha|]. split; [exact Ht|]. split; [exact Hb1|].
    split; [exact Hb2|].
    intros Hne' p v va Hp Hpv Hpa.
    rewrite !lookup_app_l in Hpv by (rewrite ?length_app; lia).
    rewrite ?lookup_app_l in Hpa by (rewrite ?length_app; lia).
    rewrite take_app_le by lia.
    exact (Hline Hne' p v va Hp Hpv Hpa).
  - rewrite lookup_app_r in Hj by lia.
    assert (j = k) as -> by (apply lookup_lt_Some in Hj; simpl in Hj; lia).
    rewrite Hbl, Nat.sub_diag in Hj. cbn in Hj. injection Hj as <-.
    rewrite anchor_snoc by lia.
    assert (anchor binds k = (length th - 1)%nat) as Ha by lia.
    rewrite Ha.
    assert (forall i x, [default 0 (boundary_vsv s !! (k * 2)%nat);
                         default 0 (boundary_vsv s !! (k * 2 + 1)%nat);
                         default 0 (boundary_vsv s !! (k * 2 + 1)%nat)] !! i
                        = Some x ->
              ((vsv0 ++ ext) ++
               [default 0 (boundary_vsv s !! (k * 2)%nat);
                default 0 (boundary_vsv s !! (k * 2 + 1)%nat);
                default 0 (boundary_vsv s !! (k * 2 + 1)%nat)])
              !! (length th + filler_count s gap + i)%nat = Some x) as Hends.
    { intros i x Hi. rewrite lookup_app_r by (rewrite length_app; lia).
      replace (length th + filler_count s gap + i - length (vsv0 ++ ext))%nat
        with i by (rewrite length_app; lia).
      exact Hi. }
    split; [lia|].
    split.
    { rewrite <- (Nat.add_0_r (length th + filler_count s gap)).
      apply Hends. reflexivity. }
    split; [apply Hends; reflexivity|].
    split; [apply Hends; reflexivity|].
    intros Hne' p v va Hp Hpv Hpa.
    rewrite ?lookup_app_l in Hpa by (rewrite ?length_app; lia).
    assert (default 0 (last vsv0) = va) as Hlast.
    { rewrite last_lookup.
      replace (pred (length vsv0)) with (length th - 1)%nat by lia.
      rewrite Hpa. reflexivity. }
    assert (~ depth_top s k - floor_of s k == 0) as Hden
      by (intros H0; apply Hne'; lra).
    unfold on_line.
    destruct (Nat.lt_ge_cases p (length th)) as [Hp1|Hp1].
    + assert (p = (length th - 1)%nat) as -> by lia.
      rewrite !lookup_app_l in Hpv by (rewrite ?length_app; lia).
      rewrite Hpa in Hpv. injection Hpv as <-.
      replace (length th - 1 + 1)%nat with (length th) by lia.
      rewrite take_app_le, take_ge by lia. rewrite Hsum. field. exact Hden.
    + destruct (Nat.lt_ge_cases p (length th + filler_count s gap)) as [Hp2|Hp2].
      * rewrite lookup_app_l in Hpv by (rewrite length_app; lia).
        rewrite lookup_app_r in Hpv by lia.
        unfold ext, filler_velocities in Hpv. apply lookup_ramp in Hpv.
        rewrite Hlast in Hpv. fold gap in Hpv.
        replace (p - length vsv0 + 1)%nat with (p + 1 - length th)%nat
          in Hpv by lia.
        replace (p + 1)%nat with (length th + (p + 1 - length th))%nat at 1
          by lia.
        rewrite take_app_add, np_sum_app. unfold L.
        rewrite np_sum_take_fillers by lia.
        rewrite Hpv, Hsum. field. exact Hden.
      * assert (p = (length th + filler_count s gap)%nat) as -> by lia.
        rewrite <- (Nat.add_0_r (length th + filler_count s gap)) in Hpv at 1.
        rewrite (Hends 0%nat _ eq_refl) in Hpv. injection Hpv as <-.
        destruct (Hplaces' k (length th + filler_count s gap)%nat)
          as (_ & Htop & _).
        { rewrite lookup_app_r by lia. rewrite Hbl, Nat.sub_diag. reflexivity. }
        rewrite Htop. field. exact Hden.
Qed.

(** The whole of [setup_starting_model]: the layers it returns add up to
    the lower depth limit, each boundary lies at its configured depth, and
    every layer below the first node is a filler, a padding or a boundary
    layer. *)
Lemma build_placement (ref_model : card) (s : SetupModel) :
  consistent s = true -> (1 <= length ref_model)%nat ->
  exists m, setup_starting_model ref_model s = Ok m /\
    np_sum (thickness m) == default 0 (depth_limits s !! 1%nat) /\
    (forall j ib, boundary_inds m !! j = Some ib ->
       node_depth m ib == depth_top s j /\
       node_depth m (ib + 1) == depth_top s j + b_width s j) /\
    (forall p t, (1 <= p)%nat -> thickness m !! p = Some t ->
       (exists j, (j < length (boundary_depths s))%nat /\
          (t == filler s j \/ t == padding s j \/
           (t = b_width s j /\ boundary_inds m !! j = Some (p - 1)%nat)))
       \/ t == filler_thickness s (bottom_gap s)).
Proof.
  intros Hcons Href.
  destruct (consistent_facts s Hcons) as (Hlu & Hlw & Hlv & Hld & Hmlt).
  unfold setup_starting_model.
  destruct (ref_profile_ok ref_model Href) as (rd & rv & Hprof & Hzip).
  rewrite Hprof. cbn [mbind result_bind].
  pose proof (lookup_default (depth_limits s) 0 ltac:(lia)) as Hd0.
  pose proof (lookup_default (depth_limits s) 1 ltac:(lia)) as Hd1.
  rewrite (getitem_Some _ _ _ Hd0). cbn [mbind result_bind].
  destruct (np_interp_ok (default 0 (depth_limits s !! 0%nat)) rd rv Hzip)
    as [v0 Hv0].
  rewrite Hv0. cbn [mbind result_bind].
  destruct (placement_loop s Hcons (length (boundary_depths s)) 0
              ([v0], [default 0 (depth_limits s !! 0%nat)], []))
    as ([[vsv1 th] binds] & Hloop & Hinv); [lia | |].
  { cbn. split; [lia|]. split; [lia|]. split; [ring|]. split; [reflexivity|].
    split; [intros j ib H; discriminate|].
    intros p t Hp Ht. destruct p as [|p]; [lia | discriminate]. }
  rewrite Hloop. cbn [mbind result_bind].
  rewrite (getitem_Some _ _ _ Hd1). cbn [mbind result_bind].
  rewrite (int_floordiv_ok _ _ Hmlt). cbn [mbind result_bind].
  destruct (np_interp_ok (default 0 (depth_limits s !! 1%nat)) rd rv Hzip)
    as [vbase Hvbase].
  rewrite Hvbase. cbn [mbind result_bind].
  cbn [Nat.add] in Hinv.
  destruct Hinv as (Hv & Hne & Hsum & Hbl & Hplaces & Hkinds).
  destruct (getitem_signed_last vsv1 Hv) as [v_last Hv_last].
  rewrite Hv_last. cbn [mbind result_bind].
  set (gap := default 0 (depth_limits s !! 1%nat) - np_sum th).
  fold (filler_count s gap). fold (filler_thickness s gap).
  destruct (extend_vsv_ok ((vbase - v_last) / gap) (filler_thickness s gap)
              (filler_count s gap) vsv1 Hv) as (ext & Hvsv2 & Hext).
  rewrite Hvsv2. cbn [mbind result_bind].
  eexists. split; [reflexivity|]. cbn [vsv thickness boundary_inds].
  split; [|split].
  - rewrite np_sum_app, fillers_sum. unfold gap. ring.
  - intros j ib Hj. destruct (Hplaces j ib Hj) as (Hib & Htop & Hbase).
    unfold node_depth. cbn [thickness].
    replace (ib + 1 + 1)%nat with (ib + 2)%nat by lia.
    rewrite !take_app_le by lia. split; [exact Htop | exact Hbase].
  - intros p t Hp Ht. destruct (Nat.lt_ge_cases p (length th)) as [Hin|Hout].
    + rewrite lookup_app_l in Ht by lia. left. exact (Hkinds p t Hp Ht).
    + rewrite lookup_app_r in Ht by lia.
      apply lookup_replicate in Ht as [-> _]. right.
      apply filler_thickness_comp. unfold gap, bottom_gap.
      rewrite Hsum. reflexivity.
Qed.

Lemma velocity_loop (s : SetupModel) (v0 : Q) :
  consistent s = true ->
  forall (m k : nat) (st : build_state),
  (k + m <= length (boundary_depths s))%nat ->
  placement_invariant s k st -> gradient_invariant s v0 k st ->
  exists st', for_ (seq k m) (boundary_step s) st = Ok st' /\
    placement_invariant s (k + m) st' /\ gradient_invariant s v0 (k + m) st'.
Proof.
  intros Hcons. induction m as [|m IH]; intros k st Hkm Hinv Hgrad.
  - exists st. split; [reflexivity|]. rewrite Nat.add_0_r. split; assumption.
  - destruct (gradient_step s v0 k st Hcons ltac:(lia) Hinv Hgrad)
      as (st1 & H1 & Hinv1 & Hgrad1).
    destruct (IH (S k) st1 ltac:(lia) Hinv1 Hgrad1) as (st' & H' & Hinv' & Hgrad').
    exists st'. split.
    + cbn [seq for_]. rewrite H1. exact H'.
    + replace (k + S m)%nat with (S k + m)%nat by lia. split; assumption.
Qed.

(** The velocities of the model [setup_starting_model] returns: the first
    one is read off the reference profile; above each boundary, and below
    the last one, they lie on a straight line in depth. *)
Lemma build_velocities (ref_model : card) (s : SetupModel) :
  consistent s = true -> (1 <= length ref_model)%nat ->
  exists m rd rv v0 vbase,
    ref_profile ref_model = Ok (rd, rv) /\
    np_interp (default 0 (depth_limits s !! 0%nat)) rd rv = Ok v0 /\
    np_interp (default 0 (depth_limits s !! 1%nat)) rd rv = Ok vbase /\
    setup_starting_model ref_model s = Ok m /\
    vsv m !! 0%nat = Some v0 /\
    length (vsv m) = length (thickness m) /\
    (anchor (boundary_inds m) (length (boundary_depths s)) < length (vsv m))%nat /\
    (forall j ib, boundary_inds m !! j = Some ib ->
       (anchor (boundary_inds m) j < ib)%nat /\
       vsv m !! (ib + 1)%nat = Some (default 0 (boundary_vsv s !! (j * 2 + 1)%nat)) /\
       vsv m !! (ib + 2)%nat = Some (default 0 (boundary_vsv s !! (j * 2 + 1)%nat)) /\
       (~ depth_top s j == floor_of s j ->
        forall p v va, (anchor (boundary_inds m) j <= p <= ib)%nat ->
          vsv m !! p = Some v -> vsv m !! anchor (boundary_inds m) j = Some va ->
          v == on_line (floor_of s j) va (depth_top s j)
                       (default 0 (boundary_vsv s !! (j * 2)%nat))
                       (node_depth m p))) /\
    (~ bottom_gap s == 0 ->
     forall p v va,
       (anchor (boundary_inds m) (length (boundary_depths s)) <= p)%nat ->
       vsv m !! p = Some v ->
       vsv m !! anchor (boundary_inds m) (length (boundary_depths s)) = Some va ->
       v == on_line (floor_of s (length (boundary_depths s))) va
                    (default 0 (depth_limits s !! 1%nat)) vbase
                    (node_depth m p)).
Proof.
  intros Hcons Href.
  destruct (consistent_facts s Hcons) as (Hlu & Hlw & Hlv & Hld & Hmlt).
  unfold setup_starting_model.
  destruct (ref_profile_ok ref_model Href) as (rd & rv & Hprof & Hzip).
  rewrite Hprof. cbn [mbind result_bind].
  pose proof (lookup_default (depth_limits s) 0 ltac:(lia)) as Hd0.
  pose proof (lookup_default (depth_limits s) 1 ltac:(lia)) as Hd1.
  rewrite (getitem_Some _ _ _ Hd0). cbn [mbind result_bind].
  destruct (np_interp_ok (default 0 (depth_limits s !! 0%nat)) rd rv Hzip)
    as [v0 Hv0].
  rewrite Hv0. cbn [mbind result_bind].
  destruct (velocity_loop s v0 Hcons (length (boundary_depths s)) 0
              ([v0], [default 0 (depth_limits s !! 0%nat)], []))
    as ([[vsv1 th] binds] & Hloop & Hinv & Hgrad); [lia | | |].
  { cbn. split; [lia|]. split; [lia|]. split; [ring|]. split; [reflexivity|].
    split; [intros j ib H; discriminate|].
    intros p t Hp Ht. destruct p as [|p]; [lia | discriminate]. }
  { cbn. split; [reflexivity|]. split; [reflexivity|]. split; [reflexivity|].
    intros j ib H; discriminate. }
  rewrite Hloop. cbn [mbind result_bind].
  rewrite (getitem_Some _ _ _ Hd1). cbn [mbind result_bind].
  rewrite (int_floordiv_ok _ _ Hmlt). cbn [mbind result_bind].
  destruct (np_interp_ok (default 0 (depth_limits s !! 1%nat)) rd rv Hzip)
    as [vbase Hvbase].
  rewrite Hvbase. cbn [mbind result_bind].
  cbn [Nat.add] in Hinv, Hgrad.
  destruct Hinv as (Hv & Hne & Hsum & Hbl & Hplaces & Hkinds).
  destruct Hgrad as (Hlen & Hanc & Hfirst & Hb).
  rewrite (getitem_signed_last_val vsv1 Hv). cbn [mbind result_bind].
  set (gap := default 0 (depth_limits s !! 1%nat) - np_sum th).
  fold (filler_count s gap). fold (filler_thickness s gap).
  rewrite extend_vsv_ramp by exact Hv. cbn [mbind result_bind].
  eexists _, rd, rv, v0, vbase.
  split; [reflexivity|]. split; [exact Hv0|]. split; [exact Hvbase|].
  split; [reflexivity|]. cbn [vsv thickness boundary_inds].
  split; [rewrite lookup_app_l by lia; exact Hfirst|].
  split; [rewrite !length_app, length_ramp, length_replicate; lia|].
  split; [rewrite length_app; lia|].
  split.
  - intros j ib Hj. destruct (Hb j ib Hj) as (Ha & Ht & Hb1 & Hb2 & Hline).
    pose proof (lookup_lt_Some _ _ _ Hb2) as Hib2.
    rewrite !lookup_app_l by lia.
    split; [exact Ha|]. split; [exact Hb1|]. split; [exact Hb2|].
    intros Hne' p v va Hp Hpv Hpa.
    rewrite lookup_app_l in Hpv by lia.
    unfold node_depth. cbn [thickness]. rewrite take_app_le by lia.
    exact (Hline Hne' p v va Hp Hpv Hpa).
  - intros Hgap p v va Hp Hpv Hpa.
    assert (anchor binds (length (boundary_depths s)) = (length th - 1)%nat)
      as Ha by lia.
    rewrite Ha in *.
    rewrite lookup_app_l in Hpa by lia.
    assert (default 0 (last vsv1) = va) as Hlast.
    { rewrite last_lookup.
      replace (pred (length vsv1)) with (length th - 1)%nat by lia.
      rewrite Hpa. reflexivity. }
    assert (~ default 0 (depth_limits s !! 1%nat)
              - floor_of s (length (boundary_depths s)) == 0) as Hden
      by exact Hgap.
    unfold on_line, node_depth. cbn [thickness].
    destruct (Nat.lt_ge_cases p (length th)) as [Hp1|Hp1].
    + assert (p = (length th - 1)%nat) as -> by lia.
      rewrite lookup_app_l in Hpv by lia.
      rewrite Hpa in Hpv. injection Hpv as <-.
      replace (length th - 1 + 1)%nat with (length th) by lia.
      rewrite take_app_le, take_ge by lia. rewrite Hsum. field. exact Hden.
    + pose proof (lookup_lt_Some _ _ _ Hpv) as Hplt.
      rewrite length_app, length_ramp in Hplt.
      rewrite lookup_app_r in Hpv by lia.
      apply lookup_ramp in Hpv. rewrite Hlast in Hpv.
      replace (p - length vsv1 + 1)%nat with (p + 1 - length th)%nat
        in Hpv by lia.
      replace (p + 1)%nat with (length th + (p + 1 - length th))%nat at 1
        by lia.
      rewrite take_app_add, np_sum_app.
      rewrite take_replicate, Nat.min_l by lia.
      rewrite np_sum_replicate.
      rewrite Hpv. unfold gap at 1. rewrite Hsum. field. exact Hden.
Qed.

(** X5. In the model [setup_starting_model] returns, the node of each
    boundary lies at the configured depth of the boundary's top (its depth
    less half its width) and the node below it at the depth of its base,
    whatever the other boundaries, the reference card and the depth
    limits are. *)
Theorem boundaries_at_configured_depths (ref_model : card) (s : SetupModel) :
  consistent s = true -> (1 <= length ref_model)%nat ->
  exists m, setup_starting_model ref_model s = Ok m /\
    forall j ib, boundary_inds m !! j = Some ib ->
      node_depth m ib == b_depth s j - b_width s j / 2 /\
      node_depth m (ib + 1) == b_depth s j + b_width s j / 2.
Proof.
  intros Hcons Href.
  destruct (build_placement ref_model s Hcons Href)
    as (m & Hrun & _ & Hplaces & _).
  exists m. split; [exact Hrun|]. intros j ib Hj.
  destruct (Hplaces j ib Hj) as [Htop Hbase]. unfold depth_top in *.
  split; [exact Htop | rewrite Hbase; field].
Qed.

(** X6. The model starts at [depth_limits[0]] and its layers add up to
    [depth_limits[1]]: the deepest node lies exactly at the lower depth
    limit, also when the boundaries reach below it. *)
Theorem model_spans_depth_limits (ref_model : card) (s : SetupModel) :
  consistent s = true -> (1 <= length ref_model)%nat ->
  exists m, setup_starting_model ref_model s = Ok m /\
    node_depth m 0 == default 0 (depth_limits s !! 0%nat) /\
    node_depth m (length (thickness m) - 1)
    == default 0 (depth_limits s !! 1%nat).
Proof.
  intros Hcons Href.
  destruct (build_placement ref_model s Hcons Href)
    as (m & Hrun & Hsum & _ & _).
  destruct (build_spec ref_model s Hcons Href)
    as (m' & Hrun' & _ & Hhd & _).
  rewrite Hrun in Hrun'. injection Hrun' as <-.
  exists m. split; [exact Hrun|]. unfold node_depth. split.
  - destruct (thickness m) as [|t0 rest] eqn:Eth.
    + destruct (consistent_facts s Hcons) as (_ & _ & _ & Hld & _).
      destruct (depth_limits s) as [|d0 ?]; [discriminate Hld | discriminate Hhd].
    + cbn [lookup list_lookup] in Hhd. rewrite <- Hhd.
      change (take (0 + 1) (t0 :: rest)) with [t0].
      change (default 0 (Some t0)) with t0.
      unfold np_sum. cbn [fold_left]. ring.
  - rewrite take_ge by lia. exact Hsum.
Qed.

(** X7. When no uncertainty is negative and every gap between the padded
    boundaries (and under the last one) is at least [min_layer_thickness],
    every layer of the returned model other than the boundary layers
    themselves is at least [min_layer_thickness] thick. *)
Theorem layers_respect_minimum (ref_model : card) (s : SetupModel) :
  consistent s = true -> (1 <= length ref_model)%nat ->
  (forall j, (j < length (boundary_depths s))%nat ->
     0 <= b_uncertainty s j /\
     min_layer_thickness s <= reach_above s j - floor_of s j) ->
  min_layer_thickness s <= bottom_gap s ->
  exists m, setup_starting_model ref_model s = Ok m /\
    forall p t, (1 <= p)%nat -> thickness m !! p = Some t ->
      (forall ib, ib ∈ boundary_inds m -> p <> (ib + 1)%nat) ->
      min_layer_thickness s <= t.
Proof.
  intros Hcons Href Hgaps Hbottom.
  destruct (consistent_facts s Hcons) as (_ & _ & _ & _ & Hmlt).
  destruct (build_placement ref_model s Hcons Href)
    as (m & Hrun & _ & _ & Hkinds).
  exists m. split; [exact Hrun|]. intros p t Hp Ht Hnot.
  destruct (Hkinds p t Hp Ht) as [(j & Hj & Hkind) | Hb].
  - destruct (Hgaps j Hj) as [Hu Hgap].
    destruct Hkind as [Hf | [Hpad | [_ Hpos]]].
    + rewrite Hf. change (filler s j)
        with (filler_thickness s (reach_above s j - floor_of s j)).
      apply filler_thickness_bounds; assumption.
    + rewrite Hpad. unfold padding. lra.
    + exfalso. apply (Hnot (p - 1)%nat); [|lia].
      apply list_elem_of_lookup. eauto.
  - rewrite Hb. apply filler_thickness_bounds; assumption.
Qed.

(** X8. [min_layer_thickness] is not enforced: when the gap above the
    padded top of a boundary is smaller than the minimum, the gap becomes
    a single layer of exactly that thickness, thinner than the minimum and
    negative when the boundary overlaps what lies above it. *)
Theorem thin_gap_gives_thin_layer (ref_model : card) (s : SetupModel) (j : nat) :
  consistent s = true -> (1 <= length ref_model)%nat ->
  (j < length (boundary_depths s))%nat ->
  reach_above s j - floor_of s j < min_layer_thickness s ->
  exists m ib t, setup_starting_model ref_model s = Ok m /\
    boundary_inds m !! j = Some ib /\
    thickness m !! (ib - 1)%nat = Some t /\
    t == reach_above s j - floor_of s j /\ t < min_layer_thickness s.
Proof.
  intros Hcons Href Hj Hthin.
  destruct (consistent_facts s Hcons) as (_ & _ & _ & _ & Hmlt).
  destruct (build_spec ref_model s Hcons Href)
    as (m & Hrun & _ & _ & Hbl & Hbinds & _).
  destruct (lookup_lt_is_Some_2 (boundary_inds m) j ltac:(lia)) as [ib Hib].
  destruct (Hbinds j ib Hib) as (_ & _ & _ & _ & _ & t & Ht & Hteq).
  exists m, ib, t. split; [exact Hrun|]. split; [exact Hib|].
  split; [exact Ht|].
  assert (t == reach_above s j - floor_of s j) as Hval.
  { rewrite Hteq. change (filler s j)
      with (filler_thickness s (reach_above s j - floor_of s j)).
    apply filler_thickness_thin; assumption. }
  split; [exact Hval | rewrite Hval; exact Hthin].
Qed.

(** X21. When no depth uncertainty is negative, every boundary has a
    positive width and every gap is at least [min_layer_thickness], every
    layer of the returned model under the first node has a positive
    thickness, so that the depths of its nodes increase strictly. *)
Theorem fresh_model_depths_increase (ref_model : card) (s : SetupModel) :
  consistent s = true -> (1 <= length ref_model)%nat ->
  (forall j, (j < length (boundary_depths s))%nat ->
     0 <= b_uncertainty s j /\ 0 < b_width s j /\
     min_layer_thickness s <= reach_above s j - floor_of s j) ->
  min_layer_thickness s <= bottom_gap s ->
  exists m, setup_starting_model ref_model s = Ok m /\
    Forall (fun t => 0 < t) (drop 1 (thickness m)) /\
    forall k, (k + 1 < length (thickness m))%nat ->
      node_depth m k < node_depth m (k + 1).
Proof.
  intros Hcons Href Hgaps Hbottom.
  destruct (consistent_facts s Hcons) as (_ & _ & _ & _ & Hmlt).
  destruct (build_placement ref_model s Hcons Href)
    as (m & Hrun & _ & _ & Hkinds).
  assert (Forall (fun t => 0 < t) (drop 1 (thickness m))) as Hpos.
  { apply Forall_forall. intros t Hin.
    apply list_elem_of_lookup in Hin as [p Hp]. rewrite lookup_drop in Hp.
    destruct (Hkinds (1 + p)%nat t ltac:(lia) Hp) as [(j & Hj & Hkind) | Hb].
    - destruct (Hgaps j Hj) as (Hu & Hw & Hgap).
      destruct Hkind as [Hf | [Hpad | [-> _]]].
      + rewrite Hf. change (filler s j)
          with (filler_thickness s (reach_above s j - floor_of s j)).
        pose proof (filler_thickness_bounds s _ Hmlt Hgap). lra.
      + rewrite Hpad. unfold padding. lra.
      + exact Hw.
    - rewrite Hb. pose proof (filler_thickness_bounds s _ Hmlt Hbottom). lra. }
  exists m. split; [exact Hrun|]. split; [exact Hpos|].
  apply (positive_increasing m (length (thickness m)) eq_refl Hpos).
Qed.

Lemma build_well_formed (ref_model : card) (s : SetupModel) (m : InversionModel) :
  consistent s = true -> (1 <= length ref_model)%nat ->
  setup_starting_model ref_model s = Ok m -> well_formed m.
Proof.
  intros Hcons Href Hrun.
  destruct (build_spec ref_model s Hcons Href)
    as (m' & Hm & Hlen & _ & _ & Hbinds & _).
  rewrite Hrun in Hm. injection Hm as <-.
  split; [exact Hlen|]. apply Forall_forall. intros ib Hin.
  apply list_elem_of_lookup in Hin as [j Hj].
  destruct (Hbinds j ib Hj) as (_ & H & _). exact H.
Qed.

(** X9. Above each boundary the velocities of the returned model are
    linear in depth: from the node the layers above the boundary start at
    (the first node, or the node under the padding of the boundary before)
    to the boundary's top node, every velocity lies on the straight line
    from that node's velocity, at the depth the layers start from, to the
    boundary's configured top velocity at its configured top depth. *)
Theorem velocities_linear_above_boundary (ref_model : card) (s : SetupModel) :
  consistent s = true -> (1 <= length ref_model)%nat ->
  exists m, setup_starting_model ref_model s = Ok m /\
    forall j ib, boundary_inds m !! j = Some ib ->
      ~ depth_top s j == floor_of s j ->
      forall p, (anchor (boundary_inds m) j <= p <= ib)%nat ->
        node_vsv m p
        == on_line (floor_of s j) (node_vsv m (anchor (boundary_inds m) j))
                   (depth_top s j) (default 0 (boundary_vsv s !! (j * 2)%nat))
                   (node_depth m p).
Proof.
  intros Hcons Href.
  destruct (build_velocities ref_model s Hcons Href)
    as (m & rd & rv & v0 & vbase & _ & _ & _ & Hrun & _ & _ & _ & Hb & _).
  exists m. split; [exact Hrun|]. intros j ib Hj Hne p Hp.
  destruct (Hb j ib Hj) as (Ha & _ & Hb2 & Hline).
  pose proof (lookup_lt_Some _ _ _ Hb2) as Hib2.
  destruct (lookup_lt_is_Some_2 (vsv m) p ltac:(lia)) as [v Hv].
  destruct (lookup_lt_is_Some_2 (vsv m) (anchor (boundary_inds m) j) ltac:(lia))
    as [va Hva].
  unfold node_vsv. rewrite Hv, Hva.
  exact (Hline Hne p v va Hp Hv Hva).
Qed.

(** X10. The first velocity of the returned model is the reference
    profile interpolated at [depth_limits[0]], and, unless the padded base
    of the last boundary lies exactly at [depth_limits[1]], the last
    velocity is the reference profile interpolated at [depth_limits[1]]. *)
Theorem end_velocities_from_reference (ref_model : card) (s : SetupModel) :
  consistent s = true -> (1 <= length ref_model)%nat ->
  exists m rd rv v0 vbase,
    setup_starting_model ref_model s = Ok m /\
    ref_profile ref_model = Ok (rd, rv) /\
    np_interp (default 0 (depth_limits s !! 0%nat)) rd rv = Ok v0 /\
    np_interp (default 0 (depth_limits s !! 1%nat)) rd rv = Ok vbase /\
    vsv m !! 0%nat = Some v0 /\
    (~ bottom_gap s == 0 -> node_vsv m (length (vsv m) - 1) == vbase).
Proof.
  intros Hcons Href.
  destruct (build_velocities ref_model s Hcons Href)
    as (m & rd & rv & v0 & vbase & Hprof & Hv0 & Hvbase & Hrun & Hfirst
        & Hlen & Hanc & _ & Htail).
  destruct (build_placement ref_model s Hcons Href)
    as (m' & Hrun' & Hsum & _ & _).
  rewrite Hrun in Hrun'. injection Hrun' as <-.
  exists m, rd, rv, v0, vbase.
  split; [exact Hrun|]. split; [exact Hprof|]. split; [exact Hv0|].
  split; [exact Hvbase|]. split; [exact Hfirst|].
  intros Hgap.
  destruct (lookup_lt_is_Some_2 (vsv m) (length (vsv m) - 1) ltac:(lia))
    as [v Hv].
  destruct (lookup_lt_is_Some_2 (vsv m)
              (anchor (boundary_inds m) (length (boundary_depths s))) Hanc)
    as [va Hva].
  unfold node_vsv. rewrite Hv. cbn [default from_option Datatypes.id].
  rewrite (Htail Hgap (length (vsv m) - 1)%nat v va ltac:(lia) Hv Hva).
  unfold on_line, node_depth. rewrite take_ge by lia. rewrite Hsum.
  field. exact Hgap.
Qed.

(** X11. Below the last boundary the velocities of the returned model are
    linear in depth, on the straight line from the velocity of the node
    under the last padding to the reference velocity at
    [depth_limits[1]]. *)
Theorem velocities_linear_below_last_boundary (ref_model : card)
    (s : SetupModel) :
  consistent s = true -> (1 <= length ref_model)%nat ->
  ~ bottom_gap s == 0 ->
  exists m rd rv vbase,
    setup_starting_model ref_model s = Ok m /\
    ref_profile ref_model = Ok (rd, rv) /\
    np_interp (default 0 (depth_limits s !! 1%nat)) rd rv = Ok vbase /\
    forall p,
      (anchor (boundary_inds m) (length (boundary_depths s)) <= p
       < length (vsv m))%nat ->
      node_vsv m p
      == on_line (floor_of s (length (boundary_depths s)))
                 (node_vsv m (anchor (boundary_inds m)
                                     (length (boundary_depths s))))
                 (default 0 (depth_limits s !! 1%nat)) vbase
                 (node_depth m p).
Proof.
  intros Hcons Href Hgap.
  destruct (build_velocities ref_model s Hcons Href)
    as (m & rd & rv & v0 & vbase & Hprof & _ & Hvbase & Hrun & _
        & _ & Hanc & _ & Htail).
  exists m, rd, rv, vbase.
  split; [exact Hrun|]. split; [exact Hprof|]. split; [exact Hvbase|].
  intros p Hp.
  destruct (lookup_lt_is_Some_2 (vsv m) p ltac:(lia)) as [v Hv].
  destruct (lookup_lt_is_Some_2 (vsv m)
              (anchor (boundary_inds m) (length (boundary_depths s))) Hanc)
    as [va Hva].
  unfold node_vsv. rewrite Hv, Hva.
  exact (Htail Hgap p v va ltac:(lia) Hv Hva).
Qed.

(** X12. On a model fresh from [setup_starting_model] the derivative of
    the velocity with respect to a boundary's depth vanishes in the
    padding layer under the boundary: the node under the padding is given
    the boundary's base velocity, so the third block of that boundary's
    dm/dt column is zero. *)
Theorem fresh_model_dm_dt_vanishes_below_base (ref_model : card)
    (s : SetupModel) (depth : list Q) :
  consistent s = true -> (1 <= length ref_model)%nat ->
  exists m M, setup_starting_model ref_model s = Ok m /\
    _calculate_dm_dt m depth = Ok M /\
    forall r z i ib, depth !! r = Some z -> boundary_inds m !! i = Some ib ->
      node_depth m (ib + 1) <= z -> z < node_depth m (ib + 2) ->
      exists v, entry M r i = Some v /\ v == 0.
Proof.
  intros Hcons Href.
  destruct (build_velocities ref_model s Hcons Href)
    as (m & rd & rv & v0 & vbase & _ & _ & _ & Hrun & _ & _ & _ & Hb & _).
  pose proof (build_well_formed ref_model s m Hcons Href Hrun) as Hwf.
  destruct (DmDt.calculate_dm_dt_spec m depth Hwf) as (M & HM & _ & HE).
  exists m, M. split; [exact Hrun|]. split; [exact HM|].
  intros r z i ib Hz Hi Hlo Hhi.
  exists (dm_dt_entry m ib z). split; [exact (HE r i ib z Hz Hi)|].
  destruct (Hb i ib Hi) as (_ & Hb1 & Hb2 & _).
  unfold dm_dt_entry.
  assert (Qle_bool (node_depth m (ib + 1)) z = true) as ->
    by (apply Qle_bool_iff; exact Hlo).
  assert (Qlt_bool z (node_depth m (ib + 2)) = true) as ->
    by (apply Qlt_bool_iff; exact Hhi).
  cbn [andb]. unfold node_vsv. rewrite Hb1, Hb2.
  cbn [default from_option Datatypes.id].
  unfold Qdiv. ring.
Qed.

End Placement.

(** ** The MINEOS card *)

Module Card.
Import Facts DmDs Builder Splice Placement.

Lemma np_arange_ok (rounds_up : bool) (start stop step : Q) :
  0 < step ->
  np_arange rounds_up start stop step
  = Ok (map (fun i => start + inject_Z (Z.of_nat i) * step)
            (seq 0 (arange_len rounds_up ((stop - start) / step)))).
Proof.
  intros Hstep. unfold np_arange.
  destruct (Qeq_bool step 0) eqn:E; [|reflexivity].
  apply Qeq_bool_iff in E. lra.
Qed.

(** The count of [np.arange] depends on the value of the quotient alone;
    it is the exact ceiling or one more; and a value counted lies at most
    the quotient away, less than the quotient if the exact ceiling counts
    it. *)
Lemma arange_len_comp (rounds_up : bool) (q q' : Q) :
  q == q' -> arange_len rounds_up q = arange_len rounds_up q'.
Proof.
  intros H. unfold arange_len.
  rewrite (Qceiling_comp _ _ H), (Qfloor_comp _ _ H).
  assert (Qlt_bool 0 q = Qlt_bool 0 q') as ->.
  { destruct (Qlt_bool 0 q) eqn:E1, (Qlt_bool 0 q') eqn:E2; order_facts;
      try reflexivity; lra. }
  assert (Qeq_bool q (inject_Z (Qfloor q'))
          = Qeq_bool q' (inject_Z (Qfloor q'))) as ->; [|reflexivity].
  destruct (Qeq_bool q (inject_Z (Qfloor q'))) eqn:E1,
           (Qeq_bool q' (inject_Z (Qfloor q'))) eqn:E2; try reflexivity.
  - apply Qeq_bool_iff in E1. apply Qeq_bool_neq in E2.
    exfalso. apply E2. lra.
  - apply Qeq_bool_iff in E2. apply Qeq_bool_neq in E1.
    exfalso. apply E1. lra.
Qed.

Lemma arange_len_exact (q : Q) : arange_len false q = Z.to_nat (Qceiling q).
Proof. unfold arange_len. cbn [andb]. rewrite Z.add_0_r. reflexivity. Qed.

Lemma arange_len_bounds (rounds_up : bool) (q : Q) :
  (arange_len false q <= arange_len rounds_up q <= arange_len false q + 1)%nat.
Proof.
  rewrite arange_len_exact. unfold arange_len.
  destruct (rounds_up && Qlt_bool 0 q
            && Qeq_bool q (inject_Z (Qfloor q))); lia.
Qed.

Lemma arange_len_pos (rounds_up : bool) (q : Q) :
  0 < q -> (1 <= arange_len rounds_up q)%nat.
Proof.
  intros Hq. pose proof (arange_len_bounds rounds_up q) as [Hlo _].
  rewrite arange_len_exact in Hlo.
  pose proof (Qle_ceiling q) as Hc.
  assert (inject_Z 0 < inject_Z (Qceiling q)) as Hz
    by (change (inject_Z 0) with 0; lra).
  rewrite <- Zlt_Qlt in Hz. lia.
Qed.

Lemma arange_len_counted (rounds_up : bool) (q : Q) (i : nat) :
  (i < arange_len rounds_up q)%nat ->
  inject_Z (Z.of_nat i) <= q /\
  ((i < arange_len false q)%nat -> inject_Z (Z.of_nat i) < q).
Proof.
  intros Hi.
  assert ((i < arange_len false q)%nat -> inject_Z (Z.of_nat i) < q) as Hin.
  { rewrite arange_len_exact. intros Hlt.
    pose proof (Qceiling_lt q) as Hc.
    assert (inject_Z (Z.of_nat i) <= inject_Z (Qceiling q - 1)) as Hle
      by (rewrite <- Zle_Qle; lia).
    lra. }
  split; [|exact Hin].
  destruct (Nat.lt_ge_cases i (arange_len false q)) as [Hlt|Hge].
  { apply Qlt_le_weak. exact (Hin Hlt). }
  rewrite arange_len_exact in Hge. unfold arange_len in Hi.
  destruct (rounds_up && Qlt_bool 0 q
            && Qeq_bool q (inject_Z (Qfloor q))) eqn:E; [|lia].
  apply andb_true_iff in E as [E Hwhole].
  apply andb_true_iff in E as [_ Hpos].
  apply Qeq_bool_iff in Hwhole. apply Qlt_bool_iff in Hpos.
  assert (Qceiling q = Qfloor q) as Hcf.
  { rewrite (Qceiling_comp _ _ Hwhole). apply Qceiling_Z. }
  assert (0 <= Qfloor q)%Z as Hnn.
  { assert (inject_Z 0 < inject_Z (Qfloor q)) as Hz
      by (change (inject_Z 0) with 0; lra).
    rewrite <- Zlt_Qlt in Hz. lia. }
  assert (Z.of_nat i = Qfloor q) as -> by lia.
  rewrite <- Hwhole. apply Qle_refl.
Qed.

Lemma map_result_ok {A B} (f : A -> result B) (g : A -> B) (l : list A) :
  (forall x, f x = Ok (g x)) -> map_result f l = Ok (map g l).
Proof.
  intros Hf. induction l as [|x l IH]; [reflexivity|].
  cbn [map_result map]. rewrite Hf. cbn [mbind result_bind].
  rewrite IH. reflexivity.
Qed.

Lemma np_interp_value (x : Q) (xp fp : list Q) :
  (1 <= length (zip xp fp))%nat ->
  np_interp x xp fp = Ok (ok_or_zero (np_interp x xp fp)).
Proof.
  intros H. destruct (np_interp_ok x xp fp H) as [v ->]. reflexivity.
Qed.

Lemma np_interp_array_ok (x xp fp : list Q) :
  length xp = length fp -> (1 <= length xp)%nat ->
  np_interp_array x xp fp
  = Ok (map (fun x_i => ok_or_zero (np_interp x_i xp fp)) x).
Proof.
  intros Hlen Hne. unfold np_interp_array.
  destruct (Nat.eqb_spec (length xp) 0) as [H0|_]; [lia|].
  rewrite Hlen, Nat.eqb_refl. cbn [negb].
  apply map_result_ok. intros x_i. apply np_interp_value.
  rewrite length_zip_with. lia.
Qed.

Lemma length_cumsum_from (acc : Q) (a : list Q) :
  length (cumsum_from acc a) = length a.
Proof.
  revert acc. induction a as [|x a IH]; intros acc; [reflexivity|].
  cbn [cumsum_from length]. rewrite IH. reflexivity.
Qed.

Lemma lookup_cumsum_from (acc : Q) (a : list Q) (k : nat) :
  (k < length a)%nat ->
  cumsum_from acc a !! k = Some (fold_left Qplus (take (S k) a) acc).
Proof.
  revert acc k. induction a as [|x a IH]; intros acc k Hk; [simpl in Hk; lia|].
  destruct k as [|k]; [reflexivity|].
  cbn [cumsum_from take fold_left]. simpl in Hk.
  change ((acc + x :: cumsum_from (acc + x) a) !! S k)
    with (cumsum_from (acc + x) a !! k).
  apply IH. lia.
Qed.

(** Entry [k] of [np.cumsum(thickness)] is the depth of node [k]. *)
Lemma lookup_cumsum (m : InversionModel) (k : nat) :
  (k < length (thickness m))%nat ->
  np_cumsum (thickness m) !! k = Some (node_depth m k).
Proof.
  intros Hk. unfold np_cumsum, node_depth, np_sum.
  rewrite lookup_cumsum_from by exact Hk.
  replace (k + 1)%nat with (S k) by lia. reflexivity.
Qed.

Lemma ref_value_at_ok (r : Q) (ref_model : card) (col : column) :
  (1 <= length ref_model)%nat ->
  ref_value_at r ref_model col = Ok (ref_at ref_model r col).
Proof.
  intros Href. unfold ref_at, ref_value_at. apply np_interp_value.
  rewrite length_zip_with, !length_map. lia.
Qed.

Lemma getitem_signed_last_row (ref_model : card) :
  (1 <= length ref_model)%nat ->
  exists ref_last, getitem_signed ref_model (-1) = Ok ref_last /\
    radius ref_last * (1 # 1000) = radius_Earth_of ref_model.
Proof.
  intros H. unfold getitem_signed, radius_Earth_of.
  destruct (Z.leb_spec 0 (-1)) as [Hpos|_]; [lia|].
  destruct (Z.leb_spec (- Z.of_nat (length ref_model)) (-1)) as [_|Hlt]; [|lia].
  rewrite last_lookup.
  replace (Z.to_nat (Z.of_nat (length ref_model) + -1))
    with (pred (length ref_model)) by lia.
  destruct (lookup_lt_is_Some_2 ref_model (pred (length ref_model)))
    as [v Hv]; [lia|].
  exists v. rewrite Hv. split; [apply getitem_Some; exact Hv | reflexivity].
Qed.

(** Whether the header of the card file can be written. *)
Lemma card_header_ok (c : card) :
  Exists (fun r => core_row r = true) c -> exists h, card_header c = Ok h.
Proof.
  intros Hex. unfold card_header.
  assert (exists i, i ∈ outer_core c) as [i Hi].
  { apply Exists_exists in Hex as (r & Hin & Hr).
    apply list_elem_of_lookup in Hin as [i Hi].
    exists i. unfold outer_core. apply elem_of_where_from.
    split; [lia|]. rewrite Nat.sub_0_r, list_lookup_fmap, Hi. cbn.
    f_equal. exact Hr. }
  destruct (outer_core c) as [|i0 rest] eqn:E; [inversion Hi|].
  destruct (getitem_signed_last (i0 :: rest) ltac:(simpl; lia)) as [l Hl].
  cbn [getitem lookup list_lookup]. cbn [mbind result_bind].
  rewrite Hl. cbn [mbind result_bind]. eauto.
Qed.

Lemma card_header_raises (c : card) :
  Forall (fun r => core_row r = false) c -> card_header c = Raise IndexError.
Proof.
  intros Hall. unfold card_header.
  destruct (outer_core c) as [|i0 rest] eqn:E; [reflexivity|].
  assert (i0 ∈ outer_core c) as Hi by (rewrite E; left).
  unfold outer_core in Hi. apply elem_of_where_from in Hi as [_ Hi].
  rewrite Nat.sub_0_r, list_lookup_fmap in Hi.
  destruct (c !! i0) as [r|] eqn:Er; [|discriminate].
  cbn in Hi. injection Hi as Hi.
  rewrite Forall_forall in Hall.
  specialize (Hall r ltac:(apply list_elem_of_lookup; eauto)).
  unfold core_row in Hall. congruence.
Qed.

Lemma length_card_radii (rounds_up : bool) (ref_model : card) (s : SetupModel) :
  (1 <= length (card_radii rounds_up ref_model s))%nat.
Proof. unfold card_radii. rewrite length_app. simpl. lia. Qed.

(** The run of the conversion up to the header of the card file: the rows
    of the inverted region, one per radius, and the spliced reference rows
    below and above them. *)
Lemma convert_run (rounds_up : bool) (ref_model : card) (m : InversionModel) (s : SetupModel)
    (md : Q) :
  consistent s = true -> (1 <= length ref_model)%nat ->
  length (vsv m) = length (thickness m) -> (1 <= length (thickness m))%nat ->
  moho_depth m s = Ok md ->
  exists new below above,
    length new = length (card_radii rounds_up ref_model s) /\
    (forall i r_km, card_radii rounds_up ref_model s !! i = Some r_km ->
       exists row, new !! i = Some row /\ radius row = r_km * 1000 /\
         forall col, value row col = card_value ref_model m s md r_km col) /\
    smooth_to_ref_model_below ref_model new = Ok below /\
    smooth_to_ref_model_above ref_model new = Ok above /\
    convert_inversion_model_to_mineos_model rounds_up ref_model m s
    = (_ ← card_header (below ++ new ++ above); Ok (below ++ new ++ above)).
Proof.
  intros Hcons Href Hlen Hne Hmd.
  destruct (consistent_facts s Hcons) as (_ & _ & _ & Hld & Hmlt).
  destruct (getitem_signed_last_row ref_model Href) as (ref_last & Hlast & HR).
  pose proof (lookup_default (depth_limits s) 0 ltac:(lia)) as Hd0.
  pose proof (lookup_default (depth_limits s) 1 ltac:(lia)) as Hd1.
  unfold convert_inversion_model_to_mineos_model.
  rewrite Hlast. cbn [mbind result_bind]. rewrite HR.
  rewrite (getitem_Some _ _ _ Hd0). cbn [mbind result_bind].
  rewrite (getitem_Some _ _ _ Hd1). cbn [mbind result_bind].
  rewrite np_arange_ok by (apply Qlt_shift_div_l; lra).
  cbn [mbind result_bind].
  fold (card_radii rounds_up ref_model s).
  rewrite np_interp_array_ok
    by (unfold np_cumsum; rewrite ?length_cumsum_from; lia).
  cbn [mbind result_bind].
  rewrite (map_result_ok (fun r => ref_value_at r ref_model col_q_mu)
                         (fun r => ref_at ref_model r col_q_mu))
    by (intros r; apply ref_value_at_ok; exact Href).
  cbn [mbind result_bind].
  rewrite (map_result_ok (fun r => ref_value_at r ref_model col_q_kappa)
                         (fun r => ref_at ref_model r col_q_kappa))
    by (intros r; apply ref_value_at_ok; exact Href).
  cbn [mbind result_bind].
  rewrite (map_result_ok (fun r => ref_value_at r ref_model col_rho)
                         (fun r => ref_at ref_model r col_rho))
    by (intros r; apply ref_value_at_ok; exact Href).
  cbn [mbind result_bind].
  fold (moho_depth m s). rewrite Hmd. cbn [mbind result_bind].
  match goal with
  | |- context [smooth_to_ref_model_below ref_model ?nm] => set (new := nm)
  end.
  assert (length new = length (card_radii rounds_up ref_model s)) as Hnew.
  { unfold new, data_frame. rewrite length_imap, length_map. reflexivity. }
  pose proof (length_card_radii rounds_up ref_model s) as Hgrid.
  destruct (below_spec ref_model new Href ltac:(lia))
    as (below & _ & _ & _ & Hbelow & _).
  destruct (above_spec ref_model new Href ltac:(lia))
    as (above & _ & _ & _ & Habove & _).
  rewrite Hbelow. cbn [mbind result_bind].
  rewrite Habove. cbn [mbind result_bind].
  exists new, below, above.
  split; [exact Hnew|]. split; [|split; [exact Hbelow|split; [exact Habove|reflexivity]]].
  intros i r_km Hi. eexists. split.
  { unfold new, data_frame. rewrite list_lookup_imap, list_lookup_fmap, Hi.
    reflexivity. }
  cbn [radius value]. split; [reflexivity|].
  intros col. unfold card_value, model_vsv_at.
  destruct col; rewrite ?lookup_zip_with, ?list_lookup_fmap, ?Hi; reflexivity.
Qed.

Lemma getitem_signed_last_inv {A} (l : list A) (x : A) :
  getitem_signed l (-1) = Ok x -> l !! (length l - 1)%nat = Some x.
Proof.
  unfold getitem_signed.
  destruct (Z.leb_spec 0 (-1)) as [Hpos|_]; [lia|].
  destruct (Z.leb_spec (- Z.of_nat (length l)) (-1)) as [_|Hlt]; [|discriminate].
  replace (Z.to_nat (Z.of_nat (length l) + -1)) with (length l - 1)%nat by lia.
  unfold getitem. destruct (l !! (length l - 1)%nat); [|discriminate].
  intros H. injection H as ->. reflexivity.
Qed.

(** The value at the edge that the splice compares with is the reference
    card interpolated at the edge radius. *)
Lemma ref_at_edge_value (ref_model : card) (r : Q) (f : column -> Q)
    (col : column) :
  (1 <= length ref_model)%nat ->
  (forall col, ref_value_at r ref_model col = Ok (f col)) ->
  f col = ref_at ref_model r col.
Proof.
  intros Href Hf. specialize (Hf col).
  rewrite (ref_value_at_ok r ref_model col Href) in Hf.
  injection Hf as <-. reflexivity.
Qed.

(** The rows of the inverted region hold the reference attenuation, so
    that the splice adds nothing to these columns. *)
Lemma spliced_below_attenuation (ref_model : card) (m : InversionModel)
    (s : SetupModel) (md r_km : Q) (new_first : CardRow)
    (ref_at_edge : column -> Q) (r row : CardRow) (col : column) :
  (1 <= length ref_model)%nat ->
  col = col_q_mu \/ col = col_q_kappa ->
  radius new_first = r_km * 1000 ->
  (forall col, value new_first col = card_value ref_model m s md r_km col) ->
  (forall col, ref_value_at (radius new_first) ref_model col
               = Ok (ref_at_edge col)) ->
  spliced_below new_first ref_at_edge r row ->
  value row col == value r col.
Proof.
  intros Href Hcol Hrad Hval Hedge (_ & [[_ Hsame] | (_ & _ & Hband)]).
  - rewrite Hsame. reflexivity.
  - rewrite Hband, Hval.
    rewrite (ref_at_edge_value ref_model _ ref_at_edge col Href Hedge), Hrad.
    destruct Hcol as [-> | ->]; cbn [card_value]; ring.
Qed.

Lemma spliced_above_attenuation (ref_model : card) (m : InversionModel)
    (s : SetupModel) (md r_km : Q) (new_last : CardRow)
    (ref_at_edge : column -> Q) (r row : CardRow) (col : column) :
  (1 <= length ref_model)%nat ->
  col = col_q_mu \/ col = col_q_kappa ->
  radius new_last = r_km * 1000 ->
  (forall col, value new_last col = card_value ref_model m s md r_km col) ->
  (forall col, ref_value_at (radius new_last) ref_model col
               = Ok (ref_at_edge col)) ->
  spliced_above new_last ref_at_edge r row ->
  value row col == value r col.
Proof.
  intros Href Hcol Hrad Hval Hedge (_ & [[_ Hsame] | (_ & _ & Hband)]).
  - rewrite Hsame. reflexivity.
  - rewrite Hband, Hval.
    rewrite (ref_at_edge_value ref_model _ ref_at_edge col Href Hedge), Hrad.
    destruct Hcol as [-> | ->]; cbn [card_value]; ring.
Qed.

(** The conversion with what the splices return: every spliced row comes
    from a row of the reference card on its side of the inverted region and
    keeps its attenuation. *)
Lemma convert_splices (rounds_up : bool) (ref_model : card) (m : InversionModel) (s : SetupModel)
    (md : Q) :
  convertible ref_model m s -> moho_depth m s = Ok md ->
  exists new below above new_first new_last,
    length new = length (card_radii rounds_up ref_model s) /\
    (forall i r_km, card_radii rounds_up ref_model s !! i = Some r_km ->
       exists row, new !! i = Some row /\ radius row = r_km * 1000 /\
         forall col, value row col = card_value ref_model m s md r_km col) /\
    new !! 0%nat = Some new_first /\
    new !! (length new - 1)%nat = Some new_last /\
    (forall row, row ∈ below ->
       exists r, r ∈ ref_model /\ radius row = radius r /\
         radius r < radius new_first /\
         value row col_q_mu == value r col_q_mu /\
         value row col_q_kappa == value r col_q_kappa) /\
    (forall row, row ∈ above ->
       exists r, r ∈ ref_model /\ radius row = radius r /\
         radius new_last < radius r /\
         value row col_q_mu == value r col_q_mu /\
         value row col_q_kappa == value r col_q_kappa) /\
    (forall r, r ∈ ref_model -> radius r < radius new_first - smooth_z ->
       exists row, row ∈ below /\ forall col, value row col = value r col) /\
    convert_inversion_model_to_mineos_model rounds_up ref_model m s
    = (_ ← card_header (below ++ new ++ above); Ok (below ++ new ++ above)).
Proof.
  intros (Hcons & Href & Hlen & Hne) Hmd.
  destruct (convert_run rounds_up ref_model m s md Hcons Href Hlen Hne Hmd)
    as (new & below & above & Hnew & Hrows & Hbelow & Habove & Hrun).
  pose proof (length_card_radii rounds_up ref_model s) as Hgrid.
  destruct (below_spec ref_model new Href ltac:(lia))
    as (below' & new_first & edge_b & Hfirst & Hbelow' & Hedge_b & Hfrom_b & Hto_b).
  rewrite Hbelow in Hbelow'. injection Hbelow' as <-.
  destruct (above_spec ref_model new Href ltac:(lia))
    as (above' & new_last & edge_a & Hlast & Habove' & Hedge_a & Hfrom_a & _).
  rewrite Habove in Habove'. injection Habove' as <-.
  apply getitem_signed_last_inv in Hlast.
  destruct (lookup_lt_is_Some_2 (card_radii rounds_up ref_model s) 0 ltac:(lia))
    as [r0 Hr0].
  destruct (Hrows _ _ Hr0) as (row0 & Hrow0 & Hrad0 & Hval0).
  rewrite Hfirst in Hrow0. injection Hrow0 as <-.
  destruct (lookup_lt_is_Some_2 (card_radii rounds_up ref_model s) (length new - 1)
              ltac:(lia)) as [r1 Hr1].
  destruct (Hrows _ _ Hr1) as (row1 & Hrow1 & Hrad1 & Hval1).
  rewrite Hlast in Hrow1. injection Hrow1 as <-.
  assert (0 < smooth_z) as Hz by reflexivity.
  exists new, below, above, new_first, new_last.
  split; [exact Hnew|]. split; [exact Hrows|]. split; [exact Hfirst|].
  split; [exact Hlast|].
  split; [|split; [|split; [|exact Hrun]]].
  - intros row Hin. apply list_elem_of_In in Hin.
    destruct (Hfrom_b row Hin) as (r & Hr & Hspl).
    exists r. split; [apply list_elem_of_In; exact Hr|].
    split; [exact (proj1 Hspl)|]. split.
    { destruct Hspl as (_ & [[H _] | (_ & H & _)]); lra. }
    split.
    + exact (spliced_below_attenuation ref_model m s md r0 new_first edge_b
               r row col_q_mu Href (or_introl eq_refl) Hrad0 Hval0 Hedge_b Hspl).
    + exact (spliced_below_attenuation ref_model m s md r0 new_first edge_b
               r row col_q_kappa Href (or_intror eq_refl) Hrad0 Hval0 Hedge_b
               Hspl).
  - intros row Hin. apply list_elem_of_In in Hin.
    destruct (Hfrom_a row Hin) as (r & Hr & Hspl).
    exists r. split; [apply list_elem_of_In; exact Hr|].
    split; [exact (proj1 Hspl)|]. split.
    { destruct Hspl as (_ & [[H _] | (H & _ & _)]); lra. }
    split.
    + exact (spliced_above_attenuation ref_model m s md r1 new_last edge_a
               r row col_q_mu Href (or_introl eq_refl) Hrad1 Hval1 Hedge_a Hspl).
    + exact (spliced_above_attenuation ref_model m s md r1 new_last edge_a
               r row col_q_kappa Href (or_intror eq_refl) Hrad1 Hval1 Hedge_a
               Hspl).
  - intros r Hr Hdeep. apply list_elem_of_In in Hr.
    destruct (Hto_b r Hr ltac:(lra))
      as (row & Hin & _ & [[_ Hsame] | (Hband & _)]).
    + exists row. split; [apply list_elem_of_In; exact Hin | exact Hsame].
    + exfalso. lra.
Qed.

(** The radii of the inverted region: a step apart from the base up, those
    that the exact ceiling counts under the top, then the top itself. *)
Lemma card_radii_grid (rounds_up : bool) (ref_model : card) (s : SetupModel) :
  0 < min_layer_thickness s ->
  length (card_radii rounds_up ref_model s) = (grid_count rounds_up s + 1)%nat /\
  (forall i r, (i < grid_count rounds_up s)%nat ->
     card_radii rounds_up ref_model s !! i = Some r ->
     r = radius_Earth_of ref_model - default 0 (depth_limits s !! 1%nat)
         + inject_Z (Z.of_nat i) * (min_layer_thickness s / 3) /\
     ((i < grid_count false s)%nat ->
      r < radius_Earth_of ref_model - default 0 (depth_limits s !! 0%nat))) /\
  card_radii rounds_up ref_model s !! grid_count rounds_up s
  = Some (radius_Earth_of ref_model - default 0 (depth_limits s !! 0%nat)).
Proof.
  intros Hmlt. unfold card_radii, grid_count.
  set (R := radius_Earth_of ref_model).
  set (d0 := default 0 (depth_limits s !! 0%nat)).
  set (d1 := default 0 (depth_limits s !! 1%nat)).
  set (step := min_layer_thickness s / 3).
  assert (0 < step) as Hstep by (apply Qlt_shift_div_l; lra).
  rewrite (arange_len_comp rounds_up ((R - d0 - (R - d1)) / step)
             ((d1 - d0) / step)) by (unfold Qdiv; ring).
  set (c := arange_len rounds_up ((d1 - d0) / step)).
  split; [rewrite length_app, length_map, length_seq; simpl; lia|].
  split.
  - intros i r Hi Hr.
    rewrite lookup_app_l in Hr by (rewrite length_map, length_seq; exact Hi).
    rewrite list_lookup_fmap, lookup_seq_lt in Hr by exact Hi.
    cbn in Hr. injection Hr as <-. split; [reflexivity|].
    intros Hexact.
    destruct (arange_len_counted rounds_up ((d1 - d0) / step) i Hi)
      as [_ Hlt].
    specialize (Hlt Hexact).
    assert (inject_Z (Z.of_nat i) * step < d1 - d0) as Hprod.
    { apply (Qmult_lt_compat_r _ _ step) in Hlt; [|exact Hstep].
      assert ((d1 - d0) / step * step == d1 - d0) as Heq by (field; lra).
      lra. }
    lra.
  - rewrite lookup_app_r by (rewrite length_map, length_seq; lia).
    rewrite length_map, length_seq, Nat.sub_diag. reflexivity.
Qed.

(** On inputs it can convert, with the Moho found, depth limits in order
    and a deep row of the outer core in the reference card, the conversion
    returns the spliced card. *)
Lemma convert_returns (rounds_up : bool) (ref_model : card) (m : InversionModel) (s : SetupModel)
    (md : Q) :
  convertible ref_model m s -> moho_depth m s = Ok md ->
  default 0 (depth_limits s !! 0%nat) < default 0 (depth_limits s !! 1%nat) ->
  has_deep_core ref_model s ->
  exists new below above,
    convert_inversion_model_to_mineos_model rounds_up ref_model m s
    = Ok (below ++ new ++ above) /\
    length new = (grid_count rounds_up s + 1)%nat /\
    (forall i row, new !! i = Some row ->
       exists r_km, card_radii rounds_up ref_model s !! i = Some r_km /\
         radius row = r_km * 1000 /\
         forall col, value row col = card_value ref_model m s md r_km col) /\
    (forall row, row ∈ below ->
       exists r, r ∈ ref_model /\ radius row = radius r /\
         radius r < (radius_Earth_of ref_model
                     - default 0 (depth_limits s !! 1%nat)) * 1000 /\
         value row col_q_mu == value r col_q_mu /\
         value row col_q_kappa == value r col_q_kappa) /\
    (forall row, row ∈ above ->
       exists r, r ∈ ref_model /\ radius row = radius r /\
         (radius_Earth_of ref_model
          - default 0 (depth_limits s !! 0%nat)) * 1000 < radius r /\
         value row col_q_mu == value r col_q_mu /\
         value row col_q_kappa == value r col_q_kappa).
Proof.
  intros Hconv Hmd Hlim Hcore.
  pose proof Hconv as (Hcons & Href & Hlen & Hne).
  destruct (consistent_facts s Hcons) as (_ & _ & _ & _ & Hmlt).
  destruct (convert_splices rounds_up ref_model m s md Hconv Hmd)
    as (new & below & above & new_first & new_last & Hnew & Hrows & Hfirst
        & Hlast & Hbelow & Habove & Hkept & Hrun).
  destruct (card_radii_grid rounds_up ref_model s Hmlt) as (Hcount & Hgrid & Htop).
  assert (1 <= grid_count rounds_up s)%nat as Hpos.
  { unfold grid_count. apply arange_len_pos.
    apply Qlt_shift_div_l; [apply Qlt_shift_div_l; lra | lra]. }
  (* the radii of the first and of the last row *)
  destruct (lookup_lt_is_Some_2 (card_radii rounds_up ref_model s) 0 ltac:(lia))
    as [r0 Hr0].
  destruct (Hgrid 0%nat r0 ltac:(lia) Hr0) as [Hr0eq _].
  destruct (Hrows _ _ Hr0) as (row0 & Hrow0 & Hrad0 & _).
  rewrite Hfirst in Hrow0. injection Hrow0 as <-.
  assert (radius new_first
          == (radius_Earth_of ref_model
              - default 0 (depth_limits s !! 1%nat)) * 1000) as Hbase.
  { rewrite Hrad0, Hr0eq. change (inject_Z (Z.of_nat 0)) with 0. ring. }
  destruct (Hrows _ _ Htop) as (row1 & Hrow1 & Hrad1 & _).
  replace (grid_count rounds_up s) with (length new - 1)%nat in Hrow1 by lia.
  rewrite Hlast in Hrow1. injection Hrow1 as <-.
  assert (exists h, card_header (below ++ new ++ above) = Ok h) as [h Hh].
  { apply card_header_ok. apply Exists_app. left.
    apply Exists_exists in Hcore as (r & Hr & Hcr & Hdeep).
    destruct (Hkept r Hr ltac:(rewrite Hbase; exact Hdeep))
      as (row & Hin & Hsame).
    apply Exists_exists. exists row. split; [exact Hin|].
    unfold core_row in *. rewrite !Hsame. exact Hcr. }
  exists new, below, above.
  split; [rewrite Hrun, Hh; reflexivity|].
  split; [lia|]. split; [|split].
  - intros i row Hi.
    destruct (lookup_lt_is_Some_2 (card_radii rounds_up ref_model s) i) as [r_km Hr].
    { apply lookup_lt_Some in Hi. lia. }
    destruct (Hrows _ _ Hr) as (row' & Hrow' & Hrad & Hval).
    rewrite Hi in Hrow'. injection Hrow' as <-.
    exists r_km. split; [exact Hr|]. split; [exact Hrad | exact Hval].
  - intros row Hin. destruct (Hbelow row Hin) as (r & Hr & Hrr & Hlt & Hq).
    exists r. split; [exact Hr|]. split; [exact Hrr|].
    split; [rewrite <- Hbase; exact Hlt | exact Hq].
  - intros row Hin. destruct (Habove row Hin) as (r & Hr & Hrr & Hlt & Hq).
    exists r. split; [exact Hr|]. split; [exact Hrr|].
    split; [rewrite <- Hrad1; exact Hlt | exact Hq].
Qed.

(** X13. The rows that [convert_inversion_model_to_mineos_model] lays
    between the spliced reference rows sample the inverted region from its
    base up, a third of [min_layer_thickness] apart, and end with a row
    exactly at the top.  The rows on the grid are
    [ceil(3 (depth_limits[1] - depth_limits[0]) / min_layer_thickness)],
    all under the top, and one more where that quotient is a whole number
    that binary64 rounds up.  The reference rows before them lie under the
    base and those after them above the top. *)
Theorem card_samples_inverted_region (rounds_up : bool) (ref_model : card)
    (m : InversionModel) (s : SetupModel) (md : Q) :
  convertible ref_model m s -> moho_depth m s = Ok md ->
  default 0 (depth_limits s !! 0%nat) < default 0 (depth_limits s !! 1%nat) ->
  has_deep_core ref_model s ->
  exists new below above,
    convert_inversion_model_to_mineos_model rounds_up ref_model m s
    = Ok (below ++ new ++ above) /\
    length new = (grid_count rounds_up s + 1)%nat /\
    (grid_count false s <= grid_count rounds_up s <= grid_count false s + 1)%nat
    /\
    (forall i row, new !! i = Some row -> (i < grid_count rounds_up s)%nat ->
       radius row
       == (radius_Earth_of ref_model - default 0 (depth_limits s !! 1%nat)
           + inject_Z (Z.of_nat i) * (min_layer_thickness s / 3)) * 1000) /\
    (forall i row, new !! i = Some row -> (i < grid_count false s)%nat ->
       radius row
       < (radius_Earth_of ref_model - default 0 (depth_limits s !! 0%nat))
         * 1000) /\
    (exists row, new !! grid_count rounds_up s = Some row /\
       radius row
       = (radius_Earth_of ref_model - default 0 (depth_limits s !! 0%nat))
         * 1000) /\
    (forall row, row ∈ below ->
       radius row
       < (radius_Earth_of ref_model - default 0 (depth_limits s !! 1%nat))
         * 1000) /\
    (forall row, row ∈ above ->
       (radius_Earth_of ref_model - default 0 (depth_limits s !! 0%nat)) * 1000
       < radius row).
Proof.
  intros Hconv Hmd Hlim Hcore.
  pose proof Hconv as (Hcons & _).
  destruct (consistent_facts s Hcons) as (_ & _ & _ & _ & Hmlt).
  destruct (convert_returns rounds_up ref_model m s md Hconv Hmd Hlim Hcore)
    as (new & below & above & Hrun & Hnew & Hrows & Hbelow & Habove).
  destruct (card_radii_grid rounds_up ref_model s Hmlt) as (_ & Hgrid & Htop).
  pose proof (arange_len_bounds rounds_up
                ((default 0 (depth_limits s !! 1%nat)
                  - default 0 (depth_limits s !! 0%nat))
                 / (min_layer_thickness s / 3))) as Hbounds.
  fold (grid_count rounds_up s) (grid_count false s) in Hbounds.
  exists new, below, above. split; [exact Hrun|]. split; [exact Hnew|].
  split; [exact Hbounds|].
  split; [|split; [|split; [|split]]].
  - intros i row Hi Hlt.
    destruct (Hrows i row Hi) as (r_km & Hr & Hrad & _).
    destruct (Hgrid i r_km Hlt Hr) as [Heq _].
    rewrite Hrad, Heq. reflexivity.
  - intros i row Hi Hlt.
    destruct (Hrows i row Hi) as (r_km & Hr & Hrad & _).
    destruct (Hgrid i r_km ltac:(lia) Hr) as [_ Hunder].
    specialize (Hunder Hlt). rewrite Hrad. lra.
  - destruct (lookup_lt_is_Some_2 new (grid_count rounds_up s) ltac:(lia))
      as [row Hrow].
    exists row. split; [exact Hrow|].
    destruct (Hrows _ row Hrow) as (r_km & Hr & Hrad & _).
    rewrite Htop in Hr. injection Hr as <-. exact Hrad.
  - intros row Hin. destruct (Hbelow row Hin) as (r & _ & -> & Hlt & _).
    exact Hlt.
  - intros row Hin. destruct (Habove row Hin) as (r & _ & -> & Hlt & _).
    exact Hlt.
Qed.

(** X14. The returned card splits into the reference rows under the
    base of the inverted region, the rows of the region, one for each of
    its radii, and the reference rows above its top.  In the rows of the
    region the density is the reference density interpolated at the row's
    radius, cut down to 2900 at depths down to the Moho: above the Moho no
    density exceeds 2900, below it the reference density stands, and
    nowhere is the density raised. *)
Theorem crust_density_capped (rounds_up : bool) (ref_model : card)
    (m : InversionModel) (s : SetupModel) (md : Q) :
  convertible ref_model m s -> moho_depth m s = Ok md ->
  default 0 (depth_limits s !! 0%nat) < default 0 (depth_limits s !! 1%nat) ->
  has_deep_core ref_model s ->
  exists new below above,
    convert_inversion_model_to_mineos_model rounds_up ref_model m s
    = Ok (below ++ new ++ above) /\
    length new = (grid_count rounds_up s + 1)%nat /\
    (forall row, row ∈ below ->
       radius row
       < (radius_Earth_of ref_model - default 0 (depth_limits s !! 1%nat))
         * 1000) /\
    (forall row, row ∈ above ->
       (radius_Earth_of ref_model - default 0 (depth_limits s !! 0%nat)) * 1000
       < radius row) /\
    forall row, row ∈ new ->
      (radius_Earth_of ref_model - radius row / 1000 <= md ->
       value row col_rho <= 2900) /\
      (md < radius_Earth_of ref_model - radius row / 1000 ->
       value row col_rho = ref_at ref_model (radius row) col_rho) /\
      value row col_rho <= ref_at ref_model (radius row) col_rho.
Proof.
  intros Hconv Hmd Hlim Hcore.
  destruct (convert_returns rounds_up ref_model m s md Hconv Hmd Hlim Hcore)
    as (new & below & above & Hrun & Hnew & Hrows & Hbelow & Habove).
  exists new, below, above. split; [exact Hrun|]. split; [exact Hnew|].
  split; [|split].
  - intros row Hin. destruct (Hbelow row Hin) as (r & _ & -> & Hlt & _).
    exact Hlt.
  - intros row Hin. destruct (Habove row Hin) as (r & _ & -> & Hlt & _).
    exact Hlt.
  - intros row Hin. apply list_elem_of_lookup in Hin as [i Hi].
    destruct (Hrows i row Hi) as (r_km & _ & Hrad & Hval).
    rewrite (Hval col_rho), Hrad. cbn [card_value].
    assert (r_km * 1000 / 1000 == r_km) as Hkm by field.
    destruct (Qle_bool (radius_Earth_of ref_model - r_km) md) eqn:Ez;
      destruct (Qlt_bool 2900 (ref_at ref_model (r_km * 1000) col_rho)) eqn:Er;
      cbn [andb]; order_facts; rewrite Hkm;
      (split; [|split]); intros; try reflexivity; try lra.
Qed.

(** X15. The splice leaves the attenuation of the reference card as it
    is: every row of the returned card outside the inverted region has the
    radius, the [q_mu] and the [q_kappa] of a row of the reference card,
    because the inverted region takes its attenuation from the reference
    card at the very radii the splice compares. *)
Theorem splice_keeps_attenuation (rounds_up : bool) (ref_model : card) (m : InversionModel)
    (s : SetupModel) (md : Q) :
  convertible ref_model m s -> moho_depth m s = Ok md ->
  default 0 (depth_limits s !! 0%nat) < default 0 (depth_limits s !! 1%nat) ->
  has_deep_core ref_model s ->
  exists new below above,
    convert_inversion_model_to_mineos_model rounds_up ref_model m s
    = Ok (below ++ new ++ above) /\
    (forall row, row ∈ below ++ above ->
       exists r, r ∈ ref_model /\ radius row = radius r /\
         value row col_q_mu == value r col_q_mu /\
         value row col_q_kappa == value r col_q_kappa) /\
    (forall row, row ∈ new ->
       value row col_q_mu = ref_at ref_model (radius row) col_q_mu /\
       value row col_q_kappa = ref_at ref_model (radius row) col_q_kappa).
Proof.
  intros Hconv Hmd Hlim Hcore.
  destruct (convert_returns rounds_up ref_model m s md Hconv Hmd Hlim Hcore)
    as (new & below & above & Hrun & _ & Hrows & Hbelow & Habove).
  exists new, below, above. split; [exact Hrun|]. split.
  - intros row Hin. apply elem_of_app in Hin as [Hin|Hin].
    + destruct (Hbelow row Hin) as (r & Hr & Hrad & _ & Hq).
      exists r. split; [exact Hr|]. split; [exact Hrad | exact Hq].
    + destruct (Habove row Hin) as (r & Hr & Hrad & _ & Hq).
      exists r. split; [exact Hr|]. split; [exact Hrad | exact Hq].
  - intros row Hin. apply list_elem_of_lookup in Hin as [i Hi].
    destruct (Hrows i row Hi) as (r_km & _ & Hrad & Hval).
    rewrite !Hval, Hrad. split; reflexivity.
Qed.

End Card.

(** ** The card velocity and the dm/ds kernels *)

Module Forward.
Import Facts DmDs DmDt Card.

Lemma increasing_tail (p : Q * Q) (pts : list (Q * Q)) :
  increasing (p :: pts) -> increasing pts.
Proof.
  intros H i j a b Hij Ha Hb. apply (H (S i) (S j) a b); [lia | exact Ha | exact Hb].
Qed.

Lemma interp_scan_cons (x x0 f0 x1 f1 : Q) (rest : list (Q * Q)) :
  interp_scan x ((x0, f0) :: (x1, f1) :: rest)
  = if Qlt_bool x x1
    then if Qeq_bool x0 x then f0
         else (f1 - f0) / (x1 - x0) * (x - x0) + f0
    else interp_scan x ((x1, f1) :: rest).
Proof. reflexivity. Qed.

(** At a point of the table the interpolation is the tabulated value. *)
Lemma interp_scan_knot (pts : list (Q * Q)) (k : nat) (xa fa x : Q) :
  increasing pts -> pts !! k = Some (xa, fa) -> x == xa ->
  interp_scan x pts == fa.
Proof.
  revert pts. induction k as [|k IH]; intros pts Hinc Hk Hx.
  - destruct pts as [|[x0 f0] rest]; [discriminate|].
    injection Hk as -> ->. cbn [interp_scan].
    destruct rest as [|[x1 f1] rest]; [reflexivity|].
    pose proof (Hinc 0%nat 1%nat (xa, fa) (x1, f1) ltac:(lia) eq_refl eq_refl)
      as Hlt. cbn [fst] in Hlt.
    assert (Qlt_bool x x1 = true) as -> by (apply Qlt_bool_iff; lra).
    assert (Qeq_bool xa x = true) as ->
      by (apply Qeq_bool_iff; symmetry; exact Hx).
    reflexivity.
  - destruct pts as [|[x0 f0] rest]; [discriminate|].
    change (rest !! k = Some (xa, fa)) in Hk.
    destruct rest as [|[x1 f1] rest']; [discriminate|].
    rewrite interp_scan_cons.
    assert (x1 <= xa) as Hle.
    { destruct k as [|k'].
      - injection Hk as -> _. lra.
      - pose proof (Hinc 1%nat (S (S k')) (x1, f1) (xa, fa) ltac:(lia) eq_refl Hk)
          as Hlt. cbn [fst] in Hlt. lra. }
    assert (Qlt_bool x x1 = false) as -> by (apply Qlt_bool_false; lra).
    apply IH; [eapply increasing_tail; exact Hinc | exact Hk | exact Hx].
Qed.

(** Between two neighbouring points it is the straight line through them. *)
Lemma interp_scan_segment (pts : list (Q * Q)) (k : nat) (xa fa xb fb x : Q) :
  increasing pts -> pts !! k = Some (xa, fa) -> pts !! S k = Some (xb, fb) ->
  xa <= x -> x < xb ->
  interp_scan x pts == fa + (fb - fa) * (x - xa) / (xb - xa).
Proof.
  revert pts. induction k as [|k IH]; intros pts Hinc Hk HSk Hlo Hhi.
  - destruct pts as [|[x0 f0] [|[x1 f1] rest]]; try discriminate.
    injection Hk as -> ->. injection HSk as -> ->. cbn [interp_scan].
    assert (Qlt_bool x xb = true) as -> by (apply Qlt_bool_iff; exact Hhi).
    destruct (Qeq_bool xa x) eqn:E.
    + apply Qeq_bool_iff in E. rewrite <- E. field. lra.
    + field. lra.
  - destruct pts as [|[x0 f0] rest]; [discriminate|].
    change (rest !! k = Some (xa, fa)) in Hk.
    change (rest !! S k = Some (xb, fb)) in HSk.
    destruct rest as [|[x1 f1] rest']; [discriminate|].
    rewrite interp_scan_cons.
    assert (x1 <= xa) as Hle.
    { destruct k as [|k'].
      - injection Hk as -> _. lra.
      - pose proof (Hinc 1%nat (S (S k')) (x1, f1) (xa, fa) ltac:(lia) eq_refl Hk)
          as Hlt. cbn [fst] in Hlt. lra. }
    assert (Qlt_bool x x1 = false) as -> by (apply Qlt_bool_false; lra).
    apply IH; [eapply increasing_tail; exact Hinc | exact Hk | exact HSk
               | exact Hlo | exact Hhi].
Qed.

(** The interpolation does not tell equal numbers apart. *)
Lemma interp_scan_comp (pts : list (Q * Q)) (x x' : Q) :
  x == x' -> interp_scan x pts == interp_scan x' pts.
Proof.
  intros Hx. induction pts as [|[x0 f0] rest IH]; [reflexivity|].
  destruct rest as [|[x1 f1] rest']; [reflexivity|].
  rewrite !interp_scan_cons.
  assert (Qlt_bool x x1 = Qlt_bool x' x1) as ->.
  { destruct (Qlt_bool x x1) eqn:E1, (Qlt_bool x' x1) eqn:E2; order_facts;
      try reflexivity; exfalso; lra. }
  assert (Qeq_bool x0 x = Qeq_bool x0 x') as ->.
  { destruct (Qeq_bool x0 x) eqn:E1, (Qeq_bool x0 x') eqn:E2; try reflexivity;
      [apply Qeq_bool_iff in E1; apply Qeq_bool_neq in E2
      |apply Qeq_bool_neq in E1; apply Qeq_bool_iff in E2];
      exfalso; [apply E2 | apply E1]; lra. }
  destruct (Qlt_bool x' x1); [|exact IH].
  destruct (Qeq_bool x0 x'); [reflexivity|]. rewrite Hx. reflexivity.
Qed.

Lemma model_vsv_at_comp (m : InversionModel) (z z' : Q) :
  z == z' -> model_vsv_at m z == model_vsv_at m z'.
Proof.
  intros Hz. unfold model_vsv_at, np_interp.
  destruct (zip (np_cumsum (thickness m)) (vsv m)) as [|[x0 f0] rest];
    [reflexivity|].
  assert (Qlt_bool z x0 = Qlt_bool z' x0) as ->.
  { destruct (Qlt_bool z x0) eqn:E1, (Qlt_bool z' x0) eqn:E2; order_facts;
      try reflexivity; exfalso; lra. }
  destruct (Qlt_bool z' x0); [reflexivity|].
  cbn [ok_or_zero]. apply interp_scan_comp. exact Hz.
Qed.

(** *** The table of the inversion model *)

Section Model.
Variable model : InversionModel.
Variable n : nat.
Hypothesis Hv : length (vsv model) = n.
Hypothesis Ht : length (thickness model) = n.
Hypothesis Hinc :
  forall j, (j + 1 < n)%nat -> node_depth model j < node_depth model (j + 1).

Lemma node_depth_mono (i j : nat) :
  (i < j)%nat -> (j < n)%nat -> node_depth model i < node_depth model j.
Proof.
  intros Hij Hj. induction j as [|j IH]; [lia|].
  destruct (Nat.eq_dec i j) as [->|Hne].
  - replace (S j) with (j + 1)%nat by lia. apply Hinc. lia.
  - apply Qlt_trans with (node_depth model j); [apply IH; lia|].
    replace (S j) with (j + 1)%nat by lia. apply Hinc. lia.
Qed.

Lemma model_point (k : nat) :
  (k < n)%nat ->
  zip (np_cumsum (thickness model)) (vsv model) !! k
  = Some (node_depth model k, node_vsv model k).
Proof.
  intros Hk. rewrite lookup_zip_with.
  rewrite lookup_cumsum by lia. cbn [mbind option_bind].
  rewrite node_vsv_lookup by lia. reflexivity.
Qed.

Lemma model_points_increasing :
  increasing (zip (np_cumsum (thickness model)) (vsv model)).
Proof.
  intros i j p q Hij Hp Hq.
  assert (j < n)%nat as Hj.
  { apply lookup_lt_Some in Hq. rewrite length_zip_with in Hq.
    unfold np_cumsum in Hq. rewrite length_cumsum_from in Hq. lia. }
  rewrite model_point in Hp by lia. rewrite model_point in Hq by lia.
  injection Hp as <-. injection Hq as <-. cbn [fst].
  apply node_depth_mono; assumption.
Qed.

(** The velocity of the model at a depth not above the first node. *)
Lemma model_vsv_at_scan (z : Q) :
  (1 <= n)%nat -> node_depth model 0 <= z ->
  model_vsv_at model z
  = interp_scan z (zip (np_cumsum (thickness model)) (vsv model)).
Proof.
  intros Hn Hz. unfold model_vsv_at, np_interp.
  pose proof (model_point 0 ltac:(lia)) as H0.
  destruct (zip (np_cumsum (thickness model)) (vsv model)) as [|[x0 f0] rest];
    [discriminate|].
  injection H0 as -> ->.
  assert (Qlt_bool z (node_depth model 0) = false) as ->
    by (apply Qlt_bool_false; exact Hz).
  reflexivity.
Qed.

(** Between the nodes [k] and [k + 1] the velocity of the model is linear
    in depth. *)
Lemma model_vsv_between (k : nat) (z : Q) :
  (k + 1 < n)%nat ->
  node_depth model k <= z -> z <= node_depth model (k + 1) ->
  model_vsv_at model z
  == node_vsv model k
     + (node_vsv model (k + 1) - node_vsv model k) * (z - node_depth model k)
       / layer_thickness model (k + 1).
Proof.
  intros Hk Hlo Hhi.
  assert (node_depth model 0 <= z) as H0.
  { destruct k as [|k']; [exact Hlo|].
    pose proof (node_depth_mono 0 (S k') ltac:(lia) ltac:(lia)). lra. }
  rewrite model_vsv_at_scan by (first [lia | exact H0]).
  pose proof (node_depth_succ model k (layer_thickness model (k + 1))
                (layer_thickness_lookup model (k + 1) ltac:(lia))) as Hy.
  pose proof (increasing_positive model n k Ht Hinc Hk) as Hpos.
  destruct (Qlt_le_dec z (node_depth model (k + 1))) as [Hlt|Hge].
  - rewrite (interp_scan_segment _ k (node_depth model k) (node_vsv model k)
               (node_depth model (k + 1)) (node_vsv model (k + 1)) z
               model_points_increasing (model_point k ltac:(lia))).
    + rewrite Hy. field. lra.
    + replace (S k) with (k + 1)%nat by lia. apply model_point. lia.
    + exact Hlo.
    + exact Hlt.
  - rewrite (interp_scan_knot _ (k + 1) (node_depth model (k + 1))
               (node_vsv model (k + 1)) z model_points_increasing
               (model_point (k + 1) ltac:(lia)) ltac:(lra)).
    assert (z - node_depth model k == layer_thickness model (k + 1)) as ->
      by (rewrite Hy in Hhi, Hge; lra).
    field. lra.
Qed.

(** The first [k] columns of dm/ds at depth [z], each times the velocity
    of its node: the velocity of the model down to node [k - 1], the share
    of node [k - 1] down to node [k], nothing below. *)
Lemma weighted_upto (z : Q) :
  node_depth model 0 <= z ->
  forall k, (1 <= k)%nat -> (k + 1 <= n)%nat ->
    (z <= node_depth model (k - 1) ->
     sum_upto (fun c => dm_ds_entry model c z * node_vsv model c) k
     == model_vsv_at model z) /\
    (node_depth model (k - 1) < z /\ z <= node_depth model k ->
     sum_upto (fun c => dm_ds_entry model c z * node_vsv model c) k
     == node_vsv model (k - 1)
        * (1 - (z - node_depth model (k - 1)) / layer_thickness model k)) /\
    (node_depth model k <= z ->
     sum_upto (fun c => dm_ds_entry model c z * node_vsv model c) k == 0).
Proof.
  intros Hz0 k. induction k as [|k IH]; intros Hk Hkn; [lia|].
  destruct (dm_ds_entry_ranges model n k z Ht Hinc) as (H1 & H2 & H3); [lia|].
  cbn [sum_upto]. replace (S k - 1)%nat with k by lia.
  replace (S k) with (k + 1)%nat by lia.
  assert (node_depth model k < node_depth model (k + 1)) as Hstep
    by (apply Hinc; lia).
  pose proof (node_depth_succ model k (layer_thickness model (k + 1))
                (layer_thickness_lookup model (k + 1) ltac:(lia))) as Hy.
  pose proof (increasing_positive model n k Ht Hinc ltac:(lia)) as Hpos.
  destruct k as [|k'].
  - (* the first column alone *)
    cbn [sum_upto]. split; [|split].
    + intros Hle. rewrite H2 by (split; lra).
      rewrite (model_vsv_between 0 z) by (first [lia | lra]).
      assert (z - node_depth model 0 == 0) as -> by lra.
      field. lra.
    + intros [Hlo Hhi].
      destruct (Qlt_le_dec z (node_depth model (0 + 1))) as [Hlt|Hge].
      * rewrite H2 by (split; lra). ring.
      * rewrite H3; [|intros (? & _); lia | intros [_ ?]; lra].
        assert (z - node_depth model 0 == layer_thickness model (0 + 1)) as ->
          by (rewrite Hy in Hhi, Hge; lra).
        field. lra.
    + intros Hge. rewrite H3; [ring | intros (? & _); lia | intros [_ ?]; lra].
  - destruct IH as (I1 & I2 & I3); [lia | lia|].
    replace (S k' - 1)%nat with k' in * by lia.
    assert (node_depth model k' < node_depth model (S k')) as Hprev.
    { replace (S k') with (k' + 1)%nat by lia. apply Hinc. lia. }
    pose proof (node_depth_succ model k' (layer_thickness model (k' + 1))
                  (layer_thickness_lookup model (k' + 1) ltac:(lia))) as Hy'.
    replace (k' + 1)%nat with (S k') in Hy' by lia.
    pose proof (increasing_positive model n k' Ht Hinc ltac:(lia)) as Hpos'.
    replace (k' + 1)%nat with (S k') in Hpos' by lia.
    split; [|split].
    + intros Hle.
      destruct (Qlt_le_dec (node_depth model k') z) as [Hin|Hout].
      * (* between the nodes k' and S k' *)
        rewrite I2 by (split; lra).
        rewrite H1 by (first [lia | split; lra]).
        rewrite (model_vsv_between k' z) by (first [lia | lra
          | replace (k' + 1)%nat with (S k') by lia; lra]).
        replace (k' + 1)%nat with (S k') by lia. field. lra.
      * rewrite I1 by lra.
        rewrite H3; [ring | intros (_ & ? & _); lra | intros [? _]; lra].
    + intros [Hlo Hhi].
      rewrite I3 by lra.
      destruct (Qlt_le_dec z (node_depth model (S k' + 1))) as [Hlt|Hge].
      * rewrite H2 by (split; lra). ring.
      * rewrite H3; [|intros (_ & _ & ?); lra | intros [_ ?]; lra].
        assert (z - node_depth model (S k') == layer_thickness model (S k' + 1))
          as -> by (rewrite Hy in Hhi, Hge; lra).
        field. lra.
    + intros Hge. rewrite I3 by lra.
      rewrite H3; [ring | intros (_ & _ & ?); lra | intros [_ ?]; lra].
Qed.

End Model.

Lemma dot_snoc (row : list Q) (x : Q) (v : list Q) :
  (length row < length v)%nat ->
  dot (row ++ [x]) v == dot row v + x * default 0 (v !! length row).
Proof.
  revert v. induction row as [|a row IH]; intros [|y v] H; simpl in H; try lia.
  - cbn. ring.
  - cbn [app dot length]. rewrite IH by lia.
    change ((y :: v) !! S (length row)) with (v !! length row). ring.
Qed.

Lemma sum_upto_ext (g g' : nat -> Q) (k : nat) :
  (forall c, (c < k)%nat -> g c == g' c) -> sum_upto g k == sum_upto g' k.
Proof.
  induction k as [|k IH]; intros H; [reflexivity|].
  cbn [sum_upto]. rewrite IH by (intros c Hc; apply H; lia).
  rewrite (H k) by lia. reflexivity.
Qed.

(** A row of tabulated weights times a vector. *)
Lemma dot_tabulated (row v : list Q) (g : nat -> Q) :
  (forall c, (c < length row)%nat -> row !! c = Some (g c)) ->
  (length row <= length v)%nat ->
  dot row v == sum_upto (fun c => g c * default 0 (v !! c)) (length row).
Proof.
  induction row as [|x row IH] using rev_ind; intros H Hlen.
  - reflexivity.
  - rewrite length_app in *. simpl length in *.
    rewrite dot_snoc by lia.
    replace (length row + 1)%nat with (S (length row)) by lia. cbn [sum_upto].
    rewrite IH.
    + pose proof (H (length row) ltac:(lia)) as Hx.
      rewrite lookup_app_r, Nat.sub_diag in Hx by lia.
      injection Hx as ->. reflexivity.
    + intros c Hc. rewrite <- (H c) by lia.
      rewrite lookup_app_l by exact Hc. reflexivity.
    + lia.
Qed.

(** A row of dm/ds times the velocities of the nodes is the velocity of
    the model at the depth of the row, down to the last node but one. *)
Lemma dm_ds_row_times_vsv (model : InversionModel) (depth : list Q) (n : nat) :
  length (vsv model) = n -> length (thickness model) = n -> (2 <= n)%nat ->
  Forall (fun t => 0 < t) (drop 1 (thickness model)) ->
  exists M, _calculate_dm_ds model depth = Ok M /\
    forall r z, depth !! r = Some z ->
      node_depth model 0 <= z -> z <= node_depth model (n - 2) ->
      exists row, M !! r = Some row /\
        dot row (vsv model) == model_vsv_at model z.
Proof.
  intros Hv Ht Hn Hpos.
  pose proof (positive_increasing model n Ht Hpos) as Hinc.
  destruct n as [|nl]; [lia|].
  destruct (calculate_dm_ds_spec model depth nl Hv Ht) as (M & HM & HS & HE); [lia|].
  exists M. split; [exact HM|].
  intros r z Hz Hlo Hhi.
  destruct (lookup_lt_is_Some_2 M r) as [row Hrow].
  { destruct HS as [-> _]. apply lookup_lt_Some in Hz. exact Hz. }
  assert (length row = nl) as Hlen by (eapply shape_row; eauto).
  exists row. split; [exact Hrow|].
  rewrite (dot_tabulated row (vsv model) (fun c => dm_ds_entry model c z)).
  - rewrite Hlen.
    destruct (weighted_upto model (S nl) Hv Ht Hinc z Hlo nl ltac:(lia) ltac:(lia))
      as (W1 & _ & _).
    replace (S nl - 2)%nat with (nl - 1)%nat in Hhi by lia.
    exact (W1 Hhi).
  - intros c Hc. specialize (HE r c z Hz ltac:(lia)).
    unfold entry in HE. rewrite Hrow in HE. exact HE.
  - lia.
Qed.

(** X22. The velocity of the deepest node has no kernel: between the
    last two nodes the velocity of the model depends on the velocity of the
    last node, but the row of [_calculate_dm_ds] times the node velocities
    gives only the share of the node above, the velocity of the model less
    the share [s_last * (z - y_{n-2}) / t_{n-1}] of the last node. *)
Theorem last_node_has_no_kernel (model : InversionModel) (depth : list Q)
    (n : nat) :
  length (vsv model) = n -> length (thickness model) = n -> (2 <= n)%nat ->
  Forall (fun t => 0 < t) (drop 1 (thickness model)) ->
  exists M, _calculate_dm_ds model depth = Ok M /\
    forall r z, depth !! r = Some z ->
      node_depth model (n - 2) < z -> z <= node_depth model (n - 1) ->
      exists row, M !! r = Some row /\
        dot row (vsv model)
        == model_vsv_at model z
           - node_vsv model (n - 1) * (z - node_depth model (n - 2))
             / layer_thickness model (n - 1).
Proof.
  intros Hv Ht Hn Hpos.
  pose proof (positive_increasing model n Ht Hpos) as Hinc.
  destruct n as [|nl]; [lia|].
  destruct (calculate_dm_ds_spec model depth nl Hv Ht) as (M & HM & HS & HE); [lia|].
  exists M. split; [exact HM|].
  intros r z Hz Hlo Hhi.
  replace (S nl - 2)%nat with (nl - 1)%nat in * by lia.
  replace (S nl - 1)%nat with nl in * by lia.
  destruct (lookup_lt_is_Some_2 M r) as [row Hrow].
  { destruct HS as [-> _]. apply lookup_lt_Some in Hz. exact Hz. }
  assert (length row = nl) as Hlen by (eapply shape_row; eauto).
  exists row. split; [exact Hrow|].
  assert (node_depth model 0 <= z) as H0.
  { destruct (Nat.eq_dec (nl - 1)%nat 0%nat) as [E|E]; [rewrite E in Hlo; lra|].
    pose proof (node_depth_mono model (S nl) Hv Ht Hinc 0 (nl - 1)
                  ltac:(lia) ltac:(lia)). lra. }
  rewrite (dot_tabulated row (vsv model) (fun c => dm_ds_entry model c z)).
  - rewrite Hlen.
    destruct (weighted_upto model (S nl) Hv Ht Hinc z H0 nl ltac:(lia) ltac:(lia))
      as (_ & W2 & _).
    rewrite (W2 (conj Hlo Hhi)).
    rewrite (model_vsv_between model (S nl) Hv Ht Hinc (nl - 1) z)
      by (first [lia | lra | replace (nl - 1 + 1)%nat with nl by lia; lra]).
    replace (nl - 1 + 1)%nat with nl by lia.
    pose proof (increasing_positive model (S nl) (nl - 1) Ht Hinc ltac:(lia))
      as Hth.
    replace (nl - 1 + 1)%nat with nl in Hth by lia.
    field. lra.
  - intros c Hc. specialize (HE r c z Hz ltac:(lia)).
    unfold entry in HE. rewrite Hrow in HE. exact HE.
  - lia.
Qed.

(** X16. The Vsv column of the card is the forward model of the dm/ds
    kernels.  The returned card splits into the reference rows under the
    base of the inverted region, the rows of the region, one for each of
    its radii, and the reference rows above its top; on a model whose
    layers under the first node are positive, the Vsv (in m/s) of a row of
    the region at depth [z], between the first node and the last but one,
    is 1000 times the row of [_calculate_dm_ds] at that depth times the
    vector of node velocities. *)
Theorem card_vsv_is_kernel_weighted (rounds_up : bool) (ref_model : card)
    (m : InversionModel) (s : SetupModel) (md : Q) (depth : list Q) (n : nat) :
  convertible ref_model m s -> moho_depth m s = Ok md ->
  default 0 (depth_limits s !! 0%nat) < default 0 (depth_limits s !! 1%nat) ->
  has_deep_core ref_model s ->
  length (vsv m) = n -> (2 <= n)%nat ->
  Forall (fun t => 0 < t) (drop 1 (thickness m)) ->
  exists new below above M,
    convert_inversion_model_to_mineos_model rounds_up ref_model m s
    = Ok (below ++ new ++ above) /\
    length new = (grid_count rounds_up s + 1)%nat /\
    (forall row, row ∈ below ->
       radius row
       < (radius_Earth_of ref_model - default 0 (depth_limits s !! 1%nat))
         * 1000) /\
    (forall row, row ∈ above ->
       (radius_Earth_of ref_model - default 0 (depth_limits s !! 0%nat)) * 1000
       < radius row) /\
    _calculate_dm_ds m depth = Ok M /\
    forall row r z, row ∈ new -> depth !! r = Some z ->
      z == radius_Earth_of ref_model - radius row / 1000 ->
      node_depth m 0 <= z -> z <= node_depth m (n - 2) ->
      exists mrow, M !! r = Some mrow /\
        value row col_vsv == 1000 * dot mrow (vsv m).
Proof.
  intros Hconv Hmd Hlim Hcore Hv Hn Hpos.
  pose proof Hconv as (_ & _ & Hlen & _).
  destruct (convert_returns rounds_up ref_model m s md Hconv Hmd Hlim Hcore)
    as (new & below & above & Hrun & Hnew & Hrows & Hbelow & Habove).
  destruct (dm_ds_row_times_vsv m depth n Hv ltac:(lia) Hn Hpos)
    as (M & HM & Hdot).
  exists new, below, above, M. split; [exact Hrun|]. split; [exact Hnew|].
  split.
  { intros row Hin. destruct (Hbelow row Hin) as (r & _ & -> & Hlt & _).
    exact Hlt. }
  split.
  { intros row Hin. destruct (Habove row Hin) as (r & _ & -> & Hlt & _).
    exact Hlt. }
  split; [exact HM|].
  intros row r z Hin Hz Hzrow Hlo Hhi.
  apply list_elem_of_lookup in Hin as [i Hi].
  destruct (Hrows i row Hi) as (r_km & _ & Hrad & Hval).
  destruct (Hdot r z Hz Hlo Hhi) as (mrow & Hmrow & Heq).
  exists mrow. split; [exact Hmrow|].
  rewrite (Hval col_vsv), Heq. cbn [card_value].
  rewrite (model_vsv_at_comp m (radius_Earth_of ref_model - r_km) z).
  - ring.
  - rewrite Hzrow, Hrad. field.
Qed.

End Forward.

(** ** dm/dt as the derivative of the card velocity *)

Module Derivative.
Import Facts DmDs DmDt Card Forward.

Lemma eq_Qeq (a b : Q) : a = b -> a == b.
Proof. intros ->. reflexivity. Qed.

Lemma thickness_positive (m : InversionModel) (n k : nat) :
  length (thickness m) = n ->
  Forall (fun t => 0 < t) (drop 1 (thickness m)) ->
  (1 <= k)%nat -> (k < n)%nat -> 0 < layer_thickness m k.
Proof.
  intros Ht Hpos Hk1 Hk. rewrite Forall_forall in Hpos. apply Hpos.
  apply list_elem_of_lookup. exists (k - 1)%nat. rewrite lookup_drop.
  replace (1 + (k - 1))%nat with k by lia.
  apply layer_thickness_lookup. lia.
Qed.

Section Moved.
Variable m : InversionModel.
Variables (n ib : nat) (d : Q).
Hypothesis Ht : length (thickness m) = n.
Hypothesis Hib : (1 <= ib)%nat.
Hypothesis Hbase : (ib + 2 < n)%nat.

Lemma moved_length : length (thickness (move_boundary m ib d)) = n.
Proof. cbn [thickness move_boundary]. rewrite !length_insert. exact Ht. Qed.

Lemma moved_thickness (k : nat) :
  (k < n)%nat ->
  layer_thickness (move_boundary m ib d) k
  == layer_thickness m k + thickness_shift ib d k.
Proof.
  intros Hk. unfold layer_thickness at 1, thickness_shift.
  cbn [thickness move_boundary].
  destruct (Nat.eqb_spec k ib) as [->|Hne1].
  - rewrite list_lookup_insert_ne by lia.
    rewrite list_lookup_insert_eq by lia. reflexivity.
  - destruct (Nat.eqb_spec k (ib + 2)) as [->|Hne2].
    + rewrite list_lookup_insert_eq by (rewrite length_insert; lia).
      cbn [default from_option Datatypes.id]. ring.
    + rewrite !list_lookup_insert_ne by lia.
      fold (layer_thickness m k). ring.
Qed.

Lemma moved_depth (k : nat) :
  (k < n)%nat ->
  node_depth (move_boundary m ib d) k == node_depth m k + depth_shift ib d k.
Proof.
  induction k as [|k IH]; intros Hk.
  - unfold node_depth. cbn [Nat.add].
    rewrite (np_sum_take_S _ 0 _ (layer_thickness_lookup (move_boundary m ib d)
                                   0 ltac:(rewrite moved_length; lia))).
    rewrite (np_sum_take_S _ 0 _ (layer_thickness_lookup m 0 ltac:(lia))).
    rewrite moved_thickness by lia. unfold thickness_shift, depth_shift.
    destruct (Nat.eqb_spec 0 ib); [lia|].
    destruct (Nat.eqb_spec 0 (ib + 2)); [lia|].
    destruct (Nat.eqb_spec 0 (ib + 1)); [lia|].
    cbn [orb]. rewrite !take_0. unfold np_sum. cbn [fold_left]. ring.
  - replace (S k) with (k + 1)%nat by lia.
    rewrite (node_depth_succ (move_boundary m ib d) k _
               (layer_thickness_lookup _ (k + 1)
                  ltac:(rewrite moved_length; lia))).
    rewrite (node_depth_succ m k _ (layer_thickness_lookup m (k + 1) ltac:(lia))).
    rewrite IH by lia. rewrite moved_thickness by lia.
    unfold thickness_shift, depth_shift.
    destruct (Nat.eqb_spec k ib), (Nat.eqb_spec k (ib + 1)),
             (Nat.eqb_spec (k + 1) ib), (Nat.eqb_spec (k + 1) (ib + 2)),
             (Nat.eqb_spec (k + 1) (ib + 1)); try lia; cbn [orb]; ring.
Qed.

Hypothesis Hpos : Forall (fun t => 0 < t) (drop 1 (thickness m)).
Hypothesis Hlo : - layer_thickness m ib < d.
Hypothesis Hhi : d < layer_thickness m (ib + 2).

Lemma moved_positive :
  Forall (fun t => 0 < t) (drop 1 (thickness (move_boundary m ib d))).
Proof.
  apply Forall_forall. intros t Hin.
  apply list_elem_of_lookup in Hin as [j Hj]. rewrite lookup_drop in Hj.
  remember (1 + j)%nat as k eqn:Ek.
  pose proof (lookup_lt_Some _ _ _ Hj) as Hlt. rewrite moved_length in Hlt.
  rewrite (layer_thickness_lookup (move_boundary m ib d) k
             ltac:(rewrite moved_length; lia)) in Hj.
  injection Hj as <-. rewrite moved_thickness by lia.
  pose proof (thickness_positive m n k Ht Hpos ltac:(lia) Hlt) as Hj0.
  unfold thickness_shift.
  destruct (Nat.eqb_spec k ib) as [Heq|Hne1]; [rewrite Heq in *; lra|].
  destruct (Nat.eqb_spec k (ib + 2)) as [Heq|Hne2]; [rewrite Heq in *; lra|].
  lra.
Qed.

End Moved.

(** X20. The dm/dt kernels are the derivative of the velocity that the
    card is given ([np.interp] of the depth over the node depths) with
    respect to the depth of a boundary, the width of the boundary and the
    depths of all other nodes being kept.  Moving the boundary of a model
    with positive layers down by [d] changes that velocity at depth [z] by
    the entry of dm/dt times [d] inside the boundary layer, by the entry
    times [d t / (t + d)] in the layer of thickness [t] above it, and by
    the entry times [d T / (T - d)] in the layer of thickness [T] under it
    (for [z] on the same side of the moved nodes): the difference quotient
    tends to the entry as [d] tends to 0. *)
Theorem dm_dt_is_velocity_derivative (m : InversionModel) (depth : list Q)
    (n i ib : nat) (d : Q) :
  length (vsv m) = n -> length (thickness m) = n ->
  Forall (fun t => 0 < t) (drop 1 (thickness m)) ->
  boundary_inds m !! i = Some ib ->
  Forall (fun ib => (ib + 1 < n)%nat) (boundary_inds m) ->
  (1 <= ib)%nat -> (ib + 2 < n)%nat ->
  - layer_thickness m ib < d -> d < layer_thickness m (ib + 2) ->
  exists M, _calculate_dm_dt m depth = Ok M /\
    forall r z, depth !! r = Some z ->
      exists e, entry M r i = Some e /\
        (node_depth m (ib - 1) < z -> z < node_depth m ib ->
         z < node_depth m ib + d ->
         (model_vsv_at (move_boundary m ib d) z - model_vsv_at m z)
         * (layer_thickness m ib + d)
         == e * d * layer_thickness m ib) /\
        (node_depth m ib <= z -> z < node_depth m (ib + 1) ->
         node_depth m ib + d <= z -> z < node_depth m (ib + 1) + d ->
         model_vsv_at (move_boundary m ib d) z - model_vsv_at m z == e * d) /\
        (node_depth m (ib + 1) <= z -> z < node_depth m (ib + 2) ->
         node_depth m (ib + 1) + d <= z ->
         (model_vsv_at (move_boundary m ib d) z - model_vsv_at m z)
         * (layer_thickness m (ib + 2) - d)
         == e * d * layer_thickness m (ib + 2)).
Proof.
  intros Hv Ht Hpos Hi Hbinds Hib Hbase Hlo Hhi.
  assert (well_formed m) as Hwf.
  { split; [lia|]. rewrite Ht. exact Hbinds. }
  destruct (calculate_dm_dt_spec m depth Hwf) as (M & HM & _ & HE).
  exists M. split; [exact HM|]. intros r z Hz.
  exists (dm_dt_entry m ib z). split; [exact (HE r i ib z Hz Hi)|].
  set (m' := move_boundary m ib d).
  pose proof (positive_increasing m n Ht Hpos) as Hinc.
  pose proof (positive_increasing m' n (moved_length m n ib d Ht)
                (moved_positive m n ib d Ht Hib Hbase Hpos Hlo Hhi)) as Hinc'.
  assert (length (vsv m') = n) as Hv' by exact Hv.
  pose proof (moved_length m n ib d Ht) as Ht'.
  (* the depths of the nodes about the boundary, before and after *)
  pose proof (node_depth_succ m (ib - 1) _
                (layer_thickness_lookup m (ib - 1 + 1) ltac:(lia))) as Hy0.
  replace (ib - 1 + 1)%nat with ib in Hy0 by lia.
  pose proof (node_depth_succ m ib _
                (layer_thickness_lookup m (ib + 1) ltac:(lia))) as Hy1.
  pose proof (node_depth_succ m (ib + 1) _
                (layer_thickness_lookup m (ib + 1 + 1) ltac:(lia))) as Hy2.
  replace (ib + 1 + 1)%nat with (ib + 2)%nat in Hy2 by lia.
  apply eq_Qeq in Hy0, Hy1, Hy2.
  pose proof (thickness_positive m n ib Ht Hpos Hib ltac:(lia)) as Ht0.
  pose proof (thickness_positive m n (ib + 1) Ht Hpos ltac:(lia) ltac:(lia))
    as Hw0.
  pose proof (thickness_positive m n (ib + 2) Ht Hpos ltac:(lia) ltac:(lia))
    as HT0.
  assert (node_depth m' (ib - 1) == node_depth m (ib - 1)) as Hd0.
  { unfold m'. rewrite (moved_depth m n ib d Ht Hib Hbase) by lia.
    unfold depth_shift.
    destruct (Nat.eqb_spec (ib - 1) ib), (Nat.eqb_spec (ib - 1) (ib + 1));
      try lia. cbn [orb]. ring. }
  assert (node_depth m' ib == node_depth m ib + d) as Hd1.
  { unfold m'. rewrite (moved_depth m n ib d Ht Hib Hbase) by lia.
    unfold depth_shift.
    rewrite Nat.eqb_refl. reflexivity. }
  assert (node_depth m' (ib + 1) == node_depth m (ib + 1) + d) as Hd2.
  { unfold m'. rewrite (moved_depth m n ib d Ht Hib Hbase) by lia.
    unfold depth_shift.
    rewrite Nat.eqb_refl, orb_true_r. reflexivity. }
  assert (node_depth m' (ib + 2) == node_depth m (ib + 2)) as Hd3.
  { unfold m'. rewrite (moved_depth m n ib d Ht Hib Hbase) by lia.
    unfold depth_shift.
    destruct (Nat.eqb_spec (ib + 2) ib), (Nat.eqb_spec (ib + 2) (ib + 1));
      try lia. cbn [orb]. ring. }
  assert (layer_thickness m' ib == layer_thickness m ib + d) as Hl0.
  { unfold m'. rewrite (moved_thickness m n ib d Ht Hib Hbase) by lia.
    unfold thickness_shift. rewrite Nat.eqb_refl. reflexivity. }
  assert (layer_thickness m' (ib + 1) == layer_thickness m (ib + 1)) as Hl1.
  { unfold m'. rewrite (moved_thickness m n ib d Ht Hib Hbase) by lia.
    unfold thickness_shift.
    destruct (Nat.eqb_spec (ib + 1) ib), (Nat.eqb_spec (ib + 1) (ib + 2));
      try lia. ring. }
  assert (layer_thickness m' (ib + 2) == layer_thickness m (ib + 2) - d) as Hl2.
  { unfold m'. rewrite (moved_thickness m n ib d Ht Hib Hbase) by lia.
    unfold thickness_shift.
    destruct (Nat.eqb_spec (ib + 2) ib); [lia|].
    rewrite Nat.eqb_refl. ring. }
  assert (forall k, node_vsv m' k = node_vsv m k) as Hs by reflexivity.
  unfold dm_dt_entry.
  rewrite (vsv_above_pred m ib Hib), (node_depth_pred m ib Hib).
  split; [|split].
  - (* the layer above the boundary *)
    intros Ha Hb Hc.
    assert (Qle_bool (node_depth m (ib + 1)) z = false) as ->
      by (apply Qle_bool_false; lra).
    assert (Qle_bool (node_depth m ib) z = false) as ->
      by (apply Qle_bool_false; lra).
    assert (Qlt_bool (node_depth m (ib - 1)) z = true) as ->
      by (apply Qlt_bool_iff; lra).
    assert (Qlt_bool z (node_depth m ib) = true) as ->
      by (apply Qlt_bool_iff; lra).
    cbn [andb].
    rewrite (model_vsv_between m' n Hv' Ht' Hinc' (ib - 1) z)
      by (first [lia | rewrite Hd0; lra
                | replace (ib - 1 + 1)%nat with ib by lia; rewrite Hd1; lra]).
    rewrite (model_vsv_between m n Hv Ht Hinc (ib - 1) z)
      by (first [lia | lra | replace (ib - 1 + 1)%nat with ib by lia; lra]).
    replace (ib - 1 + 1)%nat with ib by lia.
    rewrite !Hs, Hd0, Hl0. field. lra.
  - (* the boundary layer *)
    intros Ha Hb Hc Hd.
    assert (Qle_bool (node_depth m (ib + 1)) z = false) as ->
      by (apply Qle_bool_false; lra).
    assert (Qle_bool (node_depth m ib) z = true) as ->
      by (apply Qle_bool_iff; lra).
    assert (Qlt_bool z (node_depth m (ib + 1)) = true) as ->
      by (apply Qlt_bool_iff; lra).
    cbn [andb].
    rewrite (model_vsv_between m' n Hv' Ht' Hinc' ib z)
      by (first [lia | rewrite Hd1; lra | rewrite Hd2; lra]).
    rewrite (model_vsv_between m n Hv Ht Hinc ib z) by (first [lia | lra]).
    rewrite !Hs, Hd1, Hl1. field. lra.
  - (* the layer under the boundary *)
    intros Ha Hb Hc.
    assert (Qle_bool (node_depth m (ib + 1)) z = true) as ->
      by (apply Qle_bool_iff; lra).
    assert (Qlt_bool z (node_depth m (ib + 2)) = true) as ->
      by (apply Qlt_bool_iff; lra).
    cbn [andb].
    rewrite (model_vsv_between m' n Hv' Ht' Hinc' (ib + 1) z)
      by (first [lia | rewrite Hd2; lra
                | replace (ib + 1 + 1)%nat with (ib + 2)%nat by lia;
                  rewrite Hd3; lra]).
    rewrite (model_vsv_between m n Hv Ht Hinc (ib + 1) z)
      by (first [lia | lra
                | replace (ib + 1 + 1)%nat with (ib + 2)%nat by lia; lra]).
    replace (ib + 1 + 1)%nat with (ib + 2)%nat by lia.
    rewrite !Hs, Hd2, Hl2.
    assert (layer_thickness m ib
            - (node_depth m (ib + 2) - node_depth m (ib - 1)
               - layer_thickness m (ib + 1))
            == - layer_thickness m (ib + 2)) as Hdiv
      by (rewrite Hy2, Hy1, Hy0; ring).
    rewrite Hdiv. rewrite Hy2. field. lra.
Qed.

End Derivative.

(** ** Where the conversion raises *)

Module CardErrors.
Import Facts DmDs Builder Splice Card.

(** The interpolation of positive values is positive, whatever the
    abscissae are. *)
Lemma interp_scan_pos (pts : list (Q * Q)) (x : Q) :
  Forall (fun p => 0 < snd p) pts ->
  match pts with
  | [] => False
  | (x0, _) :: _ => x0 <= x
  end ->
  0 < interp_scan x pts.
Proof.
  induction pts as [|[x0 f0] rest IH]; intros Hpos Hhd; [contradiction|].
  destruct rest as [|[x1 f1] rest'].
  - apply (proj1 (Forall_singleton _ _)) in Hpos. exact Hpos.
  - rewrite Forward.interp_scan_cons.
    pose proof (Forall_inv Hpos) as Hf0. cbn [snd] in Hf0.
    pose proof (Forall_inv (Forall_inv_tail Hpos)) as Hf1. cbn [snd] in Hf1.
    destruct (Qlt_bool x x1) eqn:E1.
    + apply Qlt_bool_iff in E1.
      destruct (Qeq_bool x0 x); [exact Hf0|].
      set (t := (x - x0) / (x1 - x0)).
      assert (0 <= t) as Ht0 by (apply Qle_shift_div_l; lra).
      assert (t < 1) as Ht1 by (apply Qlt_shift_div_r; lra).
      assert ((f1 - f0) / (x1 - x0) * (x - x0) + f0
              == f0 * (1 - t) + f1 * t) as -> by (unfold t; field; lra).
      pose proof (Qmult_lt_0_compat f0 (1 - t) Hf0 ltac:(lra)).
      pose proof (Qmult_le_0_compat f1 t ltac:(lra) Ht0).
      lra.
    + apply Qlt_bool_false in E1.
      apply IH; [exact (Forall_inv_tail Hpos) | exact E1].
Qed.

Lemma ref_at_pos (ref_model : card) (x : Q) (col : column) :
  (1 <= length ref_model)%nat ->
  (forall r, r ∈ ref_model -> 0 < value r col) ->
  0 < ref_at ref_model x col.
Proof.
  intros Href Hpos. unfold ref_at, ref_value_at, np_interp.
  assert (Forall (fun p => 0 < snd p)
            (zip (map radius ref_model)
                 (map (fun r => value r col) ref_model))) as Hall.
  { apply Forall_forall. intros [xr fr] Hin.
    apply list_elem_of_lookup in Hin as [i Hi].
    rewrite lookup_zip_with, !list_lookup_fmap in Hi.
    destruct (ref_model !! i) as [r|] eqn:Er; [|discriminate].
    cbn in Hi. injection Hi as <- <-. cbn [snd].
    apply Hpos. apply list_elem_of_lookup. eauto. }
  destruct (zip (map radius ref_model) (map (fun r => value r col) ref_model))
    as [|[x0 f0] rest] eqn:E.
  { apply (f_equal length) in E. rewrite length_zip_with, !length_map in E.
    simpl in E. lia. }
  destruct (Qlt_bool x x0) eqn:Ex; cbn [ok_or_zero].
  - exact (Forall_inv Hall).
  - apply Qlt_bool_false in Ex. apply interp_scan_pos; [exact Hall | exact Ex].
Qed.

(** X17. A reference card without a fluid layer cannot be converted: if
    [q_mu] is positive in every row of the reference card, no row of the
    spliced card has [vsv = 0] and [q_mu = 0], and
    [convert_inversion_model_to_mineos_model] raises IndexError when it
    looks for the core to write the header of the card file. *)
Theorem card_needs_outer_core (rounds_up : bool) (ref_model : card) (m : InversionModel)
    (s : SetupModel) (md : Q) :
  convertible ref_model m s -> moho_depth m s = Ok md ->
  (forall r, r ∈ ref_model -> 0 < value r col_q_mu) ->
  convert_inversion_model_to_mineos_model rounds_up ref_model m s = Raise IndexError.
Proof.
  intros Hconv Hmd Hq.
  pose proof Hconv as (_ & Href & _).
  destruct (convert_splices rounds_up ref_model m s md Hconv Hmd)
    as (new & below & above & new_first & new_last & Hnew & Hrows & _ & _
        & Hbelow & Habove & _ & Hrun).
  rewrite Hrun, card_header_raises; [reflexivity|].
  assert (forall row, 0 < value row col_q_mu -> core_row row = false) as Hno.
  { intros row Hrow. unfold core_row. apply andb_false_iff. right.
    destruct (Qeq_bool (value row col_q_mu) 0) eqn:E; [|reflexivity].
    apply Qeq_bool_iff in E. lra. }
  rewrite !Forall_app. split; [|split]; apply Forall_forall; intros row Hin;
    apply Hno.
  - destruct (Hbelow row Hin) as (r & Hr & _ & _ & -> & _). exact (Hq r Hr).
  - apply list_elem_of_lookup in Hin as [i Hi].
    destruct (lookup_lt_is_Some_2 (card_radii rounds_up ref_model s) i) as [r_km Hr].
    { apply lookup_lt_Some in Hi. lia. }
    destruct (Hrows i r_km Hr) as (row' & Hrow' & _ & Hval).
    rewrite Hi in Hrow'. injection Hrow' as <-.
    rewrite (Hval col_q_mu). cbn [card_value].
    apply ref_at_pos; assumption.
  - destruct (Habove row Hin) as (r & Hr & _ & _ & -> & _). exact (Hq r Hr).
Qed.

(** The conversion raises what the search for the Moho raises. *)
Lemma convert_moho_raises (rounds_up : bool) (ref_model : card) (m : InversionModel)
    (s : SetupModel) (e : exn) :
  convertible ref_model m s -> moho_depth m s = Raise e ->
  convert_inversion_model_to_mineos_model rounds_up ref_model m s = Raise e.
Proof.
  intros (Hcons & Href & Hlen & Hne) Hmd.
  destruct (consistent_facts s Hcons) as (_ & _ & _ & Hld & Hmlt).
  destruct (getitem_signed_last_row ref_model Href) as (ref_last & Hlast & HR).
  pose proof (lookup_default (depth_limits s) 0 ltac:(lia)) as Hd0.
  pose proof (lookup_default (depth_limits s) 1 ltac:(lia)) as Hd1.
  unfold convert_inversion_model_to_mineos_model.
  rewrite Hlast. cbn [mbind result_bind]. rewrite HR.
  rewrite (getitem_Some _ _ _ Hd0). cbn [mbind result_bind].
  rewrite (getitem_Some _ _ _ Hd1). cbn [mbind result_bind].
  rewrite np_arange_ok by (apply Qlt_shift_div_l; lra).
  cbn [mbind result_bind].
  rewrite np_interp_array_ok
    by (unfold np_cumsum; rewrite ?length_cumsum_from; lia).
  cbn [mbind result_bind].
  rewrite (map_result_ok (fun r => ref_value_at r ref_model col_q_mu)
                         (fun r => ref_at ref_model r col_q_mu))
    by (intros r; apply ref_value_at_ok; exact Href).
  cbn [mbind result_bind].
  rewrite (map_result_ok (fun r => ref_value_at r ref_model col_q_kappa)
                         (fun r => ref_at ref_model r col_q_kappa))
    by (intros r; apply ref_value_at_ok; exact Href).
  cbn [mbind result_bind].
  rewrite (map_result_ok (fun r => ref_value_at r ref_model col_rho)
                         (fun r => ref_at ref_model r col_rho))
    by (intros r; apply ref_value_at_ok; exact Href).
  cbn [mbind result_bind].
  fold (moho_depth m s). rewrite Hmd. reflexivity.
Qed.

(** X18. With [Moho = (True, k)] and [k] not an index of [boundary_inds]
    (so with the default [(True, 0)] on a model without boundaries) the
    conversion raises IndexError. *)
Theorem moho_index_out_of_range (rounds_up : bool) (ref_model : card) (m : InversionModel)
    (s : SetupModel) (k : Z) :
  convertible ref_model m s ->
  fst (Moho s) = true -> snd (Moho s) == inject_Z k ->
  (k < - Z.of_nat (length (boundary_inds m))
   \/ Z.of_nat (length (boundary_inds m)) <= k)%Z ->
  convert_inversion_model_to_mineos_model rounds_up ref_model m s = Raise IndexError.
Proof.
  intros Hconv Hfst Hsnd Hk. apply (convert_moho_raises rounds_up _ _ _ _ Hconv).
  unfold moho_depth, getitem_number. rewrite Hfst.
  assert (Qfloor (snd (Moho s)) = k) as Hfl
    by (rewrite (Qfloor_comp _ _ Hsnd); apply Qfloor_Z).
  rewrite Hfl.
  assert (Qeq_bool (snd (Moho s)) (inject_Z k) = true) as ->
    by (apply Qeq_bool_iff; exact Hsnd).
  unfold getitem_signed.
  destruct (Z.leb_spec 0 k) as [Hpos|Hneg].
  - rewrite Composition.getitem_None by lia. reflexivity.
  - destruct (Z.leb_spec (- Z.of_nat (length (boundary_inds m))) k) as [Hin|_];
      [lia | reflexivity].
Qed.

(** X19. A model whose velocities and thicknesses differ in number, or
    that has none, makes the conversion raise ValueError, from the
    interpolation of the velocities. *)
Theorem model_lengths_must_agree (rounds_up : bool) (ref_model : card) (m : InversionModel)
    (s : SetupModel) :
  consistent s = true -> (1 <= length ref_model)%nat ->
  length (vsv m) <> length (thickness m) \/ length (thickness m) = 0%nat ->
  convert_inversion_model_to_mineos_model rounds_up ref_model m s = Raise ValueError.
Proof.
  intros Hcons Href Hbad.
  destruct (consistent_facts s Hcons) as (_ & _ & _ & Hld & Hmlt).
  destruct (getitem_signed_last_row ref_model Href) as (ref_last & Hlast & HR).
  pose proof (lookup_default (depth_limits s) 0 ltac:(lia)) as Hd0.
  pose proof (lookup_default (depth_limits s) 1 ltac:(lia)) as Hd1.
  unfold convert_inversion_model_to_mineos_model.
  rewrite Hlast. cbn [mbind result_bind]. rewrite HR.
  rewrite (getitem_Some _ _ _ Hd0). cbn [mbind result_bind].
  rewrite (getitem_Some _ _ _ Hd1). cbn [mbind result_bind].
  rewrite np_arange_ok by (apply Qlt_shift_div_l; lra).
  cbn [mbind result_bind].
  unfold np_interp_array, np_cumsum. rewrite length_cumsum_from.
  destruct (Nat.eqb_spec (length (thickness m)) 0) as [H0|H0]; [reflexivity|].
  destruct (Nat.eqb_spec (length (thickness m)) (length (vsv m))) as [He|He];
    [|reflexivity].
  exfalso. destruct Hbad as [Hbad|Hbad]; [apply Hbad; lia | lia].
Qed.

End CardErrors.

(** ** The constraints: the closest observation *)

Module Closest.
Import Facts DmDs constraints ConstraintNotions.

Lemma idxmin_from_spec (best : nat * Q) (s : list (nat * Q)) :
  exists v, (idxmin_from best s, v) ∈ best :: s /\ v <= snd best /\
    forall p, p ∈ s -> v <= snd p.
Proof.
  revert best. induction s as [|[i w] s IH]; intros [b vb].
  - exists vb. split; [left|]. split; [cbn; lra|].
    intros p Hp. inversion Hp.
  - cbn [idxmin_from snd]. destruct (Qlt_bool w vb) eqn:E; order_facts.
    + destruct (IH (i, w)) as (v & Hin & Hle & Hall). cbn [snd] in Hle.
      exists v. split; [right; exact Hin|]. split; [cbn; lra|].
      intros p Hp. apply elem_of_cons in Hp as [->|Hp]; [exact Hle | exact (Hall p Hp)].
    + destruct (IH (b, vb)) as (v & Hin & Hle & Hall). cbn [snd] in Hle.
      exists v. split.
      * apply elem_of_cons in Hin as [Hin|Hin];
          [rewrite Hin; left | right; right; exact Hin].
      * split; [exact Hle|].
        intros p Hp. apply elem_of_cons in Hp as [->|Hp];
          [cbn; lra | exact (Hall p Hp)].
Qed.

(** The series of squared distances that the code builds. *)
Lemma distances (df : frame) (location : Q * Q) :
  _find_closest_lat_lon df location
  = idxmin (map (fun ir => (fst ir, distance_squared location (snd ir))) df).
Proof.
  destruct location as [lat_0 lon_0]. unfold _find_closest_lat_lon.
  rewrite map_map. f_equal. apply map_ext. intros [i r].
  unfold distance_squared, wrap_lon. cbn [fst snd].
  destruct (Qlt_bool 180 (lon r)); reflexivity.
Qed.

Lemma find_closest_spec (df : frame) (location : Q * Q) :
  (1 <= length df)%nat ->
  exists i r, _find_closest_lat_lon df location = Ok i /\ (i, r) ∈ df /\
    forall j r', (j, r') ∈ df ->
      distance_squared location r <= distance_squared location r'.
Proof.
  rewrite distances.
  - intros Hne. destruct df as [|[i0 r0] df]; [simpl in Hne; lia|].
    cbn [map idxmin fst snd].
    destruct (idxmin_from_spec (i0, distance_squared location r0)
                (map (fun ir => (fst ir, distance_squared location (snd ir))) df))
      as (v & Hin & Hle & Hall).
    change ((i0, distance_squared location r0)
            :: map (fun ir => (fst ir, distance_squared location (snd ir))) df)
      with (map (fun ir => (fst ir, distance_squared location (snd ir)))
                ((i0, r0) :: df)) in Hin.
    apply list_elem_of_fmap in Hin as ([i r] & Heq & Hin).
    cbn [fst snd] in Heq. injection Heq as Hi Hv.
    exists i, r. split; [rewrite Hi; reflexivity|]. split; [exact Hin|].
    intros j r' Hj. rewrite <- Hv.
    apply elem_of_cons in Hj as [Hj|Hj].
    + injection Hj as -> ->. exact Hle.
    + apply (Hall (j, distance_squared location r')).
      apply list_elem_of_fmap. exists (j, r'). split; [reflexivity | exact Hj].
Qed.

(** X23. [_find_closest_lat_lon] returns the label of a row of the frame
    whose squared distance to the location, in degrees of latitude and of
    longitude (longitudes over 180 taken 360 lower), is the least in the
    frame; on an empty frame it raises ValueError. *)
Theorem find_closest_is_nearest (df : frame) (location : Q * Q) :
  (df = [] -> _find_closest_lat_lon df location = Raise ValueError) /\
  ((1 <= length df)%nat ->
   exists i r, _find_closest_lat_lon df location = Ok i /\ (i, r) ∈ df /\
     forall j r', (j, r') ∈ df ->
       distance_squared location r <= distance_squared location r').
Proof.
  split.
  - intros ->. rewrite distances. reflexivity.
  - apply find_closest_spec.
Qed.

End Closest.

(** ** The constraints: one phase velocity for each period *)

Module PhaseVels.
Import Facts DmDs JacobianShape constraints ConstraintNotions Closest.

Lemma existsb_Qeq (x : Q) (seen : list Q) :
  (existsb (Qeq_bool x) seen = true -> exists y, y ∈ seen /\ x == y) /\
  (existsb (Qeq_bool x) seen = false -> forall y, y ∈ seen -> ~ x == y).
Proof.
  induction seen as [|y seen [IH1 IH2]]; cbn [existsb].
  - split; [discriminate|]. intros _ y Hy. inversion Hy.
  - destruct (Qeq_bool x y) eqn:E; cbn [orb].
    + split; [|discriminate]. intros _. exists y.
      split; [left | apply Qeq_bool_iff; exact E].
    + split.
      * intros H. destruct (IH1 H) as (z & Hz & Hxz).
        exists z. split; [right; exact Hz | exact Hxz].
      * intros H z Hz. apply elem_of_cons in Hz as [->|Hz].
        -- apply Qeq_bool_neq. exact E.
        -- exact (IH2 H z Hz).
Qed.

(** What [unique()] keeps: values of the series, one for each value of
    the series, all different. *)
Lemma pd_unique_acc_spec (a seen : list Q) :
  let U := fold_left (fun seen x =>
             if existsb (Qeq_bool x) seen then seen else seen ++ [x]) a seen in
  (forall x, x ∈ U -> x ∈ seen \/ x ∈ a) /\
  (forall x, x ∈ seen \/ x ∈ a -> exists u, u ∈ U /\ x == u) /\
  (distinct seen -> distinct U).
Proof.
  revert seen. induction a as [|x a IH]; intros seen; cbn [fold_left].
  - split; [intros x Hx; left; exact Hx|]. split; [|tauto].
    intros x [Hx|Hx]; [exists x; split; [exact Hx | reflexivity] | inversion Hx].
  - set (seen' := if existsb (Qeq_bool x) seen then seen else seen ++ [x]).
    destruct (IH seen') as (I1 & I2 & I3).
    destruct (existsb_Qeq x seen) as [E1 E2].
    split; [|split].
    + intros y Hy. destruct (I1 y Hy) as [Hs|Ha]; [|right; right; exact Ha].
      unfold seen' in Hs. destruct (existsb (Qeq_bool x) seen); [left; exact Hs|].
      apply elem_of_app in Hs as [Hs|Hs]; [left; exact Hs|].
      apply list_elem_of_singleton in Hs as ->. right. left.
    + intros y [Hy|Hy].
      * apply I2. left. unfold seen'.
        destruct (existsb (Qeq_bool x) seen); [exact Hy|].
        apply elem_of_app. left. exact Hy.
      * apply elem_of_cons in Hy as [->|Hy]; [|apply I2; right; exact Hy].
        unfold seen' in *. destruct (existsb (Qeq_bool x) seen) eqn:E.
        -- destruct (E1 eq_refl) as (z & Hz & Hxz).
           destruct (I2 z (or_introl Hz)) as (u & Hu & Hzu).
           exists u. split; [exact Hu | rewrite Hxz; exact Hzu].
        -- apply I2. left. apply elem_of_app. right. left.
    + intros Hd. apply I3. unfold seen'.
      destruct (existsb (Qeq_bool x) seen) eqn:E; [exact Hd|].
      intros i j u v Hij Hu Hv.
      destruct (Nat.lt_ge_cases j (length seen)) as [Hj|Hj].
      * rewrite lookup_app_l in Hu, Hv by lia. exact (Hd i j u v Hij Hu Hv).
      * rewrite lookup_app_r in Hv by lia.
        assert (v = x) as ->.
        { destruct (j - length seen)%nat as [|k]; [injection Hv as <-; reflexivity|].
          discriminate. }
        assert (i < length seen)%nat as Hi.
        { apply lookup_lt_Some in Hv. apply lookup_lt_Some in Hu.
          rewrite length_app in Hu. simpl in Hu, Hv. lia. }
        rewrite lookup_app_l in Hu by lia.
        intros Huv. apply (E2 eq_refl u); [|symmetry; exact Huv].
        apply list_elem_of_lookup. eauto.
Qed.

Lemma pd_unique_spec (a : list Q) :
  (forall x, x ∈ pd_unique a -> x ∈ a) /\
  (forall x, x ∈ a -> exists u, u ∈ pd_unique a /\ x == u) /\
  distinct (pd_unique a).
Proof.
  destruct (pd_unique_acc_spec a []) as (H1 & H2 & H3). split; [|split].
  - intros x Hx. destruct (H1 x Hx) as [H|H]; [inversion H | exact H].
  - intros x Hx. apply H2. right. exact Hx.
  - apply H3. intros i j u v _ Hu. discriminate.
Qed.

(** The loop over the periods: one chosen row for each. *)
Lemma closest_loop (location : Q * Q) (phv : list PhaseVel) :
  forall (ps : list Q) (acc : list PhaseVel),
  (forall p, p ∈ ps -> p ∈ map period phv) ->
  exists rows,
    for_ ps (fun period_0 surface_waves =>
      ind ← _find_closest_lat_lon
               (List.filter (fun '(_, r) => Qeq_bool (period r) period_0)
                            (imap (fun i r => (i, r)) phv))
               location;
      row ← getitem phv ind;
      Ok (surface_waves ++ [row])) acc = Ok (acc ++ rows) /\
    Forall2 (chosen location phv) ps rows.
Proof.
  induction ps as [|p ps IH]; intros acc Hps.
  - exists []. rewrite app_nil_r. split; [reflexivity | constructor].
  - cbn [for_].
    set (F := List.filter (fun '(_, r) => Qeq_bool (period r) p)
                          (imap (fun i r => (i, r)) phv)).
    assert (forall i r, (i, r) ∈ F <-> phv !! i = Some r /\ period r == p) as HF.
    { intros i r. unfold F. rewrite list_elem_of_In, filter_In, <- list_elem_of_In.
      rewrite elem_of_lookup_imap, Qeq_bool_iff. split.
      - intros [(j & y & Heq & Hj) Hp]. injection Heq as -> ->. split; assumption.
      - intros [Hi Hp]. split; [exists i, r; split; [reflexivity | exact Hi] | exact Hp]. }
    assert (1 <= length F)%nat as HFne.
    { specialize (Hps p ltac:(left)).
      apply list_elem_of_fmap in Hps as (r & Hr & Hin).
      apply list_elem_of_lookup in Hin as [i Hi].
      assert ((i, r) ∈ F) as Hmem
        by (apply HF; split; [exact Hi | rewrite Hr; reflexivity]).
      destruct F; [inversion Hmem | simpl; lia]. }
    destruct (find_closest_spec F location HFne) as (i & r & Hfind & Hin & Hmin).
    rewrite Hfind. cbn [mbind result_bind].
    apply HF in Hin as [Hi Hp].
    rewrite (getitem_Some _ _ _ Hi). cbn [mbind result_bind].
    destruct (IH (acc ++ [r])) as (rows & Hrun & Hrows).
    { intros q Hq. apply Hps. right. exact Hq. }
    exists (r :: rows). split.
    + rewrite Hrun, <- app_assoc. reflexivity.
    + constructor; [|exact Hrows].
      split; [apply list_elem_of_lookup; eauto|]. split; [exact Hp|].
      intros r' Hr' Hp'. apply list_elem_of_lookup in Hr' as [j Hj].
      apply (Hmin j r'). apply HF. split; assumption.
Qed.

(** *** Sorting by period *)

Lemma elem_of_insert_by_period (r y : PhaseVel) (l : list PhaseVel) :
  y ∈ insert_by_period r l <-> y = r \/ y ∈ l.
Proof.
  induction l as [|z l IH]; cbn [insert_by_period].
  - rewrite list_elem_of_singleton. split; [tauto|].
    intros [H|H]; [exact H | inversion H].
  - destruct (Qle_bool (period r) (period z)).
    + rewrite elem_of_cons. tauto.
    + rewrite !elem_of_cons, IH. tauto.
Qed.

Lemma elem_of_sort_values (y : PhaseVel) (l : list PhaseVel) :
  y ∈ sort_values_by_period l <-> y ∈ l.
Proof.
  induction l as [|z l IH]; [reflexivity|].
  change (sort_values_by_period (z :: l))
    with (insert_by_period z (sort_values_by_period l)).
  rewrite elem_of_insert_by_period, elem_of_cons, IH. tauto.
Qed.

Lemma insert_by_period_sorted (r : PhaseVel) (l : list PhaseVel) :
  StronglySorted (fun a b => period a < period b) l ->
  (forall y, y ∈ l -> ~ period r == period y) ->
  StronglySorted (fun a b => period a < period b) (insert_by_period r l).
Proof.
  induction l as [|z l IH]; intros Hs Hd; cbn [insert_by_period].
  - constructor; constructor.
  - apply StronglySorted_inv in Hs as [Hs Hz].
    pose proof (Hd z ltac:(left)) as Hrz.
    destruct (Qle_bool (period r) (period z)) eqn:E; order_facts.
    + assert (period r < period z) as Hlt.
      { destruct (Qlt_le_dec (period r) (period z)) as [H|H]; [exact H|].
        exfalso. apply Hrz. lra. }
      constructor; [constructor; assumption|].
      constructor; [exact Hlt|].
      rewrite Forall_forall in Hz |- *. intros y Hy. specialize (Hz y Hy).
      cbv beta in Hz |- *. lra.
    + constructor.
      * apply IH; [exact Hs|]. intros y Hy. apply Hd. right. exact Hy.
      * apply Forall_forall. intros y Hy.
        apply elem_of_insert_by_period in Hy as [->|Hy]; [exact E|].
        rewrite Forall_forall in Hz. exact (Hz y Hy).
Qed.

Lemma sort_values_sorted (l : list PhaseVel) :
  (forall i j a b, (i < j)%nat -> l !! i = Some a -> l !! j = Some b ->
     ~ period a == period b) ->
  StronglySorted (fun a b => period a < period b) (sort_values_by_period l).
Proof.
  induction l as [|r l IH]; intros Hd; [constructor|].
  change (sort_values_by_period (r :: l))
    with (insert_by_period r (sort_values_by_period l)).
  apply insert_by_period_sorted.
  - apply IH. intros i j a b Hij Ha Hb.
    exact (Hd (S i) (S j) a b ltac:(lia) Ha Hb).
  - intros y Hy. apply (proj1 (elem_of_sort_values _ _)) in Hy.
    apply list_elem_of_lookup in Hy as [j Hj].
    exact (Hd 0%nat (S j) r y ltac:(lia) eq_refl Hj).
Qed.

Lemma StronglySorted_fmap {A B} (f : A -> B) (R : B -> B -> Prop) (l : list A) :
  StronglySorted (fun a b => R (f a) (f b)) l -> StronglySorted R (map f l).
Proof.
  induction 1 as [|a l Hs IH Ha]; cbn [map]; constructor; [exact IH|].
  apply Forall_forall. intros y Hy.
  apply list_elem_of_fmap in Hy as (x & -> & Hx).
  rewrite Forall_forall in Ha. exact (Ha x Hx).
Qed.

(** The whole of [_extract_phase_vels] on a table with a row. *)
Lemma extract_spec (location : Q * Q) (phv : list PhaseVel) :
  (1 <= length phv)%nat ->
  exists rows,
    _extract_phase_vels location phv
    = Frame (map (fun row => {| obs := row;
                                std := assumed_std (period row) |}) rows) /\
    StronglySorted (fun a b => period a < period b) rows /\
    (forall r, r ∈ phv -> exists row, row ∈ rows /\ period row == period r) /\
    (forall row, row ∈ rows -> chosen location phv (period row) row).
Proof.
  intros Hne.
  destruct (pd_unique_spec (map period phv)) as (U1 & U2 & U3).
  destruct (closest_loop location phv (pd_unique (map period phv)) [] U1)
    as (rows & Hrun & Hrows).
  cbn [app] in Hrun.
  assert (1 <= length rows)%nat as Hlen.
  { apply Forall2_length in Hrows. rewrite <- Hrows.
    apply pd_unique_length. rewrite length_map. exact Hne. }
  exists (sort_values_by_period rows). split; [|split; [|split]].
  - unfold _extract_phase_vels. rewrite Hrun.
    destruct rows as [|r rows']; [simpl in Hlen; lia | reflexivity].
  - apply sort_values_sorted. intros i j a b Hij Ha Hb.
    destruct (Forall2_lookup_r _ _ _ _ _ Hrows Ha) as (p & Hp & _ & Hpa & _).
    destruct (Forall2_lookup_r _ _ _ _ _ Hrows Hb) as (q & Hq & _ & Hqb & _).
    rewrite Hpa, Hqb. exact (U3 i j p q Hij Hp Hq).
  - intros r Hr.
    destruct (U2 (period r) ltac:(apply list_elem_of_fmap; eauto))
      as (u & Hu & Heq).
    apply list_elem_of_lookup in Hu as [i Hi].
    destruct (Forall2_lookup_l _ _ _ _ _ Hrows Hi) as (row & Hrow & _ & Hp & _).
    exists row. split.
    + apply elem_of_sort_values. apply list_elem_of_lookup. eauto.
    + rewrite Hp, Heq. reflexivity.
  - intros row Hrow. apply (proj1 (elem_of_sort_values _ _)) in Hrow.
    apply list_elem_of_lookup in Hrow as [i Hi].
    destruct (Forall2_lookup_r _ _ _ _ _ Hrows Hi) as (p & _ & Hin & Hp & Hmin).
    split; [exact Hin|]. split; [reflexivity|].
    intros r' Hr' Hpr. apply Hmin; [exact Hr'|]. rewrite Hpr. exact Hp.
Qed.

(** X24. On a table with at least one row [_extract_phase_vels] returns
    one row for each period of the table, in order of increasing period;
    each is a row of the table, as close to the location as any row of
    the same period.  On an empty table it raises KeyError. *)
Theorem one_phase_velocity_per_period (location : Q * Q)
    (phv : list PhaseVel) :
  (phv = [] -> _extract_phase_vels location phv = KeyError) /\
  ((1 <= length phv)%nat ->
   exists out, _extract_phase_vels location phv = Frame out /\
     StronglySorted (fun a b => period (obs a) < period (obs b)) out /\
     (forall r, r ∈ phv ->
        exists a, a ∈ out /\ period (obs a) == period r) /\
     (forall a, a ∈ out ->
        obs a ∈ phv /\
        forall r, r ∈ phv -> period r == period (obs a) ->
          distance_squared location (obs a) <= distance_squared location r)).
Proof.
  split; [intros ->; reflexivity|]. intros Hne.
  destruct (extract_spec location phv Hne) as (rows & Hrun & Hs & Hcov & Hch).
  eexists. split; [exact Hrun|]. split; [|split].
  - apply (StronglySorted_fmap
             (fun row => {| obs := row; std := assumed_std (period row) |})
             (fun a b => period (obs a) < period (obs b))).
    exact Hs.
  - intros r Hr. destruct (Hcov r Hr) as (row & Hrow & Hp).
    eexists. split; [apply list_elem_of_fmap; eexists; split; [reflexivity | exact Hrow]|].
    exact Hp.
  - intros a Ha. apply list_elem_of_fmap in Ha as (row & -> & Hrow).
    destruct (Hch row Hrow) as (Hin & _ & Hmin). cbn [obs].
    split; [exact Hin | exact Hmin].
Qed.

Lemma py_abs_nonpos (x : Q) : x <= 0 -> py_abs x == - x.
Proof.
  intros Hx. unfold py_abs. destruct (Qlt_bool x 0) eqn:E; order_facts.
  - reflexivity.
  - lra.
Qed.

Lemma assumed_std_spec (p : Q) :
  0 <= p ->
  (p <= 8 -> assumed_std p == 1 # 20) /\
  (8 < p -> p <= 3500 # 79 -> assumed_std p == 1 # 40) /\
  ((3500 # 79) < p -> assumed_std p == 2 * p / (3500 + p)).
Proof.
  intros Hp.
  assert (0 < 3500 + p) as Hden by lra.
  set (s := 2 * p / (3500 + p)).
  assert (0 <= s) as Hs by (unfold s; apply Qle_shift_div_l; lra).
  assert (s * (3500 + p) == 2 * p) as Hsp by (unfold s; field; lra).
  assert (py_abs (140 / (140 / 4 + p / 100) - 4) / 2 == s) as Hspread.
  { assert (140 / (140 / 4 + p / 100) - 4 == - (2 * s)) as Hx
      by (unfold s; field; split; lra).
    set (x := 140 / (140 / 4 + p / 100) - 4) in *.
    rewrite py_abs_nonpos by lra. rewrite Hx. field. }
  assert (25 # 1000 < s -> (3500 # 79) < p) as Hgt.
  { intros H. pose proof (Qmult_lt_compat_r _ _ (3500 + p) Hden H). lra. }
  assert (s <= 25 # 1000 -> p <= 3500 # 79) as Hle.
  { intros H.
    pose proof (Qmult_le_compat_r _ _ (3500 + p) H ltac:(lra)). lra. }
  unfold assumed_std. cbv zeta.
  set (sp := py_abs (140 / (140 / 4 + p / 100) - 4) / 2) in *.
  destruct (Qlt_bool (25 # 1000) sp) eqn:E1, (Qle_bool p 8) eqn:E2;
    order_facts.
  - specialize (Hgt ltac:(lra)). lra.
  - specialize (Hgt ltac:(lra)).
    split; [intros; lra|]. split; [intros; lra|]. intros _. exact Hspread.
  - split; [intros _; reflexivity|]. split; intros; lra.
  - specialize (Hle ltac:(lra)).
    split; [intros; lra|]. split; [intros _ _; reflexivity | intros; lra].
Qed.

(** X25. The standard deviation that [_extract_phase_vels] gives a row
    depends on its period alone: 0.05 up to 8 s, 0.025 from there to
    3500/79 s (about 44.3 s), and 2 p / (3500 + p) for a longer period
    [p]. *)
Theorem std_by_period_range (location : Q * Q) (phv : list PhaseVel)
    (out : list SurfaceWave) (a : SurfaceWave) :
  _extract_phase_vels location phv = Frame out -> a ∈ out ->
  0 <= period (obs a) ->
  (period (obs a) <= 8 -> std a == 1 # 20) /\
  (8 < period (obs a) -> period (obs a) <= 3500 # 79 -> std a == 1 # 40) /\
  ((3500 # 79) < period (obs a) ->
   std a == 2 * period (obs a) / (3500 + period (obs a))).
Proof.
  intros Hrun Ha Hp.
  destruct phv as [|r0 phv']; [discriminate|].
  destruct (extract_spec location (r0 :: phv') ltac:(simpl; lia))
    as (rows & Hrows & _).
  rewrite Hrows in Hrun. injection Hrun as <-.
  apply list_elem_of_fmap in Ha as (row & -> & _).
  cbn [obs std] in *. apply assumed_std_spec. exact Hp.
Qed.

End PhaseVels.

(** ** The constraints: the crust of Crust 1.0 *)

Module Crust1.
Import Facts DmDs Builder Composition constraints ConstraintNotions.

Lemma Qfloor_unique (x : Q) (z : Z) :
  inject_Z z <= x -> x < inject_Z (z + 1) -> Qfloor x = z.
Proof.
  intros H1 H2.
  pose proof (Qfloor_le x) as F1. pose proof (Qlt_floor x) as F2.
  assert (inject_Z z < inject_Z (Qfloor x + 1)) as A by lra.
  assert (inject_Z (Qfloor x) < inject_Z (z + 1)) as B by lra.
  rewrite <- Zlt_Qlt in A, B. lia.
Qed.

Lemma py_int_comp (x y : Q) : x == y -> py_int x = py_int y.
Proof.
  intros H. unfold py_int.
  rewrite (Qfloor_comp _ _ H), (Qceiling_comp _ _ H).
  destruct (Qle_bool 0 x) eqn:E1, (Qle_bool 0 y) eqn:E2; order_facts;
    try reflexivity; lra.
Qed.

(** The row that is read, and what is made of it. *)
Lemma get_vels_row (read_bnds read_vs : Z -> option (list Q))
    (location : Q * Q) :
  get_vels_Crust1 read_bnds read_vs location
  = match read_bnds (crust1_row location), read_vs (crust1_row location) with
    | Some cb, Some vs =>
        '(ib, m_t, m_vs) ←
          for_ (map Qopp (np_diff cb)) (fun t '(ib, m_t, m_vs) =>
            if Qlt_bool 0 t
            then v ← getitem vs ib; Ok (S ib, m_t ++ [t], m_vs ++ [v])
            else Ok (S ib, m_t, m_vs)) (0%nat, [0], []);
        v ← getitem vs ib;
        Ok (Some (m_t, m_vs ++ [v]))
    | _, _ => Ok None
    end.
Proof.
  destruct location as [lat0 lon0]. unfold get_vels_Crust1.
  assert (exists lons fl, np_arange false (-179.5) 180 1 = Ok lons /\
            getitem lons 0 = Ok fl /\ fl == -179.5 /\
            length lons = 360%nat) as (lons & fl & -> & Hfl & Hfq & Hlen).
  { eexists. eexists. split; [vm_compute; reflexivity|].
    split; [vm_compute; reflexivity|].
    split; vm_compute; reflexivity. }
  assert (exists lats fa, np_arange false 89.5 (-90) (-1) = Ok lats /\
            getitem lats 0 = Ok fa /\ fa == 89.5)
    as (lats & fa & -> & Hfa & Hfaq).
  { eexists. eexists. split; [vm_compute; reflexivity|].
    split; vm_compute; reflexivity. }
  cbn [mbind result_bind]. rewrite Hfl. cbn [mbind result_bind].
  rewrite Hfa. cbn [mbind result_bind]. rewrite Hlen.
  match goal with
  | |- context [py_int ?e] =>
      assert (py_int e = crust1_row (lat0, lon0)) as ->
  end.
  { unfold crust1_row. cbn [fst snd]. apply py_int_comp.
    assert (Qfloor ((fa - lat0) / 1) = Qfloor (89.5 - lat0)) as ->
      by (apply Qfloor_comp; rewrite Hfaq; field).
    assert (inject_Z (Z.of_nat 360) == 360) as ->
      by (vm_compute; reflexivity).
    rewrite Hfq. ring. }
  reflexivity.
Qed.

(** The loop over the thicknesses, when every layer has a velocity. *)
Lemma crust1_loop (vs : list Q) :
  forall (ths : list Q) (ib : nat) (m_t m_vs : list Q),
  (ib + length ths <= length vs)%nat ->
  exists vels,
    for_ ths (fun t '(ib, m_t, m_vs) =>
      if Qlt_bool 0 t
      then v ← getitem vs ib; Ok (S ib, m_t ++ [t], m_vs ++ [v])
      else Ok (S ib, m_t, m_vs)) (ib, m_t, m_vs)
    = Ok ((ib + length ths)%nat,
          m_t ++ map snd (kept_layers ib ths), m_vs ++ vels) /\
    Forall2 (fun kt v => vs !! fst kt = Some v)
            (kept_layers ib ths) vels.
Proof.
  induction ths as [|t rest IH]; intros ib m_t m_vs Hlen.
  - exists []. cbn [for_ kept_layers map length]. rewrite !app_nil_r.
    split; [f_equal; f_equal; f_equal; lia | constructor].
  - cbn [for_ kept_layers length] in *.
    destruct (Qlt_bool 0 t) eqn:E.
    + destruct (lookup_lt_is_Some_2 vs ib ltac:(lia)) as [v Hv].
      rewrite (getitem_Some _ _ _ Hv). cbn [mbind result_bind].
      destruct (IH (S ib) (m_t ++ [t]) (m_vs ++ [v]) ltac:(lia))
        as (vels & Hrun & HF).
      exists (v :: vels). rewrite Hrun. split.
      * rewrite <- !app_assoc. cbn [map snd app].
        f_equal. f_equal. f_equal. lia.
      * constructor; [exact Hv | exact HF].
    + cbn [mbind result_bind].
      destruct (IH (S ib) m_t m_vs ltac:(lia)) as (vels & Hrun & HF).
      exists vels. rewrite Hrun. split; [|exact HF].
      f_equal. f_equal. f_equal. lia.
Qed.

(** The loop in general: it ends past the last thickness, or fails on a
    layer without a velocity. *)
Lemma crust1_loop_end (vs : list Q) :
  forall (ths : list Q) (ib : nat) (m_t m_vs : list Q),
  let run :=
    for_ ths (fun t '(ib, m_t, m_vs) =>
      if Qlt_bool 0 t
      then v ← getitem vs ib; Ok (S ib, m_t ++ [t], m_vs ++ [v])
      else Ok (S ib, m_t, m_vs)) (ib, m_t, m_vs) in
  run = Raise IndexError \/
  exists m_t' m_vs', run = Ok ((ib + length ths)%nat, m_t', m_vs').
Proof.
  induction ths as [|t rest IH]; intros ib m_t m_vs; cbv zeta.
  - right. exists m_t, m_vs. cbn [for_ length]. do 3 f_equal. lia.
  - cbn [for_ length]. destruct (Qlt_bool 0 t).
    + destruct (vs !! ib) as [v|] eqn:Hv.
      2:{ rewrite getitem_None by (apply lookup_ge_None; exact Hv).
          left. reflexivity. }
      rewrite (getitem_Some _ _ _ Hv). cbn [mbind result_bind].
      pose proof (IH (S ib) (m_t ++ [t]) (m_vs ++ [v])) as IH'.
      cbv zeta in IH'.
      destruct IH' as [H | (m_t' & m_vs' & H)]; [left; exact H|].
      right. exists m_t', m_vs'. rewrite H. do 3 f_equal. lia.
    + cbn [mbind result_bind].
      pose proof (IH (S ib) m_t m_vs) as IH'. cbv zeta in IH'.
      destruct IH' as [H | (m_t' & m_vs' & H)]; [left; exact H|].
      right. exists m_t', m_vs'. rewrite H. do 3 f_equal. lia.
Qed.

Lemma kept_layers_lookup :
  forall (ths : list Q) (ib k j : nat) (t : Q),
  kept_layers ib ths !! k = Some (j, t) ->
  0 < t /\ (ib <= j)%nat /\ ths !! (j - ib)%nat = Some t.
Proof.
  induction ths as [|x rest IH]; intros ib k j t Hk;
    cbn [kept_layers] in Hk; [discriminate|].
  assert (forall k', kept_layers (S ib) rest !! k' = Some (j, t) ->
            0 < t /\ (ib <= j)%nat /\ (x :: rest) !! (j - ib)%nat = Some t)
    as Hrest.
  { intros k' Hk'. destruct (IH _ _ _ _ Hk') as (Ht & Hj & Hl).
    split; [exact Ht|]. split; [lia|].
    replace (j - ib)%nat with (S (j - S ib)) by lia. exact Hl. }
  destruct (Qlt_bool 0 x) eqn:E; [|exact (Hrest k Hk)].
  destruct k as [|k]; [|exact (Hrest k Hk)].
  injection Hk as <- <-. order_facts.
  split; [exact E|]. split; [lia|].
  rewrite Nat.sub_diag. reflexivity.
Qed.

Lemma kept_layers_sum :
  forall (ths : list Q) (ib : nat),
  (forall t, t ∈ ths -> 0 <= t) ->
  np_sum (map snd (kept_layers ib ths)) == np_sum ths.
Proof.
  induction ths as [|x rest IH]; intros ib Hpos; [reflexivity|].
  cbn [kept_layers].
  pose proof (Hpos x ltac:(left)) as Hx.
  assert (forall t, t ∈ rest -> 0 <= t) as Hrest
    by (intros t Ht; apply Hpos; right; exact Ht).
  rewrite (np_sum_cons x rest).
  destruct (Qlt_bool 0 x) eqn:E; order_facts.
  - cbn [map snd]. rewrite np_sum_cons, (IH (S ib) Hrest). reflexivity.
  - rewrite (IH (S ib) Hrest). lra.
Qed.

Lemma lookup_np_diff :
  forall (a : list Q) (j : nat) (d : Q),
  np_diff a !! j = Some d ->
  exists x y, a !! j = Some x /\ a !! S j = Some y /\ d = y - x.
Proof.
  induction a as [|x a IH]; intros j d Hj; [discriminate|].
  destruct a as [|y a]; [discriminate|].
  cbn [np_diff] in Hj. destruct j as [|j].
  - injection Hj as <-. exists x, y. repeat split.
  - destruct (IH j d Hj) as (x' & y' & H1 & H2 & H3).
    exists x', y'. repeat split; assumption.
Qed.

Lemma np_sum_diff :
  forall (a : list Q) (top base : Q),
  a !! 0%nat = Some top -> last a = Some base ->
  np_sum (np_diff a) == base - top.
Proof.
  induction a as [|x a IH]; intros top base Htop Hbase; [discriminate|].
  injection Htop as ->.
  destruct a as [|y a].
  - injection Hbase as <-. unfold np_sum. cbn. ring.
  - cbn [np_diff]. rewrite np_sum_cons.
    rewrite (IH y base eq_refl Hbase). ring.
Qed.

Lemma np_sum_opp (l : list Q) : np_sum (map Qopp l) == - np_sum l.
Proof.
  induction l as [|x l IH]; [reflexivity|].
  cbn [map]. rewrite !np_sum_cons, IH. ring.
Qed.

Lemma crust1_row_cell (a b : Z) (lat_0 lon_0 : Q) :
  (0 <= a)%Z -> (0 <= b)%Z ->
  89.5 - inject_Z a - 1 < lat_0 -> lat_0 <= 89.5 - inject_Z a ->
  -179.5 + inject_Z b <= lon_0 -> lon_0 < -179.5 + inject_Z b + 1 ->
  crust1_row (lat_0, lon_0) = (360 * a + b)%Z.
Proof.
  intros Ha Hb Hlat1 Hlat2 Hlon1 Hlon2.
  unfold crust1_row. cbn [fst snd].
  assert (inject_Z (a + 1) == inject_Z a + 1) as Ha1
    by (rewrite inject_Z_plus; reflexivity).
  assert (Qfloor (89.5 - lat_0) = a) as ->
    by (apply Qfloor_unique; lra).
  assert (0 <= inject_Z a) as Ha0 by (rewrite Zle_Qle in Ha; exact Ha).
  assert (0 <= inject_Z b) as Hb0 by (rewrite Zle_Qle in Hb; exact Hb).
  unfold py_int.
  destruct (Qle_bool 0 (lon_0 + 179.5 + inject_Z a * 360)) eqn:E;
    order_facts; [|lra].
  apply Qfloor_unique.
  - rewrite inject_Z_plus, inject_Z_mult.
    change (inject_Z 360) with 360. lra.
  - rewrite !inject_Z_plus, inject_Z_mult.
    change (inject_Z 360) with 360. change (inject_Z 1) with 1. lra.
Qed.

(** X26. [get_vels_Crust1] does not bring a longitude over 180 back into
    range: 360 degrees added to the longitude give the result of the point
    one degree further south. *)
Theorem crust1_longitude_not_wrapped
    (read_bnds read_vs : Z -> option (list Q)) (lat_0 lon_0 : Q) :
  get_vels_Crust1 read_bnds read_vs (lat_0, lon_0 + 360)
  = get_vels_Crust1 read_bnds read_vs (lat_0 - 1, lon_0).
Proof.
  rewrite !get_vels_row.
  assert (crust1_row (lat_0, lon_0 + 360) = crust1_row (lat_0 - 1, lon_0))
    as ->; [|reflexivity].
  unfold crust1_row. cbn [fst snd]. apply py_int_comp.
  assert (Qfloor (89.5 - (lat_0 - 1)) = (Qfloor (89.5 - lat_0) + 1)%Z) as ->.
  { pose proof (Qfloor_le (89.5 - lat_0)).
    pose proof (Qlt_floor (89.5 - lat_0)).
    apply Qfloor_unique; rewrite !inject_Z_plus in *;
      change (inject_Z 1) with 1 in *; lra. }
  rewrite inject_Z_plus. change (inject_Z 1) with 1. ring.
Qed.

(** X27. Every location of a one-degree cell of the grid, [a] cells south
    of 89.5 N and [b] cells east of 179.5 W, gets the result of the centre
    of the cell, and the files matter through their row [360 a + b]
    only. *)
Theorem crust1_cell (read_bnds read_vs read_bnds' read_vs'
    : Z -> option (list Q)) (a b : Z) (lat_0 lon_0 : Q) :
  (0 <= a)%Z -> (0 <= b)%Z ->
  89.5 - inject_Z a - 1 < lat_0 -> lat_0 <= 89.5 - inject_Z a ->
  -179.5 + inject_Z b <= lon_0 -> lon_0 < -179.5 + inject_Z b + 1 ->
  read_bnds' (360 * a + b)%Z = read_bnds (360 * a + b)%Z ->
  read_vs' (360 * a + b)%Z = read_vs (360 * a + b)%Z ->
  get_vels_Crust1 read_bnds' read_vs' (lat_0, lon_0)
  = get_vels_Crust1 read_bnds read_vs
      (89.5 - inject_Z a, -179.5 + inject_Z b).
Proof.
  intros Ha Hb Hlat1 Hlat2 Hlon1 Hlon2 Hrb Hrv.
  rewrite !get_vels_row.
  rewrite (crust1_row_cell a b lat_0 lon_0 Ha Hb Hlat1 Hlat2 Hlon1 Hlon2).
  rewrite (crust1_row_cell a b (89.5 - inject_Z a) (-179.5 + inject_Z b)
             Ha Hb ltac:(lra) ltac:(lra) ltac:(lra) ltac:(lra)).
  rewrite Hrb, Hrv. reflexivity.
Qed.

(** X28. From a row of bounds and a row with a velocity for each of them,
    [get_vels_Crust1] returns as many velocities as thicknesses.  The
    first thickness is 0; every other one is positive, the drop from one
    bound to the next, and stands beside the velocity of that layer; the
    last velocity is that under the last bound.  Where the bounds do not
    rise, the thicknesses add up to the drop from the first bound to the
    last. *)
Theorem crust1_layers (read_bnds read_vs : Z -> option (list Q))
    (location : Q * Q) (cb vs : list Q) :
  read_bnds (crust1_row location) = Some cb ->
  read_vs (crust1_row location) = Some vs ->
  (1 <= length cb)%nat -> (length cb <= length vs)%nat ->
  exists m_t m_vs,
    get_vels_Crust1 read_bnds read_vs location = Ok (Some (m_t, m_vs)) /\
    length m_vs = length m_t /\
    m_t !! 0%nat = Some 0 /\
    (forall k t, m_t !! S k = Some t ->
       0 < t /\
       exists j top base, cb !! j = Some top /\ cb !! S j = Some base /\
         t == top - base /\ m_vs !! k = vs !! j) /\
    last m_vs = vs !! (length cb - 1)%nat /\
    (descending cb -> forall top base,
       cb !! 0%nat = Some top -> last cb = Some base ->
       np_sum m_t == top - base).
Proof.
  intros Hcb Hvs Hne Hlen.
  rewrite get_vels_row, Hcb, Hvs.
  set (th := map Qopp (np_diff cb)).
  assert (length th = (length cb - 1)%nat) as Hth
    by (unfold th; rewrite length_map, np_diff_length; reflexivity).
  destruct (crust1_loop vs th 0 [0] [] ltac:(lia)) as (vels & -> & HF).
  cbn [mbind result_bind Nat.add app].
  destruct (lookup_lt_is_Some_2 vs (length th) ltac:(lia)) as [v Hv].
  rewrite (getitem_Some _ _ _ Hv). cbn [mbind result_bind].
  pose proof (Forall2_length _ _ _ HF) as HFl.
  eexists _, _. split; [reflexivity|]. split; [|split; [|split; [|split]]].
  - rewrite length_app. cbn [length]. rewrite length_map. lia.
  - reflexivity.
  - intros k t Hk. cbn [lookup list_lookup] in Hk.
    change ((map snd (kept_layers 0 th)) !! k = Some t) in Hk.
    rewrite list_lookup_fmap in Hk.
    destruct (kept_layers 0 th !! k) as [[j t']|] eqn:Hkept; [|discriminate].
    injection Hk as <-.
    destruct (kept_layers_lookup _ _ _ _ _ Hkept) as (Ht & _ & Hl).
    rewrite Nat.sub_0_r in Hl. split; [exact Ht|].
    unfold th in Hl. rewrite list_lookup_fmap in Hl.
    destruct (np_diff cb !! j) as [d|] eqn:Hd; [|discriminate].
    injection Hl as <-.
    destruct (lookup_np_diff _ _ _ Hd) as (x & y & Hx & Hy & ->).
    exists j, x, y. split; [exact Hx|]. split; [exact Hy|].
    split; [ring|].
    destruct (Forall2_lookup_l _ _ _ _ _ HF Hkept) as (v' & Hv' & Hvj).
    cbn [fst] in Hvj. rewrite Hvj.
    rewrite lookup_app_l by (apply lookup_lt_Some in Hv'; exact Hv').
    exact Hv'.
  - rewrite last_snoc, <- Hth. symmetry. exact Hv.
  - intros Hdesc top base Htop Hbase.
    rewrite np_sum_cons, kept_layers_sum.
    + unfold th. rewrite np_sum_opp, (np_sum_diff cb top base Htop Hbase).
      ring.
    + intros t Ht. apply list_elem_of_lookup in Ht as [j Hj].
      unfold th in Hj. rewrite list_lookup_fmap in Hj.
      destruct (np_diff cb !! j) as [d|] eqn:Hd; [|discriminate].
      injection Hj as <-.
      destruct (lookup_np_diff _ _ _ Hd) as (x & y & Hx & Hy & ->).
      pose proof (Hdesc j x y Hx Hy). lra.
Qed.

(** X29. The velocities are looked up outside of the [try]: a row with
    fewer velocities than bounds, or with none, makes [get_vels_Crust1]
    raise IndexError. *)
Theorem crust1_short_velocity_row (read_bnds read_vs : Z -> option (list Q))
    (location : Q * Q) (cb vs : list Q) :
  read_bnds (crust1_row location) = Some cb ->
  read_vs (crust1_row location) = Some vs ->
  (length vs < length cb)%nat \/ vs = [] ->
  get_vels_Crust1 read_bnds read_vs location = Raise IndexError.
Proof.
  intros Hcb Hvs Hshort.
  rewrite get_vels_row, Hcb, Hvs.
  pose proof (crust1_loop_end vs (map Qopp (np_diff cb)) 0 [0] []) as Hrun.
  cbv zeta in Hrun. destruct Hrun as [-> | (m_t' & m_vs' & ->)];
    [reflexivity|].
  cbn [mbind result_bind]. rewrite getitem_None; [reflexivity|].
  rewrite length_map, np_diff_length.
  destruct Hshort as [H | ->]; [lia | simpl; lia].
Qed.

End Crust1.

(** ** The further properties on the sample inputs *)

Module MoreRuns.
Import Facts.

(** X1 on the literal scenario. *)
Lemma built_model_feeds_kernels_witness :
  exists m, setup_starting_model sample_ref scenario_setup = Ok m /\
    well_formed m /\
    exists M, _convert_to_model_kernels sample_depth m = Ok M /\
      shape M (length sample_depth)
            (length (vsv m) - 1 + length (boundary_depths scenario_setup)).
Proof.
  exact (Composition.built_model_feeds_kernels sample_ref scenario_setup
           sample_depth eq_refl ltac:(simpl; lia)).
Defined.

(** X2 on the model whose boundary has no base node. *)
Lemma dm_dt_needs_base_nodes_witness :
  _calculate_dm_dt baseless_model sample_depth = Raise IndexError.
Proof.
  apply (Composition.dm_dt_needs_base_nodes baseless_model sample_depth eq_refl).
  apply Exists_cons_hd. simpl. lia.
Defined.

(** X3 on the sample model: the boundary column is column 4. *)
Lemma kernel_columns_layout_witness :
  exists Mt M,
    _calculate_dm_dt sample_model sample_depth = Ok Mt /\
    _convert_to_model_kernels sample_depth sample_model = Ok M /\
    entry M 1 4 = entry Mt 1 0.
Proof.
  destruct (Composition.kernel_columns_layout sample_model sample_depth
              Runs.sample_model_well_formed ltac:(simpl; lia))
    as (Ms & Mt & M & _ & HMt & HM & Hcols).
  exists Mt, M. split; [exact HMt|]. split; [exact HM|].
  destruct (Hcols 1%nat ltac:(simpl; lia)) as [_ Ht].
  exact (Ht 0%nat ltac:(simpl; lia)).
Defined.

(** X5 on the literal scenario: the boundary of 5 km about 30 km has its
    top at 27.5 km and its base at 32.5 km. *)
Lemma boundaries_at_configured_depths_witness :
  exists m, setup_starting_model sample_ref scenario_setup = Ok m /\
    forall j ib, boundary_inds m !! j = Some ib ->
      node_depth m ib == b_depth scenario_setup j - b_width scenario_setup j / 2 /\
      node_depth m (ib + 1)
      == b_depth scenario_setup j + b_width scenario_setup j / 2.
Proof.
  exact (Placement.boundaries_at_configured_depths sample_ref scenario_setup
           eq_refl ltac:(simpl; lia)).
Defined.

(** X6 on the set-up that starts 10 km down: from 10 km to 100 km. *)
Lemma model_spans_depth_limits_witness :
  exists m, setup_starting_model sample_ref offset_setup = Ok m /\
    node_depth m 0 == 10 /\
    node_depth m (length (thickness m) - 1) == 100.
Proof.
  exact (Placement.model_spans_depth_limits sample_ref offset_setup
           eq_refl ltac:(simpl; lia)).
Defined.

Lemma scenario_gaps (j : nat) :
  (j < length (boundary_depths scenario_setup))%nat ->
  0 <= b_uncertainty scenario_setup j /\
  min_layer_thickness scenario_setup
  <= reach_above scenario_setup j - floor_of scenario_setup j.
Proof.
  intros Hj. destruct j as [|j]; [|simpl in Hj; lia].
  split; apply Qle_bool_iff; reflexivity.
Defined.

(** X7 on the literal scenario, whose gaps are 19.5 km and 59.5 km. *)
Lemma layers_respect_minimum_witness :
  exists m, setup_starting_model sample_ref scenario_setup = Ok m /\
    forall p t, (1 <= p)%nat -> thickness m !! p = Some t ->
      (forall ib, ib ∈ boundary_inds m -> p <> (ib + 1)%nat) ->
      6 <= t.
Proof.
  exact (Placement.layers_respect_minimum sample_ref scenario_setup
           eq_refl ltac:(simpl; lia) scenario_gaps
           ltac:(apply Qle_bool_iff; reflexivity)).
Defined.

(** X8 on the overlapping set-up: the layer above the second boundary is
    -11 km thick. *)
Lemma thin_gap_gives_thin_layer_witness :
  exists m ib t, setup_starting_model sample_ref overlapping_setup = Ok m /\
    boundary_inds m !! 1%nat = Some ib /\
    thickness m !! (ib - 1)%nat = Some t /\
    t == reach_above overlapping_setup 1 - floor_of overlapping_setup 1 /\
    t < min_layer_thickness overlapping_setup.
Proof.
  exact (Placement.thin_gap_gives_thin_layer sample_ref overlapping_setup 1
           eq_refl ltac:(simpl; lia) ltac:(simpl; lia)
           ltac:(apply Qlt_bool_iff; reflexivity)).
Defined.

(** X9 on the literal scenario. *)
Lemma velocities_linear_above_boundary_witness :
  exists m, setup_starting_model sample_ref scenario_setup = Ok m /\
    forall j ib, boundary_inds m !! j = Some ib ->
      ~ depth_top scenario_setup j == floor_of scenario_setup j ->
      forall p, (anchor (boundary_inds m) j <= p <= ib)%nat ->
        node_vsv m p
        == on_line (floor_of scenario_setup j)
                   (node_vsv m (anchor (boundary_inds m) j))
                   (depth_top scenario_setup j)
                   (default 0 (boundary_vsv scenario_setup !! (j * 2)%nat))
                   (node_depth m p).
Proof.
  exact (Placement.velocities_linear_above_boundary sample_ref scenario_setup
           eq_refl ltac:(simpl; lia)).
Defined.

(** X10 on the literal scenario. *)
Lemma end_velocities_from_reference_witness :
  exists m rd rv v0 vbase,
    setup_starting_model sample_ref scenario_setup = Ok m /\
    ref_profile sample_ref = Ok (rd, rv) /\
    np_interp 0 rd rv = Ok v0 /\
    np_interp 100 rd rv = Ok vbase /\
    vsv m !! 0%nat = Some v0 /\
    (~ bottom_gap scenario_setup == 0 ->
     node_vsv m (length (vsv m) - 1) == vbase).
Proof.
  exact (Placement.end_velocities_from_reference sample_ref scenario_setup
           eq_refl ltac:(simpl; lia)).
Defined.

(** X11 on the literal scenario, whose last gap is 59.5 km. *)
Lemma velocities_linear_below_last_boundary_witness :
  exists m rd rv vbase,
    setup_starting_model sample_ref scenario_setup = Ok m /\
    ref_profile sample_ref = Ok (rd, rv) /\
    np_interp 100 rd rv = Ok vbase /\
    forall p,
      (anchor (boundary_inds m) 1 <= p < length (vsv m))%nat ->
      node_vsv m p
      == on_line (floor_of scenario_setup 1)
                 (node_vsv m (anchor (boundary_inds m) 1))
                 100 vbase (node_depth m p).
Proof.
  exact (Placement.velocities_linear_below_last_boundary sample_ref
           scenario_setup eq_refl ltac:(simpl; lia)
           ltac:(apply Qeq_bool_neq; reflexivity)).
Defined.

(** X12 on the literal scenario: the card depth of 35 km lies in the
    padding under the boundary, from 32.5 km to 40.5 km. *)
Lemma fresh_model_dm_dt_vanishes_below_base_witness :
  exists m M, setup_starting_model sample_ref scenario_setup = Ok m /\
    _calculate_dm_dt m [10; 35; 50] = Ok M /\
    forall r z i ib, [10; 35; 50] !! r = Some z ->
      boundary_inds m !! i = Some ib ->
      node_depth m (ib + 1) <= z -> z < node_depth m (ib + 2) ->
      exists v, entry M r i = Some v /\ v == 0.
Proof.
  exact (Placement.fresh_model_dm_dt_vanishes_below_base sample_ref
           scenario_setup [10; 35; 50] eq_refl ltac:(simpl; lia)).
Defined.

Lemma sample_convertible : convertible core_ref sample_model scenario_setup.
Proof. repeat split; simpl; lia. Defined.

Lemma sample_deep_core : has_deep_core core_ref scenario_setup.
Proof. apply Exists_cons_tl, Exists_cons_hd. split; reflexivity. Defined.

Lemma sample_limits :
  default 0 (depth_limits scenario_setup !! 0%nat)
  < default 0 (depth_limits scenario_setup !! 1%nat).
Proof. reflexivity. Defined.

(** X13 on the top 3 km in steps of 0.1 km, the quotient 30 rounded up:
    31 rows on the grid, the last of them at the top, and the row of the
    top after it. *)
Lemma card_samples_inverted_region_witness :
  exists new below above,
    convert_inversion_model_to_mineos_model true core_ref sample_model
      shallow_setup
    = Ok (below ++ new ++ above) /\
    length new = 32%nat /\
    exists row row', new !! 30%nat = Some row /\ new !! 31%nat = Some row' /\
      radius row == 6371000 /\ radius row' == 6371000.
Proof.
  destruct (Card.card_samples_inverted_region true core_ref sample_model
              shallow_setup 1 ltac:(repeat split; simpl; lia) eq_refl
              ltac:(reflexivity)
              ltac:(apply Exists_cons_tl, Exists_cons_hd; split; reflexivity))
    as (new & below & above & Hrun & Hlen & _ & Hgrid & _
        & (row' & Hrow' & Hrad') & _).
  change (grid_count true shallow_setup) with 31%nat in *.
  destruct (lookup_lt_is_Some_2 new 30 ltac:(simpl in Hlen; lia))
    as [row Hrow].
  exists new, below, above. split; [exact Hrun|]. split; [exact Hlen|].
  exists row, row'. split; [exact Hrow|]. split; [exact Hrow'|].
  split.
  - rewrite (Hgrid 30%nat row Hrow ltac:(lia)). reflexivity.
  - rewrite Hrad'. reflexivity.
Defined.

(** X14 on the sample card, the Moho being 10 km deep. *)
Lemma crust_density_capped_witness :
  exists new below above,
    convert_inversion_model_to_mineos_model false core_ref sample_model
      scenario_setup
    = Ok (below ++ new ++ above) /\
    length new = 51%nat /\
    forall row, row ∈ new ->
      radius_Earth_of core_ref - radius row / 1000 <= 10 ->
      value row col_rho <= 2900.
Proof.
  destruct (Card.crust_density_capped false core_ref sample_model
              scenario_setup 10 sample_convertible eq_refl sample_limits
              sample_deep_core)
    as (new & below & above & Hrun & Hlen & _ & _ & Hrho).
  exists new, below, above. split; [exact Hrun|]. split; [exact Hlen|].
  intros row Hin. exact (proj1 (Hrho row Hin)).
Defined.

(** X15 on the sample card. *)
Lemma splice_keeps_attenuation_witness :
  exists new below above,
    convert_inversion_model_to_mineos_model false core_ref sample_model scenario_setup
    = Ok (below ++ new ++ above) /\
    forall row, row ∈ below ++ above ->
      exists r, r ∈ core_ref /\ radius row = radius r /\
        value row col_q_mu == value r col_q_mu /\
        value row col_q_kappa == value r col_q_kappa.
Proof.
  destruct (Card.splice_keeps_attenuation false core_ref sample_model
              scenario_setup
              10 sample_convertible eq_refl sample_limits sample_deep_core)
    as (new & below & above & Hrun & Hq & _).
  exists new, below, above. split; [exact Hrun | exact Hq].
Defined.

(** X16 on the sample card and the sample depths. *)
Lemma card_vsv_is_kernel_weighted_witness :
  exists new below above M,
    convert_inversion_model_to_mineos_model false core_ref sample_model
      scenario_setup
    = Ok (below ++ new ++ above) /\
    length new = 51%nat /\
    _calculate_dm_ds sample_model sample_depth = Ok M /\
    forall row r z, row ∈ new -> sample_depth !! r = Some z ->
      z == radius_Earth_of core_ref - radius row / 1000 ->
      node_depth sample_model 0 <= z -> z <= node_depth sample_model 3 ->
      exists mrow, M !! r = Some mrow /\
        value row col_vsv == 1000 * dot mrow (vsv sample_model).
Proof.
  destruct (Forward.card_vsv_is_kernel_weighted false core_ref sample_model
              scenario_setup 10 sample_depth 5 sample_convertible eq_refl
              sample_limits sample_deep_core eq_refl ltac:(lia)
              ltac:(repeat constructor))
    as (new & below & above & M & Hrun & Hlen & _ & _ & HM & Hvsv).
  exists new, below, above, M. split; [exact Hrun|]. split; [exact Hlen|].
  split; [exact HM | exact Hvsv].
Defined.

Lemma sample_ref_attenuates (r : CardRow) :
  r ∈ sample_ref -> 0 < value r col_q_mu.
Proof.
  intros Hin. unfold sample_ref in Hin.
  apply elem_of_cons in Hin as [->|Hin]; [reflexivity|].
  apply elem_of_cons in Hin as [->|Hin]; [reflexivity|].
  inversion Hin.
Defined.

(** X17 on the reference card of two solid rows. *)
Lemma card_needs_outer_core_witness :
  convert_inversion_model_to_mineos_model false sample_ref sample_model scenario_setup
  = Raise IndexError.
Proof.
  apply (CardErrors.card_needs_outer_core false sample_ref sample_model
           scenario_setup 10).
  - repeat split; simpl; lia.
  - reflexivity.
  - exact sample_ref_attenuates.
Defined.

(** X18 on the model without boundaries, with the default Moho. *)
Lemma moho_index_out_of_range_witness :
  convert_inversion_model_to_mineos_model false core_ref unbounded_model scenario_setup
  = Raise IndexError.
Proof.
  apply (CardErrors.moho_index_out_of_range false core_ref unbounded_model
           scenario_setup 0).
  - repeat split; simpl; lia.
  - reflexivity.
  - reflexivity.
  - right. simpl. lia.
Defined.

(** X19 on the model of three velocities and two thicknesses. *)
Lemma model_lengths_must_agree_witness :
  convert_inversion_model_to_mineos_model false core_ref ragged_model scenario_setup
  = Raise ValueError.
Proof.
  apply (CardErrors.model_lengths_must_agree false core_ref ragged_model
           scenario_setup eq_refl).
  - simpl. lia.
  - left. simpl. lia.
Defined.

(** X20 on the sample model, its boundary moved down by 2 km: at 12 km,
    inside the boundary layer before and after the move. *)
Lemma dm_dt_is_velocity_derivative_witness :
  exists M e, _calculate_dm_dt sample_model sample_depth = Ok M /\
    entry M 3 0 = Some e /\
    model_vsv_at (move_boundary sample_model 1 2) 12
    - model_vsv_at sample_model 12 == e * 2.
Proof.
  destruct (Derivative.dm_dt_is_velocity_derivative sample_model sample_depth
              5 0 1 2 eq_refl eq_refl ltac:(repeat constructor) eq_refl
              ltac:(repeat constructor) ltac:(lia) ltac:(lia)
              ltac:(reflexivity) ltac:(reflexivity))
    as (M & HM & HE).
  destruct (HE 3%nat 12 eq_refl) as (e & He & _ & Hin & _).
  exists M, e. split; [exact HM|]. split; [exact He|].
  apply Hin.
  - apply Qle_bool_iff. reflexivity.
  - reflexivity.
  - apply Qle_bool_iff. reflexivity.
  - reflexivity.
Defined.

Lemma scenario_gaps_and_widths (j : nat) :
  (j < length (boundary_depths scenario_setup))%nat ->
  0 <= b_uncertainty scenario_setup j /\ 0 < b_width scenario_setup j /\
  min_layer_thickness scenario_setup
  <= reach_above scenario_setup j - floor_of scenario_setup j.
Proof.
  intros Hj. destruct j as [|j]; [|simpl in Hj; lia].
  split; [apply Qle_bool_iff; reflexivity|].
  split; [reflexivity | apply Qle_bool_iff; reflexivity].
Defined.

(** X21 on the literal scenario. *)
Lemma fresh_model_depths_increase_witness :
  exists m, setup_starting_model sample_ref scenario_setup = Ok m /\
    Forall (fun t => 0 < t) (drop 1 (thickness m)) /\
    forall k, (k + 1 < length (thickness m))%nat ->
      node_depth m k < node_depth m (k + 1).
Proof.
  exact (Placement.fresh_model_depths_increase sample_ref scenario_setup
           eq_refl ltac:(simpl; lia) scenario_gaps_and_widths
           ltac:(apply Qle_bool_iff; reflexivity)).
Defined.

(** X22 on the sample model: 30 km down, between the last two nodes. *)
Lemma last_node_has_no_kernel_witness :
  exists M row, _calculate_dm_ds sample_model sample_depth = Ok M /\
    M !! 6%nat = Some row /\
    dot row (vsv sample_model)
    == model_vsv_at sample_model 30
       - node_vsv sample_model 4 * (30 - node_depth sample_model 3)
         / layer_thickness sample_model 4.
Proof.
  destruct (Forward.last_node_has_no_kernel sample_model sample_depth 5
              eq_refl eq_refl ltac:(lia) ltac:(repeat constructor))
    as (M & HM & Hrows).
  destruct (Hrows 6%nat 30 eq_refl ltac:(reflexivity)
              ltac:(apply Qle_bool_iff; reflexivity)) as (row & Hrow & Hdot).
  exists M, row. split; [exact HM|]. split; [exact Hrow | exact Hdot].
Defined.

Import constraints ConstraintNotions ConstraintSamples.

(** X23 on the sample frame. *)
Lemma find_closest_is_nearest_witness :
  exists i r, _find_closest_lat_lon sample_frame sample_location = Ok i /\
    (i, r) ∈ sample_frame /\
    forall j r', (j, r') ∈ sample_frame ->
      distance_squared sample_location r
      <= distance_squared sample_location r'.
Proof.
  exact (proj2 (Closest.find_closest_is_nearest sample_frame sample_location)
           ltac:(simpl; lia)).
Defined.

(** X24 on the sample table. *)
Lemma one_phase_velocity_per_period_witness :
  exists out, _extract_phase_vels sample_location sample_phv = Frame out /\
    StronglySorted (fun a b => period (obs a) < period (obs b)) out /\
    (forall r, r ∈ sample_phv ->
       exists a, a ∈ out /\ period (obs a) == period r) /\
    (forall a, a ∈ out ->
       obs a ∈ sample_phv /\
       forall r, r ∈ sample_phv -> period r == period (obs a) ->
         distance_squared sample_location (obs a)
         <= distance_squared sample_location r).
Proof.
  exact (proj2 (PhaseVels.one_phase_velocity_per_period sample_location
                  sample_phv) ltac:(simpl; lia)).
Defined.

(** X25 on the sample table: its first row out has the period 8 s. *)
Lemma std_by_period_range_witness :
  exists out a, _extract_phase_vels sample_location sample_phv = Frame out /\
    out !! 0%nat = Some a /\ period (obs a) == 8 /\ std a == 1 # 20.
Proof.
  eexists. eexists. split; [vm_compute; reflexivity|].
  split; [reflexivity|]. split; [reflexivity|].
  refine (proj1 (PhaseVels.std_by_period_range sample_location sample_phv
                   _ _ _ _ _) _).
  - vm_compute. reflexivity.
  - left.
  - apply Qle_bool_iff. reflexivity.
  - apply Qle_bool_iff. reflexivity.
Defined.

(** X27 on the sample files, at 39.2 N, 119.3 W. *)
Lemma crust1_cell_witness :
  get_vels_Crust1 sample_bnds sample_vs sample_place
  = get_vels_Crust1 sample_bnds sample_vs
      (89.5 - inject_Z 50, -179.5 + inject_Z 60).
Proof.
  apply (Crust1.crust1_cell sample_bnds sample_vs sample_bnds sample_vs
           50 60).
  - lia.
  - lia.
  - reflexivity.
  - apply Qle_bool_iff. reflexivity.
  - apply Qle_bool_iff. reflexivity.
  - reflexivity.
  - reflexivity.
  - reflexivity.
Defined.

(** X28 on the sample files. *)
Lemma crust1_layers_witness :
  exists m_t m_vs,
    get_vels_Crust1 sample_bnds sample_vs sample_place
    = Ok (Some (m_t, m_vs)) /\
    length m_vs = length m_t /\
    m_t !! 0%nat = Some 0 /\
    (forall k t, m_t !! S k = Some t ->
       0 < t /\
       exists j top base, sample_cb !! j = Some top /\
         sample_cb !! S j = Some base /\
         t == top - base /\ m_vs !! k = sample_cvs !! j) /\
    last m_vs = sample_cvs !! (length sample_cb - 1)%nat /\
    (descending sample_cb -> forall top base,
       sample_cb !! 0%nat = Some top -> last sample_cb = Some base ->
       np_sum m_t == top - base).
Proof.
  apply (Crust1.crust1_layers sample_bnds sample_vs sample_place
           sample_cb sample_cvs).
  - vm_compute. reflexivity.
  - vm_compute. reflexivity.
  - simpl. lia.
  - simpl. lia.
Defined.

(** X29 on the sample bounds and a row of three velocities. *)
Lemma crust1_short_velocity_row_witness :
  get_vels_Crust1 sample_bnds short_vs sample_place = Raise IndexError.
Proof.
  apply (Crust1.crust1_short_velocity_row sample_bnds short_vs sample_place
           sample_cb [0; 0; 1.1]).
  - vm_compute. reflexivity.
  - vm_compute. reflexivity.
  - left. simpl. lia.
Defined.

End MoreRuns.
